(** * calibre.db.backend: preferences, field slots and path synchronisation

    A shallow embedding of [src/calibre/db/backend.py] (classes [DBPrefs]
    and [DB]) together with the properties its specification states about
    it.  Python dictionaries are finite maps ([gmap]); where the code
    iterates over a dictionary the iteration order is an input of the model
    (an association list in the order the dictionary yields its items),
    because Python does not sort it.  Calls into the operating system are
    answered by an oracle and recorded in a log. *)

From Stdlib Require Import ZArith String Ascii List Lia Bool.
From Stdlib Require Import DecimalString DecimalZ DecimalPos DecimalFacts.
From stdpp Require Import gmap strings list fin_maps.
From stdpp Require Import sorting.

Local Open Scope Z_scope.
Local Open Scope string_scope.

(** ** Python values shared by all parts *)

(** Exceptions the code raises or lets through. *)
Inductive exn : Type :=
| IndexError
| KeyError (msg : string)
| TypeError
| ValueError
| IOError
| OSError
| NoSuchFormat (msg : string)
| Exception (msg : string)
| BusyError.

(** Outcome of a call: a returned value or a raised exception. *)
Inductive result (A : Type) : Type :=
| Return (a : A)
| Raise (e : exn).
Arguments Return {A} a.
Arguments Raise {A} e.

(** [str(n)], [unicode(n)] and ['%d' % n] on integers: the decimal numeral. *)
Definition str (n : Z) : string := NilZero.string_of_int (Z.to_int n).

(** Characters that occur in a decimal numeral. *)
Definition numeral_char (c : ascii) : bool :=
  match c with
  | "0" | "1" | "2" | "3" | "4" | "5" | "6" | "7" | "8" | "9" | "-" => true
  | _ => false
  end%char.

Fixpoint string_forall (p : ascii -> bool) (s : string) : bool :=
  match s with
  | EmptyString => true
  | String c s' => p c && string_forall p s'
  end.

(** [s.lower()] on ASCII text, character by character. *)
Definition lower_char (c : ascii) : ascii :=
  let n := nat_of_ascii c in
  if (Nat.leb 65 n && Nat.leb n 90)%bool then ascii_of_nat (n + 32) else c.

Fixpoint string_map (f : ascii -> ascii) (s : string) : string :=
  match s with
  | EmptyString => EmptyString
  | String c s' => String (f c) (string_map f s')
  end.

Definition lower (s : string) : string := string_map lower_char s.

(** [c in s] for one character. *)
Fixpoint contains_char (c : ascii) (s : string) : bool :=
  match s with
  | EmptyString => false
  | String c' s' => Ascii.eqb c c' || contains_char c s'
  end.

(** ** Calls that change state and may raise *)

(** A method is a function from the state before the call to its outcome
    and the state after it; the state reached when an exception is raised is
    kept, as Python keeps it. *)
Definition M (S A : Type) : Type := S -> result A * S.

Definition ret {S A : Type} (a : A) : M S A := fun s => (Return a, s).

Definition raise {S A : Type} (e : exn) : M S A := fun s => (Raise e, s).

Definition bind {S A B : Type} (m : M S A) (k : A -> M S B) : M S B :=
  fun s => match m s with
           | (Return a, s') => k a s'
           | (Raise e, s') => (Raise e, s')
           end.

Notation "'let*' x ':=' m 'in' k" := (bind m (fun x => k))
  (at level 10, x name, m at level 100, k at level 200).

(** [try: m] with the outcome handed to the code after the [try]. *)
Definition attempt {S A : Type} (m : M S A) : M S (result A) :=
  fun s => let '(r, s') := m s in (Return r, s').

(** [try: body finally: final]. *)
Definition try_finally {S A : Type} (body : M S A) (final : M S unit) : M S A :=
  fun s => let '(r, s1) := body s in
           match final s1 with
           | (Return _, s2) => (r, s2)
           | (Raise e, s2) => (Raise e, s2)
           end.

Definition when {S : Type} (b : bool) (m : M S unit) : M S unit :=
  if b then m else ret tt.

(** [for x in l: f(x)]. *)
Fixpoint for_each {S A : Type} (l : list A) (f : A -> M S unit) : M S unit :=
  match l with
  | [] => ret tt
  | x :: l' => let* _ := f x in for_each l' f
  end.

Definition lift {S A : Type} (r : result A) : M S A := fun s => (r, s).

(** ** Python dictionaries whose iteration order is observed *)

(** An association list with distinct keys, in the order the dictionary
    yields its items. *)
Definition dict (A : Type) : Type := list (string * A).

Fixpoint dict_get {A : Type} (k : string) (d : dict A) : option A :=
  match d with
  | [] => None
  | (k', v) :: d' => if String.eqb k k' then Some v else dict_get k d'
  end.

Definition dict_mem {A : Type} (k : string) (d : dict A) : bool :=
  match dict_get k d with Some _ => true | None => false end.

(** [d[k] = v]: an existing key keeps its place, a new key is added. *)
Fixpoint dict_set {A : Type} (k : string) (v : A) (d : dict A) : dict A :=
  match d with
  | [] => [(k, v)]
  | (k', v') :: d' =>
      if String.eqb k k' then (k, v) :: d' else (k', v') :: dict_set k v d'
  end.

(** [del d[k]] for a key that is present. *)
Fixpoint dict_del {A : Type} (k : string) (d : dict A) : dict A :=
  match d with
  | [] => []
  | (k', v') :: d' =>
      if String.eqb k k' then dict_del k d' else (k', v') :: dict_del k d'
  end.

Definition dict_keys {A : Type} (d : dict A) : list string := map fst d.

(** ** Preferences: class [DBPrefs] *)

Module Prefs.

(** Python values kept as preferences.  A floating-point number is given
    by its [repr], the text Python prints for it.  [PObject] stands for any
    object that is none of the JSON shapes (a set, a date, ...). *)
#[warnings="-register-all"]
Inductive pyval : Type :=
| PNone
| PBool (b : bool)
| PInt (n : Z)
| PFloat (repr : string)
| PStr (s : string)
| PList (l : list pyval)
| PDict (d : list (string * pyval))
| PObject (tag : string).

(** The JSON library as [DBPrefs] uses it.  [json_dumps val] is
    [json.dumps(val, indent=2, default=to_json)] and [json_loads raw] is
    [json.loads(raw, object_hook=from_json)]; both may raise. *)
Class JSON : Type := {
  json_dumps : pyval -> result string;
  json_loads : string -> result pyval
}.

(** The table and the dictionary after one effect of a method. *)
Record snapshot : Type := {
  snap_table : gmap string string;
  snap_mirror : gmap string pyval
}.

(** A [DBPrefs] object together with the [preferences] table of its
    database.  [table] is the table (key -> val, keys unique), [mirror] the
    dictionary the object is, [faults] says for each coming
    [conn.execute] whether the database raises, and [history] records the
    table and the dictionary after every effect. *)
Record DBPrefs : Type := {
  table : gmap string string;
  mirror : gmap string pyval;
  defaults : gmap string pyval;
  disable_setting : bool;
  faults : list bool;
  history : list snapshot
}.

Definition record (table' : gmap string string) (mirror' : gmap string pyval)
  (faults' : list bool) (self : DBPrefs) : DBPrefs :=
  {| table := table'; mirror := mirror'; defaults := defaults self;
     disable_setting := disable_setting self; faults := faults';
     history := (history self ++ [{| snap_table := table'; snap_mirror := mirror' |}])%list |}.

(** [self.db.conn.execute(sql, bindings)] for a statement whose effect on
    the table is [f]: raises when the database reports a fault. *)
Definition conn_execute (f : gmap string string -> gmap string string) :
  M DBPrefs unit :=
  fun self =>
    match faults self with
    | true :: rest => (Raise BusyError, record (table self) (mirror self) rest self)
    | false :: rest => (Return tt, record (f (table self)) (mirror self) rest self)
    | [] => (Return tt, record (f (table self)) (mirror self) [] self)
    end.

(** [dict.__setitem__(self, key, val)]. *)
Definition dict_setitem (key : string) (val : pyval) : M DBPrefs unit :=
  fun self => (Return tt, record (table self) (<[key := val]> (mirror self))
                                 (faults self) self).

(** [dict.__delitem__(self, key)]. *)
Definition dict_delitem (key : string) : M DBPrefs unit :=
  fun self =>
    match mirror self !! key with
    | Some _ => (Return tt, record (table self) (delete key (mirror self))
                                   (faults self) self)
    | None => (Raise (KeyError key), self)
    end.

Section Methods.
Context `{JSON}.

Definition raw_to_object (raw : string) : result pyval := json_loads raw.

Definition to_raw (val : pyval) : result string := json_dumps val.

(** One turn of the loop of [__init__] over the rows of the table. *)
Definition load_row (d : gmap string pyval) (row : string * string) :
  gmap string pyval :=
  match raw_to_object (snd row) with
  | Return val => <[fst row := val]> d
  | Raise _ => d
  end.

(** [DBPrefs.__init__] on a database whose table is [tbl]. *)
Definition init (tbl : gmap string string) (flt : list bool) : DBPrefs :=
  {| table := tbl;
     mirror := foldl load_row ∅ (map_to_list tbl);
     defaults := ∅;
     disable_setting := false;
     faults := flt;
     history := [] |}.

Definition has_setting (key : string) (self : DBPrefs) : bool :=
  bool_decide (is_Some (mirror self !! key)).

Definition getitem (key : string) (self : DBPrefs) : result pyval :=
  match mirror self !! key with
  | Some v => Return v
  | None => match defaults self !! key with
            | Some v => Return v
            | None => Raise (KeyError key)
            end
  end.

(** [dict.get(key, default)], inherited: it reads the dictionary only. *)
Definition get (key : string) (default : pyval) (self : DBPrefs) : pyval :=
  match mirror self !! key with Some v => v | None => default end.

Definition delitem (key : string) : M DBPrefs unit :=
  let* _ := dict_delitem key in
  conn_execute (delete key).

Definition setitem (key : string) (val : pyval) : M DBPrefs unit :=
  fun self =>
    if disable_setting self then (Return tt, self)
    else
      (let* raw := lift (to_raw val) in
       let* _ := conn_execute (<[key := raw]>) in
       dict_setitem key val) self.

Definition set (key : string) (val : pyval) : M DBPrefs unit := setitem key val.

Definition get_namespaced (namespace key : string) (default : pyval)
  (self : DBPrefs) : pyval :=
  match mirror self !! ("namespaced:" +:+ namespace +:+ ":" +:+ key) with
  | Some v => v
  | None => default
  end.

Definition set_namespaced (namespace key : string) (val : pyval) : M DBPrefs unit :=
  if contains_char ":" key then raise (KeyError "Colons are not allowed in keys")
  else if contains_char ":" namespace
  then raise (KeyError "Colons are not allowed in the namespace")
  else setitem ("namespaced:" +:+ namespace +:+ ":" +:+ key) val.

(** A process restart: the object is gone, the table stays, and a new
    object is built from it. *)
Definition reopen (self : DBPrefs) : DBPrefs := init (table self) (faults self).

End Methods.

End Prefs.

(** ** Case collisions of user categories: the end of [DB.initialize_prefs] *)

Module UserCategories.
Import Prefs.

(** [icu_lower] of [calibre.utils.icu]: lower-casing by the ICU library. *)
Class ICU : Type := { icu_lower : string -> string }.

Section Rename.
Context `{ICU} `{JSON}.

(** [if ucl not in catmap: catmap[ucl] = []] then [catmap[ucl].append(uc)]. *)
Definition catmap_add (catmap : dict (list string)) (uc : string) :
  dict (list string) :=
  let ucl := icu_lower uc in
  match dict_get ucl catmap with
  | None => dict_set ucl [uc] catmap
  | Some names => dict_set ucl (names ++ [uc])%list catmap
  end.

(** The first loop: [for uc in user_cats]. *)
Definition build_catmap (user_cats : dict pyval) : dict (list string) :=
  foldl catmap_add [] (dict_keys user_cats).

(** [while icu_lower(cat + unicode(suffix)) in catmap: suffix += 1], run for
    at most [fuel] tests; [None] when the tests are used up. *)
Fixpoint find_suffix (fuel : nat) (catmap : dict (list string)) (cat : string)
  (suffix : Z) : option Z :=
  match fuel with
  | O => None
  | S fuel' =>
      if dict_mem (icu_lower (cat +:+ str suffix)) catmap
      then find_suffix fuel' catmap cat (suffix + 1)
      else Some suffix
  end.

(** The body of [for uc in catmap] for one entry of [catmap]; the state is
    [user_cats] and [cats_changed].  [None] stands for a suffix search that
    does not end. *)
Definition rename_group (catmap : dict (list string))
  (st : dict pyval * bool) (names : list string) :
  option (result unit * (dict pyval * bool)) :=
  match names with
  | cat :: _ :: _ =>
      match find_suffix (S (length catmap)) catmap cat 1 with
      | None => None
      | Some suffix =>
          match dict_get cat (fst st) with
          | Some v =>
              Some (Return tt,
                    (dict_del cat (dict_set (cat +:+ str suffix) v (fst st)), true))
          | None => Some (Raise (KeyError cat), st)
          end
      end
  | _ => Some (Return tt, st)
  end.

(** The second loop, over the entries of [catmap] in the order [groups]. *)
Fixpoint rename_loop (catmap groups : dict (list string))
  (st : dict pyval * bool) : option (result unit * (dict pyval * bool)) :=
  match groups with
  | [] => Some (Return tt, st)
  | (_, names) :: rest =>
      match rename_group catmap st names with
      | Some (Return _, st') => rename_loop catmap rest st'
      | other => other
      end
  end.

(** [for uc in user_cats] over a list: its items, when all of them are
    texts.  (What [icu_lower] does with an item that is not a text is the
    library's.) *)
Fixpoint names_of (items : list pyval) : option (list string) :=
  match items with
  | [] => Some []
  | PStr name :: rest =>
      match names_of rest with
      | Some names => Some (name :: names)
      | None => None
      end
  | _ :: _ => None
  end.

(** [for uc in user_cats] over a text: its characters. *)
Fixpoint characters (s : string) : list string :=
  match s with
  | EmptyString => []
  | String c s' => String c EmptyString :: characters s'
  end.

(** The second loop when [user_cats] is a list of names or a text.  At the
    first entry of [catmap] with several names the suffix is searched for,
    and then [user_cats[cat]] raises [TypeError]: a list or a text is not
    indexed by a name. *)
Fixpoint sequence_loop (catmap groups : dict (list string)) : option (result unit) :=
  match groups with
  | [] => Some (Return tt)
  | (_, names) :: rest =>
      match names with
      | cat :: _ :: _ =>
          match find_suffix (S (length catmap)) catmap cat 1 with
          | None => None
          | Some _ => Some (Raise TypeError)
          end
      | _ => sequence_loop catmap rest
      end
  end.

(** Both loops over the names a list or a text yields. *)
Definition rename_in_sequence
  (order : dict (list string) -> dict (list string)) (names : list string)
  (self : DBPrefs) : option (result unit * DBPrefs) :=
  let catmap := foldl catmap_add [] names in
  match sequence_loop catmap (order catmap) with
  | Some r => Some (r, self)
  | None => None
  end.

(** The block of [initialize_prefs] that starts at
    [user_cats = self.prefs.get('user_categories', [])].  The dictionary it
    renames in is the object held by the preferences, so its changes show in
    [mirror] before [prefs.set] is called.  [order] is the order in which
    [catmap] yields its entries.  A stored list of names (the default is
    the empty list) or text is iterated over like a dictionary, but a
    collision in it ends the block with [TypeError]; [None], a truth value
    and a number cannot be iterated over.  The result [None] stands for a
    run the model does not describe: a suffix search that does not end, a
    list with an item that is not a text, or a stored object that is none
    of the JSON shapes. *)
Definition rename_user_categories
  (order : dict (list string) -> dict (list string)) (self : DBPrefs) :
  option (result unit * DBPrefs) :=
  match get "user_categories" (PList []) self with
  | PDict user_cats =>
      let catmap := build_catmap user_cats in
      match rename_loop catmap (order catmap) (user_cats, false) with
      | None => None
      | Some (r, (user_cats', cats_changed)) =>
          let self' :=
            if cats_changed
            then record (table self)
                        (<["user_categories" := PDict user_cats']> (mirror self))
                        (faults self) self
            else self in
          match r with
          | Raise e => Some (Raise e, self')
          | Return _ =>
              if cats_changed
              then Some (set "user_categories" (PDict user_cats') self')
              else Some (Return tt, self')
          end
      end
  | PList items =>
      match names_of items with
      | Some names => rename_in_sequence order names self
      | None => None
      end
  | PStr text => rename_in_sequence order (characters text) self
  | PNone | PBool _ | PInt _ | PFloat _ => Some (Raise TypeError, self)
  | PObject _ => None
  end.

End Rename.

End UserCategories.

(** ** Field slots: [DB.initialize_tables] *)

Module FieldSlots.

(** Keys of [FIELD_MAP]: built-in fields are keyed by name, a custom column
    by its integer [num], its series index by the string [str(num)+'_index']. *)
Inductive fm_key : Type :=
| KStr (s : string)
| KNum (n : Z).

#[global] Instance fm_key_eq_dec : EqDecision fm_key.
Proof. solve_decision. Defined.

#[global] Instance fm_key_countable : Countable fm_key.
Proof.
  refine (inj_countable'
            (fun k => match k with KStr s => inl s | KNum n => inr n end)
            (fun x => match x with inl s => KStr s | inr n => KNum n end) _).
  intros []; reflexivity.
Defined.

(** One entry of [custom_column_label_map], as built by
    [initialize_custom_columns] (the [display] dictionary and the separator
    table play no part in slot assignment and are left out). *)
Record custom_column : Type := {
  label : string;
  name : string;
  datatype : string;
  editable : bool;
  normalized : bool;
  num : Z;
  is_multiple : bool
}.

(** The table classes of [calibre.db.tables] that [initialize_tables]
    instantiates. *)
Inductive table_class : Type :=
| OneToOneTable | PathTable | UUIDTable | ManyToOneTable | ManyToManyTable
| AuthorsTable | FormatsTable | IdentifiersTable | SizeTable | CompositeTable.

(** The attributes of [DB] that [initialize_tables] reads and writes.
    [custom_column_label_map] is the dictionary in its iteration order;
    [record_index] collects the arguments of
    [field_metadata.set_field_record_index(label, index, prefer_custom)]. *)
Record DB : Type := {
  custom_column_label_map : list (string * custom_column);
  tables : gmap string table_class;
  FIELD_MAP : gmap fm_key Z;
  record_index : gmap (string * bool) Z
}.

Definition custom_field_prefix : string := "#".

Definition one_to_one_cols : list string :=
  ["title"; "sort"; "author_sort"; "series_index"; "comments";
   "timestamp"; "pubdate"; "uuid"; "path"; "cover"; "last_modified"].

Definition many_to_one_cols : list string := ["series"; "publisher"; "rating"].

Definition many_to_many_cols : list string :=
  ["authors"; "tags"; "formats"; "identifiers"; "languages"].

(** The literal dictionary assigned to [self.FIELD_MAP]. *)
Definition builtin_slots : list (string * Z) :=
  [("id", 0); ("title", 1); ("authors", 2); ("timestamp", 3); ("size", 4);
   ("rating", 5); ("tags", 6); ("comments", 7); ("series", 8);
   ("publisher", 9); ("series_index", 10); ("sort", 11);
   ("author_sort", 12); ("formats", 13); ("path", 14); ("pubdate", 15);
   ("uuid", 16); ("cover", 17); ("au_map", 18); ("last_modified", 19);
   ("identifiers", 20); ("languages", 21)].

Definition builtin_tables : gmap string table_class :=
  let t1 := foldl (fun t col =>
              <[col := if String.eqb col "path" then PathTable
                       else if String.eqb col "uuid" then UUIDTable
                       else OneToOneTable]> t) ∅ one_to_one_cols in
  let t2 := foldl (fun t col => <[col := ManyToOneTable]> t) t1 many_to_one_cols in
  let t3 := foldl (fun t col =>
              <[col := if String.eqb col "authors" then AuthorsTable
                       else if String.eqb col "formats" then FormatsTable
                       else if String.eqb col "identifiers" then IdentifiersTable
                       else ManyToManyTable]> t) t2 many_to_many_cols in
  <["size" := SizeTable]> t3.

(** [max(self.FIELD_MAP.itervalues())] over the literal dictionary. *)
Definition max_slot (l : list (string * Z)) : Z :=
  foldr (fun kv m => Z.max (snd kv) m) 0 l.

(** The state threaded through the loop over the custom columns. *)
Record loop_state : Type := {
  ls_tables : gmap string table_class;
  ls_map : gmap fm_key Z;
  ls_index : gmap (string * bool) Z;
  ls_base : Z
}.

(** One iteration of [for label_, data in custom_column_label_map.iteritems()]. *)
Definition custom_step (st : loop_state) (item : string * custom_column) : loop_state :=
  let '(label_, data) := item in
  let lbl := custom_field_prefix +:+ label_ in
  let base := ls_base st + 1 in
  let fm := <[KNum (num data) := base]> (ls_map st) in
  let ri := <[(label_, true) := base]> (ls_index st) in
  let '(fm, ri, base) :=
    if String.eqb (datatype data) "series"
    then (<[KStr (str (num data) +:+ "_index") := base + 1]> fm,
          <[(label_ +:+ "_index", true) := base + 1]> ri,
          base + 1)
    else (fm, ri, base) in
  let tb :=
    if normalized data then
      if is_multiple data then <[lbl := ManyToManyTable]> (ls_tables st)
      else
        let tb := <[lbl := ManyToOneTable]> (ls_tables st) in
        if String.eqb (datatype data) "series"
        then <[lbl +:+ "_index" := OneToOneTable]> tb
        else tb
    else
      if String.eqb (datatype data) "composite"
      then <[lbl := CompositeTable]> (ls_tables st)
      else <[lbl := OneToOneTable]> (ls_tables st) in
  {| ls_tables := tb; ls_map := fm; ls_index := ri; ls_base := base |}.
#[global] Arguments custom_step : simpl never.

(** [self.FIELD_MAP[k] = base = base+1] followed by
    [set_field_record_index(k, base, prefer_custom=False)]. *)
Definition trailing_step (st : loop_state) (k : string) : loop_state :=
  let base := ls_base st + 1 in
  {| ls_tables := ls_tables st;
     ls_map := <[KStr k := base]> (ls_map st);
     ls_index := <[(k, false) := base]> (ls_index st);
     ls_base := base |}.
#[global] Arguments trailing_step : simpl never.

Definition initialize_tables (self : DB) : DB :=
  let fm0 : gmap fm_key Z :=
    foldl (fun m kv => <[KStr (fst kv) := snd kv]> m) ∅ builtin_slots in
  let ri0 :=
    foldl (fun m kv => <[(fst kv, false) := snd kv]> m) (record_index self)
          builtin_slots in
  let st0 := {| ls_tables := builtin_tables; ls_map := fm0; ls_index := ri0;
                ls_base := max_slot builtin_slots |} in
  let st1 := foldl custom_step st0 (custom_column_label_map self) in
  let st2 := foldl trailing_step st1 ["ondevice"; "marked"; "series_sort"] in
  {| custom_column_label_map := custom_column_label_map self;
     tables := ls_tables st2;
     FIELD_MAP := ls_map st2;
     record_index := ls_index st2 |}.

(** Number of slots a custom column takes: two for a series (value, index). *)
Definition width (c : custom_column) : Z :=
  if String.eqb (datatype c) "series" then 2 else 1.

Definition slots_used (cols : list (string * custom_column)) : Z :=
  foldr (fun item n => width (snd item) + n) 0 cols.

(** A library that has just been opened: nothing assigned yet. *)
Definition fresh (cols : list (string * custom_column)) : DB :=
  {| custom_column_label_map := cols; tables := ∅; FIELD_MAP := ∅;
     record_index := ∅ |}.

Definition text_column (l : string) (n : Z) : custom_column :=
  {| label := l; name := l; datatype := "text"; editable := true;
     normalized := true; num := n; is_multiple := false |}.

Definition series_column (l : string) (n : Z) : custom_column :=
  {| label := l; name := l; datatype := "series"; editable := true;
     normalized := true; num := n; is_multiple := false |}.

End FieldSlots.

(** ** Files and folders of the library: class [DB] *)

Module Files.

(** What the code takes from the platform and from other modules of the
    program: constants and functions that do not touch the file system.
    [ascii_filename] is [calibre.utils.filenames.ascii_filename], [Unknown]
    the translation [_('Unknown')], [SPOOL_SIZE] the constant of
    [calibre.db], [sha256_hexdigest data] the value of
    [hashlib.sha256(data).hexdigest()].  [os_path_realpath] resolves
    symbolic links; they are taken as fixed while one method runs. *)
Class Platform : Type := {
  iswindows : bool;
  ascii_filename : string -> string;
  Unknown : string;
  os_sep : string;
  os_path_join : string -> string -> string;
  os_path_dirname : string -> string;
  os_path_abspath : string -> string;
  os_path_realpath : string -> string;
  os_path_normcase : string -> string;
  SPOOL_SIZE : positive;
  sha256_hexdigest : string -> string
}.

(** The attributes of a [DB] object that the file methods read. *)
Record DB : Type := {
  library_path : string;
  is_case_sensitive : bool
}.

(** *** String methods of Python *)

Definition nonempty (s : string) : bool :=
  match s with EmptyString => false | String _ _ => true end.

(** [s[-1]]: [None] where Python raises [IndexError]. *)
Fixpoint last_char (s : string) : option ascii :=
  match s with
  | EmptyString => None
  | String c EmptyString => Some c
  | String _ s' => last_char s'
  end.

(** [s[:-1]]. *)
Fixpoint drop_last (s : string) : string :=
  match s with
  | EmptyString => EmptyString
  | String c EmptyString => EmptyString
  | String c s' => String c (drop_last s')
  end.

(** [s[:n]]. *)
Fixpoint take (n : nat) (s : string) : string :=
  match n, s with
  | S n', String c s' => String c (take n' s')
  | _, _ => EmptyString
  end.

(** [s[n:]]. *)
Fixpoint drop (n : nat) (s : string) : string :=
  match n, s with
  | O, _ => s
  | S n', EmptyString => EmptyString
  | S n', String _ s' => drop n' s'
  end.

(** [s.split(sep)] for a separator of one character. *)
Fixpoint split_on (sep : ascii) (s : string) : list string :=
  match s with
  | EmptyString => [EmptyString]
  | String c s' =>
      if Ascii.eqb c sep then EmptyString :: split_on sep s'
      else match split_on sep s' with
           | [] => [String c EmptyString]
           | w :: ws => String c w :: ws
           end
  end.

(** [s.endswith(c)] for one character. *)
Definition ends_with_char (c : ascii) (s : string) : bool :=
  match last_char s with
  | Some c' => Ascii.eqb c c'
  | None => false
  end.

Section Names.
Context `{Platform}.

Definition PATH_LIMIT : nat := if iswindows then 40%nat else 100%nat.

Definition WINDOWS_LIBRARY_PATH_LIMIT : nat := 75.

(** [while author[-1] in (' ', '.'): author = author[:-1]].  Every turn
    shortens [author], so [fuel] above its length is never used up. *)
Fixpoint strip_author (fuel : nat) (author : string) : result string :=
  match last_char author with
  | None => Raise IndexError
  | Some c =>
      if (Ascii.eqb c " " || Ascii.eqb c ".")%bool
      then match fuel with
           | O => Return author
           | S fuel' => strip_author fuel' (drop_last author)
           end
      else Return author
  end.

Definition construct_path_name (book_id : Z) (title author : string) :
  result string :=
  let author := take PATH_LIMIT (ascii_filename author) in
  let title := take PATH_LIMIT (ascii_filename title) in
  match strip_author (String.length author) author with
  | Raise e => Raise e
  | Return author =>
      let author := if nonempty author then author else ascii_filename Unknown in
      Return (author +:+ "/" +:+ title +:+ " (" +:+ str book_id +:+ ")")
  end.

(** [while name.endswith('.'): name = name[:-1]]. *)
Fixpoint strip_dots (fuel : nat) (name : string) : string :=
  if ends_with_char "." name
  then match fuel with
       | O => name
       | S fuel' => strip_dots fuel' (drop_last name)
       end
  else name.

Definition construct_file_name (book_id : Z) (title author : string) : string :=
  let author := take PATH_LIMIT (ascii_filename author) in
  let title := take PATH_LIMIT (ascii_filename title) in
  let name := title +:+ " - " +:+ author in
  strip_dots (String.length name) name.

Definition normpath (self : DB) (path : string) : string :=
  let path := os_path_abspath (os_path_realpath path) in
  if is_case_sensitive self then path else lower (os_path_normcase path).

End Names.

(** *** The operating system *)

(** Errors of the operating system: what [lopen], [os] and [shutil] raise. *)
Inductive os_error : Type := EnvIOError | EnvOSError.

Definition exn_of (e : os_error) : exn :=
  match e with EnvIOError => IOError | EnvOSError => OSError end.

(** Where [copy_cover_to] and [copy_format_to] write: an object with a
    [write] method (and maybe a [flush] method), or a path. *)
Inductive destination : Type :=
| to_stream (flushable : bool)
| to_path (p : string).

(** Calls answered with a truth value. *)
Inductive query : Type :=
| os_path_exists (p : string)
| os_access_R_OK (p : string)
| samefile (a b : string).

(** Calls made for their effect; they return nothing or raise.
    [wam_open p] is [WindowsAtomicFolderMove(p)]; [delete_tree] is the
    function of [calibre.utils.recycle_bin]; [conn_delete_books] is the
    [executemany] of [remove_books]. *)
Inductive action : Type :=
| os_makedirs (p : string)
| os_rename (src dst : string)
| shutil_copyfile (src dst : string)
| hardlink_file (src dst : string)
| lopen_wb (p : string)
| shutil_copyfileobj (data : string) (dst : destination)
| stream_flush
| time_sleep
| delete_tree (p : string) (permanent : bool)
| wam_open (p : string)
| wam_copy_path_to (src dst : string)
| wam_delete_originals
| wam_close_handles
| conn_delete_books (ids : list Z).

(** Calls answered with a list of names. *)
Inductive listing : Type :=
| os_listdir (p : string)
| glob_glob (pattern : string).

(** [lopen(p, 'rb')]: answered with the bytes of the file. *)
Inductive reading : Type :=
| lopen_rb (p : string).

(** The operating system as the code meets it: the answer to the [n]-th
    call of a run. *)
Record oracle : Type := {
  on_query : nat -> query -> bool;
  on_action : nat -> action -> option os_error;
  on_listing : nat -> listing -> os_error + list string;
  on_reading : nat -> reading -> os_error + string
}.

Inductive event : Type :=
| EvQuery (q : query) (answer : bool)
| EvAction (a : action) (failure : option os_error)
| EvListing (l : listing) (answer : os_error + list string)
| EvReading (r : reading) (answer : os_error + string).

(** Modelled from the spec: the tables behind [path_field] and
    [formats_field] ([calibre.db.tables] and [calibre.db.fields] are not
    under src/).  A stored file is (record id, format tag, file name stem,
    directory path): [path_map] holds the directory path of a record,
    [formats_map] its format tags and [fname_map] the stem of each format. *)
Record world : Type := {
  env : oracle;
  clock : nat;
  log : list event;
  path_map : gmap Z string;
  formats_map : gmap Z (list string);
  fname_map : gmap (Z * string) string
}.

Definition logged (ev : event) (w : world) : world :=
  {| env := env w; clock := S (clock w); log := (log w ++ [ev])%list;
     path_map := path_map w; formats_map := formats_map w;
     fname_map := fname_map w |}.

Definition ask (q : query) : M world bool :=
  fun w => let b := on_query (env w) (clock w) q in
           (Return b, logged (EvQuery q b) w).

Definition act (a : action) : M world unit :=
  fun w => let r := on_action (env w) (clock w) a in
           (match r with None => Return tt | Some e => Raise (exn_of e) end,
            logged (EvAction a r) w).

Definition list_names (l : listing) : M world (list string) :=
  fun w => let r := on_listing (env w) (clock w) l in
           (match r with inr names => Return names | inl e => Raise (exn_of e) end,
            logged (EvListing l r) w).

Definition read (r : reading) : M world string :=
  fun w => let a := on_reading (env w) (clock w) r in
           (match a with inr data => Return data | inl e => Raise (exn_of e) end,
            logged (EvReading r a) w).

(** [path_field.for_book(book_id, default_value='')]. *)
Definition path_for_book (book_id : Z) : M world string :=
  fun w => (Return (default EmptyString (path_map w !! book_id)), w).

(** [formats_field.for_book(book_id, default_value=())]. *)
Definition formats_for_book (book_id : Z) : M world (list string) :=
  fun w => (Return (default [] (formats_map w !! book_id)), w).

(** [formats_field.format_fname(book_id, fmt)]; [None] is Python's [None]. *)
Definition format_fname (book_id : Z) (fmt : string) : M world (option string) :=
  fun w => (Return (fname_map w !! (book_id, fmt)), w).

(** [formats_field.table.set_fname(book_id, fmt, fname, self)]. *)
Definition set_fname (book_id : Z) (fmt fname : string) : M world unit :=
  fun w => (Return tt,
            {| env := env w; clock := clock w; log := log w;
               path_map := path_map w; formats_map := formats_map w;
               fname_map := <[(book_id, fmt) := fname]> (fname_map w) |}).

(** [path_field.table.set_path(book_id, path, self)]. *)
Definition set_path (book_id : Z) (path : string) : M world unit :=
  fun w => (Return tt,
            {| env := env w; clock := clock w; log := log w;
               path_map := <[book_id := path]> (path_map w);
               formats_map := formats_map w; fname_map := fname_map w |}).

Section Methods.
Context `{Platform}.

(** [os.path.join(a, *parts)]. *)
Definition join_all (a : string) (parts : list string) : string :=
  foldl os_path_join a parts.

Definition rmtree (self : DB) (path : string) (permanent : bool) : M world unit :=
  if negb (String.prefix (normpath self path) (normpath self (library_path self)))
  then act (delete_tree path permanent)
  else ret tt.

Definition format_abspath (self : DB) (book_id : Z) (fmt fname path : string) :
  M world (option string) :=
  let path := os_path_join (library_path self) path in
  let fmt := if nonempty fmt then "." +:+ lower fmt else EmptyString in
  let fmt_path := os_path_join path (fname +:+ fmt) in
  let* found := ask (os_path_exists fmt_path) in
  if found then ret (Some fmt_path)
  else
    let* globbed := attempt (list_names (glob_glob (os_path_join path ("*" +:+ fmt)))) in
    let candidates := match globbed with Return l => l | Raise _ => [] end in
    match nonempty fmt, candidates with
    | true, first :: _ =>
        let* there := ask (os_path_exists first) in
        if there
        then let* _ := act (shutil_copyfile first fmt_path) in ret (Some fmt_path)
        else ret None
    | _, _ => ret None
    end.

(** The loop of [format_hash]: [raw = f.read(SPOOL_SIZE)], [sha.update(raw)],
    stop when [len(raw) < SPOOL_SIZE].  [sha] is the data the hash object has
    been given so far, [f] what is left of the file.  Every turn but the
    last takes [SPOOL_SIZE] bytes, so [fuel] above the length of [f] is
    never used up. *)
Fixpoint hash_chunks (fuel : nat) (sha f : string) : string :=
  let raw := take (Pos.to_nat SPOOL_SIZE) f in
  let sha := sha +:+ raw in
  if Nat.ltb (String.length raw) (Pos.to_nat SPOOL_SIZE) then sha
  else match fuel with
       | O => sha
       | S fuel' => hash_chunks fuel' sha (drop (Pos.to_nat SPOOL_SIZE) f)
       end.

Definition format_hash (self : DB) (book_id : Z) (fmt fname path : string) :
  M world string :=
  let* path := format_abspath self book_id fmt fname path in
  match path with
  | None => raise (NoSuchFormat ("Record " +:+ str book_id +:+ " has no fmt: " +:+ fmt))
  | Some path =>
      let* f := read (lopen_rb path) in
      ret (sha256_hexdigest (hash_chunks (String.length f) EmptyString f))
  end.

Definition has_format (self : DB) (book_id : Z) (fmt fname path : string) :
  M world bool :=
  let* found := format_abspath self book_id fmt fname path in
  ret (match found with Some _ => true | None => false end).

Definition wam_message : string :=
  "Error, you must pass the dest as a path when using windows_atomic_move".

(** [hardlink_file(path, dest)] under [try: ... return True / except: pass],
    followed by the plain copy [otherwise] when there is no hard link. *)
Definition hardlink_or (use_hardlink : bool) (path dest : string)
  (otherwise : M world bool) : M world bool :=
  if use_hardlink
  then let* linked := attempt (act (hardlink_file path dest)) in
       match linked with
       | Return _ => ret true
       | Raise _ => otherwise
       end
  else otherwise.

Definition copy_cover_to (self : DB) (path : string) (dest : destination)
  (windows_atomic_move use_hardlink : bool) : M world bool :=
  let path :=
    os_path_abspath (os_path_join (os_path_join (library_path self) path) "cover.jpg") in
  if windows_atomic_move then
    match dest with
    | to_stream _ => raise (Exception wam_message)
    | to_path dest =>
        let* readable := ask (os_access_R_OK path) in
        if (readable && nonempty dest)%bool then
          let* same := ask (samefile dest path) in
          if same then ret false
          else let* _ := act (wam_copy_path_to path dest) in ret true
        else ret false
    end
  else
    let* readable := ask (os_access_R_OK path) in
    if readable then
      let* first := attempt (read (lopen_rb path)) in
      let* _ := match first with
                | Raise _ => act time_sleep
                | Return _ => ret tt
                end in
      let* f := read (lopen_rb path) in
      match dest with
      | to_stream flushable =>
          let* _ := act (shutil_copyfileobj f dest) in
          let* _ := when flushable (act stream_flush) in
          ret true
      | to_path d =>
          if nonempty d then
            let* same := ask (samefile d path) in
            if same then ret false
            else hardlink_or use_hardlink path d
                   (let* _ := act (lopen_wb d) in
                    let* _ := act (shutil_copyfileobj f dest) in
                    ret true)
          else ret false
      end
    else ret false.

(** [try: os.rename(path, dest) except: pass]. *)
Definition rename_quietly (path dest : string) : M world unit :=
  let* _ := attempt (act (os_rename path dest)) in ret tt.

Definition copy_format_to (self : DB) (book_id : Z) (fmt fname path : string)
  (dest : destination) (windows_atomic_move use_hardlink : bool) : M world bool :=
  let* found := format_abspath self book_id fmt fname path in
  match found with
  | None => ret false
  | Some path =>
      if windows_atomic_move then
        match dest with
        | to_stream _ => raise (Exception wam_message)
        | to_path d =>
            if nonempty d then
              let* same := ask (samefile d path) in
              if same
              then let* _ := when (negb (String.eqb path d)) (rename_quietly path d) in
                   ret true
              else let* _ := act (wam_copy_path_to path d) in ret true
            else ret true
        end
      else
        match dest with
        | to_stream flushable =>
            let* f := read (lopen_rb path) in
            let* _ := act (shutil_copyfileobj f dest) in
            let* _ := when flushable (act stream_flush) in
            ret true
        | to_path d =>
            if nonempty d then
              let* same := ask (samefile d path) in
              if same
              then let* _ := when (negb (is_case_sensitive self)
                                   && negb (String.eqb path d))
                                  (rename_quietly path d) in
                   ret true
              else hardlink_or use_hardlink path d
                     (let* f := read (lopen_rb path) in
                      let* _ := act (lopen_wb d) in
                      let* _ := act (shutil_copyfileobj f dest) in
                      ret true)
            else ret true
        end
  end.

(** What [update_path] has worked out when it starts to touch files. *)
Record plan : Type := {
  new_path : string;
  current_path : string;
  formats : list string;
  fname : string;
  spath : string;
  tpath : string;
  source_ok : bool;
  wam : bool
}.

(** The loop [for fmt in formats] that sets [changed]: true at the first
    format whose stored stem is not empty and differs from [fname]. *)
Fixpoint stem_changed (book_id : Z) (fname : string) (formats : list string) :
  M world bool :=
  match formats with
  | [] => ret false
  | fmt :: rest =>
      let* name := format_fname book_id fmt in
      match name with
      | Some name =>
          if (nonempty name && negb (String.eqb name fname))%bool then ret true
          else stem_changed book_id fname rest
      | None => stem_changed book_id fname rest
      end
  end.

(** [update_path] up to the [try]: [None] is the early [return]. *)
Definition update_path_plan (self : DB) (book_id : Z) (title author : string) :
  M world (option plan) :=
  let* path := lift (construct_path_name book_id title author) in
  let* current_path := path_for_book book_id in
  let* formats := formats_for_book book_id in
  let fname := construct_file_name book_id title author in
  let* changed := stem_changed book_id fname formats in
  if (String.eqb path current_path && negb changed)%bool then ret None
  else
    let spath := join_all (library_path self) (split_on "/" current_path) in
    let tpath := join_all (library_path self) (split_on "/" path) in
    let* source_ok :=
      if nonempty current_path then ask (os_path_exists spath) else ret false in
    let* wam :=
      if (iswindows && source_ok)%bool
      then let* _ := act (wam_open spath) in ret true
      else ret false in
    ret (Some {| new_path := path; current_path := current_path;
                 formats := formats; fname := fname; spath := spath;
                 tpath := tpath; source_ok := source_ok; wam := wam |}).

(** [if not os.path.exists(tpath): os.makedirs(tpath)]. *)
Definition make_target (p : plan) : M world unit :=
  let* there := ask (os_path_exists (tpath p)) in
  when (negb there) (act (os_makedirs (tpath p))).

(** [if source_ok:  # Migrate existing files]. *)
Definition migrate_files (self : DB) (book_id : Z) (p : plan) : M world unit :=
  when (source_ok p)
    (let* _ := copy_cover_to self (current_path p)
                 (to_path (os_path_join (tpath p) "cover.jpg")) (wam p) true in
     for_each (formats p) (fun fmt =>
       let dest := os_path_join (tpath p) (fname p +:+ "." +:+ lower fmt) in
       let* stem := format_fname book_id fmt in
       match stem with
       | None => raise TypeError
       | Some stem =>
           let* _ := copy_format_to self book_id fmt stem (current_path p)
                       (to_path dest) (wam p) true in
           ret tt
       end)).

(** [# Update db to reflect new file locations]. *)
Definition update_db (book_id : Z) (p : plan) : M world unit :=
  let* _ := for_each (formats p) (fun fmt => set_fname book_id fmt (fname p)) in
  set_path book_id (new_path p).

(** [# Delete not needed directories]. *)
Definition delete_source (self : DB) (p : plan) : M world unit :=
  when (source_ok p)
    (let* there := ask (os_path_exists (spath p)) in
     if there then
       let* same := ask (samefile (spath p) (tpath p)) in
       if same then ret tt
       else
         let* _ := when (wam p) (act wam_delete_originals) in
         let* _ := rmtree self (spath p) true in
         let parent := os_path_dirname (spath p) in
         let* names := list_names (os_listdir parent) in
         match names with
         | [] => rmtree self parent true
         | _ :: _ => ret tt
         end
     else ret tt).

(** The loop over [zip(c1, c2)] that renames segments differing in case;
    [break] at the first rename that raises. *)
Fixpoint rename_segments (curpath : string) (segs : list (string * string)) :
  M world unit :=
  match segs with
  | [] => ret tt
  | (oldseg, newseg) :: rest =>
      if (String.eqb (lower oldseg) (lower newseg)
          && negb (String.eqb oldseg newseg))%bool
      then
        let* renamed := attempt (act (os_rename (os_path_join curpath oldseg)
                                                (os_path_join curpath newseg))) in
        match renamed with
        | Raise _ => ret tt
        | Return _ => rename_segments (os_path_join curpath newseg) rest
        end
      else rename_segments (os_path_join curpath newseg) rest
  end.

Definition fix_case (self : DB) (p : plan) : M world unit :=
  let c1 := split_on "/" (current_path p) in
  let c2 := split_on "/" (new_path p) in
  when (negb (is_case_sensitive self) && Nat.eqb (length c1) (length c2))
       (rename_segments (library_path self) (zip c1 c2)).

Definition update_path (self : DB) (book_id : Z) (title author : string) :
  M world unit :=
  let* planned := update_path_plan self book_id title author in
  match planned with
  | None => ret tt
  | Some p =>
      let* _ := try_finally
                  (let* _ := make_target p in
                   let* _ := migrate_files self book_id p in
                   let* _ := update_db book_id p in
                   delete_source self p)
                  (when (wam p) (act wam_close_handles)) in
      fix_case self p
  end.

(** [remove_books]; [paths] is [path_map] in the order it yields its items,
    a path that is [None] or empty being the empty string. *)
Definition remove_books (self : DB) (paths : list (Z * string)) (permanent : bool) :
  M world unit :=
  let* _ := for_each paths (fun item =>
    when (nonempty (snd item))
      (let path := os_path_join (library_path self) (snd item) in
       let* there := ask (os_path_exists path) in
       when there
         (let* _ := rmtree self path permanent in
          let parent := os_path_dirname path in
          let* names := list_names (os_listdir parent) in
          match names with
          | [] => rmtree self parent permanent
          | _ :: _ => ret tt
          end))) in
  act (conn_delete_books (map fst paths)).

End Methods.

End Files.

(** ** The JSON text of a preference: what [to_raw] writes and
    [raw_to_object] reads *)

Module Json.
Import Prefs.

(** Modelled from the spec: [to_raw] and [raw_to_object] hand the value to
    [json.dumps] and [json.loads] of Python's library, with the hooks
    [to_json] and [from_json] of [calibre.utils.config], which are not
    under src/.  The spec has a preference `JSON-serialized' and every
    JSON-representable value read back deep-equal.  So the text is the JSON
    text that [json.dumps(val, indent=2)] writes, and the hook [from_json],
    which is asked for every dictionary that is read, returns the
    dictionary it is given. *)
Definition from_json (d : list (string * pyval)) : pyval := PDict d.

Definition dquote : ascii := ascii_of_nat 34.
Definition backslash : ascii := ascii_of_nat 92.
Definition newline : ascii := ascii_of_nat 10.

(** *** Writing: [json.dumps(val, indent=2)] *)

Definition hex_digit (n : nat) : ascii :=
  match n with
  | 0 => "0" | 1 => "1" | 2 => "2" | 3 => "3" | 4 => "4" | 5 => "5" | 6 => "6"
  | 7 => "7" | 8 => "8" | 9 => "9" | 10 => "a" | 11 => "b" | 12 => "c"
  | 13 => "d" | 14 => "e" | _ => "f"
  end%nat%char.

(** One character of a text between quotes, [ensure_ascii] being true: the
    quote and the backslash get a backslash, five control characters have
    a letter, every other character outside space to tilde is written
    as [\u] and four hexadecimal digits. *)
Definition escape_char (c : ascii) : string :=
  let n := nat_of_ascii c in
  if Nat.eqb n 34 then String backslash (String dquote EmptyString)
  else if Nat.eqb n 92 then String backslash (String backslash EmptyString)
  else if Nat.eqb n 10 then String backslash "n"
  else if Nat.eqb n 13 then String backslash "r"
  else if Nat.eqb n 9 then String backslash "t"
  else if Nat.eqb n 12 then String backslash "f"
  else if Nat.eqb n 8 then String backslash "b"
  else if (Nat.leb 32 n && Nat.leb n 126)%bool then String c EmptyString
  else String backslash
         ("u00" +:+ String (hex_digit (n / 16))
                      (String (hex_digit (n mod 16)) EmptyString)).

Fixpoint escape (s : string) : string :=
  match s with
  | EmptyString => EmptyString
  | String c s' => escape_char c +:+ escape s'
  end.

Definition quoted (s : string) : string :=
  String dquote (escape s +:+ String dquote EmptyString).

Fixpoint spaces (n : nat) : string :=
  match n with
  | O => EmptyString
  | S n' => String " " (spaces n')
  end.

(** A new line and the indentation of [level]. *)
Definition newline_indent (level : nat) : string :=
  String newline (spaces (2 * level)).

(** The item separator of [json.dumps] is a comma and a space, also when
    [indent] puts every item on a line of its own. *)
Definition separator (level : nat) : string := ", " +:+ newline_indent level.

(** [float.__repr__] as [json] uses it: the three values that are not
    numbers of JSON have names of their own. *)
Definition float_text (repr : string) : string :=
  if String.eqb repr "nan" then "NaN"
  else if String.eqb repr "inf" then "Infinity"
  else if String.eqb repr "-inf" then "-Infinity"
  else repr.

(** The text of a value at a level of nesting.  (An object that is none of
    the JSON shapes has no text: see [json_dumps].) *)
Fixpoint print (level : nat) (v : pyval) : string :=
  match v with
  | PNone => "null"
  | PBool true => "true"
  | PBool false => "false"
  | PInt n => str n
  | PFloat repr => float_text repr
  | PStr s => quoted s
  | PList [] => "[]"
  | PList (x :: l) =>
      "[" +:+ newline_indent (S level)
          +:+ String.concat (separator (S level)) (map (print (S level)) (x :: l))
          +:+ newline_indent level +:+ "]"
  | PDict [] => "{}"
  | PDict (kv :: d) =>
      "{" +:+ newline_indent (S level)
          +:+ String.concat (separator (S level))
                (map (fun kv => quoted (fst kv) +:+ ": " +:+ print (S level) (snd kv))
                     (kv :: d))
          +:+ newline_indent level +:+ "}"
  | PObject _ => EmptyString
  end.

(** No part of the value is an object that is none of the JSON shapes. *)
Fixpoint plain (v : pyval) : bool :=
  match v with
  | PList l => forallb plain l
  | PDict d => forallb (fun kv => plain (snd kv)) d
  | PObject _ => false
  | _ => true
  end.

(** Modelled from the spec: [json.dumps(val, indent=2, default=to_json)]
    gives the text; the hook [to_json], which is not under src/ and is
    asked for an object that is none of the JSON shapes, raises
    [TypeError]. *)
Definition json_dumps (v : pyval) : result string :=
  if plain v then Return (print 0 v) else Raise TypeError.

(** *** Reading: [json.loads(raw, object_hook=from_json)] *)

Definition is_ws (c : ascii) : bool :=
  let n := nat_of_ascii c in
  (Nat.eqb n 32 || Nat.eqb n 9 || Nat.eqb n 10 || Nat.eqb n 13)%bool.

Fixpoint skip_ws (s : string) : string :=
  match s with
  | EmptyString => EmptyString
  | String c s' => if is_ws c then skip_ws s' else s
  end.

Definition hex_value (c : ascii) : option nat :=
  let n := nat_of_ascii c in
  if (Nat.leb 48 n && Nat.leb n 57)%bool then Some (n - 48)%nat
  else if (Nat.leb 97 n && Nat.leb n 102)%bool then Some (n - 87)%nat
  else if (Nat.leb 65 n && Nat.leb n 70)%bool then Some (n - 55)%nat
  else None.

(** The character [\uXXXX] stands for.  A text of the model holds the
    characters below 256; another one is answered like a malformed text. *)
Definition unicode_escape (h1 h2 h3 h4 : ascii) : option ascii :=
  match hex_value h1, hex_value h2, hex_value h3, hex_value h4 with
  | Some a, Some b, Some c, Some d =>
      if (Nat.eqb a 0 && Nat.eqb b 0)%bool then Some (ascii_of_nat (16 * c + d))
      else None
  | _, _, _, _ => None
  end.

(** The character a backslash and [e] stand for. *)
Definition simple_escape (e : ascii) : option ascii :=
  let n := nat_of_ascii e in
  if Nat.eqb n 34 then Some dquote
  else if Nat.eqb n 92 then Some backslash
  else if Nat.eqb n 47 then Some "/"%char
  else if Nat.eqb n 98 then Some (ascii_of_nat 8)
  else if Nat.eqb n 102 then Some (ascii_of_nat 12)
  else if Nat.eqb n 110 then Some (ascii_of_nat 10)
  else if Nat.eqb n 114 then Some (ascii_of_nat 13)
  else if Nat.eqb n 116 then Some (ascii_of_nat 9)
  else None.

(** [scanstring] after the opening quote: the text and what follows the
    closing quote.  A control character in the text is refused
    ([strict]). *)
Fixpoint scan_string (s : string) : option (string * string) :=
  match s with
  | EmptyString => None
  | String c s' =>
      if Ascii.eqb c dquote then Some (EmptyString, s')
      else if Ascii.eqb c backslash then
        match s' with
        | EmptyString => None
        | String e s'' =>
            if Ascii.eqb e "u" then
              match s'' with
              | String h1 (String h2 (String h3 (String h4 r))) =>
                  match unicode_escape h1 h2 h3 h4, scan_string r with
                  | Some c', Some (t, r') => Some (String c' t, r')
                  | _, _ => None
                  end
              | _ => None
              end
            else
              match simple_escape e, scan_string s'' with
              | Some c', Some (t, r') => Some (String c' t, r')
              | _, _ => None
              end
        end
      else if Nat.ltb (nat_of_ascii c) 32 then None
      else
        match scan_string s' with
        | Some (t, r') => Some (String c t, r')
        | None => None
        end
  end.

Definition is_digit (c : ascii) : bool :=
  let n := nat_of_ascii c in (Nat.leb 48 n && Nat.leb n 57)%bool.

(** The digits at the start of a text, and the rest. *)
Fixpoint span_digits (s : string) : string * string :=
  match s with
  | EmptyString => (EmptyString, EmptyString)
  | String c s' =>
      if is_digit c
      then let '(ds, r) := span_digits s' in (String c ds, r)
      else (EmptyString, s)
  end.

(** The integer part of a number: a sign if there is one, then a zero, or
    a digit from 1 to 9 and the digits that follow. *)
Definition scan_integer (s : string) : option (string * string) :=
  let '(sign, s1) :=
    match s with
    | String c r => if Ascii.eqb c "-" then ("-", r) else (EmptyString, s)
    | EmptyString => (EmptyString, s)
    end in
  match s1 with
  | EmptyString => None
  | String c r =>
      if Ascii.eqb c "0" then Some (sign +:+ "0", r)
      else if is_digit c
      then let '(ds, r') := span_digits r in Some (sign +:+ String c ds, r')
      else None
  end.

(** The fraction: a period and at least one digit. *)
Definition scan_fraction (s : string) : string * string :=
  match s with
  | String c r =>
      if Ascii.eqb c "." then
        match span_digits r with
        | (String d ds, r') => (String c (String d ds), r')
        | (EmptyString, _) => (EmptyString, s)
        end
      else (EmptyString, s)
  | EmptyString => (EmptyString, s)
  end.

(** The exponent: [e] or [E], a sign if there is one, at least one digit. *)
Definition scan_exponent (s : string) : string * string :=
  match s with
  | String c r =>
      if (Ascii.eqb c "e" || Ascii.eqb c "E")%bool then
        let '(sign, r1) :=
          match r with
          | String g r0 =>
              if (Ascii.eqb g "+" || Ascii.eqb g "-")%bool
              then (String g EmptyString, r0) else (EmptyString, r)
          | EmptyString => (EmptyString, r)
          end in
        match span_digits r1 with
        | (String d ds, r') => (String c (sign +:+ String d ds), r')
        | (EmptyString, _) => (EmptyString, s)
        end
      else (EmptyString, s)
  | EmptyString => (EmptyString, s)
  end.

(** The number at the start of a text, as [NUMBER_RE] matches it: its
    integer part, its fraction and its exponent (empty when there is
    none), and the rest. *)
Definition scan_number (s : string) : option (string * string * string * string) :=
  match scan_integer s with
  | None => None
  | Some (integer, s1) =>
      let '(frac, s2) := scan_fraction s1 in
      let '(exp, s3) := scan_exponent s2 in
      Some (integer, frac, exp, s3)
  end.

(** [int(integer)]. *)
Definition int_of (integer : string) : Z :=
  match NilZero.int_of_string integer with
  | Some d => Z.of_int d
  | None => 0
  end.

Section Reader.

(** [repr(float(text))] for the text of a number: the floating-point
    number nearest to it, as Python prints it. *)
Variable float_repr : string -> string.

(** The order in which a dictionary yields its items, given in the order
    in which they were put into it: a dictionary of Python 2 does not keep
    that order. *)
Variable dict_order : list (string * pyval) -> list (string * pyval).

(** [dict(pairs)]: of two pairs with one key the later one gives the
    value. *)
Definition from_pairs (pairs : list (string * pyval)) : list (string * pyval) :=
  dict_order (foldl (fun d kv => dict_set (fst kv) (snd kv) d) [] pairs).

(** [scan_once]; [None] where it raises [ValueError].  Every call uses up
    at least one character before the next, so [fuel] above twice the
    length of the text is never used up. *)
Fixpoint parse_value (fuel : nat) (s : string) : option (pyval * string) :=
  match fuel with
  | O => None
  | S fuel' =>
      match s with
      | EmptyString => None
      | String c r =>
          if Ascii.eqb c dquote then
            match scan_string r with
            | Some (t, r') => Some (PStr t, r')
            | None => None
            end
          else if Ascii.eqb c "{" then
            match skip_ws r with
            | EmptyString => None
            | String c1 r1 =>
                if Ascii.eqb c1 "}" then Some (from_json [], r1)
                else
                  match parse_members fuel' (String c1 r1) with
                  | Some (pairs, r') => Some (from_json (from_pairs pairs), r')
                  | None => None
                  end
            end
          else if Ascii.eqb c "[" then
            match skip_ws r with
            | EmptyString => None
            | String c1 r1 =>
                if Ascii.eqb c1 "]" then Some (PList [], r1)
                else
                  match parse_elements fuel' (String c1 r1) with
                  | Some (items, r') => Some (PList items, r')
                  | None => None
                  end
            end
          else if String.prefix "null" s then Some (PNone, Files.drop 4 s)
          else if String.prefix "true" s then Some (PBool true, Files.drop 4 s)
          else if String.prefix "false" s then Some (PBool false, Files.drop 5 s)
          else
            match scan_number s with
            | Some (integer, frac, exp, r') =>
                if (Files.nonempty frac || Files.nonempty exp)%bool
                then Some (PFloat (float_repr (integer +:+ frac +:+ exp)), r')
                else Some (PInt (int_of integer), r')
            | None =>
                if String.prefix "NaN" s then Some (PFloat "nan", Files.drop 3 s)
                else if String.prefix "Infinity" s
                then Some (PFloat "inf", Files.drop 8 s)
                else if String.prefix "-Infinity" s
                then Some (PFloat "-inf", Files.drop 9 s)
                else None
            end
      end
  end

(** The items of a list after the opening bracket, up to the closing one. *)
with parse_elements (fuel : nat) (s : string) : option (list pyval * string) :=
  match fuel with
  | O => None
  | S fuel' =>
      match parse_value fuel' s with
      | None => None
      | Some (v, r) =>
          match skip_ws r with
          | EmptyString => None
          | String c r1 =>
              if Ascii.eqb c "," then
                match parse_elements fuel' (skip_ws r1) with
                | Some (items, r') => Some (v :: items, r')
                | None => None
                end
              else if Ascii.eqb c "]" then Some ([v], r1)
              else None
          end
      end
  end

(** The pairs of a dictionary after the opening brace, up to the closing
    one. *)
with parse_members (fuel : nat) (s : string) :
  option (list (string * pyval) * string) :=
  match fuel with
  | O => None
  | S fuel' =>
      match s with
      | EmptyString => None
      | String c r =>
          if Ascii.eqb c dquote then
            match scan_string r with
            | None => None
            | Some (key, r1) =>
                match skip_ws r1 with
                | EmptyString => None
                | String c2 r2 =>
                    if Ascii.eqb c2 ":" then
                      match parse_value fuel' (skip_ws r2) with
                      | None => None
                      | Some (v, r3) =>
                          match skip_ws r3 with
                          | EmptyString => None
                          | String c4 r4 =>
                              if Ascii.eqb c4 "," then
                                match parse_members fuel' (skip_ws r4) with
                                | Some (pairs, r') => Some ((key, v) :: pairs, r')
                                | None => None
                                end
                              else if Ascii.eqb c4 "}" then Some ([(key, v)], r4)
                              else None
                          end
                      end
                    else None
                end
            end
          else None
      end
  end.

(** [json.loads(raw, object_hook=from_json)]: the value of the text, which
    white space may surround and nothing else may follow. *)
Definition json_loads (raw : string) : result pyval :=
  match parse_value (2 * String.length raw + 2) (skip_ws raw) with
  | Some (v, rest) =>
      match skip_ws rest with
      | EmptyString => Return v
      | String _ _ => Raise ValueError
      end
  | None => Raise ValueError
  end.

(** The text of a floating-point number that is a number of JSON: it has
    a fraction or an exponent and nothing after it. *)
Definition float_literal (repr : string) : bool :=
  match scan_number repr with
  | Some (_, frac, exp, EmptyString) => (Files.nonempty frac || Files.nonempty exp)%bool
  | _ => false
  end.

Fixpoint distinct (keys : list string) : bool :=
  match keys with
  | [] => true
  | k :: rest => (negb (existsb (String.eqb k) rest) && distinct rest)%bool
  end.

(** The values JSON can represent: [None], truth values, integers,
    floating-point numbers that are numbers of JSON (given by the [repr]
    of the number, not by another text for it), texts, and lists and
    dictionaries of such values, no key twice in a dictionary. *)
Fixpoint representable (v : pyval) : bool :=
  match v with
  | PNone | PBool _ | PInt _ | PStr _ => true
  | PFloat repr => (float_literal repr && String.eqb (float_repr repr) repr)%bool
  | PList l => forallb representable l
  | PDict d =>
      (distinct (map fst d) && forallb (fun kv => representable (snd kv)) d)%bool
  | PObject _ => false
  end.

(** Python's [==] on values, as far as it goes into them: two lists are
    equal when they have equal items in the same order, two dictionaries
    when they have as many items and every key of the first has an equal
    value in the second, whatever the order.  (It is finer than [==] on
    numbers: an integer and a floating-point number are told apart.) *)
Fixpoint deep_equal (a b : pyval) : bool :=
  match a, b with
  | PNone, PNone => true
  | PBool x, PBool y => Bool.eqb x y
  | PInt x, PInt y => Z.eqb x y
  | PFloat x, PFloat y => String.eqb x y
  | PStr x, PStr y => String.eqb x y
  | PList l, PList l' =>
      (fix items (l l' : list pyval) : bool :=
         match l, l' with
         | [], [] => true
         | x :: l, y :: l' => (deep_equal x y && items l l')%bool
         | _, _ => false
         end) l l'
  | PDict d, PDict d' =>
      (Nat.eqb (length d) (length d')
       && forallb (fun kv => match dict_get (fst kv) d' with
                             | Some y => deep_equal (snd kv) y
                             | None => false
                             end) d)%bool
  | PObject x, PObject y => String.eqb x y
  | _, _ => false
  end.

(** The JSON library as [DBPrefs] has it. *)
Definition codec : JSON :=
  {| Prefs.json_dumps := json_dumps; Prefs.json_loads := json_loads |}.

End Reader.

End Json.

(** ** A platform to run the methods on

    A POSIX-like platform with simple stand-ins for the functions the code
    imports: it is used to evaluate the methods on concrete calls. *)

Module Sample.
Import Files.

(** Stand-in for [ascii_filename]: bytes outside printable ASCII and the
    characters a file name cannot hold become ['_']. *)
Definition sample_ascii_char (c : ascii) : ascii :=
  let n := nat_of_ascii c in
  if (Nat.ltb n 32 || Nat.leb 127 n || Ascii.eqb c "/" || Ascii.eqb c "?")%bool
  then "_"%char else c.

Definition sample_ascii_filename (s : string) : string := string_map sample_ascii_char s.

Definition posix_join (a b : string) : string :=
  match b with
  | String "/" _ => b
  | _ => if (negb (Files.nonempty a) || ends_with_char "/" a)%bool
         then a +:+ b else a +:+ "/" +:+ b
  end.

(** Everything before the last ['/']. *)
Fixpoint posix_dirname (p : string) : string :=
  match p with
  | EmptyString => EmptyString
  | String c p' =>
      if contains_char "/" p' then String c (posix_dirname p') else EmptyString
  end.

(** Stand-in for the digest: any function of the bytes will do. *)
Definition sample_digest (data : string) : string := "digest(" +:+ data +:+ ")".

#[export] Instance posix : Platform := {|
  iswindows := false;
  ascii_filename := sample_ascii_filename;
  Unknown := "Unknown";
  os_sep := "/";
  os_path_join := posix_join;
  os_path_dirname := posix_dirname;
  os_path_abspath := fun p => p;
  os_path_realpath := fun p => p;
  os_path_normcase := fun p => p;
  SPOOL_SIZE := 4%positive;
  sha256_hexdigest := sample_digest
|}.

(** A library on a file system that tells upper from lower case. *)
Definition library : DB := {| library_path := "/lib"; is_case_sensitive := true |}.

(** The JSON library, with texts of numbers that are the [repr] of their
    number and dictionaries that yield their items in the order in which
    they were put in. *)
#[export] Instance json : Prefs.JSON := Json.codec (fun text => text) (fun d => d).

(** Lower-casing of ASCII letters as a stand-in for the ICU library. *)
#[export] Instance icu : UserCategories.ICU := {|
  UserCategories.icu_lower := lower
|}.

(** An operating system in which nothing exists and every action works. *)
Definition calm : oracle :=
  {| on_query := fun _ _ => false;
     on_action := fun _ _ => None;
     on_listing := fun _ _ => inr [];
     on_reading := fun _ _ => inl EnvIOError |}.

(** An operating system in which every path exists and every file holds
    the same eleven bytes. *)
Definition full : oracle :=
  {| on_query := fun _ _ => true;
     on_action := fun _ _ => None;
     on_listing := fun _ _ => inr [];
     on_reading := fun _ _ => inr "hello world" |}.

(** A run about to start, with one record: its path and the stems of its
    formats. *)
Definition start (o : oracle) (book_id : Z) (path : string)
  (stems : list (string * string)) : world :=
  {| env := o; clock := 0; log := [];
     path_map := {[book_id := path]};
     formats_map := {[book_id := map fst stems]};
     fname_map := list_to_map (map (fun fs => ((book_id, fst fs), snd fs)) stems) |}.

(** An operating system for a record whose folder holds no cover: every
    path exists, no two paths name the same file, a hard link to a PDF file
    cannot be made and no file can be opened for reading. *)
Definition no_pdf : oracle :=
  {| on_query := fun _ q => match q with os_path_exists _ => true | _ => false end;
     on_action := fun _ a =>
       match a with
       | hardlink_file _ dst =>
           if String.eqb dst "/lib/Bar/Foo (7)/Foo - Bar.pdf"
           then Some EnvOSError else None
       | _ => None
       end;
     on_listing := fun _ _ => inr [];
     on_reading := fun _ _ => inl EnvIOError |}.

(** A preference store with an empty table. *)
Definition empty_prefs (disabled : bool) (flt : list bool) : Prefs.DBPrefs :=
  {| Prefs.table := ∅; Prefs.mirror := ∅; Prefs.defaults := ∅;
     Prefs.disable_setting := disabled; Prefs.faults := flt;
     Prefs.history := [] |}.

End Sample.

(** ** Tables of custom columns *)

Module CustomColumns.

(** [custom_table_names]: the table of the values of custom column [num]
    and the table that links them to the books. *)
Definition custom_table_names (num : Z) : string * string :=
  ("custom_column_" +:+ str num, "books_custom_column_" +:+ str num +:+ "_link").

End CustomColumns.

(** ** Files in use on Windows: [DB.windows_check_if_files_in_use] *)

Module FilesInUse.
Import Files.

Section Methods.
Context `{Platform}.

(** [wam = WindowsAtomicFolderMove(spath)] under [try], with
    [if wam is not None: wam.close_handles()] under [finally]: the handles
    are closed when they were opened, and an exception of the constructor
    goes on to the caller. *)
Definition open_and_close (spath : string) : M world unit :=
  let* opened := attempt (act (wam_open spath)) in
  match opened with
  | Return _ => act wam_close_handles
  | Raise e => raise e
  end.

Definition windows_check_if_files_in_use (self : DB) (paths : list string) :
  M world unit :=
  when iswindows
    (for_each paths (fun path =>
       let spath := join_all (library_path self) (split_on "/" path) in
       let* there := ask (os_path_exists spath) in
       when there (open_and_close spath))).

End Methods.

End FilesInUse.

(** ** Aggregate functions registered with sqlite *)

Module Aggregates.

(** A value sqlite hands to a function or takes back from it: NULL
    (Python's [None]), a text, or a value of another type (an integer, a
    float, a blob). *)
Inductive value : Type :=
| Null
| Text (s : string)
| Other.

(** The items of a sequence as texts; [TypeError] at an item that is not a
    text, which is what [join] raises for it. *)
Fixpoint texts (items : list value) : result (list string) :=
  match items with
  | [] => Return []
  | Text s :: rest =>
      match texts rest with
      | Return l => Return (s :: l)
      | Raise e => Raise e
      end
  | _ :: _ => Raise TypeError
  end.

(** [sep.join(items)]. *)
Definition join (sep : string) (items : list value) : result string :=
  match texts items with
  | Return l => Return (String.concat sep l)
  | Raise e => Raise e
  end.

(** What an aggregate factory returns: the context object, the step
    function and the final function.  The step function changes the context
    in place; here it returns the changed context. *)
Record aggregate (C R : Type) : Type := {
  context : C;
  step : C -> R -> result C;
  finalize : C -> result value
}.
Arguments context {C R} _.
Arguments step {C R} _ _ _.
Arguments finalize {C R} _ _.

(** The step function called for each row of a group in turn. *)
Fixpoint steps {C R : Type} (f : C -> R -> result C) (ctxt : C) (rows : list R) :
  result C :=
  match rows with
  | [] => Return ctxt
  | row :: rows' =>
      match f ctxt row with
      | Return ctxt' => steps f ctxt' rows'
      | Raise e => Raise e
      end
  end.

(** The value of the aggregate for a group of rows, as sqlite computes it:
    the steps, then the final function on the context they leave. *)
Definition aggregate_rows {C R : Type} (a : aggregate C R) (rows : list R) :
  result value :=
  match steps (step a) (context a) rows with
  | Return ctxt => finalize a ctxt
  | Raise e => Raise e
  end.

Definition Concatenate (sep : string) : aggregate (list value) value :=
  {| context := [];
     step := fun ctxt value =>
       match value with
       | Null => Return ctxt
       | _ => Return (ctxt ++ [value])%list
       end;
     finalize := fun ctxt =>
       match ctxt with
       | [] => Return Null
       | _ :: _ =>
           match join sep ctxt with
           | Return s => Return (Text s)
           | Raise e => Raise e
           end
       end |}.

(** [sorted(ctxt.iterkeys())] for a dictionary keyed by integers. *)
Definition sorted_keys {A : Type} (ctxt : gmap Z A) : list Z :=
  merge_sort Z.le (map fst (map_to_list ctxt)).

(** The index [ndx] of a row is an integer (a position or a row id). *)
Definition SortedConcatenate (sep : string) : aggregate (gmap Z value) (Z * value) :=
  {| context := ∅;
     step := fun ctxt row =>
       let '(ndx, value) := row in
       match value with
       | Null => Return ctxt
       | _ => Return (<[ndx := value]> ctxt)
       end;
     finalize := fun ctxt =>
       if Nat.eqb (size ctxt) 0 then Return Null
       else
         match join sep (map (fun k => default Null (ctxt !! k)) (sorted_keys ctxt)) with
         | Return s => Return (Text s)
         | Raise e => Raise e
         end |}.

(** [ctxt[k]]. *)
Definition item (ctxt : gmap Z string) (k : Z) : result string :=
  match ctxt !! k with
  | Some s => Return s
  | None => Raise (KeyError (str k))
  end.

(** [[ctxt[v] for v in keys]]. *)
Fixpoint items (ctxt : gmap Z string) (keys : list Z) : result (list string) :=
  match keys with
  | [] => Return []
  | k :: keys' =>
      match item ctxt k with
      | Return s =>
          match items ctxt keys' with
          | Return l => Return (s :: l)
          | Raise e => Raise e
          end
      | Raise e => Raise e
      end
  end.

(** A row is [(ndx, author, sort, link)]. *)
Definition AumSortedConcatenate : aggregate (gmap Z string) (Z * value * value * value) :=
  {| context := ∅;
     step := fun ctxt row =>
       let '(ndx, author, sort, link) := row in
       match author with
       | Null => Return ctxt
       | _ =>
           match join ":::" [author; sort; link] with
           | Return s => Return (<[ndx := s]> ctxt)
           | Raise e => Raise e
           end
       end;
     finalize := fun ctxt =>
       let keys := map fst (map_to_list ctxt) in
       match keys with
       | [] => Return Null
       | [k] =>
           match item ctxt k with
           | Return s => Return (Text s)
           | Raise e => Raise e
           end
       | _ :: _ :: _ =>
           match items ctxt (merge_sort Z.le keys) with
           | Return l => Return (Text (String.concat ":#:" l))
           | Raise e => Raise e
           end
       end |}.

End Aggregates.

(** ** The test server: class [HTTPRequestHandler] of [TestHTTPServer.py] *)

Module TestHTTPServer.

(** What the handler takes from Python and from its base class
    [SimpleHTTPRequestHandler]: [py_int s] is [int(s)] for a text [s],
    [date_time_string], [translate_path] and [guess_type] are the methods of
    these names, [os_path_join] is [os.path.join]. *)
Class Library : Type := {
  py_int : string -> result Z;
  date_time_string : Z -> string;
  translate_path : string -> string;
  guess_type : string -> string;
  os_path_join : string -> string -> string
}.

(** The file system as one request meets it.  [open_rb p] is the content of
    the file [p] with its modification time in whole seconds
    ([int(fs.st_mtime)]), or [None] where [open] raises [IOError];
    [listing p] is the page [list_directory(p)] returns, or [None] where it
    returns [None]. *)
Record site : Type := {
  isdir : string -> bool;
  exists_ : string -> bool;
  open_rb : string -> option (string * Z);
  listing : string -> option string
}.

(** The file objects the handler reads from. *)
Inductive stream_kind : Type := DiskFile | BytesIO | StringIO.

Record stream : Type := {
  kind : stream_kind;
  data : string
}.

(** Calls on the connection: the methods of the base class that send a part
    of the response, and [self.wfile.write].  [list_directory_reply p]
    stands for all that [list_directory(p)] sends. *)
Inductive call : Type :=
| send_response (code : Z)
| send_header (keyword value : string)
| end_headers
| send_error (code : Z) (message : string)
| list_directory_reply (p : string)
| wfile_write (raw : string).

(** A handler at work on one request.  [headers] holds the request headers
    under their lower-cased names, as the message object of the base class
    does; [broken n] says whether the [n]-th call on the connection raises;
    [wfile] lists the calls made so far, each with whether it went through. *)
Record handler : Type := {
  path : string;
  headers : gmap string string;
  fs : site;
  broken : nat -> bool;
  wfile : list (call * bool)
}.

(** One call on the connection. *)
Definition emit (c : call) : M handler unit :=
  fun self =>
    let fails := broken self (length (wfile self)) in
    (if fails then Raise IOError else Return tt,
     {| path := path self; headers := headers self; fs := fs self;
        broken := broken self;
        wfile := (wfile self ++ [(c, negb fails)])%list |}).

(** [s.split(sep, 1)] for a separator of one character. *)
Fixpoint split_once (sep : ascii) (s : string) : list string :=
  match s with
  | EmptyString => [EmptyString]
  | String c s' =>
      if Ascii.eqb c sep then [EmptyString; s']
      else match split_once sep s' with
           | [] => [String c EmptyString]
           | w :: ws => String c w :: ws
           end
  end.

(** [f.seek(pos, 0)]: the new position, or what the file object raises for
    a negative one. *)
Definition seek (f : stream) (pos : Z) : result nat :=
  if (pos <? 0)%Z then
    match kind f with
    | DiskFile => Raise IOError
    | BytesIO => Raise ValueError
    | StringIO => Return 0%nat
    end
  else Return (Z.to_nat pos).

(** [with f:].  The file objects of [open] and of [io] are context
    managers.  The [StringIO] object that [list_directory] of Python 2
    returns is none: it has no [__exit__], and the statement raises
    [AttributeError]. *)
Definition enter (f : stream) : result unit :=
  match kind f with
  | StringIO => Raise (Exception "AttributeError")
  | DiskFile | BytesIO => Return tt
  end.

(** [f.read(n)] at position [pos], for [n] at least 1. *)
Definition read (f : stream) (pos : nat) (n : Z) : string :=
  Files.take (Z.to_nat n) (Files.drop pos (data f)).

(** The bytes of [FAVICON]. *)
Definition FAVICON : string :=
  string_of_list_ascii (map ascii_of_N [
   0; 0; 1; 0; 1; 0; 16; 16; 0; 0; 0; 0; 0; 0; 104; 5; 0; 0; 22; 0;
   0; 0; 40; 0; 0; 0; 16; 0; 0; 0; 32; 0; 0; 0; 1; 0; 8; 0; 0; 0;
   0; 0; 64; 1; 0; 0; 0; 0; 0; 0; 0; 0; 0; 0; 0; 0; 0; 0; 0; 0;
   0; 0; 0; 0; 0; 0; 255; 255; 255; 0; 40; 52; 221; 0; 82; 87; 88; 0; 0; 0;
   119; 0; 5; 78; 91; 0; 97; 96; 241; 0; 46; 124; 138; 0; 3; 3; 183; 0; 28; 41;
   45; 0; 45; 44; 96; 0; 3; 2; 70; 0; 32; 32; 187; 0; 19; 19; 146; 0; 22; 22;
   220; 0; 8; 7; 33; 0; 23; 18; 100; 0; 58; 71; 74; 0; 64; 63; 107; 0; 37; 32;
   119; 0; 1; 1; 155; 0; 7; 3; 210; 0; 1; 0; 91; 0; 18; 23; 24; 0; 17; 17;
   49; 0; 44; 44; 203; 0; 55; 77; 96; 0; 14; 14; 164; 0; 10; 10; 131; 0; 35; 43;
   82; 0; 34; 33; 225; 0; 31; 26; 88; 0; 20; 20; 178; 0; 11; 13; 79; 0; 10; 10;
   113; 0; 8; 8; 146; 0; 51; 50; 214; 0; 41; 41; 188; 0; 8; 8; 60; 0; 17; 43;
   50; 0; 2; 2; 134; 0; 37; 35; 108; 0; 49; 69; 91; 0; 35; 34; 197; 0; 21; 21;
   156; 0; 13; 13; 153; 0; 15; 15; 60; 0; 35; 34; 92; 0; 28; 27; 225; 0; 10; 9;
   41; 0; 20; 29; 216; 0; 31; 31; 112; 0; 7; 7; 120; 0; 2; 2; 78; 0; 23; 46;
   53; 0; 5; 5; 89; 0; 1; 0; 84; 0; 31; 30; 119; 0; 6; 6; 126; 0; 11; 11;
   30; 0; 0; 0; 179; 0; 8; 9; 76; 0; 1; 1; 114; 0; 11; 16; 57; 0; 38; 38;
   190; 0; 4; 4; 137; 0; 10; 5; 210; 0; 8; 8; 129; 0; 3; 3; 156; 0; 2; 2;
   181; 0; 2; 2; 91; 0; 13; 13; 163; 0; 2; 2; 133; 0; 0; 0; 0; 0; 0; 0;
   0; 0; 0; 0; 0; 0; 0; 0; 0; 0; 0; 0; 0; 0; 0; 0; 0; 0; 0; 0;
   0; 0; 0; 0; 0; 0; 0; 0; 0; 0; 0; 0; 0; 0; 0; 0; 0; 0; 0; 0;
   0; 0; 0; 0; 0; 0; 0; 0; 0; 0; 0; 0; 0; 0; 0; 0; 0; 0; 0; 0;
   0; 0; 0; 0; 0; 0; 0; 0; 0; 0; 0; 0; 0; 0; 0; 0; 0; 0; 0; 0;
   0; 0; 0; 0; 0; 0; 0; 0; 0; 0; 0; 0; 0; 0; 0; 0; 0; 0; 0; 0;
   0; 0; 0; 0; 0; 0; 0; 0; 0; 0; 0; 0; 0; 0; 0; 0; 0; 0; 0; 0;
   0; 0; 0; 0; 0; 0; 0; 0; 0; 0; 0; 0; 0; 0; 0; 0; 0; 0; 0; 0;
   0; 0; 0; 0; 0; 0; 0; 0; 0; 0; 0; 0; 0; 0; 0; 0; 0; 0; 0; 0;
   0; 0; 0; 0; 0; 0; 0; 0; 0; 0; 0; 0; 0; 0; 0; 0; 0; 0; 0; 0;
   0; 0; 0; 0; 0; 0; 0; 0; 0; 0; 0; 0; 0; 0; 0; 0; 0; 0; 0; 0;
   0; 0; 0; 0; 0; 0; 0; 0; 0; 0; 0; 0; 0; 0; 0; 0; 0; 0; 0; 0;
   0; 0; 0; 0; 0; 0; 0; 0; 0; 0; 0; 0; 0; 0; 0; 0; 0; 0; 0; 0;
   0; 0; 0; 0; 0; 0; 0; 0; 0; 0; 0; 0; 0; 0; 0; 0; 0; 0; 0; 0;
   0; 0; 0; 0; 0; 0; 0; 0; 0; 0; 0; 0; 0; 0; 0; 0; 0; 0; 0; 0;
   0; 0; 0; 0; 0; 0; 0; 0; 0; 0; 0; 0; 0; 0; 0; 0; 0; 0; 0; 0;
   0; 0; 0; 0; 0; 0; 0; 0; 0; 0; 0; 0; 0; 0; 0; 0; 0; 0; 0; 0;
   0; 0; 0; 0; 0; 0; 0; 0; 0; 0; 0; 0; 0; 0; 0; 0; 0; 0; 0; 0;
   0; 0; 0; 0; 0; 0; 0; 0; 0; 0; 0; 0; 0; 0; 0; 0; 0; 0; 0; 0;
   0; 0; 0; 0; 0; 0; 0; 0; 0; 0; 0; 0; 0; 0; 0; 0; 0; 0; 0; 0;
   0; 0; 0; 0; 0; 0; 0; 0; 0; 0; 0; 0; 0; 0; 0; 0; 0; 0; 0; 0;
   0; 0; 0; 0; 0; 0; 0; 0; 0; 0; 0; 0; 0; 0; 0; 0; 0; 0; 0; 0;
   0; 0; 0; 0; 0; 0; 0; 0; 0; 0; 0; 0; 0; 0; 0; 0; 0; 0; 0; 0;
   0; 0; 0; 0; 0; 0; 0; 0; 0; 0; 0; 0; 0; 0; 0; 0; 0; 0; 0; 0;
   0; 0; 0; 0; 0; 0; 0; 0; 0; 0; 0; 0; 0; 0; 0; 0; 0; 0; 0; 0;
   0; 0; 0; 0; 0; 0; 0; 0; 0; 0; 0; 0; 0; 0; 0; 0; 0; 0; 0; 0;
   0; 0; 0; 0; 0; 0; 0; 0; 0; 0; 0; 0; 0; 0; 0; 0; 0; 0; 0; 0;
   0; 0; 0; 0; 0; 0; 0; 0; 0; 0; 0; 0; 0; 0; 0; 0; 0; 0; 0; 0;
   0; 0; 0; 0; 0; 0; 0; 0; 0; 0; 0; 0; 0; 0; 0; 0; 0; 0; 0; 0;
   0; 0; 0; 0; 0; 0; 0; 0; 0; 0; 0; 0; 0; 0; 0; 0; 0; 0; 0; 0;
   0; 0; 0; 0; 0; 0; 0; 0; 0; 0; 0; 0; 0; 0; 0; 0; 0; 0; 0; 0;
   0; 0; 0; 0; 0; 0; 0; 0; 0; 0; 0; 0; 0; 0; 0; 0; 0; 0; 0; 0;
   0; 0; 0; 0; 0; 0; 0; 0; 0; 0; 0; 0; 0; 0; 0; 0; 0; 0; 0; 0;
   0; 0; 0; 0; 0; 0; 0; 0; 0; 0; 0; 0; 0; 0; 0; 0; 0; 0; 0; 0;
   0; 0; 0; 0; 0; 0; 0; 0; 0; 0; 0; 0; 0; 0; 0; 0; 0; 0; 0; 0;
   0; 0; 0; 0; 0; 0; 0; 0; 0; 0; 0; 0; 0; 0; 0; 0; 0; 0; 0; 0;
   0; 0; 0; 0; 0; 0; 0; 0; 0; 0; 0; 0; 0; 0; 0; 0; 0; 0; 0; 0;
   0; 0; 0; 0; 0; 0; 0; 0; 0; 0; 0; 0; 0; 0; 0; 0; 0; 0; 0; 0;
   0; 0; 0; 0; 0; 0; 0; 0; 0; 55; 11; 0; 0; 0; 0; 0; 0; 0; 0; 0;
   0; 0; 0; 0; 22; 70; 53; 56; 0; 0; 0; 0; 0; 0; 0; 0; 0; 0; 0; 15;
   4; 40; 72; 62; 49; 0; 0; 0; 0; 0; 0; 0; 0; 0; 57; 65; 60; 69; 8; 20;
   67; 51; 0; 0; 0; 0; 0; 0; 0; 0; 64; 52; 38; 68; 58; 59; 28; 37; 0; 0;
   0; 0; 0; 0; 0; 0; 43; 34; 46; 27; 13; 24; 35; 12; 0; 0; 0; 0; 0; 0;
   0; 0; 47; 71; 30; 25; 36; 14; 45; 41; 0; 0; 0; 0; 0; 0; 0; 0; 31; 32;
   6; 18; 10; 48; 44; 19; 0; 0; 0; 0; 0; 0; 0; 0; 16; 21; 2; 26; 42; 50;
   66; 0; 0; 0; 0; 0; 0; 0; 0; 0; 0; 33; 29; 17; 9; 63; 61; 0; 0; 0;
   0; 0; 0; 0; 0; 0; 0; 0; 7; 3; 23; 5; 0; 0; 0; 0; 0; 0; 0; 0;
   0; 0; 0; 0; 0; 54; 39; 0; 0; 0; 0; 0; 0; 0; 0; 0; 0; 0; 0; 0;
   0; 0; 0; 0; 0; 0; 0; 0; 0; 0; 0; 0; 0; 0; 0; 0; 0; 0; 0; 0;
   0; 0; 0; 0; 0; 0; 0; 0; 0; 0; 0; 0; 0; 0; 0; 0; 0; 0; 0; 0;
   0; 0; 255; 255; 0; 0; 254; 127; 0; 0; 252; 63; 0; 0; 248; 31; 0; 0; 240; 15;
   0; 0; 240; 15; 0; 0; 240; 15; 0; 0; 240; 15; 0; 0; 240; 15; 0; 0; 240; 31;
   0; 0; 248; 31; 0; 0; 252; 63; 0; 0; 254; 127; 0; 0; 255; 255; 0; 0; 255; 255;
   0; 0; 255; 255; 0; 0
  ]%N).

Section Methods.
Context `{Library}.

(** [name in self.headers] and [self.headers[name]]: the message object
    compares header names without regard to case. *)
Definition header (name : string) (self : handler) : option string :=
  headers self !! lower name.

Definition parse_range_header (self : handler) (size : Z) : result (Z * Z * Z) :=
  let rtype := match header "Range" self with Some _ => 206 | None => 200 end in
  match header "Range" self with
  | None => Return (rtype, 0, -1)
  | Some value =>
      match split_once "-" (Files.drop 6 value) with
      | [s; e] =>
          if Files.nonempty s then
            match py_int s with
            | Raise ex => Raise ex
            | Return start_range =>
                if Files.nonempty e then
                  match py_int e with
                  | Raise ex => Raise ex
                  | Return ei => Return (rtype, start_range, ei + 1)
                  end
                else Return (rtype, start_range, -1)
            end
          else if Files.nonempty e then
            match py_int e with
            | Raise ex => Raise ex
            | Return ei =>
                Return (rtype, (if (ei <? size)%Z then size - ei else 0), -1)
            end
          else Return (rtype, 0, -1)
      | _ => Raise ValueError
      end
  end.

(** [send_file]; [mtime] is [int(mtime)]. *)
Definition send_file (f : stream) (mimetype : string) (mtime : Z) :
  M handler (option stream * Z * Z) :=
  fun self =>
    let size := Z.of_nat (String.length (data f)) in
    match parse_range_header self size with
    | Raise ex => (Raise ex, self)
    | Return (rtype, start_range, end_range) =>
        let end_range := if (end_range <=? start_range)%Z then size else end_range in
        (let* _ := emit (send_response rtype) in
         let* _ := emit (send_header "Accept-Ranges" "bytes") in
         let* _ := emit (send_header "Content-Range"
                           ("bytes " +:+ str start_range +:+ "-"
                            +:+ str (end_range - 1) +:+ "/" +:+ str size)) in
         let* _ := emit (send_header "Content-Type" mimetype) in
         let* _ := emit (send_header "Content-Length" (str (end_range - start_range))) in
         let* _ := emit (send_header "Last-Modified" (date_time_string mtime)) in
         let* _ := emit end_headers in
         ret (Some f, start_range, end_range)) self
    end.

Definition send_bytes (raw mimetype : string) (mtime : Z) :
  M handler (option stream * Z * Z) :=
  send_file {| kind := BytesIO; data := raw |} mimetype mtime.

(** [for index in "index.html", "index.htm"]: the first of the two that
    exists in the folder [p]. *)
Definition find_index (self : handler) (p : string) : option string :=
  if exists_ (fs self) (os_path_join p "index.html")
  then Some (os_path_join p "index.html")
  else if exists_ (fs self) (os_path_join p "index.htm")
  then Some (os_path_join p "index.htm")
  else None.

(** From [ctype = self.guess_type(path)] to the end of [send_head]. *)
Definition send_path (p : string) : M handler (option stream * Z * Z) :=
  fun self =>
    let ctype := guess_type p in
    match open_rb (fs self) p with
    | None =>
        (let* _ := emit (send_error 404 "File not found") in
         ret (None, 0, 0)) self
    | Some (content, mtime) =>
        send_file {| kind := DiskFile; data := content |} ctype mtime self
    end.

Definition send_head : M handler (option stream * Z * Z) :=
  fun self =>
    if String.eqb (path self) "/favicon.ico"
    then send_bytes FAVICON "image/x-icon" 1326214111 self
    else
      let p := translate_path (path self) in
      if isdir (fs self) p then
        if negb (Files.ends_with_char "/" (path self)) then
          (let* _ := emit (send_response 301) in
           let* _ := emit (send_header "Location" (path self +:+ "/")) in
           let* _ := emit end_headers in
           ret (None, 0, 0)) self
        else
          match find_index self p with
          | Some index => send_path index self
          | None =>
              (let* _ := emit (list_directory_reply p) in
               match listing (fs self) p with
               | None => raise (Exception "AttributeError")
               | Some page =>
                   ret (Some {| kind := StringIO; data := page |}, 0,
                        Z.of_nat (String.length page))
               end) self
          end
      else send_path p self.

(** The loop of [do_GET]; [pos] is the position of the file object.  Every
    turn moves [start_range] forward by at least 1, so [fuel] above
    [end_range - start_range] is never used up.  (The counter [total] of the
    code is not read anywhere and is left out.) *)
Fixpoint send_chunks (fuel : nat) (f : stream) (pos : nat)
  (start_range end_range chunk : Z) : M handler unit :=
  let chunk := if (start_range + chunk >? end_range)%Z
               then end_range - start_range else chunk in
  if (chunk <? 1)%Z then ret tt
  else
    match fuel with
    | O => ret tt
    | S fuel' =>
        let raw := read f pos chunk in
        let* written := attempt (emit (wfile_write raw)) in
        match written with
        | Raise _ => ret tt
        | Return _ =>
            send_chunks fuel' f (pos + String.length raw)%nat
                        (start_range + chunk) end_range chunk
        end
    end.

Definition do_GET : M handler unit :=
  let* head := send_head in
  let '(f, start_range, end_range) := head in
  match f with
  | None => ret tt
  | Some f =>
      let* _ := lift (enter f) in
      let* pos := lift (seek f start_range) in
      send_chunks (Z.to_nat (end_range - start_range)) f pos
                  start_range end_range 4096
  end.

Definition do_HEAD : M handler unit :=
  let* head := send_head in
  ret tt.

End Methods.

(** A request for [p] with the given [Range] header, if any, on a
    connection that holds. *)
Definition request (s : site) (p : string) (range : option string) : handler :=
  {| path := p;
     headers := match range with
                | Some value => {["range" := value]}
                | None => ∅
                end;
     fs := s;
     broken := fun _ => false;
     wfile := [] |}.

End TestHTTPServer.

(** * Properties *)

(** ** Decimal numerals *)

Lemma uint_numeral (u : Decimal.uint) :
  string_forall numeral_char (NilEmpty.string_of_uint u) = true.
Proof. induction u; simpl; auto. Qed.

Lemma str_numeral (n : Z) : string_forall numeral_char (str n) = true.
Proof.
  unfold str. destruct (Z.to_int n) as [u|u]; simpl.
  - destruct u; simpl; auto using uint_numeral.
  - destruct u; simpl; auto using uint_numeral.
Qed.

Lemma str_head (n : Z) :
  exists c s, str n = String c s /\ numeral_char c = true.
Proof.
  pose proof (str_numeral n) as Hn.
  destruct (str n) as [|c s] eqn:E.
  - exfalso. unfold str in E.
    destruct (Z.to_int n) as [u|u]; simpl in E; [destruct u|]; discriminate.
  - exists c, s. split; [reflexivity|].
    simpl in Hn. apply andb_true_iff in Hn. tauto.
Qed.

Lemma to_int_proper (n : Z) :
  Z.to_int n <> Decimal.Pos Decimal.Nil /\ Z.to_int n <> Decimal.Neg Decimal.Nil.
Proof.
  destruct n as [|p|p]; simpl; split; try discriminate;
    intros [= E]; exact (Unsigned.to_uint_nonnil p E).
Qed.

Lemma str_inj (n m : Z) : str n = str m -> n = m.
Proof.
  unfold str. intros E.
  apply DecimalZ.to_int_inj.
  destruct (to_int_proper n) as [Hn1 Hn2], (to_int_proper m) as [Hm1 Hm2].
  pose proof (NilZero.isi _ Hn1 Hn2) as In.
  pose proof (NilZero.isi _ Hm1 Hm2) as Im.
  rewrite E in In. congruence.
Qed.

Lemma string_length_app (a b : string) :
  String.length (a +:+ b) = (String.length a + String.length b)%nat.
Proof. induction a; simpl; auto. Qed.

Lemma string_app_inv_tail (a b t : string) : a +:+ t = b +:+ t -> a = b.
Proof.
  revert b. induction a as [|c a IH]; intros [|d b] E; simpl in *.
  - reflexivity.
  - exfalso. apply (f_equal String.length) in E.
    rewrite ?string_length_app in E. simpl in E.
    rewrite ?string_length_app in E. lia.
  - exfalso. apply (f_equal String.length) in E.
    rewrite ?string_length_app in E. simpl in E.
    rewrite ?string_length_app in E. lia.
  - injection E as -> E. f_equal. auto.
Qed.

(** ** Field slots *)

Module FieldSlotsFacts.
Import FieldSlots.

(** The keys a run of the custom-column loop may write. *)
Definition custom_keys (cols : list (string * custom_column)) : list fm_key :=
  flat_map (fun item => [KNum (num (snd item));
                         KStr (str (num (snd item)) +:+ "_index")]) cols.

Lemma custom_step_base st item :
  ls_base (custom_step st item) = ls_base st + width (snd item).
Proof.
  destruct item as [l d]. unfold custom_step, width. simpl.
  destruct (String.eqb (datatype d) "series"); simpl; lia.
Qed.

Lemma custom_loop_base cols st :
  ls_base (foldl custom_step st cols) = ls_base st + slots_used cols.
Proof.
  revert st. induction cols as [|item cols IH]; intros st; simpl.
  - lia.
  - rewrite IH, custom_step_base. lia.
Qed.

Lemma custom_keys_cons item cols :
  custom_keys (item :: cols)
  = KNum (num (snd item)) :: KStr (str (num (snd item)) +:+ "_index")
      :: custom_keys cols.
Proof. reflexivity. Qed.

Lemma custom_step_other st item k :
  k <> KNum (num (snd item)) ->
  k <> KStr (str (num (snd item)) +:+ "_index") ->
  ls_map (custom_step st item) !! k = ls_map st !! k.
Proof.
  destruct item as [l d]. simpl. intros H1 H2.
  unfold custom_step.
  destruct (String.eqb (datatype d) "series"); simpl;
    rewrite ?lookup_insert_ne by congruence; reflexivity.
Qed.

Lemma custom_loop_other cols st k :
  k ∉ custom_keys cols ->
  ls_map (foldl custom_step st cols) !! k = ls_map st !! k.
Proof.
  revert st. induction cols as [|item cols IH]; intros st Hk; simpl.
  - reflexivity.
  - rewrite custom_keys_cons in Hk.
    apply not_elem_of_cons in Hk as [H1 Hk].
    apply not_elem_of_cons in Hk as [H2 Hk].
    rewrite IH by exact Hk. apply custom_step_other; assumption.
Qed.

Lemma custom_step_num st l d :
  ls_map (custom_step st (l, d)) !! KNum (num d) = Some (ls_base st + 1).
Proof.
  unfold custom_step.
  destruct (String.eqb (datatype d) "series"); simpl.
  - rewrite lookup_insert_ne by discriminate. apply lookup_insert_eq.
  - apply lookup_insert_eq.
Qed.

Lemma custom_step_index st l d :
  datatype d = "series" ->
  ls_map (custom_step st (l, d)) !! KStr (str (num d) +:+ "_index")
  = Some (ls_base st + 2).
Proof.
  intros Hs. unfold custom_step. rewrite Hs. simpl.
  rewrite lookup_insert_eq. f_equal. lia.
Qed.

Lemma custom_keys_of_num cols k :
  k ∈ custom_keys cols ->
  exists item, item ∈ cols /\
    (k = KNum (num (snd item)) \/ k = KStr (str (num (snd item)) +:+ "_index")).
Proof.
  unfold custom_keys. intros Hin.
  apply list_elem_of_In, in_flat_map in Hin as (item & Hitem & Hk).
  exists item. split; [apply list_elem_of_In; exact Hitem|].
  simpl in Hk. intuition.
Qed.

Lemma num_key_fresh (d : custom_column) cols :
  ~ In (num d) (map (fun item => num (snd item)) cols) ->
  (KNum (num d) ∉ custom_keys cols) /\
  (KStr (str (num d) +:+ "_index") ∉ custom_keys cols).
Proof.
  intros Hfresh. split; intros Hin;
    apply custom_keys_of_num in Hin as (item & Hitem & [E|E]);
    try discriminate; apply Hfresh; apply in_map_iff; exists item;
    (split; [|apply list_elem_of_In; exact Hitem]).
  - injection E as E. congruence.
  - injection E as E. apply string_app_inv_tail, str_inj in E. congruence.
Qed.

(** A name that starts with no numeral character is none of the keys the
    custom-column loop writes. *)
Lemma name_not_custom_key (c : ascii) (s : string) cols :
  numeral_char c = false -> KStr (String c s) ∉ custom_keys cols.
Proof.
  intros Hc Hin.
  apply custom_keys_of_num in Hin as (item & _ & [E|E]); [discriminate|].
  injection E as E.
  destruct (str_head (num (snd item))) as (c' & s' & Es & Hc').
  rewrite Es in E. simpl in E. injection E as -> _. congruence.
Qed.

Lemma builtin_name_head k v :
  (k, v) ∈ builtin_slots ->
  exists c s, k = String c s /\ numeral_char c = false.
Proof.
  intros Hin. apply list_elem_of_In in Hin. simpl in Hin.
  repeat (destruct Hin as [[= <- <-]|Hin]; [eexists _, _; split; reflexivity|]).
  destruct Hin.
Qed.

Lemma builtin_initial k v :
  (k, v) ∈ builtin_slots ->
  (foldl (fun (m : gmap fm_key Z) kv => <[KStr (fst kv) := snd kv]> m) ∅
         builtin_slots) !! KStr k = Some v.
Proof.
  intros Hin. apply list_elem_of_In in Hin. simpl in Hin.
  repeat (destruct Hin as [[= <- <-]|Hin]; [vm_compute; reflexivity|]).
  destruct Hin.
Qed.

Lemma builtin_not_trailing k v :
  (k, v) ∈ builtin_slots ->
  k <> "ondevice" /\ k <> "marked" /\ k <> "series_sort".
Proof.
  intros Hin. apply list_elem_of_In in Hin. simpl in Hin.
  repeat (destruct Hin as [[= <- <-]|Hin]; [repeat split; discriminate|]).
  destruct Hin.
Qed.

Lemma slots_used_nonneg cols : 0 <= slots_used cols.
Proof.
  induction cols as [|[l d] cols IH]; simpl; [lia|].
  unfold width. destruct (String.eqb (datatype d) "series"); lia.
Qed.

Lemma slots_used_app pre post :
  slots_used (pre ++ post)%list = slots_used pre + slots_used post.
Proof. induction pre as [|item pre IH]; simpl; lia. Qed.

Lemma max_slot_builtin : max_slot builtin_slots = 21.
Proof. reflexivity. Qed.

Lemma trailing_lookup st :
  let st' := foldl trailing_step st ["ondevice"; "marked"; "series_sort"] in
  ls_map st' !! KStr "ondevice" = Some (ls_base st + 1) /\
  ls_map st' !! KStr "marked" = Some (ls_base st + 2) /\
  ls_map st' !! KStr "series_sort" = Some (ls_base st + 3) /\
  (forall k, k <> KStr "ondevice" -> k <> KStr "marked" ->
             k <> KStr "series_sort" -> ls_map st' !! k = ls_map st !! k).
Proof.
  unfold trailing_step. simpl. repeat split.
  - rewrite !lookup_insert_ne by discriminate. apply lookup_insert_eq.
  - rewrite lookup_insert_ne by discriminate. rewrite lookup_insert_eq.
    f_equal. lia.
  - rewrite lookup_insert_eq. f_equal. lia.
  - intros k H1 H2 H3. rewrite !lookup_insert_ne by congruence. reflexivity.
Qed.

(** The loop state on entry to the loop over the custom columns. *)
Definition st_builtin (ri : gmap (string * bool) Z) : loop_state :=
  {| ls_tables := builtin_tables;
     ls_map := foldl (fun (m : gmap fm_key Z) kv => <[KStr (fst kv) := snd kv]> m)
                     ∅ builtin_slots;
     ls_index := ri;
     ls_base := max_slot builtin_slots |}.

Lemma FIELD_MAP_unfold (self : DB) :
  exists st0,
    ls_base st0 = 21 /\
    (forall k v, (k, v) ∈ builtin_slots -> ls_map st0 !! KStr k = Some v) /\
    FIELD_MAP (initialize_tables self)
    = ls_map (foldl trailing_step
                (foldl custom_step st0 (custom_column_label_map self))
                ["ondevice"; "marked"; "series_sort"]).
Proof.
  exists (st_builtin
            (foldl (fun m kv => <[(fst kv, false) := snd kv]> m)
                   (record_index self) builtin_slots)).
  split; [reflexivity|]. split; [|reflexivity].
  intros k v Hin. unfold st_builtin. cbn [ls_map]. apply builtin_initial, Hin.
Qed.

(** Built-in fields of the literal dictionary keep their constant slots,
    whatever the custom columns are. *)
Lemma builtin_slots_fixed (self : DB) k v :
  (k, v) ∈ builtin_slots ->
  FIELD_MAP (initialize_tables self) !! KStr k = Some v.
Proof.
  intros Hin.
  destruct (FIELD_MAP_unfold self) as (st0 & Hb & H0 & ->).
  destruct (builtin_not_trailing k v Hin) as (N1 & N2 & N3).
  destruct (builtin_name_head k v Hin) as (c & s & -> & Hc).
  destruct (trailing_lookup (foldl custom_step st0 (custom_column_label_map self)))
    as (_ & _ & _ & Hother).
  rewrite Hother by congruence.
  rewrite custom_loop_other by (apply name_not_custom_key; exact Hc).
  apply H0, Hin.
Qed.

Lemma custom_slot (self : DB) pre l d post :
  NoDup (map (fun item => num (snd item)) (custom_column_label_map self)) ->
  custom_column_label_map self = (pre ++ (l, d) :: post)%list ->
  FIELD_MAP (initialize_tables self) !! KNum (num d) = Some (22 + slots_used pre) /\
  (datatype d = "series" ->
   FIELD_MAP (initialize_tables self) !! KStr (str (num d) +:+ "_index")
   = Some (23 + slots_used pre)).
Proof.
  intros Hnd Hcols.
  destruct (FIELD_MAP_unfold self) as (st0 & Hb & _ & ->).
  rewrite Hcols in *. clear Hcols.
  rewrite map_app in Hnd. simpl in Hnd.
  apply NoDup_ListNoDup, NoDup_remove_2 in Hnd.
  assert (Hpost : ~ In (num d) (map (fun item => num (snd item)) post))
    by (intros Hin; apply Hnd, in_or_app; right; exact Hin).
  destruct (num_key_fresh d post Hpost) as [F1 F2].
  destruct (trailing_lookup (foldl custom_step st0 (pre ++ (l, d) :: post)%list))
    as (_ & _ & _ & Hother).
  rewrite foldl_app in *. simpl foldl in *.
  split; [|intros Hs].
  - rewrite Hother by discriminate.
    rewrite custom_loop_other by exact F1.
    rewrite custom_step_num, custom_loop_base. f_equal. lia.
  - destruct (str_head (num d)) as (c & s & Es & Hc).
    rewrite Hother by (rewrite Es; simpl; intros [= -> _]; discriminate).
    rewrite custom_loop_other by exact F2.
    rewrite custom_step_index by exact Hs. rewrite custom_loop_base.
    f_equal. lia.
Qed.

Lemma trailing_slots (self : DB) :
  let n := slots_used (custom_column_label_map self) in
  FIELD_MAP (initialize_tables self) !! KStr "ondevice" = Some (22 + n) /\
  FIELD_MAP (initialize_tables self) !! KStr "marked" = Some (23 + n) /\
  FIELD_MAP (initialize_tables self) !! KStr "series_sort" = Some (24 + n).
Proof.
  destruct (FIELD_MAP_unfold self) as (st0 & Hb & _ & ->).
  destruct (trailing_lookup (foldl custom_step st0 (custom_column_label_map self)))
    as (H1 & H2 & H3 & _).
  rewrite custom_loop_base, Hb in *.
  cbv zeta. rewrite H1, H2, H3. repeat split; f_equal; lia.
Qed.

(** *** Running [initialize_tables] again *)

Definition ins (m : gmap (string * bool) Z) (kv : string * bool * Z) :
  gmap (string * bool) Z := <[fst kv := snd kv]> m.

Lemma foldl_ins_union L m : foldl ins m L = list_to_map (reverse L) ∪ m.
Proof.
  revert m. induction L as [|[k v] L IH]; intros m; simpl.
  - rewrite map_empty_union. reflexivity.
  - rewrite IH, reverse_cons, list_to_map_app. simpl.
    unfold ins. simpl. rewrite insert_empty, <- (assoc_L (∪)).
    rewrite <- insert_union_singleton_l. reflexivity.
Qed.

Lemma foldl_ins_idem L m : foldl ins (foldl ins m L) L = foldl ins m L.
Proof.
  rewrite !foldl_ins_union, (assoc_L (∪)), (idemp_L (∪)). reflexivity.
Qed.

(** The calls of [set_field_record_index] one loop iteration makes. *)
Definition step_assign (base : Z) (item : string * custom_column) :
  list (string * bool * Z) :=
  (fst item, true, base + 1)
  :: (if String.eqb (datatype (snd item)) "series"
      then [(fst item +:+ "_index", true, base + 2)] else []).

Fixpoint custom_assign (base : Z) (cols : list (string * custom_column)) :
  list (string * bool * Z) :=
  match cols with
  | [] => []
  | item :: rest =>
      (step_assign base item ++ custom_assign (base + width (snd item)) rest)%list
  end.

Definition all_assign (cols : list (string * custom_column)) :
  list (string * bool * Z) :=
  (map (fun kv : string * Z => (fst kv, false, snd kv)) builtin_slots
   ++ custom_assign 21 cols
   ++ [("ondevice", false, 22 + slots_used cols);
       ("marked", false, 23 + slots_used cols);
       ("series_sort", false, 24 + slots_used cols)])%list.

Lemma custom_step_assign st item :
  ls_index (custom_step st item) = foldl ins (ls_index st) (step_assign (ls_base st) item).
Proof.
  destruct item as [l d]. unfold custom_step, step_assign. simpl.
  destruct (String.eqb (datatype d) "series"); simpl; unfold ins; simpl;
    rewrite <- ?Z.add_assoc; reflexivity.
Qed.

Lemma custom_loop_assign cols st :
  ls_index (foldl custom_step st cols)
  = foldl ins (ls_index st) (custom_assign (ls_base st) cols).
Proof.
  revert st. induction cols as [|item cols IH]; intros st; simpl.
  - reflexivity.
  - rewrite IH, foldl_app, custom_step_assign, custom_step_base. reflexivity.
Qed.

Lemma ins_triple m k b v : ins m (k, b, v) = <[(k, b) := v]> m.
Proof. reflexivity. Qed.

Lemma builtin_fold_ins (l : list (string * Z)) m :
  foldl (fun m kv => <[(fst kv, false) := snd kv]> m) m l
  = foldl ins m (map (fun kv : string * Z => (fst kv, false, snd kv)) l).
Proof. revert m. induction l as [|kv l IH]; intros m; simpl; auto. Qed.

Lemma record_index_unfold (self : DB) :
  record_index (initialize_tables self)
  = foldl ins (record_index self) (all_assign (custom_column_label_map self)).
Proof.
  unfold initialize_tables, all_assign. cbn [record_index].
  rewrite !foldl_app. unfold trailing_step. cbn [foldl ls_index ls_base].
  rewrite custom_loop_assign, custom_loop_base. cbn [ls_index ls_base].
  rewrite max_slot_builtin, builtin_fold_ins, !ins_triple.
  set (n := slots_used (custom_column_label_map self)).
  replace (21 + n + 1) with (22 + n) by lia.
  replace (22 + n + 1) with (23 + n) by lia.
  replace (23 + n + 1) with (24 + n) by lia.
  reflexivity.
Qed.

(** Tables, slots and the running base never read the record-index map. *)
Lemma custom_loop_indep cols st st' :
  ls_tables st = ls_tables st' -> ls_map st = ls_map st' ->
  ls_base st = ls_base st' ->
  ls_tables (foldl custom_step st cols) = ls_tables (foldl custom_step st' cols) /\
  ls_map (foldl custom_step st cols) = ls_map (foldl custom_step st' cols) /\
  ls_base (foldl custom_step st cols) = ls_base (foldl custom_step st' cols).
Proof.
  revert st st'. induction cols as [|[l d] cols IH]; intros st st' Ht Hm Hb.
  - simpl. auto.
  - simpl. apply IH; unfold custom_step; rewrite Ht, Hm, Hb;
      destruct (String.eqb (datatype d) "series"); reflexivity.
Qed.

Definition final_state (ri : gmap (string * bool) Z)
  (cols : list (string * custom_column)) : loop_state :=
  foldl trailing_step (foldl custom_step (st_builtin ri) cols)
        ["ondevice"; "marked"; "series_sort"].

Lemma initialize_tables_final (self : DB) :
  exists ri,
    tables (initialize_tables self)
    = ls_tables (final_state ri (custom_column_label_map self)) /\
    FIELD_MAP (initialize_tables self)
    = ls_map (final_state ri (custom_column_label_map self)).
Proof. eexists. split; reflexivity. Qed.

Lemma final_state_indep ri ri' cols :
  ls_tables (final_state ri cols) = ls_tables (final_state ri' cols) /\
  ls_map (final_state ri cols) = ls_map (final_state ri' cols).
Proof.
  unfold final_state, trailing_step. cbn [foldl ls_tables ls_map ls_base].
  destruct (custom_loop_indep cols (st_builtin ri) (st_builtin ri')
              eq_refl eq_refl eq_refl) as (Ht & Hm & Hb).
  rewrite Ht, Hm, Hb. split; reflexivity.
Qed.

Lemma DB_ext (a b : DB) :
  custom_column_label_map a = custom_column_label_map b ->
  tables a = tables b -> FIELD_MAP a = FIELD_MAP b ->
  record_index a = record_index b -> a = b.
Proof. destruct a, b. simpl. congruence. Qed.

Lemma initialize_tables_twice (self : DB) :
  initialize_tables (initialize_tables self) = initialize_tables self.
Proof.
  destruct (initialize_tables_final self) as (ri & Ht & Hm).
  destruct (initialize_tables_final (initialize_tables self)) as (ri' & Ht' & Hm').
  change (custom_column_label_map (initialize_tables self))
    with (custom_column_label_map self) in Ht', Hm'.
  destruct (final_state_indep ri ri' (custom_column_label_map self)) as [Et Em].
  apply DB_ext.
  - reflexivity.
  - congruence.
  - congruence.
  - rewrite (record_index_unfold (initialize_tables self)).
    rewrite (record_index_unfold self).
    change (custom_column_label_map (initialize_tables self))
      with (custom_column_label_map self).
    apply foldl_ins_idem.
Qed.

(** **** Claim C1, as the code has it *)

(** C1 (amended).  [initialize_tables] gives the 22 fields of the literal
    [FIELD_MAP] their constant slots 0..21 whatever the custom columns are;
    the custom columns get consecutive slots from 22 on in the order in
    which [custom_column_label_map] yields them (the map is not sorted), a
    series column taking a second slot for its index; the built-in fields
    ondevice, marked and series_sort take the three slots after the last
    custom slot; every custom slot is above every slot of the literal
    dictionary; and running [initialize_tables] on its own result changes
    nothing. *)
Theorem initialize_tables_slots (self : DB) :
  NoDup (map (fun item => num (snd item)) (custom_column_label_map self)) ->
  let cols := custom_column_label_map self in
  let fm := FIELD_MAP (initialize_tables self) in
  (forall other k v, (k, v) ∈ builtin_slots ->
     fm !! KStr k = Some v /\
     FIELD_MAP (initialize_tables other) !! KStr k = Some v) /\
  (forall pre l d post, cols = (pre ++ (l, d) :: post)%list ->
     fm !! KNum (num d) = Some (22 + slots_used pre) /\
     (datatype d = "series" ->
      fm !! KStr (str (num d) +:+ "_index") = Some (23 + slots_used pre)) /\
     (forall k v, (k, v) ∈ builtin_slots -> v < 22 + slots_used pre)) /\
  fm !! KStr "ondevice" = Some (22 + slots_used cols) /\
  fm !! KStr "marked" = Some (23 + slots_used cols) /\
  fm !! KStr "series_sort" = Some (24 + slots_used cols) /\
  initialize_tables (initialize_tables self) = initialize_tables self.
Proof.
  intros Hnd cols fm. split; [|split].
  - intros other k v Hin. split; apply builtin_slots_fixed, Hin.
  - intros pre l d post Hcols.
    destruct (custom_slot self pre l d post Hnd Hcols) as [H1 H2].
    split; [exact H1|]. split; [exact H2|].
    intros k v Hin. pose proof (slots_used_nonneg pre).
    apply list_elem_of_In in Hin. simpl in Hin.
    repeat (destruct Hin as [[= <- <-]|Hin]; [lia|]). destruct Hin.
  - destruct (trailing_slots self) as (H1 & H2 & H3).
    repeat split; try assumption. apply initialize_tables_twice.
Qed.

(** Three columns labelled a, b, c as a Python 2 dictionary yields them
    (a, c, b), the second one a series. *)
Definition sample_columns : list (string * custom_column) :=
  [("a", text_column "a" 1); ("c", series_column "c" 3); ("b", text_column "b" 2)].

Lemma initialize_tables_slots_witness :
  FIELD_MAP (initialize_tables (fresh sample_columns)) !! KNum 3 = Some 23 /\
  FIELD_MAP (initialize_tables (fresh sample_columns)) !! KStr "3_index" = Some 24 /\
  FIELD_MAP (initialize_tables (fresh sample_columns)) !! KNum 2 = Some 25 /\
  FIELD_MAP (initialize_tables (fresh sample_columns)) !! KStr "ondevice" = Some 26.
Proof.
  assert (Hnd : NoDup (map (fun item => num (snd item))
                           (custom_column_label_map (fresh sample_columns))))
    by (apply (bool_decide_unpack _); vm_compute; reflexivity).
  destruct (initialize_tables_slots (fresh sample_columns) Hnd)
    as (_ & Hc & Ho & _).
  destruct (Hc [("a", text_column "a" 1)] "c" (series_column "c" 3)
               [("b", text_column "b" 2)] eq_refl) as (H3 & H3i & _).
  destruct (Hc [("a", text_column "a" 1); ("c", series_column "c" 3)] "b"
               (text_column "b" 2) [] eq_refl) as (H2 & _ & _).
  exact (conj H3 (conj (H3i eq_refl) (conj H2 Ho))).
Defined.

(** C1 as stated fails.  Adding one text column moves the built-in field
    ondevice from slot 22 to slot 23, and the new column's slot 22 lies below
    it; and columns labelled a, c, b in the map's own order get slots in that
    order, so the column labelled c is placed before the one labelled b. *)
Lemma initialize_tables_counterexample :
  let before := initialize_tables (fresh []) in
  let after := initialize_tables (fresh [("mood", text_column "mood" 1)]) in
  let fm := FIELD_MAP (initialize_tables (fresh sample_columns)) in
  FIELD_MAP before !! KStr "ondevice" = Some 22 /\
  FIELD_MAP after !! KStr "ondevice" = Some 23 /\
  FIELD_MAP after !! KNum 1 = Some 22 /\
  String.ltb "b" "c" = true /\
  fm !! KNum 3 = Some 23 /\ fm !! KNum 2 = Some 25.
Proof. vm_compute. repeat split; reflexivity. Qed.

End FieldSlotsFacts.




(** ** Folder and file names *)

Module NamesFacts.
Import Files.

Section Names.
Context `{Platform}.

Lemma strip_author_nonempty fuel author r :
  strip_author fuel author = Return r -> nonempty r = true.
Proof.
  revert author. induction fuel as [|fuel IH]; intros author; simpl;
    destruct (last_char author) as [c|] eqn:E; try discriminate;
    destruct (Ascii.eqb c " " || Ascii.eqb c ".")%bool;
    try (intros [= <-]; destruct author; [discriminate|reflexivity]).
  apply IH.
Qed.

(** The branch [if not author] of [construct_path_name] is never taken: a
    returned path starts with the stripped, non-empty author. *)
Lemma construct_path_name_shape (book_id : Z) (title author p : string) :
  construct_path_name book_id title author = Return p ->
  exists a,
    strip_author (String.length (take PATH_LIMIT (ascii_filename author)))
                 (take PATH_LIMIT (ascii_filename author)) = Return a /\
    nonempty a = true /\
    p = a +:+ "/" +:+ take PATH_LIMIT (ascii_filename title)
          +:+ " (" +:+ str book_id +:+ ")".
Proof.
  unfold construct_path_name.
  destruct (strip_author _ _) as [a|e] eqn:E; [|discriminate].
  pose proof (strip_author_nonempty _ _ _ E) as Hne.
  rewrite Hne. intros [= <-]. exists a. auto.
Qed.

(** C8.  An author whose sanitised name is empty does not get the
    'Unknown' folder: [author[-1]] raises [IndexError] before the test
    [if not author] is reached. *)
Theorem construct_path_name_empty_author (book_id : Z) (title author : string) :
  ascii_filename author = EmptyString ->
  construct_path_name book_id title author = Raise IndexError.
Proof.
  intros E. unfold construct_path_name. rewrite E.
  destruct PATH_LIMIT; reflexivity.
Qed.

End Names.

Lemma construct_path_name_empty_author_witness :
  @ascii_filename Sample.posix EmptyString = EmptyString /\
  @construct_path_name Sample.posix 7 "Foo" EmptyString = Raise IndexError.
Proof.
  split; [reflexivity|].
  apply (@construct_path_name_empty_author Sample.posix 7 "Foo" EmptyString).
  reflexivity.
Defined.

Example construct_path_name_sample :
  @construct_path_name Sample.posix 7 "Foo" "Bar. ." = Return "Bar/Foo (7)".
Proof. reflexivity. Qed.

End NamesFacts.

(** ** The JSON text of a preference is read back as the value *)

Module JsonFacts.
Import Prefs Json.

(** Induction on a value and, with it, on the values inside it. *)
Section Deep.
Variable P : pyval -> Prop.
Hypothesis deep_none : P PNone.
Hypothesis deep_bool : forall b, P (PBool b).
Hypothesis deep_int : forall n, P (PInt n).
Hypothesis deep_float : forall repr, P (PFloat repr).
Hypothesis deep_str : forall s, P (PStr s).
Hypothesis deep_list : forall l, Forall P l -> P (PList l).
Hypothesis deep_dict : forall d, Forall (fun kv => P (snd kv)) d -> P (PDict d).
Hypothesis deep_object : forall tag, P (PObject tag).

Fixpoint pyval_deep (v : pyval) : P v :=
  match v with
  | PNone => deep_none
  | PBool b => deep_bool b
  | PInt n => deep_int n
  | PFloat repr => deep_float repr
  | PStr s => deep_str s
  | PList l =>
      deep_list l
        ((fix items (l : list pyval) : Forall P l :=
            match l with
            | [] => @List.Forall_nil _ P
            | x :: l' => @List.Forall_cons _ P x l' (pyval_deep x) (items l')
            end) l)
  | PDict d =>
      deep_dict d
        ((fix pairs (d : list (string * pyval)) : Forall (fun kv => P (snd kv)) d :=
            match d with
            | [] => @List.Forall_nil _ _
            | kv :: d' => @List.Forall_cons _ _ kv d' (pyval_deep (snd kv)) (pairs d')
            end) d)
  | PObject tag => deep_object tag
  end.

End Deep.

Lemma json_app_cons (c : ascii) (a b : string) :
  String c a +:+ b = String c (a +:+ b).
Proof. reflexivity. Qed.

Lemma json_app_empty (b : string) : EmptyString +:+ b = b.
Proof. reflexivity. Qed.

Ltac text := repeat (rewrite json_app_cons || rewrite json_app_empty).

Ltac texts := repeat (rewrite json_app_cons in * || rewrite json_app_empty in * ).

Lemma json_app_assoc (a b c : string) : (a +:+ b) +:+ c = a +:+ (b +:+ c).
Proof. induction a as [|x a IH]; [reflexivity|]. text. rewrite IH. reflexivity. Qed.

Lemma json_app_nil (a : string) : a +:+ EmptyString = a.
Proof. induction a as [|x a IH]; [reflexivity|]. text. rewrite IH. reflexivity. Qed.

(** *** Texts between quotes *)

Lemma scan_escape_char (c : ascii) (s : string) :
  scan_string (escape_char c +:+ s)
  = match scan_string s with
    | Some (t, r) => Some (String c t, r)
    | None => None
    end.
Proof. destruct c as [[] [] [] [] [] [] [] []]; reflexivity. Qed.

Lemma scan_escaped (s rest : string) :
  scan_string (escape s +:+ String dquote rest) = Some (s, rest).
Proof.
  induction s as [|c s IH]; [reflexivity|].
  cbn [escape]. rewrite json_app_assoc, scan_escape_char, IH. reflexivity.
Qed.

Lemma scan_quoted (s rest : string) :
  quoted s +:+ rest = String dquote (escape s +:+ String dquote rest).
Proof. unfold quoted. text. rewrite json_app_assoc. reflexivity. Qed.

(** *** White space *)

Lemma skip_ws_spaces (n : nat) (s : string) : skip_ws (spaces n +:+ s) = skip_ws s.
Proof. induction n as [|n IH]; [reflexivity|]. cbn [spaces]. text. exact IH. Qed.

Lemma skip_ws_newline_indent (level : nat) (s : string) :
  skip_ws (newline_indent level +:+ s) = skip_ws s.
Proof. unfold newline_indent. text. cbn [skip_ws]. apply skip_ws_spaces. Qed.

(** The characters a value of JSON begins with. *)
Definition value_head (c : ascii) : bool :=
  (is_digit c || Ascii.eqb c "-" || Ascii.eqb c dquote || Ascii.eqb c "["
   || Ascii.eqb c "{" || Ascii.eqb c "n" || Ascii.eqb c "t" || Ascii.eqb c "f")%bool.

Lemma value_head_plain (c : ascii) :
  value_head c = true ->
  is_ws c = false /\ Ascii.eqb c "]" = false /\ Ascii.eqb c "}" = false.
Proof.
  destruct c as [[] [] [] [] [] [] [] []]; intros E; vm_compute in E;
    try discriminate E; vm_compute; auto.
Qed.

Lemma skip_ws_head (c : ascii) (r : string) :
  is_ws c = false -> skip_ws (String c r) = String c r.
Proof. intros E. simpl. rewrite E. reflexivity. Qed.

(** *** Numbers *)

(** What may follow a value in the text that [print] writes: nothing, a
    comma or a new line. *)
Definition closes (rest : string) : bool :=
  match rest with
  | EmptyString => true
  | String c _ => (Ascii.eqb c "," || Ascii.eqb c newline)%bool
  end.

Lemma closes_cases (rest : string) :
  closes rest = true ->
  rest = EmptyString \/ (exists r, rest = String "," r)
  \/ exists r, rest = String newline r.
Proof.
  destruct rest as [|c r]; [auto|]. simpl. intros E.
  apply orb_true_iff in E. destruct E as [E|E]; apply Ascii.eqb_eq in E; subst; eauto.
Qed.

Lemma span_digits_closed (rest : string) :
  closes rest = true -> span_digits rest = (EmptyString, rest).
Proof.
  intros E. destruct (closes_cases rest E) as [->|[[r ->]|[r ->]]]; reflexivity.
Qed.

Lemma span_digits_app (s rest : string) :
  closes rest = true ->
  span_digits (s +:+ rest) = (fst (span_digits s), snd (span_digits s) +:+ rest).
Proof.
  intros E. induction s as [|c s IH].
  - text. rewrite (span_digits_closed rest E). reflexivity.
  - text. cbn [span_digits]. destruct (is_digit c); [|reflexivity].
    rewrite IH. destruct (span_digits s). reflexivity.
Qed.

Lemma span_digits_whole (s : string) :
  s = fst (span_digits s) +:+ snd (span_digits s).
Proof.
  induction s as [|c s IH]; [reflexivity|]. cbn [span_digits].
  destruct (is_digit c); [|reflexivity].
  destruct (span_digits s); simpl in *; texts; congruence.
Qed.

Lemma scan_integer_app (s rest i s1 : string) :
  closes rest = true -> scan_integer s = Some (i, s1) ->
  scan_integer (s +:+ rest) = Some (i, s1 +:+ rest).
Proof.
  intros E. unfold scan_integer.
  assert (Hd : forall t sign,
             match t with
             | EmptyString => None
             | String c r =>
                 if Ascii.eqb c "0" then Some (sign +:+ "0", r)
                 else if is_digit c
                 then let '(ds, r') := span_digits r in Some (sign +:+ String c ds, r')
                 else None
             end = Some (i, s1) ->
             match t +:+ rest with
             | EmptyString => None
             | String c r =>
                 if Ascii.eqb c "0" then Some (sign +:+ "0", r)
                 else if is_digit c
                 then let '(ds, r') := span_digits r in Some (sign +:+ String c ds, r')
                 else None
             end = Some (i, s1 +:+ rest)).
  { intros [|c r] sign; [discriminate|]. text.
    destruct (Ascii.eqb c "0"); [intros [= <- <-]; reflexivity|].
    destruct (is_digit c); [|discriminate].
    rewrite (span_digits_app r rest E). destruct (span_digits r) as [ds r'].
    intros [= <- <-]. reflexivity. }
  destruct s as [|c r]; [discriminate|]. text.
  destruct (Ascii.eqb c "-"); [apply Hd|]. apply (Hd (String c r)).
Qed.

Lemma scan_integer_whole (s i s1 : string) :
  scan_integer s = Some (i, s1) -> s = i +:+ s1.
Proof.
  unfold scan_integer.
  assert (Hd : forall t sign,
             match t with
             | EmptyString => None
             | String c r =>
                 if Ascii.eqb c "0" then Some (sign +:+ "0", r)
                 else if is_digit c
                 then let '(ds, r') := span_digits r in Some (sign +:+ String c ds, r')
                 else None
             end = Some (i, s1) -> sign +:+ t = i +:+ s1).
  { intros [|c r] sign; [discriminate|].
    destruct (Ascii.eqb_spec c "0") as [->|_].
    - intros [= <- <-]. rewrite json_app_assoc. reflexivity.
    - destruct (is_digit c); [|discriminate].
      pose proof (span_digits_whole r) as Hr. destruct (span_digits r) as [ds r'].
      intros [= <- <-]. rewrite json_app_assoc. simpl in *; texts; congruence. }
  destruct s as [|c r]; [discriminate|].
  destruct (Ascii.eqb_spec c "-") as [->|_].
  - intros Hs. apply (Hd r "-") in Hs. exact Hs.
  - intros Hs. apply (Hd (String c r) EmptyString) in Hs. exact Hs.
Qed.

Lemma scan_integer_head (s i s1 : string) :
  scan_integer s = Some (i, s1) ->
  exists c r, s = String c r /\ (is_digit c || Ascii.eqb c "-")%bool = true.
Proof.
  unfold scan_integer. destruct s as [|c r]; [discriminate|].
  intros Hs. exists c, r. split; [reflexivity|].
  destruct (Ascii.eqb c "-"); [apply orb_true_r|]. rewrite orb_false_r.
  destruct (Ascii.eqb_spec c "0") as [->|_]; [reflexivity|].
  destruct (is_digit c); [reflexivity|discriminate].
Qed.

Lemma scan_fraction_app (s rest : string) :
  closes rest = true ->
  scan_fraction (s +:+ rest) = (fst (scan_fraction s), snd (scan_fraction s) +:+ rest).
Proof.
  intros E. destruct s as [|c r].
  - destruct (closes_cases rest E) as [->|[[r ->]|[r ->]]]; reflexivity.
  - text. cbn [scan_fraction]. destruct (Ascii.eqb c "."); [|reflexivity].
    rewrite (span_digits_app r rest E).
    destruct (span_digits r) as [[|d ds] r']; reflexivity.
Qed.

Lemma scan_fraction_whole (s : string) :
  s = fst (scan_fraction s) +:+ snd (scan_fraction s).
Proof.
  destruct s as [|c r]; [reflexivity|]. cbn [scan_fraction].
  destruct (Ascii.eqb c "."); [|reflexivity].
  pose proof (span_digits_whole r) as Hr.
  destruct (span_digits r) as [[|d ds] r']; simpl in *; texts; congruence.
Qed.

Lemma scan_exponent_app (s rest : string) :
  closes rest = true ->
  scan_exponent (s +:+ rest) = (fst (scan_exponent s), snd (scan_exponent s) +:+ rest).
Proof.
  intros E. destruct s as [|c r].
  - destruct (closes_cases rest E) as [->|[[r ->]|[r ->]]]; reflexivity.
  - text. cbn [scan_exponent].
    destruct (Ascii.eqb c "e" || Ascii.eqb c "E")%bool; [|reflexivity].
    destruct r as [|g r0].
    + destruct (closes_cases rest E) as [->|[[r ->]|[r ->]]]; reflexivity.
    + text. destruct (Ascii.eqb g "+" || Ascii.eqb g "-")%bool.
      * rewrite (span_digits_app r0 rest E).
        destruct (span_digits r0) as [[|d ds] r']; reflexivity.
      * change (String g (r0 +:+ rest)) with (String g r0 +:+ rest).
        rewrite (span_digits_app (String g r0) rest E).
        destruct (span_digits (String g r0)) as [[|d ds] r']; reflexivity.
Qed.

Lemma scan_exponent_whole (s : string) :
  s = fst (scan_exponent s) +:+ snd (scan_exponent s).
Proof.
  destruct s as [|c r]; [reflexivity|]. cbn [scan_exponent].
  destruct (Ascii.eqb c "e" || Ascii.eqb c "E")%bool; [|reflexivity].
  destruct r as [|g r0].
  - reflexivity.
  - destruct (Ascii.eqb g "+" || Ascii.eqb g "-")%bool.
    + pose proof (span_digits_whole r0) as Hr.
      destruct (span_digits r0) as [[|d ds] r']; simpl in *; texts; congruence.
    + pose proof (span_digits_whole (String g r0)) as Hr.
      destruct (span_digits (String g r0)) as [[|d ds] r']; simpl in *; texts;
        congruence.
Qed.

Lemma scan_number_app (s rest i f e r : string) :
  closes rest = true -> scan_number s = Some (i, f, e, r) ->
  scan_number (s +:+ rest) = Some (i, f, e, r +:+ rest).
Proof.
  intros E. unfold scan_number.
  destruct (scan_integer s) as [[i' s1]|] eqn:Hi; [|discriminate].
  rewrite (scan_integer_app s rest i' s1 E Hi).
  rewrite (scan_fraction_app s1 rest E).
  destruct (scan_fraction s1) as [f' s2]. cbn [fst snd].
  rewrite (scan_exponent_app s2 rest E).
  destruct (scan_exponent s2) as [e' s3]. cbn [fst snd].
  intros [= <- <- <- <-]. reflexivity.
Qed.

Lemma scan_number_whole (s i f e r : string) :
  scan_number s = Some (i, f, e, r) -> s = i +:+ f +:+ e +:+ r.
Proof.
  unfold scan_number.
  destruct (scan_integer s) as [[i' s1]|] eqn:Hi; [|discriminate].
  pose proof (scan_integer_whole s i' s1 Hi) as H1.
  pose proof (scan_fraction_whole s1) as H2.
  destruct (scan_fraction s1) as [f' s2]. cbn [fst snd] in H2.
  pose proof (scan_exponent_whole s2) as H3.
  destruct (scan_exponent s2) as [e' s3]. cbn [fst snd] in H3.
  intros [= <- <- <- <-]. congruence.
Qed.

Lemma scan_number_head (s i f e r : string) :
  scan_number s = Some (i, f, e, r) ->
  exists c t, s = String c t /\ (is_digit c || Ascii.eqb c "-")%bool = true.
Proof.
  unfold scan_number.
  destruct (scan_integer s) as [[i' s1]|] eqn:Hi; [|discriminate].
  intros _. exact (scan_integer_head s i' s1 Hi).
Qed.

(** The text of an integer is a number with no fraction and no exponent. *)
Lemma span_digits_uint (u : Decimal.uint) :
  span_digits (NilEmpty.string_of_uint u) = (NilEmpty.string_of_uint u, EmptyString).
Proof. induction u; simpl; try rewrite IHu; reflexivity. Qed.

Lemma to_uint_head (p : positive) :
  exists c r, NilEmpty.string_of_uint (Pos.to_uint p) = String c r /\
              is_digit c = true /\ Ascii.eqb c "0" = false /\
              exists u, r = NilEmpty.string_of_uint u.
Proof.
  assert (Hn : Pos.to_uint p = Decimal.unorm (Pos.to_uint p)).
  { rewrite <- (Unsigned.to_of (Pos.to_uint p)), Unsigned.of_to. reflexivity. }
  pose proof (Unsigned.to_uint_nonzero p) as Hz.
  pose proof (DecimalFacts.nzhead_nonzero (Pos.to_uint p)) as Hh.
  unfold Decimal.unorm in Hn.
  destruct (Decimal.nzhead (Pos.to_uint p)) as [|u|u|u|u|u|u|u|u|u|u] eqn:E;
    rewrite Hn; try (exfalso; apply Hz; exact Hn);
    try (exfalso; exact (Hh u eq_refl));
    simpl; eexists _, _; (split; [reflexivity|]); repeat split; eauto.
Qed.

Lemma scan_integer_str (n : Z) : scan_integer (str n) = Some (str n, EmptyString).
Proof.
  assert (Hu : forall p sign,
             match NilEmpty.string_of_uint (Pos.to_uint p) with
             | EmptyString => None
             | String c r =>
                 if Ascii.eqb c "0" then Some (sign +:+ "0", r)
                 else if is_digit c
                 then let '(ds, r') := span_digits r in Some (sign +:+ String c ds, r')
                 else None
             end
             = Some (sign +:+ NilEmpty.string_of_uint (Pos.to_uint p), EmptyString)).
  { intros p sign. destruct (to_uint_head p) as (c & r & -> & Hd & Hz & u & ->).
    rewrite Hz, Hd, span_digits_uint. reflexivity. }
  assert (Hs : forall p, NilZero.string_of_uint (Pos.to_uint p)
                         = NilEmpty.string_of_uint (Pos.to_uint p)).
  { intros p. pose proof (Unsigned.to_uint_nonnil p).
    destruct (Pos.to_uint p); [contradiction|..]; reflexivity. }
  unfold str.
  destruct n as [|p|p]; [reflexivity|..]; cbn [Z.to_int NilZero.string_of_int].
  - rewrite Hs. unfold scan_integer.
    destruct (to_uint_head p) as (c & r & E & Hd & _).
    pose proof (Hu p EmptyString) as Hp. rewrite E in Hp |- *.
    destruct (Ascii.eqb_spec c "-") as [->|_]; [discriminate Hd|]. exact Hp.
  - rewrite Hs. unfold scan_integer. cbn [Ascii.eqb Bool.eqb]. exact (Hu p "-").
Qed.

Lemma scan_number_str (n : Z) :
  scan_number (str n) = Some (str n, EmptyString, EmptyString, EmptyString).
Proof. unfold scan_number. rewrite scan_integer_str. reflexivity. Qed.

Lemma int_of_str (n : Z) : int_of (str n) = n.
Proof.
  unfold int_of, str. destruct (to_int_proper n) as [H1 H2].
  rewrite (NilZero.isi _ H1 H2). apply DecimalZ.of_to.
Qed.

(** *** Values *)

Lemma numeral_head (c : ascii) :
  numeral_char c = true -> (is_digit c || Ascii.eqb c "-")%bool = true.
Proof.
  destruct c as [[] [] [] [] [] [] [] []]; intros E; vm_compute in E;
    try discriminate E; reflexivity.
Qed.

Lemma number_head_value (c : ascii) :
  (is_digit c || Ascii.eqb c "-")%bool = true -> value_head c = true.
Proof. unfold value_head. intros ->. reflexivity. Qed.

Lemma float_literal_scan (repr : string) :
  float_literal repr = true ->
  exists i f e, scan_number repr = Some (i, f, e, EmptyString) /\
                (Files.nonempty f || Files.nonempty e)%bool = true.
Proof.
  unfold float_literal.
  destruct (scan_number repr) as [[[[i f] e] [|c r]]|]; try discriminate.
  intros E. exists i, f, e. auto.
Qed.

Lemma float_literal_text (repr : string) :
  float_literal repr = true -> float_text repr = repr.
Proof.
  intros E. unfold float_text.
  destruct (String.eqb_spec repr "nan") as [->|_]; [discriminate E|].
  destruct (String.eqb_spec repr "inf") as [->|_]; [discriminate E|].
  destruct (String.eqb_spec repr "-inf") as [->|_]; [discriminate E|].
  reflexivity.
Qed.

Lemma distinct_NoDup (keys : list string) : distinct keys = true -> NoDup keys.
Proof.
  induction keys as [|k keys IH]; [constructor|].
  cbn [distinct]. intros E. apply andb_true_iff in E as [E1 E2].
  constructor; [|auto].
  intros Hin. apply negb_true_iff in E1.
  assert (existsb (String.eqb k) keys = true); [|congruence].
  apply existsb_exists. exists k. split; [|apply String.eqb_refl].
  apply list_elem_of_In. exact Hin.
Qed.

Lemma dict_set_new (k : string) (v : pyval) (d : list (string * pyval)) :
  k ∉ map fst d -> dict_set k v d = (d ++ [(k, v)])%list.
Proof.
  induction d as [|[k' v'] d IH]; [reflexivity|].
  cbn [map fst dict_set]. intros Hn.
  destruct (String.eqb_spec k k') as [->|_].
  - exfalso. apply Hn. apply list_elem_of_here.
  - rewrite IH; [reflexivity|]. intros Hin. apply Hn.
    apply list_elem_of_further. exact Hin.
Qed.

Lemma pairs_distinct (d : list (string * pyval)) :
  distinct (map fst d) = true ->
  foldl (fun a kv => dict_set (fst kv) (snd kv) a) [] d = d.
Proof.
  intros E. apply distinct_NoDup in E.
  assert (Hg : forall acc,
             NoDup (map fst (acc ++ d)%list) ->
             foldl (fun a kv => dict_set (fst kv) (snd kv) a) acc d = (acc ++ d)%list).
  { clear E. induction d as [|[k v] d IH]; intros acc Hnd.
    - rewrite app_nil_r. reflexivity.
    - cbn [foldl fst snd]. rewrite dict_set_new.
      + rewrite IH; rewrite <- app_assoc; [reflexivity|exact Hnd].
      + rewrite map_app in Hnd. apply NoDup_app in Hnd as (_ & Hd & _).
        intros Hin. apply (Hd k Hin). apply list_elem_of_here. }
  apply (Hg []). exact E.
Qed.

Lemma dict_get_of_In (k : string) (y : pyval) (d : list (string * pyval)) :
  NoDup (map fst d) -> In (k, y) d -> dict_get k d = Some y.
Proof.
  induction d as [|[k' y'] d IH]; [intros _ []|].
  cbn [map fst dict_get]. intros Hnd Hin. apply NoDup_cons in Hnd as [Hk Hnd].
  destruct Hin as [[= -> ->]|Hin].
  - rewrite String.eqb_refl. reflexivity.
  - destruct (String.eqb_spec k k') as [->|_]; [|auto].
    exfalso. apply Hk. apply list_elem_of_In, in_map_iff. exists (k', y). auto.
Qed.

(** *** Equal values *)

Definition same (a b : pyval) : Prop := deep_equal a b = true.

Lemma same_list (l l' : list pyval) :
  Forall2 same l l' -> same (PList l) (PList l').
Proof.
  induction 1 as [|x y l l' Hxy _ IH]; [reflexivity|].
  change (deep_equal x y && deep_equal (PList l) (PList l') = true).
  apply andb_true_iff. split; assumption.
Qed.

Lemma same_dict (d d' : list (string * pyval)) :
  length d = length d' ->
  Forall (fun kv => exists y, dict_get (fst kv) d' = Some y /\ same (snd kv) y) d ->
  same (PDict d) (PDict d').
Proof.
  intros Hlen Hall. unfold same. cbn [deep_equal].
  apply andb_true_iff. split; [apply Nat.eqb_eq; exact Hlen|].
  apply forallb_forall. intros kv Hin.
  rewrite Forall_forall in Hall. apply list_elem_of_In in Hin.
  destruct (Hall kv Hin) as (y & -> & Hy). exact Hy.
Qed.

Lemma concat_more (sep x y : string) (l : list string) :
  String.concat sep (x :: y :: l) = x +:+ sep +:+ String.concat sep (y :: l).
Proof. reflexivity. Qed.

Lemma length_newline_indent (level : nat) :
  String.length (newline_indent level) = S (2 * level).
Proof.
  unfold newline_indent. cbn [String.length]. f_equal.
  induction (2 * level)%nat as [|n IH]; [reflexivity|]. cbn. f_equal. exact IH.
Qed.

Section Reader.
Variable float_repr : string -> string.
Variable dict_order : list (string * pyval) -> list (string * pyval).

(** Whatever the order in which a dictionary yields its items, they are
    the items it holds. *)
Hypothesis dict_order_items : forall d, Permutation (dict_order d) d.

Lemma print_head (v : pyval) (level : nat) :
  representable float_repr v = true ->
  exists c r, print level v = String c r /\ value_head c = true.
Proof.
  destruct v as [|[|]|n|repr|s|[|x l]|[|kv d]|tag]; cbn [representable];
    intros E; try discriminate E;
    try (eexists _, _; split; [reflexivity|reflexivity]).
  - destruct (str_head n) as (c & r & Hs & Hc). exists c, r.
    split; [exact Hs|]. apply number_head_value, numeral_head, Hc.
  - apply andb_true_iff in E as [E _]. cbn [print].
    rewrite (float_literal_text repr E).
    destruct (float_literal_scan repr E) as (i & f & e & Hs & _).
    destruct (scan_number_head _ _ _ _ _ Hs) as (c & t & -> & Hc).
    exists c, t. split; [reflexivity|]. apply number_head_value, Hc.
Qed.

Lemma skip_ws_print (v : pyval) (level : nat) (rest : string) :
  representable float_repr v = true ->
  skip_ws (print level v +:+ rest) = print level v +:+ rest.
Proof.
  intros E. destruct (print_head v level E) as (c & r & -> & Hc). text.
  apply skip_ws_head. apply value_head_plain. exact Hc.
Qed.

(** A number at the start of a text is read as [scan_number] finds it. *)
Lemma parse_value_number (fuel : nat) (c : ascii) (t i f e r : string) :
  (is_digit c || Ascii.eqb c "-")%bool = true ->
  scan_number (String c t) = Some (i, f, e, r) ->
  Json.parse_value float_repr dict_order (S fuel) (String c t)
  = if (Files.nonempty f || Files.nonempty e)%bool
    then Some (PFloat (float_repr (i +:+ f +:+ e)), r)
    else Some (PInt (int_of i), r).
Proof.
  intros Hc Hs. cbn [Json.parse_value]. rewrite Hs. clear Hs.
  destruct c as [[] [] [] [] [] [] [] []]; vm_compute in Hc;
    try discriminate Hc; reflexivity.
Qed.

(** The text of [v], whatever follows it, is read as a value equal to
    [v]. *)
Definition reads (v : pyval) : Prop :=
  representable float_repr v = true ->
  forall level rest fuel,
    closes rest = true ->
    (2 * String.length (print level v) <= fuel)%nat ->
    exists v',
      Json.parse_value float_repr dict_order fuel (print level v +:+ rest)
      = Some (v', rest) /\
      same v v'.

Lemma separator_text (level : nat) (s : string) :
  separator level +:+ s = String "," (String " " (newline_indent level +:+ s)).
Proof. reflexivity. Qed.

Lemma skip_ws_blank (s : string) : skip_ws (String " " s) = skip_ws s.
Proof. reflexivity. Qed.

Lemma length_separator (level : nat) :
  String.length (separator level) = (3 + 2 * level)%nat.
Proof.
  unfold separator. rewrite string_length_app, length_newline_indent. reflexivity.
Qed.

Lemma concat_head (sep x : string) (l : list string) :
  exists t, String.concat sep (x :: l) = x +:+ t.
Proof.
  destruct l as [|y l].
  - exists EmptyString. cbn [String.concat]. rewrite json_app_nil. reflexivity.
  - eexists. apply concat_more.
Qed.

Lemma concat_length (sep x : string) (l : list string) :
  (String.length x <= String.length (String.concat sep (x :: l)))%nat.
Proof.
  destruct (concat_head sep x l) as [t ->]. rewrite string_length_app. lia.
Qed.

(** The text of the items begins with the text of the first one, which is
    not white space and closes no list and no dictionary. *)
Lemma items_head (x : pyval) (items : list pyval) (level : nat) (s : string) :
  representable float_repr x = true ->
  exists c r,
    String.concat (separator level) (map (print level) (x :: items)) +:+ s
    = String c r /\ value_head c = true.
Proof.
  intros E. cbn [map].
  destruct (concat_head (separator level) (print level x) (map (print level) items))
    as [t ->].
  destruct (print_head x level E) as (c & r & -> & Hc).
  exists c. eexists. split; [text; reflexivity|exact Hc].
Qed.

Lemma parse_value_list (fuel : nat) (r : string) :
  Json.parse_value float_repr dict_order (S fuel) (String "[" r)
  = match skip_ws r with
    | EmptyString => None
    | String c1 r1 =>
        if Ascii.eqb c1 "]" then Some (PList [], r1)
        else
          match Json.parse_elements float_repr dict_order fuel (String c1 r1) with
          | Some (items, r') => Some (PList items, r')
          | None => None
          end
    end.
Proof. reflexivity. Qed.

Lemma parse_value_dict (fuel : nat) (r : string) :
  Json.parse_value float_repr dict_order (S fuel) (String "{" r)
  = match skip_ws r with
    | EmptyString => None
    | String c1 r1 =>
        if Ascii.eqb c1 "}" then Some (from_json [], r1)
        else
          match Json.parse_members float_repr dict_order fuel (String c1 r1) with
          | Some (pairs, r') => Some (from_json (from_pairs dict_order pairs), r')
          | None => None
          end
    end.
Proof. reflexivity. Qed.

Lemma parse_value_text (fuel : nat) (r : string) :
  Json.parse_value float_repr dict_order (S fuel) (String dquote r)
  = match scan_string r with
    | Some (t, r') => Some (PStr t, r')
    | None => None
    end.
Proof. reflexivity. Qed.

Lemma parse_elements_step (fuel : nat) (s : string) :
  Json.parse_elements float_repr dict_order (S fuel) s
  = match Json.parse_value float_repr dict_order fuel s with
    | None => None
    | Some (v, r) =>
        match skip_ws r with
        | EmptyString => None
        | String c r1 =>
            if Ascii.eqb c "," then
              match Json.parse_elements float_repr dict_order fuel (skip_ws r1) with
              | Some (items, r') => Some (v :: items, r')
              | None => None
              end
            else if Ascii.eqb c "]" then Some ([v], r1)
            else None
        end
    end.
Proof. reflexivity. Qed.

Lemma parse_members_step (fuel : nat) (key r : string) :
  Json.parse_members float_repr dict_order (S fuel)
    (String dquote (escape key +:+ String dquote r))
  = match skip_ws r with
    | EmptyString => None
    | String c2 r2 =>
        if Ascii.eqb c2 ":" then
          match Json.parse_value float_repr dict_order fuel (skip_ws r2) with
          | None => None
          | Some (v, r3) =>
              match skip_ws r3 with
              | EmptyString => None
              | String c4 r4 =>
                  if Ascii.eqb c4 "," then
                    match Json.parse_members float_repr dict_order fuel
                            (skip_ws r4) with
                    | Some (pairs, r') => Some ((key, v) :: pairs, r')
                    | None => None
                    end
                  else if Ascii.eqb c4 "}" then Some ([(key, v)], r4)
                  else None
              end
          end
        else None
    end.
Proof.
  change (Json.parse_members float_repr dict_order (S fuel)
            (String dquote (escape key +:+ String dquote r)))
    with (match scan_string (escape key +:+ String dquote r) with
          | None => None
          | Some (key, r1) =>
              match skip_ws r1 with
              | EmptyString => None
              | String c2 r2 =>
                  if Ascii.eqb c2 ":" then
                    match Json.parse_value float_repr dict_order fuel (skip_ws r2) with
                    | None => None
                    | Some (v, r3) =>
                        match skip_ws r3 with
                        | EmptyString => None
                        | String c4 r4 =>
                            if Ascii.eqb c4 "," then
                              match Json.parse_members float_repr dict_order fuel
                                      (skip_ws r4) with
                              | Some (pairs, r') => Some ((key, v) :: pairs, r')
                              | None => None
                              end
                            else if Ascii.eqb c4 "}" then Some ([(key, v)], r4)
                            else None
                        end
                    end
                  else None
              end
          end).
  rewrite scan_escaped. reflexivity.
Qed.

Lemma parse_elements_printed (items : list pyval) :
  items <> [] -> Forall reads items ->
  forallb (representable float_repr) items = true ->
  forall level k rest fuel,
    (2 * String.length (String.concat (separator level) (map (print level) items)) + 1
     <= fuel)%nat ->
    exists items',
      Json.parse_elements float_repr dict_order fuel
        (String.concat (separator level) (map (print level) items)
         +:+ newline_indent k +:+ String "]" rest)
      = Some (items', rest) /\
      Forall2 same items items'.
Proof.
  induction items as [|x items IH]; [contradiction|].
  intros _ HF Hrep level k rest fuel Hfuel.
  inversion HF as [|? ? Hx HF']; subst.
  cbn [forallb] in Hrep. apply andb_true_iff in Hrep as [Hrx Hrep].
  destruct fuel as [|fuel]; [lia|].
  destruct items as [|y items].
  - cbn [map String.concat] in *. rewrite parse_elements_step.
    destruct (Hx Hrx level (newline_indent k +:+ String "]" rest) fuel)
      as (x' & -> & Hsame); [reflexivity|lia|].
    rewrite skip_ws_newline_indent. exists [x']. split; [reflexivity|].
    constructor; [exact Hsame|constructor].
  - assert (Hy : representable float_repr y = true).
    { cbn [forallb] in Hrep. apply andb_true_iff in Hrep. tauto. }
    cbn [map] in *. rewrite concat_more in *.
    rewrite !json_app_assoc. rewrite parse_elements_step.
    rewrite !string_length_app, length_separator in Hfuel.
    destruct (Hx Hrx level
                (separator level
                 +:+ String.concat (separator level)
                       (print level y :: map (print level) items)
                 +:+ newline_indent k +:+ String "]" rest) fuel)
      as (x' & -> & Hsame); [reflexivity|lia|].
    rewrite separator_text. rewrite skip_ws_head by reflexivity.
    cbv beta iota. rewrite Ascii.eqb_refl, skip_ws_blank, skip_ws_newline_indent.
    destruct (items_head y items level (newline_indent k +:+ String "]" rest) Hy)
      as (c & r & Hh & Hc).
    cbn [map] in Hh. rewrite Hh.
    rewrite skip_ws_head by (apply value_head_plain; exact Hc). rewrite <- Hh.
    destruct (IH ltac:(discriminate) HF' Hrep level k rest fuel)
      as (items' & -> & Hsames); [cbn [map]; lia|].
    exists (x' :: items'). split; [reflexivity|]. constructor; assumption.
Qed.

(** The text of a pair of a dictionary at a level of nesting. *)
Definition member (level : nat) (kv : string * pyval) : string :=
  quoted (fst kv) +:+ ": " +:+ print level (snd kv).

Lemma member_text (level : nat) (key : string) (x : pyval) (s : string) :
  member level (key, x) +:+ s
  = String dquote (escape key +:+ String dquote
                     (String ":" (String " " (print level x +:+ s)))).
Proof.
  unfold member, quoted. cbn [fst snd]. text. rewrite !json_app_assoc. text.
  reflexivity.
Qed.

(** Two pairs with one key and equal values. *)
Definition same_pair (kv kv' : string * pyval) : Prop :=
  fst kv = fst kv' /\ same (snd kv) (snd kv').

Lemma parse_members_printed (d : list (string * pyval)) :
  d <> [] -> Forall (fun kv => reads (snd kv)) d ->
  forallb (fun kv => representable float_repr (snd kv)) d = true ->
  forall level k rest fuel,
    (2 * String.length (String.concat (separator level) (map (member level) d)) + 1
     <= fuel)%nat ->
    exists pairs,
      Json.parse_members float_repr dict_order fuel
        (String.concat (separator level) (map (member level) d)
         +:+ newline_indent k +:+ String "}" rest)
      = Some (pairs, rest) /\
      Forall2 same_pair d pairs.
Proof.
  induction d as [|[key x] d IH]; [contradiction|].
  intros _ HF Hrep level k rest fuel Hfuel.
  inversion HF as [|? ? Hx HF']; subst. cbn [snd] in Hx.
  cbn [forallb snd] in Hrep. apply andb_true_iff in Hrep as [Hrx Hrep].
  destruct fuel as [|fuel]; [lia|].
  pose proof (member_text level key x) as Hm.
  assert (Hl : (String.length (print level x) + 4
                <= String.length (member level (key, x)))%nat).
  { rewrite <- (json_app_nil (member level (key, x))), Hm.
    cbn [String.length]. rewrite string_length_app. cbn [String.length].
    rewrite string_length_app. lia. }
  destruct d as [|[key' y] d].
  - cbn [map String.concat] in *. rewrite Hm, parse_members_step.
    rewrite skip_ws_head by reflexivity. cbv beta iota.
    rewrite Ascii.eqb_refl, skip_ws_blank, skip_ws_print by exact Hrx.
    destruct (Hx Hrx level (newline_indent k +:+ String "}" rest) fuel)
      as (x' & -> & Hsame); [reflexivity|lia|].
    rewrite skip_ws_newline_indent. exists [(key, x')]. split; [reflexivity|].
    constructor; [split; [reflexivity|exact Hsame]|constructor].
  - cbn [map] in *. rewrite concat_more in *.
    rewrite !json_app_assoc. rewrite Hm, parse_members_step.
    rewrite !string_length_app, length_separator in Hfuel.
    rewrite skip_ws_head by reflexivity. cbv beta iota.
    rewrite Ascii.eqb_refl, skip_ws_blank, skip_ws_print by exact Hrx.
    destruct (Hx Hrx level
                (separator level
                 +:+ String.concat (separator level)
                       (member level (key', y) :: map (member level) d)
                 +:+ newline_indent k +:+ String "}" rest) fuel)
      as (x' & -> & Hsame); [reflexivity|lia|].
    rewrite separator_text. rewrite skip_ws_head by reflexivity.
    cbv beta iota. rewrite Ascii.eqb_refl, skip_ws_blank, skip_ws_newline_indent.
    assert (Hh : forall s, skip_ws (String.concat (separator level)
                                      (member level (key', y) :: map (member level) d)
                                    +:+ s)
                           = String.concat (separator level)
                               (member level (key', y) :: map (member level) d) +:+ s).
    { intros s.
      destruct (concat_head (separator level) (member level (key', y))
                  (map (member level) d)) as [t ->].
      rewrite json_app_assoc, member_text. apply skip_ws_head. reflexivity. }
    rewrite Hh.
    destruct (IH ltac:(discriminate) HF' Hrep level k rest fuel)
      as (pairs & -> & Hsames); [cbn [map]; lia|].
    exists ((key, x') :: pairs). split; [reflexivity|].
    constructor; [split; [reflexivity|exact Hsame]|exact Hsames].
Qed.

Lemma same_pair_found (d pairs : list (string * pyval)) (kv : string * pyval) :
  Forall2 same_pair d pairs -> In kv d ->
  exists kv', In kv' pairs /\ same_pair kv kv'.
Proof.
  induction 1 as [|x y d pairs Hxy _ IH]; intros Hin; [destruct Hin|].
  destruct Hin as [<-|Hin].
  - exists y. split; [left; reflexivity|exact Hxy].
  - destruct (IH Hin) as (kv' & Hin' & Hs). exists kv'. split; [right|]; assumption.
Qed.

Lemma same_pair_keys (d pairs : list (string * pyval)) :
  Forall2 same_pair d pairs -> map fst pairs = map fst d.
Proof.
  induction 1 as [|x y d pairs [E _] _ IH]; [reflexivity|].
  cbn [map]. congruence.
Qed.

(** The dictionary built from pairs that are those of [d], with values
    equal to those of [d], is equal to [d]. *)
Lemma same_from_pairs (d pairs : list (string * pyval)) :
  distinct (map fst d) = true -> Forall2 same_pair d pairs ->
  same (PDict d) (PDict (from_pairs dict_order pairs)).
Proof.
  intros Hk Hsames.
  pose proof (same_pair_keys d pairs Hsames) as Hkeys.
  unfold from_pairs. rewrite pairs_distinct by (rewrite Hkeys; exact Hk).
  pose proof (dict_order_items pairs) as Hperm.
  assert (Hnd : NoDup (map fst (dict_order pairs))).
  { rewrite Hperm, Hkeys. apply distinct_NoDup, Hk. }
  apply same_dict.
  - rewrite (Permutation_length Hperm). eapply Forall2_length. exact Hsames.
  - apply Forall_forall. intros kv Hin. apply list_elem_of_In in Hin.
    destruct (same_pair_found d pairs kv Hsames Hin) as ([k' y] & Hin' & E & Hs).
    cbn [fst snd] in E, Hs. exists y. split; [|exact Hs]. rewrite E.
    apply dict_get_of_In; [exact Hnd|].
    apply (Permutation_in _ (Permutation_sym Hperm)). exact Hin'.
Qed.

Lemma parse_value_printed (v : pyval) : reads v.
Proof.
  induction v as [|b|n|repr|s|l IH|d IH|tag] using pyval_deep;
    unfold reads; intros Hrep level rest fuel Hc Hfuel.
  - destruct fuel as [|fuel]; [simpl in Hfuel; lia|]. exists PNone.
    split; [destruct rest; reflexivity|reflexivity].
  - destruct fuel as [|fuel]; [destruct b; simpl in Hfuel; lia|]. exists (PBool b).
    split; [destruct b, rest; reflexivity|destruct b; reflexivity].
  - cbn [print] in *. destruct (str_head n) as (c & r & Hs & Hn).
    destruct fuel as [|fuel]; [rewrite Hs in Hfuel; simpl in Hfuel; lia|].
    pose proof (scan_number_app (str n) rest _ _ _ _ Hc (scan_number_str n)) as Hsc.
    replace (str n +:+ rest) with (String c (r +:+ rest)) in *
      by (rewrite Hs; reflexivity).
    rewrite (parse_value_number fuel c (r +:+ rest) _ _ _ _ (numeral_head c Hn) Hsc).
    cbn [Files.nonempty orb]. rewrite int_of_str. exists (PInt n).
    split; [reflexivity|]. apply Z.eqb_refl.
  - cbn [representable] in Hrep. apply andb_true_iff in Hrep as [Hl Hr].
    apply String.eqb_eq in Hr. cbn [print] in *.
    rewrite (float_literal_text repr Hl) in *.
    destruct (float_literal_scan repr Hl) as (i & f & e & Hs & Hne).
    destruct (scan_number_head _ _ _ _ _ Hs) as (c & t & Hrp & Hh).
    destruct fuel as [|fuel]; [rewrite Hrp in Hfuel; simpl in Hfuel; lia|].
    pose proof (scan_number_app repr rest _ _ _ _ Hc Hs) as Hsc.
    pose proof (scan_number_whole repr _ _ _ _ Hs) as Hw.
    rewrite json_app_nil in Hw.
    replace (repr +:+ rest) with (String c (t +:+ rest)) in *
      by (rewrite Hrp; reflexivity).
    rewrite (parse_value_number fuel c (t +:+ rest) _ _ _ _ Hh Hsc).
    rewrite Hne, <- Hw, Hr. exists (PFloat repr).
    split; [reflexivity|]. apply String.eqb_refl.
  - cbn [print] in *. rewrite scan_quoted.
    destruct fuel as [|fuel]; [unfold quoted in Hfuel; simpl in Hfuel; lia|].
    rewrite parse_value_text, scan_escaped. exists (PStr s).
    split; [reflexivity|]. apply String.eqb_refl.
  - destruct l as [|x l].
    + destruct fuel as [|fuel]; [simpl in Hfuel; lia|]. exists (PList []).
      split; reflexivity.
    + cbn [representable] in Hrep.
      assert (Hx : representable float_repr x = true).
      { cbn [forallb] in Hrep. apply andb_true_iff in Hrep. tauto. }
      cbn [print] in *. text. rewrite !json_app_assoc.
      cbn [String.length] in Hfuel.
      rewrite !string_length_app, !length_newline_indent in Hfuel.
      destruct fuel as [|fuel]; [lia|].
      rewrite parse_value_list, skip_ws_newline_indent.
      destruct (items_head x l (S level)
                  (newline_indent level +:+ String "]" rest) Hx)
        as (c & r & Hh & Hv).
      change ("]" +:+ rest) with (String "]" rest). rewrite Hh.
      rewrite skip_ws_head by (apply value_head_plain; exact Hv).
      replace (Ascii.eqb c "]") with false
        by (symmetry; apply value_head_plain; exact Hv).
      rewrite <- Hh.
      destruct (parse_elements_printed (x :: l) ltac:(discriminate) IH Hrep
                  (S level) level rest fuel) as (items' & -> & Hsames); [lia|].
      exists (PList items'). split; [reflexivity|]. apply same_list, Hsames.
  - destruct d as [|[key x] d].
    + destruct fuel as [|fuel]; [simpl in Hfuel; lia|]. exists (PDict []).
      split; reflexivity.
    + cbn [representable] in Hrep. apply andb_true_iff in Hrep as [Hk Hrep].
      cbn [print] in *. text. rewrite !json_app_assoc.
      change (map (fun kv => quoted kv.1 +:+ ": " +:+ print (S level) kv.2)
                ((key, x) :: d))
        with (map (member (S level)) ((key, x) :: d)) in *.
      cbn [String.length] in Hfuel.
      rewrite !string_length_app, !length_newline_indent in Hfuel.
      destruct fuel as [|fuel]; [lia|].
      rewrite parse_value_dict, skip_ws_newline_indent.
      change ("}" +:+ rest) with (String "}" rest).
      assert (Hh : exists r,
                 String.concat (separator (S level))
                   (map (member (S level)) ((key, x) :: d))
                 +:+ newline_indent level +:+ String "}" rest
                 = String dquote r).
      { cbn [map].
        destruct (concat_head (separator (S level)) (member (S level) (key, x))
                    (map (member (S level)) d)) as [t ->].
        unfold member, quoted. text. eexists. reflexivity. }
      destruct Hh as [r Hh]. rewrite Hh.
      rewrite skip_ws_head by reflexivity.
      change (Ascii.eqb dquote "}") with false. cbv beta iota. rewrite <- Hh.
      destruct (parse_members_printed ((key, x) :: d) ltac:(discriminate) IH Hrep
                  (S level) level rest fuel) as (pairs & -> & Hsames); [lia|].
      exists (from_json (from_pairs dict_order pairs)). split; [reflexivity|].
      apply same_from_pairs; assumption.
  - discriminate Hrep.
Qed.

(** What [json.dumps] writes, [json.loads] reads back as an equal value. *)
Lemma loads_dumps (v : pyval) :
  representable float_repr v = true ->
  json_dumps v = Return (print 0 v) /\
  exists v', json_loads float_repr dict_order (print 0 v) = Return v' /\
             deep_equal v v' = true.
Proof.
  intros Hrep. split.
  - unfold json_dumps. replace (plain v) with true; [reflexivity|].
    symmetry. revert Hrep.
    induction v as [|b|n|repr|s|l IH|d IH|tag] using pyval_deep;
      cbn [representable plain]; try reflexivity; try discriminate.
    + induction IH as [|x l Hx _ IHl]; [reflexivity|].
      cbn [forallb]. intros E. apply andb_true_iff in E as [E1 E2].
      rewrite (Hx E1), (IHl E2). reflexivity.
    + intros E. apply andb_true_iff in E as [_ E]. revert E.
      induction IH as [|x l Hx _ IHl]; [reflexivity|].
      cbn [forallb]. intros E. apply andb_true_iff in E as [E1 E2].
      rewrite (Hx E1), (IHl E2). reflexivity.
  - destruct (parse_value_printed v Hrep 0%nat EmptyString
                (2 * String.length (print 0 v) + 2)%nat)
      as (v' & Hp & Hsame); [reflexivity|lia|].
    exists v'. split; [|exact Hsame].
    unfold json_loads. rewrite <- (json_app_nil (print 0 v)) at 2.
    rewrite skip_ws_print by exact Hrep. rewrite Hp. reflexivity.
Qed.

End Reader.

End JsonFacts.

(** ** Preferences *)

Module PrefsFacts.
Import Prefs.

Section Store.
Context `{JSON}.

(** What a row of the table yields when the store is loaded. *)
Definition loaded (raw : string) : option pyval :=
  match raw_to_object raw with
  | Return v => Some v
  | Raise _ => None
  end.

Lemma load_rows_other (rows : list (string * string)) (d : gmap string pyval) k :
  ~ In k (map fst rows) -> foldl load_row d rows !! k = d !! k.
Proof.
  revert d. induction rows as [|[k' raw] rows IH]; intros d Hk; simpl.
  - reflexivity.
  - rewrite IH by (intros Hin; apply Hk; right; exact Hin).
    unfold load_row. simpl. destruct (raw_to_object raw); [|reflexivity].
    apply lookup_insert_ne. intros ->. apply Hk. left. reflexivity.
Qed.

Lemma load_rows_at (rows : list (string * string)) (d : gmap string pyval) k raw :
  List.NoDup (map fst rows) -> In (k, raw) rows ->
  foldl load_row d rows !! k
  = match loaded raw with Some v => Some v | None => d !! k end.
Proof.
  revert d. induction rows as [|[k' raw'] rows IH]; intros d Hnd Hin; simpl.
  - destruct Hin.
  - simpl in Hnd. apply List.NoDup_cons_iff in Hnd as [Hfresh Hnd].
    destruct Hin as [[= -> ->]|Hin].
    + rewrite load_rows_other by exact Hfresh.
      unfold load_row, loaded. simpl. destruct (raw_to_object raw).
      * apply lookup_insert_eq.
      * reflexivity.
    + rewrite IH by assumption.
      destruct (loaded raw) as [v|]; [reflexivity|].
      unfold load_row. simpl. destruct (raw_to_object raw'); [|reflexivity].
      apply lookup_insert_ne. intros ->. apply Hfresh.
      apply in_map_iff. exists (k, raw). auto.
Qed.

(** [__init__] leaves in the dictionary exactly the rows that can be read. *)
Lemma init_lookup (tbl : gmap string string) (flt : list bool) (k : string) :
  mirror (init tbl flt) !! k = tbl !! k ≫= loaded.
Proof.
  unfold init. cbn [mirror].
  destruct (tbl !! k) as [raw|] eqn:E; simpl.
  - rewrite (load_rows_at _ _ k raw).
    + rewrite lookup_empty. destruct (loaded raw); reflexivity.
    + apply NoDup_ListNoDup, NoDup_fst_map_to_list.
    + apply list_elem_of_In, elem_of_map_to_list, E.
  - rewrite load_rows_other; [apply lookup_empty|].
    intros Hin. apply in_map_iff in Hin as ([k' raw] & Hk & Hin).
    simpl in Hk. subst k'.
    apply list_elem_of_In, elem_of_map_to_list in Hin. congruence.
Qed.

(** *** The dictionary never runs ahead of the table *)

(** A row of the table stands for a value: the value was serialised into it
    or is read from it. *)
Definition backs (raw : string) (v : pyval) : Prop :=
  to_raw v = Return raw \/ raw_to_object raw = Return v.

(** Between two calls: every entry of the dictionary has its row in the
    table. *)
Definition in_sync (tbl : gmap string string) (mir : gmap string pyval) : Prop :=
  forall k v, mir !! k = Some v -> exists raw, tbl !! k = Some raw /\ backs raw v.

(** The value [v] for [k] has reached the table in one of the states [seen]. *)
Definition persisted (seen : list snapshot) (k : string) (v : pyval) : Prop :=
  exists s raw, In s seen /\ snap_table s !! k = Some raw /\ backs raw v.

(** Along the states [rest], which follow the states [seen] (latest first),
    the dictionary never holds a value that has not reached the table by
    then. *)
Fixpoint never_ahead (seen rest : list snapshot) : Prop :=
  match rest with
  | [] => True
  | s :: rest' =>
      (forall k v, snap_mirror s !! k = Some v -> persisted (s :: seen) k v)
      /\ never_ahead (s :: seen) rest'
  end.

Definition snap (self : DBPrefs) : snapshot :=
  {| snap_table := table self; snap_mirror := mirror self |}.

Lemma init_in_sync (tbl : gmap string string) (flt : list bool) :
  in_sync (table (init tbl flt)) (mirror (init tbl flt)).
Proof.
  intros k v Hk. rewrite init_lookup in Hk. cbn [table init].
  destruct (tbl !! k) as [raw|]; simpl in Hk; [|discriminate].
  exists raw. split; [reflexivity|]. right.
  unfold loaded in Hk. destruct (raw_to_object raw); congruence.
Qed.

(** The three ways a call of [__setitem__] with setting enabled can go:
    the value cannot be serialised; the database refuses the statement; the
    database takes it. *)
Inductive setitem_run (key : string) (val : pyval) (self self' : DBPrefs)
  (r : result unit) : list snapshot -> Prop :=
| run_unserialisable e :
    to_raw val = Raise e -> r = Raise e -> self' = self ->
    setitem_run key val self self' r []
| run_busy raw :
    to_raw val = Return raw -> head (faults self) = Some true ->
    r = Raise BusyError ->
    table self' = table self -> mirror self' = mirror self ->
    setitem_run key val self self' r [snap self]
| run_stored raw :
    to_raw val = Return raw -> head (faults self) <> Some true ->
    r = Return tt ->
    table self' = <[key := raw]> (table self) ->
    mirror self' = <[key := val]> (mirror self) ->
    setitem_run key val self self' r
      [ {| snap_table := <[key := raw]> (table self); snap_mirror := mirror self |};
        {| snap_table := <[key := raw]> (table self);
           snap_mirror := <[key := val]> (mirror self) |} ].

Lemma setitem_enabled key val self :
  disable_setting self = false ->
  exists steps,
    history (snd (setitem key val self)) = (history self ++ steps)%list /\
    setitem_run key val self (snd (setitem key val self))
                (fst (setitem key val self)) steps.
Proof.
  intros Hen. unfold setitem. rewrite Hen. unfold bind, lift.
  destruct (to_raw val) as [raw|e] eqn:Hraw.
  - unfold conn_execute.
    destruct (faults self) as [|[|] rest] eqn:Hf; cbn.
    + eexists. split; [rewrite <- app_assoc; reflexivity|].
      eapply run_stored; eauto; rewrite Hf; discriminate.
    + eexists. split; [reflexivity|].
      eapply run_busy; eauto; rewrite Hf; reflexivity.
    + eexists. split; [rewrite <- app_assoc; reflexivity|].
      eapply run_stored; eauto; rewrite Hf; discriminate.
  - exists []. split; [cbn; rewrite app_nil_r; reflexivity|].
    eapply run_unserialisable; eauto.
Qed.

Lemma in_sync_persisted tbl mir seen k v :
  in_sync tbl mir -> mir !! k = Some v ->
  In {| snap_table := tbl; snap_mirror := mir |} seen ->
  persisted seen k v.
Proof.
  intros Hs Hk Hin. destruct (Hs k v Hk) as (raw & Hr & Hb).
  exists {| snap_table := tbl; snap_mirror := mir |}, raw. auto.
Qed.

Lemma setitem_run_never_ahead key val self self' r steps :
  in_sync (table self) (mirror self) ->
  setitem_run key val self self' r steps ->
  never_ahead [snap self] steps /\ in_sync (table self') (mirror self').
Proof.
  intros Hs Hrun.
  destruct Hrun as [e He Hr ->|raw Hraw Hf Hr Ht Hm|raw Hraw Hf Hr Ht Hm].
  - split; [exact I|exact Hs].
  - rewrite Ht, Hm. split; [|exact Hs]. simpl. split; [|exact I].
    intros k v Hk. apply (in_sync_persisted (table self) (mirror self)); auto.
    left. reflexivity.
  - rewrite Ht, Hm.
    assert (Hnew : in_sync (<[key := raw]> (table self)) (<[key := val]> (mirror self))).
    { intros k v Hk. destruct (decide (key = k)) as [->|Hne].
      - rewrite lookup_insert_eq in Hk. injection Hk as <-.
        exists raw. rewrite lookup_insert_eq. split; [reflexivity|]. left. exact Hraw.
      - rewrite lookup_insert_ne in Hk by exact Hne.
        rewrite lookup_insert_ne by exact Hne. apply Hs, Hk. }
    split; [|exact Hnew]. simpl. split; [|split; [|exact I]].
    + intros k v Hk.
      apply (in_sync_persisted (table self) (mirror self)); auto.
      right. left. reflexivity.
    + intros k v Hk.
      eapply (in_sync_persisted _ _ _ k v Hnew Hk). left. reflexivity.
Qed.

(** C3.  A call of [__setitem__] (or [set]) with [disable_setting] false on
    a store whose dictionary is backed by the table goes one of three ways
    and no other.  A value that cannot be serialised raises and changes
    nothing.  A value that can is serialised and handed to the database
    first: when the database refuses the statement the call raises with
    table and dictionary as they were; when it takes the statement, the
    table holds the serialised value, and only then is the value put into
    the dictionary.  In every state the call goes through - so also in the
    one a crash between the two steps leaves behind - each value of the
    dictionary has already reached the table; the store is backed by the
    table again when the call ends; and a call that raises leaves the
    dictionary as it was.  (With [disable_setting] true the call changes
    nothing at all.) *)
Theorem setitem_persists_first (key : string) (val : pyval) (self : DBPrefs) :
  in_sync (table self) (mirror self) ->
  set key val self = setitem key val self /\
  (disable_setting self = false ->
   exists steps,
     history (snd (setitem key val self)) = (history self ++ steps)%list /\
     setitem_run key val self (snd (setitem key val self))
                 (fst (setitem key val self)) steps /\
     never_ahead [snap self] steps) /\
  (disable_setting self = true -> setitem key val self = (Return tt, self)) /\
  in_sync (table (snd (setitem key val self))) (mirror (snd (setitem key val self))) /\
  (forall e, fst (setitem key val self) = Raise e ->
             mirror (snd (setitem key val self)) = mirror self).
Proof.
  intros Hs. split; [reflexivity|].
  destruct (disable_setting self) eqn:Hd.
  - unfold setitem. rewrite Hd. cbn.
    split; [discriminate|]. split; [reflexivity|]. split; [exact Hs|reflexivity].
  - destruct (setitem_enabled key val self Hd) as (steps & Hh & Hrun).
    destruct (setitem_run_never_ahead _ _ _ _ _ _ Hs Hrun) as [Hna Hs'].
    split; [intros _; exists steps; auto|]. split; [discriminate|].
    split; [exact Hs'|].
    intros e He. destruct Hrun as [e' _ _ ->| |raw _ _ Hr _ _]; auto. congruence.
Qed.

Lemma setitem_stored key val self raw :
  disable_setting self = false -> to_raw val = Return raw ->
  head (faults self) <> Some true ->
  fst (setitem key val self) = Return tt /\
  table (snd (setitem key val self)) = <[key := raw]> (table self) /\
  mirror (snd (setitem key val self)) = <[key := val]> (mirror self).
Proof.
  intros Hen Hraw Hf. unfold setitem. rewrite Hen. unfold bind, lift.
  rewrite Hraw. unfold conn_execute.
  destruct (faults self) as [|[|] rest]; cbn; auto.
  exfalso. apply Hf. reflexivity.
Qed.

(** C10.  With [disable_setting] true, [__setitem__] and [set] return
    without an error and leave the store as it was; with the flag false, a
    value that serialises, written to a database that takes the statement,
    ends up in the table (serialised) and in the dictionary. *)
Theorem setitem_disable_setting (key : string) (val : pyval) (self : DBPrefs) :
  (disable_setting self = true ->
   setitem key val self = (Return tt, self) /\
   set key val self = (Return tt, self)) /\
  (disable_setting self = false ->
   forall raw, to_raw val = Return raw -> head (faults self) <> Some true ->
     fst (set key val self) = Return tt /\
     table (snd (set key val self)) = <[key := raw]> (table self) /\
     mirror (snd (set key val self)) = <[key := val]> (mirror self)).
Proof.
  split.
  - intros Hd. unfold set, setitem. rewrite Hd. auto.
  - intros Hd raw Hraw Hf. apply setitem_stored; assumption.
Qed.

End Store.

Section RoundTrip.

(** [repr(float(text))] for the text of a number, and the order in which
    a dictionary yields the items put into it, which are its items. *)
Variable float_repr : string -> string.
Variable dict_order : list (string * pyval) -> list (string * pyval).
Hypothesis dict_order_items : forall d, Permutation (dict_order d) d.

#[local] Instance json_library : JSON := Json.codec float_repr dict_order.

Lemma setitem_returned key val self :
  disable_setting self = false -> fst (setitem key val self) = Return tt ->
  head (faults self) <> Some true.
Proof.
  intros Hen. unfold setitem. rewrite Hen. unfold bind, lift.
  destruct (to_raw val) as [raw|e]; [|discriminate].
  unfold conn_execute. destruct (faults self) as [|[|] rest]; cbn; congruence.
Qed.

(** C6 (amended).  With [disable_setting] false, for every
    JSON-representable value [v], after a [set(key, v)] that returns,
    [get(key)] and [prefs[key]] return [v]; the table holds under [key]
    the JSON text of [v]; and after a restart, where the dictionary is
    built anew by [raw_to_object] from the texts of the table, [get(key)]
    and [prefs[key]] return what [raw_to_object] reads from that text,
    whatever the default, and that is a value deep-equal to [v]. *)
Theorem set_get_roundtrip (key : string) (v : pyval) (self : DBPrefs) :
  disable_setting self = false ->
  Json.representable float_repr v = true ->
  fst (set key v self) = Return tt ->
  let self' := snd (set key v self) in
  (forall default, get key default self' = v) /\
  getitem key self' = Return v /\
  to_raw v = Return (Json.print 0 v) /\
  table self' !! key = Some (Json.print 0 v) /\
  exists v',
    raw_to_object (Json.print 0 v) = Return v' /\
    Json.deep_equal v v' = true /\
    (forall default, get key default (reopen self') = v') /\
    getitem key (reopen self') = Return v'.
Proof.
  intros Hd Hrep Hset self'.
  destruct (JsonFacts.loads_dumps float_repr dict_order dict_order_items v Hrep)
    as (Hraw & v' & Hback & Hsame).
  pose proof (setitem_returned key v self Hd Hset) as Hf.
  destruct (@setitem_stored json_library key v self (Json.print 0 v) Hd Hraw Hf)
    as (_ & Ht & Hm).
  fold (set key v self) in Ht, Hm. fold self' in Ht, Hm.
  assert (Hre : mirror (reopen self') !! key = Some v').
  { unfold reopen. rewrite init_lookup, Ht, lookup_insert_eq. simpl.
    unfold loaded, raw_to_object. cbn [json_loads json_library Json.codec].
    rewrite Hback. reflexivity. }
  split; [|split; [|split; [|split]]].
  - intros default. unfold get. rewrite Hm, lookup_insert_eq. reflexivity.
  - unfold getitem. rewrite Hm, lookup_insert_eq. reflexivity.
  - exact Hraw.
  - rewrite Ht. apply lookup_insert_eq.
  - exists v'. split; [exact Hback|]. split; [exact Hsame|]. split.
    + intros default. unfold get. rewrite Hre. reflexivity.
    + unfold getitem. rewrite Hre. reflexivity.
Qed.

End RoundTrip.

Import Sample.

Lemma sample_in_sync :
  in_sync (table (Sample.empty_prefs false [])) (mirror (Sample.empty_prefs false [])).
Proof. intros k v Hk. simpl in Hk. rewrite lookup_empty in Hk. discriminate. Qed.

Lemma setitem_persists_first_witness :
  in_sync (table (Sample.empty_prefs false [])) (mirror (Sample.empty_prefs false []))
  /\ in_sync (table (snd (setitem "tweak" (PInt 3) (Sample.empty_prefs false []))))
             (mirror (snd (setitem "tweak" (PInt 3) (Sample.empty_prefs false [])))).
Proof.
  split; [exact sample_in_sync|].
  destruct (setitem_persists_first "tweak" (PInt 3) (Sample.empty_prefs false [])
              sample_in_sync) as (_ & _ & _ & Hs & _).
  exact Hs.
Defined.

Lemma setitem_disable_setting_witness :
  set "tweak" (PInt 3) (Sample.empty_prefs true [])
  = (Return tt, Sample.empty_prefs true []) /\
  mirror (snd (set "tweak" (PInt 3) (Sample.empty_prefs false [])))
  = <["tweak" := PInt 3]> ∅.
Proof.
  split.
  - exact (proj2 (proj1 (setitem_disable_setting "tweak" (PInt 3)
                           (Sample.empty_prefs true [])) eq_refl)).
  - refine (proj2 (proj2 (proj2 (setitem_disable_setting "tweak" (PInt 3)
                                   (Sample.empty_prefs false []))
                                eq_refl "3" eq_refl _))).
    discriminate.
Defined.

(** A preference with every shape of value in it, and a JSON library
    whose dictionaries yield their items last put in first. *)
Definition nested : pyval :=
  PDict [("name", PStr (String Json.dquote "a\b"));
         ("marks", PList [PInt (-20); PInt 0; PFloat "1.5"; PNone; PBool true]);
         ("more", PDict [("empty", PList []); ("none", PDict [])])].

Definition backwards : JSON := Json.codec (fun text => text) (@rev _).

Lemma set_get_roundtrip_witness :
  get "tweak" PNone (snd (@set backwards "tweak" nested (Sample.empty_prefs false [])))
  = nested /\
  get "tweak" PNone
    (@reopen backwards
       (snd (@set backwards "tweak" nested (Sample.empty_prefs false []))))
  = PDict [("more", PDict [("none", PDict []); ("empty", PList [])]);
           ("marks", PList [PInt (-20); PInt 0; PFloat "1.5"; PNone; PBool true]);
           ("name", PStr (String Json.dquote "a\b"))] /\
  Json.deep_equal nested
    (get "tweak" PNone
       (@reopen backwards
          (snd (@set backwards "tweak" nested (Sample.empty_prefs false [])))))
  = true.
Proof.
  destruct (set_get_roundtrip (fun text => text) (@rev _)
              (fun d => Permutation_sym (Permutation_rev d))
              "tweak" nested (Sample.empty_prefs false []) eq_refl eq_refl eq_refl)
    as (Hget & _ & _ & _ & v' & Hback & Hsame & Hre & _).
  split; [apply Hget|]. split; [vm_compute; reflexivity|].
  unfold backwards. rewrite Hre. exact Hsame.
Defined.

(** C6 as stated fails: on a store whose [disable_setting] is true,
    [set(key, 3)] followed by [get(key)] gives [None], not 3. *)
Lemma set_get_counterexample :
  fst (set "tweak" (PInt 3) (Sample.empty_prefs true [])) = Return tt /\
  get "tweak" PNone (snd (set "tweak" (PInt 3) (Sample.empty_prefs true []))) = PNone /\
  get "tweak" PNone (snd (set "tweak" (PInt 3) (Sample.empty_prefs true []))) <> PInt 3.
Proof. split; [reflexivity|split; [reflexivity|discriminate]]. Qed.

End PrefsFacts.

(** ** Dictionaries as association lists *)

Section DictFacts.
Context {A : Type}.
Implicit Types (d : dict A) (k : string) (v : A).

Lemma dict_get_set_eq k v d : dict_get k (dict_set k v d) = Some v.
Proof.
  induction d as [|[k' v'] d IH]; simpl.
  - rewrite String.eqb_refl. reflexivity.
  - destruct (String.eqb k k') eqn:E; simpl.
    + rewrite String.eqb_refl. reflexivity.
    + rewrite E. exact IH.
Qed.

Lemma dict_get_set_ne k k' v d :
  k <> k' -> dict_get k' (dict_set k v d) = dict_get k' d.
Proof.
  intros Hne. induction d as [|[k0 v0] d IH]; simpl.
  - destruct (String.eqb_spec k' k); [congruence|reflexivity].
  - destruct (String.eqb_spec k k0) as [->|Hk]; simpl.
    + destruct (String.eqb_spec k' k0); [congruence|reflexivity].
    + destruct (String.eqb k' k0); [reflexivity|exact IH].
Qed.

Lemma dict_get_del_eq k d : dict_get k (dict_del k d) = None.
Proof.
  induction d as [|[k' v'] d IH]; simpl; [reflexivity|].
  destruct (String.eqb k k') eqn:E; simpl; [exact IH|].
  rewrite E. exact IH.
Qed.

Lemma dict_get_del_ne k k' d :
  k <> k' -> dict_get k' (dict_del k d) = dict_get k' d.
Proof.
  intros Hne. induction d as [|[k0 v0] d IH]; simpl; [reflexivity|].
  destruct (String.eqb_spec k k0) as [->|Hk]; simpl.
  - destruct (String.eqb_spec k' k0); [congruence|exact IH].
  - destruct (String.eqb k' k0); [reflexivity|exact IH].
Qed.

Lemma dict_get_In k v d : dict_get k d = Some v -> In (k, v) d.
Proof.
  induction d as [|[k' v'] d IH]; simpl; [discriminate|].
  destruct (String.eqb_spec k k') as [->|Hk].
  - intros [= ->]. left. reflexivity.
  - intros Hg. right. auto.
Qed.

Lemma dict_get_keys k d : dict_get k d <> None <-> In k (dict_keys d).
Proof.
  induction d as [|[k' v'] d IH]; simpl; [tauto|].
  destruct (String.eqb_spec k k') as [->|Hk].
  - split; [auto|discriminate].
  - rewrite IH. split; [auto|]. intros [E|Hin]; [congruence|exact Hin].
Qed.

Lemma dict_mem_keys k d : dict_mem k d = true <-> In k (dict_keys d).
Proof.
  rewrite <- dict_get_keys. unfold dict_mem.
  destruct (dict_get k d); split; congruence.
Qed.

Lemma In_dict_get k v d :
  List.NoDup (dict_keys d) -> In (k, v) d -> dict_get k d = Some v.
Proof.
  induction d as [|[k' v'] d IH]; simpl; intros Hnd Hin; [destruct Hin|].
  apply List.NoDup_cons_iff in Hnd as [Hfresh Hnd].
  destruct Hin as [[= -> ->]|Hin].
  - rewrite String.eqb_refl. reflexivity.
  - destruct (String.eqb_spec k k') as [->|Hk]; [|auto].
    exfalso. apply Hfresh. apply in_map_iff. exists (k', v). auto.
Qed.

Lemma dict_keys_set k v d :
  dict_keys (dict_set k v d)
  = if dict_mem k d then dict_keys d else (dict_keys d ++ [k])%list.
Proof.
  induction d as [|[k' v'] d IH]; simpl; [reflexivity|].
  unfold dict_mem in *. simpl.
  destruct (String.eqb_spec k k') as [->|Hk]; simpl; [reflexivity|].
  rewrite IH. destruct (dict_get k d); reflexivity.
Qed.

Lemma dict_set_NoDup k v d :
  List.NoDup (dict_keys d) -> List.NoDup (dict_keys (dict_set k v d)).
Proof.
  intros Hnd. rewrite dict_keys_set.
  destruct (dict_mem k d) eqn:E; [exact Hnd|].
  apply NoDup_ListNoDup, NoDup_app. repeat split.
  - apply NoDup_ListNoDup, Hnd.
  - intros x Hx Hx'. apply list_elem_of_In in Hx.
    apply list_elem_of_In in Hx'. destruct Hx' as [<-|[]].
    apply dict_mem_keys in Hx. congruence.
  - apply NoDup_singleton.
Qed.

End DictFacts.

(** ** Case collisions of user categories *)

Module UserCategoriesFacts.
Import Prefs UserCategories.

Section Rename.
Context `{ICU} `{JSON}.

(** The ICU library leaves a decimal numeral at the end of a name alone. *)
Hypothesis icu_lower_numeral :
  forall (s : string) (n : Z), icu_lower (s +:+ str n) = icu_lower s +:+ str n.

Lemma find_suffix_some fuel (catmap : dict (list string)) cat s k :
  find_suffix fuel catmap cat s = Some k ->
  s <= k /\
  dict_mem (icu_lower (cat +:+ str k)) catmap = false /\
  (forall j, s <= j < k -> dict_mem (icu_lower (cat +:+ str j)) catmap = true).
Proof.
  revert s. induction fuel as [|fuel IH]; intros s; simpl; [discriminate|].
  destruct (dict_mem (icu_lower (cat +:+ str s)) catmap) eqn:E.
  - intros Hk. destruct (IH _ Hk) as (Hle & Hfree & Hbelow).
    split; [lia|]. split; [exact Hfree|].
    intros j Hj. destruct (decide (j = s)) as [->|Hne]; [exact E|].
    apply Hbelow. lia.
  - intros [= <-]. split; [lia|]. split; [exact E|]. intros j Hj. lia.
Qed.

Lemma find_suffix_none fuel (catmap : dict (list string)) cat s :
  find_suffix fuel catmap cat s = None ->
  forall j, s <= j < s + Z.of_nat fuel ->
            dict_mem (icu_lower (cat +:+ str j)) catmap = true.
Proof.
  revert s. induction fuel as [|fuel IH]; intros s; simpl.
  - intros _ j Hj. lia.
  - destruct (dict_mem (icu_lower (cat +:+ str s)) catmap) eqn:E; [|discriminate].
    intros Hn j Hj. destruct (decide (j = s)) as [->|Hne]; [exact E|].
    apply (IH _ Hn). lia.
Qed.

Lemma suffixed_inj cat (a b : nat) :
  icu_lower (cat +:+ str (Z.of_nat a)) = icu_lower (cat +:+ str (Z.of_nat b)) ->
  a = b.
Proof.
  rewrite !icu_lower_numeral. intros E.
  apply (inj (String.app (icu_lower cat))) in E.
  apply str_inj in E. lia.
Qed.

(** The search for a suffix ends: among more numerals than [catmap] has
    keys, one is free. *)
Lemma find_suffix_total (catmap : dict (list string)) cat :
  exists k, find_suffix (S (length catmap)) catmap cat 1 = Some k.
Proof.
  destruct (find_suffix (S (length catmap)) catmap cat 1) as [k|] eqn:E;
    [eauto|exfalso].
  pose proof (find_suffix_none _ _ _ _ E) as Hall.
  set (f := fun j : nat => icu_lower (cat +:+ str (Z.of_nat j))).
  set (L := map f (seq 1 (S (length catmap)))).
  assert (Hnd : List.NoDup L).
  { apply Finite.Injective_map_NoDup; [|apply List.seq_NoDup].
    intros a b. apply suffixed_inj. }
  assert (Hincl : incl L (dict_keys catmap)).
  { intros x Hx. apply in_map_iff in Hx as (j & <- & Hj).
    apply in_seq in Hj. apply dict_mem_keys, Hall. lia. }
  pose proof (List.NoDup_incl_length Hnd Hincl) as Hlen.
  unfold L, dict_keys in Hlen.
  rewrite !length_map, length_seq in Hlen. lia.
Qed.

(** *** The map from lower-cased names to names *)

(** The names among [names] whose lower-cased form is [ucl], in order. *)
Definition group_of (ucl : string) (names : list string) : list string :=
  List.filter (fun n => String.eqb (icu_lower n) ucl) names.

Lemma catmap_add_get (catmap : dict (list string)) uc ucl :
  dict_get ucl (catmap_add catmap uc)
  = if String.eqb (icu_lower uc) ucl
    then Some (default [] (dict_get ucl catmap) ++ [uc])%list
    else dict_get ucl catmap.
Proof.
  unfold catmap_add.
  destruct (String.eqb_spec (icu_lower uc) ucl) as [<-|Hne].
  - destruct (dict_get (icu_lower uc) catmap); simpl; apply dict_get_set_eq.
  - destruct (dict_get (icu_lower uc) catmap); apply dict_get_set_ne; exact Hne.
Qed.

Lemma catmap_get names (c0 : dict (list string)) ucl :
  dict_get ucl (foldl catmap_add c0 names)
  = match dict_get ucl c0, group_of ucl names with
    | None, [] => None
    | o, g => Some (default [] o ++ g)%list
    end.
Proof.
  revert c0. induction names as [|n names IH]; intros c0; simpl.
  - destruct (dict_get ucl c0); simpl; [rewrite app_nil_r|]; reflexivity.
  - rewrite IH, catmap_add_get.
    destruct (String.eqb (icu_lower n) ucl); [|reflexivity].
    destruct (dict_get ucl c0); simpl; rewrite <- ?app_assoc; reflexivity.
Qed.

Lemma build_catmap_get (user_cats : dict pyval) ucl :
  dict_get ucl (build_catmap user_cats)
  = match group_of ucl (dict_keys user_cats) with
    | [] => None
    | g => Some g
    end.
Proof.
  unfold build_catmap. rewrite catmap_get. simpl.
  destruct (group_of ucl (dict_keys user_cats)); reflexivity.
Qed.

Lemma catmap_NoDup names (c0 : dict (list string)) :
  List.NoDup (dict_keys c0) -> List.NoDup (dict_keys (foldl catmap_add c0 names)).
Proof.
  revert c0. induction names as [|n names IH]; intros c0 Hnd; simpl; [exact Hnd|].
  apply IH. unfold catmap_add.
  destruct (dict_get (icu_lower n) c0); apply dict_set_NoDup, Hnd.
Qed.

Lemma build_catmap_NoDup (user_cats : dict pyval) :
  List.NoDup (dict_keys (build_catmap user_cats)).
Proof. apply catmap_NoDup. constructor. Qed.

Lemma group_of_In ucl names n :
  In n (group_of ucl names) <-> In n names /\ icu_lower n = ucl.
Proof.
  unfold group_of. rewrite filter_In.
  destruct (String.eqb_spec (icu_lower n) ucl); intuition congruence.
Qed.

(** An entry of [catmap] lists the names with that lower-cased form. *)
Lemma build_catmap_entry (user_cats : dict pyval) ucl names :
  In (ucl, names) (build_catmap user_cats) ->
  names = group_of ucl (dict_keys user_cats) /\ names <> [].
Proof.
  intros Hin. apply (In_dict_get _ _ _ (build_catmap_NoDup user_cats)) in Hin.
  rewrite build_catmap_get in Hin.
  destruct (group_of ucl (dict_keys user_cats)); [discriminate|].
  injection Hin as <-. split; [reflexivity|discriminate].
Qed.

Lemma build_catmap_mem (user_cats : dict pyval) ucl :
  dict_mem ucl (build_catmap user_cats) = true
  <-> exists n, In n (dict_keys user_cats) /\ icu_lower n = ucl.
Proof.
  unfold dict_mem. rewrite build_catmap_get.
  destruct (group_of ucl (dict_keys user_cats)) as [|n g] eqn:E.
  - split; [discriminate|]. intros (n & Hn & Hl).
    assert (Hin : In n (group_of ucl (dict_keys user_cats)))
      by (apply group_of_In; auto).
    rewrite E in Hin. destruct Hin.
  - split; [|reflexivity]. intros _. exists n.
    apply group_of_In. rewrite E. left. reflexivity.
Qed.

(** *** The renames the second loop makes *)

(** The rename an entry of [catmap] leads to, if any: (old name, new name). *)
Definition rename_of (catmap : dict (list string)) (names : list string) :
  list (string * string) :=
  match names with
  | cat :: _ :: _ =>
      match find_suffix (S (length catmap)) catmap cat 1 with
      | Some k => [(cat, cat +:+ str k)]
      | None => []
      end
  | _ => []
  end.

Definition renames (catmap groups : dict (list string)) : list (string * string) :=
  flat_map (fun g => rename_of catmap (snd g)) groups.

(** [user_cats[new] = user_cats[old]; del user_cats[old]]. *)
Definition apply_rename (d : dict pyval) (r : string * string) : dict pyval :=
  match dict_get (fst r) d with
  | Some v => dict_del (fst r) (dict_set (snd r) v d)
  | None => d
  end.

Lemma apply_rename_other d o n name :
  name <> o -> name <> n ->
  dict_get name (apply_rename d (o, n)) = dict_get name d.
Proof.
  intros Ho Hn. unfold apply_rename. simpl.
  destruct (dict_get o d); [|reflexivity].
  rewrite dict_get_del_ne by congruence. apply dict_get_set_ne. congruence.
Qed.

Lemma fold_renames (pl : list (string * string)) (d : dict pyval) :
  List.NoDup (map fst pl) ->
  (forall o n, In (o, n) pl -> dict_get o d <> None) ->
  (forall o n, In (o, n) pl -> ~ In n (map fst pl)) ->
  (forall name, ~ In name (map fst pl) -> ~ In name (map snd pl) ->
     dict_get name (foldl apply_rename d pl) = dict_get name d) /\
  (forall o n, In (o, n) pl ->
     dict_get o (foldl apply_rename d pl) = None /\
     dict_get n (foldl apply_rename d pl) <> None) /\
  (List.NoDup (map snd pl) -> forall o n, In (o, n) pl ->
     dict_get n (foldl apply_rename d pl) = dict_get o d).
Proof.
  revert d. induction pl as [|[o1 n1] pl IH]; intros d Hnd Hpres Hsep.
  - simpl. repeat split; intros; try reflexivity; contradiction.
  - simpl in Hnd. apply List.NoDup_cons_iff in Hnd as [Ho1 Hnd].
    assert (Hne1 : n1 <> o1).
    { intros ->. apply (Hsep o1 o1); [left; reflexivity|left; reflexivity]. }
    assert (Hn1 : ~ In n1 (map fst pl)).
    { intros Hin. apply (Hsep o1 n1); [left; reflexivity|right; exact Hin]. }
    destruct (dict_get o1 d) as [v1|] eqn:Ev1;
      [|exfalso; apply (Hpres o1 n1); [left; reflexivity|exact Ev1]].
    assert (Hold : forall o n, In (o, n) pl -> o <> o1 /\ o <> n1).
    { intros o n Hin. split; intros ->.
      - apply Ho1. apply in_map_iff. exists (o1, n). auto.
      - apply Hn1. apply in_map_iff. exists (n1, n). auto. }
    assert (Hpres' : forall o n, In (o, n) pl ->
                                 dict_get o (apply_rename d (o1, n1)) <> None).
    { intros o n Hin. destruct (Hold o n Hin).
      rewrite apply_rename_other by assumption. apply (Hpres o n). right. exact Hin. }
    assert (Hsep' : forall o n, In (o, n) pl -> ~ In n (map fst pl)).
    { intros o n Hin Hn. apply (Hsep o n); [right; exact Hin|right; exact Hn]. }
    destruct (IH (apply_rename d (o1, n1)) Hnd Hpres' Hsep') as (I1 & I2 & I3).
    assert (Ho1n : ~ In o1 (map snd pl)).
    { intros Hin. apply in_map_iff in Hin as ([o n] & E & Hin). simpl in E. subst n.
      apply (Hsep o o1); [right; exact Hin|left; reflexivity]. }
    assert (Ed1 : dict_get o1 (apply_rename d (o1, n1)) = None).
    { unfold apply_rename. simpl. rewrite Ev1. apply dict_get_del_eq. }
    assert (En1 : dict_get n1 (apply_rename d (o1, n1)) = Some v1).
    { unfold apply_rename. simpl. rewrite Ev1.
      rewrite dict_get_del_ne by congruence. apply dict_get_set_eq. }
    simpl foldl. split; [|split].
    + intros name Hf Hs. simpl in Hf, Hs.
      rewrite I1 by tauto. apply apply_rename_other; intros ->; tauto.
    + intros o n [[= -> ->]|Hin]; [|apply (I2 o n Hin)]. split.
      * rewrite I1 by assumption. exact Ed1.
      * destruct (in_dec string_dec n (map snd pl)) as [Hin|Hout].
        -- apply in_map_iff in Hin as ([o' n'] & E & Hin). simpl in E. subst n'.
           apply (I2 o' n Hin).
        -- rewrite I1 by assumption. rewrite En1. discriminate.
    + intros Hnds o n Hin. simpl in Hnds.
      apply List.NoDup_cons_iff in Hnds as [Hn1s Hnds].
      destruct Hin as [[= -> ->]|Hin].
      * rewrite I1 by assumption. congruence.
      * rewrite (I3 Hnds o n Hin). destruct (Hold o n Hin).
        apply apply_rename_other; assumption.
Qed.

Lemma renames_cons catmap ucl names (groups : dict (list string)) :
  renames catmap ((ucl, names) :: groups)
  = (rename_of catmap names ++ renames catmap groups)%list.
Proof. reflexivity. Qed.

Lemma rename_of_single catmap names :
  (forall cat x rest, names <> cat :: x :: rest) ->
  rename_of catmap names = [] /\
  forall st, rename_group catmap st names = Some (Return tt, st).
Proof.
  intros Hn. destruct names as [|cat [|x rest]]; try (split; reflexivity).
  exfalso. apply (Hn cat x rest). reflexivity.
Qed.

Lemma rename_of_colliding catmap cat x rest k :
  find_suffix (S (length catmap)) catmap cat 1 = Some k ->
  rename_of catmap (cat :: x :: rest) = [(cat, cat +:+ str k)] /\
  forall d b v, dict_get cat d = Some v ->
    rename_group catmap (d, b) (cat :: x :: rest)
    = Some (Return tt, (apply_rename d (cat, cat +:+ str k), true)).
Proof.
  intros Hk. unfold rename_of, rename_group, apply_rename. rewrite Hk.
  split; [reflexivity|]. intros d b v Hv. simpl. rewrite Hv. reflexivity.
Qed.

(** The loop does the renames one after the other; no search for a suffix
    runs on for ever and no [KeyError] is raised. *)
Lemma rename_loop_run (catmap groups : dict (list string)) (d : dict pyval) (b : bool) :
  List.NoDup (map fst (renames catmap groups)) ->
  (forall o n, In (o, n) (renames catmap groups) -> dict_get o d <> None) ->
  (forall o n, In (o, n) (renames catmap groups) ->
               ~ In n (map fst (renames catmap groups))) ->
  rename_loop catmap groups (d, b)
  = Some (Return tt,
          (foldl apply_rename d (renames catmap groups),
           match renames catmap groups with [] => b | _ :: _ => true end)).
Proof.
  revert d b. induction groups as [|[ucl names] groups IH]; intros d b Hnd Hpres Hsep.
  - reflexivity.
  - rewrite renames_cons in *. cbn [rename_loop].
    destruct names as [|cat [|x rest]].
    + cbn. apply IH; assumption.
    + cbn. apply IH; assumption.
    + destruct (find_suffix_total catmap cat) as (k & Hk).
      destruct (rename_of_colliding catmap cat x rest k Hk) as [Er Eg].
      rewrite Er in *. cbn [app] in *.
      destruct (dict_get cat d) as [v|] eqn:Ev;
        [|exfalso; apply (Hpres cat (cat +:+ str k)); [left; reflexivity|exact Ev]].
      rewrite (Eg d b v Ev).
      cbn [map fst] in Hnd. apply List.NoDup_cons_iff in Hnd as [Hcat Hnd].
      rewrite IH.
      * cbn [foldl]. destruct (renames catmap groups); reflexivity.
      * exact Hnd.
      * intros o n Hin.
        assert (o <> cat).
        { intros ->. apply Hcat. apply in_map_iff. exists (cat, n). auto. }
        assert (o <> cat +:+ str k).
        { intros ->. apply (Hsep cat (cat +:+ str k)); [left; reflexivity|].
          right. apply in_map_iff. exists (cat +:+ str k, n). auto. }
        rewrite apply_rename_other by assumption.
        apply (Hpres o n). right. exact Hin.
      * intros o n Hin Hn. apply (Hsep o n); [right; exact Hin|right; exact Hn].
Qed.

(** *** What the renames are, in terms of the category names *)

(** [cat] is the first of several names with its lower-cased form. *)
Definition first_of_group (names : list string) (cat : string) : Prop :=
  exists pre post,
    names = (pre ++ cat :: post)%list /\
    (forall x, In x pre -> icu_lower x <> icu_lower cat) /\
    (exists y, In y post /\ icu_lower y = icu_lower cat).

(** [k] is the least positive integer for which the lower-cased [cat + str(k)]
    is the lower-cased form of none of [names]. *)
Definition least_suffix (names : list string) (cat : string) (k : Z) : Prop :=
  1 <= k /\
  (forall x, In x names -> icu_lower x <> icu_lower (cat +:+ str k)) /\
  (forall j, 1 <= j < k ->
     exists x, In x names /\ icu_lower x = icu_lower (cat +:+ str j)).

Lemma filter_head {A : Type} (p : A -> bool) (l : list A) a t :
  List.filter p l = a :: t ->
  exists pre post, l = (pre ++ a :: post)%list /\
                   (forall x, In x pre -> p x = false) /\
                   List.filter p post = t.
Proof.
  induction l as [|x l IH]; simpl; [discriminate|].
  destruct (p x) eqn:E.
  - intros [= -> <-]. exists [], l. repeat split. intros y [].
  - intros Hf. destruct (IH Hf) as (pre & post & -> & Hpre & Hpost).
    exists (x :: pre), post. repeat split; [|exact Hpost].
    intros y [<-|Hy]; auto.
Qed.

Lemma filter_first {A : Type} (p : A -> bool) (pre post : list A) a :
  (forall x, In x pre -> p x = false) -> p a = true ->
  List.filter p (pre ++ a :: post) = a :: List.filter p post.
Proof.
  intros Hpre Ha. induction pre as [|x pre IH]; simpl.
  - rewrite Ha. reflexivity.
  - rewrite (Hpre x) by (left; reflexivity). apply IH.
    intros y Hy. apply Hpre. right. exact Hy.
Qed.

Lemma renames_In catmap (groups : dict (list string)) o n :
  In (o, n) (renames catmap groups) <->
  exists ucl x rest k,
    In (ucl, o :: x :: rest) groups /\
    find_suffix (S (length catmap)) catmap o 1 = Some k /\ n = o +:+ str k.
Proof.
  unfold renames. rewrite in_flat_map. split.
  - intros ([ucl names] & Hg & Hin). cbn [snd] in Hin. unfold rename_of in Hin.
    destruct names as [|cat [|x rest]]; try destruct Hin.
    destruct (find_suffix _ _ cat 1) as [k|] eqn:Hk; [|destruct Hin].
    destruct Hin as [[= <- <-]|[]]. exists ucl, x, rest, k. auto.
  - intros (ucl & x & rest & k & Hg & Hk & ->).
    exists (ucl, o :: x :: rest). split; [exact Hg|].
    cbn [snd]. unfold rename_of. rewrite Hk. left. reflexivity.
Qed.

Section Groups.
Variable user_cats : dict pyval.
Variable groups : dict (list string).
Hypothesis groups_order : Permutation groups (build_catmap user_cats).

Let keys : list string := dict_keys user_cats.
Let catmap : dict (list string) := build_catmap user_cats.

Lemma group_entry ucl names :
  In (ucl, names) groups -> names = group_of ucl keys /\ names <> [].
Proof.
  intros Hin. apply build_catmap_entry.
  apply (Permutation_in _ groups_order), Hin.
Qed.

Lemma groups_NoDup : List.NoDup (map fst groups).
Proof.
  apply (Permutation_NoDup (l := map fst (build_catmap user_cats))).
  - apply Permutation_map. symmetry. exact groups_order.
  - apply build_catmap_NoDup.
Qed.

Lemma suffix_least cat k :
  find_suffix (S (length catmap)) catmap cat 1 = Some k -> least_suffix keys cat k.
Proof.
  intros Hk. destruct (find_suffix_some _ _ _ _ _ Hk) as (Hle & Hfree & Hbelow).
  split; [exact Hle|]. split.
  - intros x Hx E.
    assert (Hm : dict_mem (icu_lower (cat +:+ str k)) catmap = true)
      by (apply build_catmap_mem; exists x; auto).
    congruence.
  - intros j Hj. apply build_catmap_mem, Hbelow, Hj.
Qed.

Lemma renamed_is_first o n :
  In (o, n) (renames catmap groups) ->
  first_of_group keys o /\ exists k, n = o +:+ str k /\ least_suffix keys o k.
Proof.
  intros Hin. apply renames_In in Hin as (ucl & x & rest & k & Hg & Hk & ->).
  split; [|exists k; split; [reflexivity|apply suffix_least, Hk]].
  destruct (group_entry _ _ Hg) as [Hnames _].
  unfold group_of in Hnames. symmetry in Hnames.
  destruct (filter_head _ _ _ _ Hnames) as (pre & post & Hkeys & Hpre & Hpost).
  assert (Ho : icu_lower o = ucl).
  { assert (Hino : In o (group_of ucl keys))
      by (unfold group_of; rewrite Hnames; left; reflexivity).
    apply group_of_In in Hino. tauto. }
  exists pre, post. split; [exact Hkeys|]. split.
  - intros y Hy E. specialize (Hpre y Hy).
    apply String.eqb_neq in Hpre. congruence.
  - exists x.
    assert (Hx : In x (List.filter (fun n => String.eqb (icu_lower n) ucl) post))
      by (rewrite Hpost; left; reflexivity).
    apply filter_In in Hx as [Hx Hxl]. apply String.eqb_eq in Hxl.
    split; [exact Hx|congruence].
Qed.

Lemma first_is_renamed o :
  first_of_group keys o -> exists k, In (o, o +:+ str k) (renames catmap groups).
Proof.
  intros (pre & post & Hkeys & Hpre & y & Hy & Hyl).
  assert (Hgrp : exists x rest, group_of (icu_lower o) keys = o :: x :: rest).
  { unfold group_of. rewrite Hkeys, filter_first.
    - destruct (List.filter _ post) as [|x rest] eqn:E; [|eauto].
      exfalso.
      assert (Hin : In y (List.filter
                (fun n => String.eqb (icu_lower n) (icu_lower o)) post))
        by (apply filter_In; split; [exact Hy|apply String.eqb_eq, Hyl]).
      rewrite E in Hin. destruct Hin.
    - intros z Hz. apply String.eqb_neq, Hpre, Hz.
    - apply String.eqb_refl. }
  destruct Hgrp as (x & rest & Hgrp).
  destruct (find_suffix_total catmap o) as (k & Hk).
  exists k. apply renames_In. exists (icu_lower o), x, rest, k.
  split; [|auto].
  apply (Permutation_in _ (Permutation_sym groups_order)).
  apply dict_get_In. rewrite build_catmap_get.
  fold keys. rewrite Hgrp. reflexivity.
Qed.

Lemma renamed_fresh o n :
  In (o, n) (renames catmap groups) -> ~ In n keys.
Proof.
  intros Hin Hn.
  destruct (renamed_is_first o n Hin) as (_ & k & -> & _ & Hfree & _).
  apply (Hfree _ Hn). reflexivity.
Qed.

Lemma renamed_is_key o n : In (o, n) (renames catmap groups) -> In o keys.
Proof.
  intros Hin. destruct (renamed_is_first o n Hin) as ((pre & post & -> & _) & _).
  apply in_or_app. right. left. reflexivity.
Qed.

Lemma renames_sep o n :
  In (o, n) (renames catmap groups) -> ~ In n (map fst (renames catmap groups)).
Proof.
  intros Hin Hn. apply in_map_iff in Hn as ([o' n'] & E & Hin').
  simpl in E. subst o'.
  apply (renamed_fresh o n Hin). apply (renamed_is_key n n' Hin').
Qed.

Lemma renames_NoDup_gen (gs : dict (list string)) :
  List.NoDup (map fst gs) ->
  (forall ucl o x rest, In (ucl, o :: x :: rest) gs -> icu_lower o = ucl) ->
  List.NoDup (map fst (renames catmap gs)).
Proof.
  induction gs as [|[ucl names] gs IH]; intros Hnd Hhead; [constructor|].
  rewrite renames_cons, map_app. cbn [map fst] in Hnd.
  apply List.NoDup_cons_iff in Hnd as [Hucl Hnd].
  assert (IH' : List.NoDup (map fst (renames catmap gs))).
  { apply IH; [exact Hnd|]. intros u o x rest Hin.
    apply (Hhead u o x rest). right. exact Hin. }
  unfold rename_of. destruct names as [|cat [|x rest]]; try exact IH'.
  destruct (find_suffix _ _ cat 1) as [k|]; [|exact IH'].
  cbn [map fst app]. constructor; [|exact IH'].
  intros Hin. apply in_map_iff in Hin as ([o n] & E & Hin). simpl in E. subst o.
  apply renames_In in Hin as (u & x' & rest' & k' & Hg & _ & _).
  assert (icu_lower cat = u) by (apply (Hhead u cat x' rest'); right; exact Hg).
  assert (icu_lower cat = ucl) by (apply (Hhead ucl cat x rest); left; reflexivity).
  apply Hucl. apply in_map_iff. exists (u, cat :: x' :: rest').
  split; [simpl; congruence|exact Hg].
Qed.

Lemma renames_NoDup : List.NoDup (map fst (renames catmap groups)).
Proof.
  apply renames_NoDup_gen; [apply groups_NoDup|].
  intros ucl o x rest Hin. destruct (group_entry _ _ Hin) as [Hnames _].
  assert (Hino : In o (group_of ucl keys)) by (rewrite <- Hnames; left; reflexivity).
  apply group_of_In in Hino. tauto.
Qed.

(** What the second loop makes of the dictionary. *)
Lemma rename_loop_result :
  rename_loop catmap groups (user_cats, false)
  = Some (Return tt,
          (foldl apply_rename user_cats (renames catmap groups),
           match renames catmap groups with [] => false | _ :: _ => true end)).
Proof.
  apply rename_loop_run.
  - apply renames_NoDup.
  - intros o n Hin. apply dict_get_keys. exact (renamed_is_key o n Hin).
  - exact renames_sep.
Qed.

Lemma renamed_dictionary :
  let final := foldl apply_rename user_cats (renames catmap groups) in
  (forall cat, first_of_group keys cat ->
     dict_get cat final = None /\
     exists k, least_suffix keys cat k /\ dict_get (cat +:+ str k) final <> None) /\
  (forall name, In name keys -> ~ first_of_group keys name ->
     dict_get name final = dict_get name user_cats) /\
  (List.NoDup (map snd (renames catmap groups)) ->
   forall cat, first_of_group keys cat ->
     exists k, least_suffix keys cat k /\
               dict_get (cat +:+ str k) final = dict_get cat user_cats).
Proof.
  intros final.
  destruct (fold_renames (renames catmap groups) user_cats renames_NoDup)
    as (F1 & F2 & F3).
  { intros o n Hin. apply dict_get_keys. exact (renamed_is_key o n Hin). }
  { exact renames_sep. }
  split; [|split].
  - intros cat Hfirst. destruct (first_is_renamed cat Hfirst) as (k & Hin).
    destruct (F2 _ _ Hin) as [Hgone Hnew]. split; [exact Hgone|].
    destruct (renamed_is_first _ _ Hin) as (_ & k' & E & Hleast).
    apply (inj (String.app cat)), str_inj in E. subst k'.
    exists k. auto.
  - intros name Hkey Hnot. apply F1.
    + intros Hin. apply in_map_iff in Hin as ([o n] & E & Hin). simpl in E. subst o.
      apply Hnot. exact (proj1 (renamed_is_first _ _ Hin)).
    + intros Hin. apply in_map_iff in Hin as ([o n] & E & Hin). simpl in E. subst n.
      exact (renamed_fresh _ _ Hin Hkey).
  - intros Hnds cat Hfirst. destruct (first_is_renamed cat Hfirst) as (k & Hin).
    destruct (renamed_is_first _ _ Hin) as (_ & k' & E & Hleast).
    apply (inj (String.app cat)), str_inj in E. subst k'.
    exists k. split; [exact Hleast|]. exact (F3 Hnds _ _ Hin).
Qed.

Lemma renames_nil_iff :
  renames catmap groups = [] <-> ~ exists cat, first_of_group keys cat.
Proof.
  split.
  - intros E (cat & Hfirst). destruct (first_is_renamed cat Hfirst) as (k & Hin).
    rewrite E in Hin. destruct Hin.
  - intros Hnone. destruct (renames catmap groups) as [|[o n] l] eqn:E; [reflexivity|].
    exfalso. apply Hnone. exists o.
    apply (renamed_is_first o n). fold catmap. rewrite E. left. reflexivity.
Qed.

(** The names of the dictionary after the renames are the names that were
    kept and the new names, and no other. *)
Lemma renamed_names name :
  dict_get name (foldl apply_rename user_cats (renames catmap groups)) <> None ->
  (In name keys /\ ~ first_of_group keys name) \/
  (exists cat k, first_of_group keys cat /\ least_suffix keys cat k /\
                 name = cat +:+ str k).
Proof.
  intros Hname.
  destruct (fold_renames (renames catmap groups) user_cats renames_NoDup)
    as (F1 & F2 & _).
  { intros o n Hin. apply dict_get_keys. exact (renamed_is_key o n Hin). }
  { exact renames_sep. }
  destruct (in_dec string_dec name (map snd (renames catmap groups))) as [Hnew|Hnew].
  - right. apply in_map_iff in Hnew as ([o n] & E & Hin). simpl in E. subst n.
    destruct (renamed_is_first o name Hin) as (Hfirst & k & -> & Hleast).
    exists o, k. auto.
  - left.
    destruct (in_dec string_dec name (map fst (renames catmap groups))) as [Hold|Hold].
    + exfalso. apply in_map_iff in Hold as ([o n] & E & Hin). simpl in E. subst o.
      apply Hname. exact (proj1 (F2 _ _ Hin)).
    + rewrite (F1 name Hold Hnew) in Hname. split; [apply dict_get_keys, Hname|].
      intros Hfirst. destruct (first_is_renamed name Hfirst) as (k & Hin).
      apply Hold. apply in_map_iff. exists (name, name +:+ str k). auto.
Qed.

End Groups.

(** *** A stored list of names or text *)

Lemma group_of_apart (ucl : string) (names : list string) :
  List.NoDup (map icu_lower names) ->
  forall cat x rest, group_of ucl names <> cat :: x :: rest.
Proof.
  intros Hnd cat x rest Hg. unfold group_of in Hg.
  destruct (filter_head _ _ _ _ Hg) as (pre & post & -> & _ & Hpost).
  assert (Hx : In x (List.filter (fun n => String.eqb (icu_lower n) ucl) post))
    by (rewrite Hpost; left; reflexivity).
  assert (Hc : In cat (List.filter (fun n => String.eqb (icu_lower n) ucl)
                         (pre ++ cat :: post)))
    by (rewrite Hg; left; reflexivity).
  apply filter_In in Hx as [Hx Hxl]. apply filter_In in Hc as [_ Hcl].
  apply String.eqb_eq in Hxl, Hcl.
  rewrite map_app in Hnd. apply List.NoDup_remove_2 in Hnd.
  apply Hnd. apply in_or_app. right. rewrite Hcl, <- Hxl. apply in_map, Hx.
Qed.

Lemma sequence_loop_apart (catmap groups : dict (list string)) :
  (forall ucl names cat x rest, In (ucl, names) groups -> names <> cat :: x :: rest) ->
  sequence_loop catmap groups = Some (Return tt).
Proof.
  induction groups as [|[ucl names] groups IH]; intros Hg; [reflexivity|].
  cbn [sequence_loop].
  destruct names as [|cat [|x rest]];
    try (apply IH; intros u n c y r Hin; apply (Hg u n c y r); right; exact Hin).
  exfalso. apply (Hg ucl (cat :: x :: rest) cat x rest); [left|]; reflexivity.
Qed.

(** A stored list of names, or a text, in which no two names collide goes
    through both loops and the block returns with the store as it was. *)
Lemma rename_in_sequence_apart
  (order : dict (list string) -> dict (list string)) (names : list string)
  (self : DBPrefs) :
  (forall c, Permutation (order c) c) ->
  List.NoDup (map icu_lower names) ->
  rename_in_sequence order names self = Some (Return tt, self).
Proof.
  intros Hperm Hnd. unfold rename_in_sequence.
  set (user_cats := map (fun n : string => (n, PNone)) names).
  assert (Hkeys : dict_keys user_cats = names).
  { unfold user_cats, dict_keys. rewrite map_map. apply map_id. }
  assert (Hcat : foldl catmap_add [] names = build_catmap user_cats)
    by (unfold build_catmap; rewrite Hkeys; reflexivity).
  rewrite Hcat, sequence_loop_apart; [reflexivity|].
  intros ucl g cat x rest Hin.
  apply (Permutation_in _ (Hperm _)) in Hin.
  destruct (build_catmap_entry _ _ _ Hin) as [-> _]. rewrite Hkeys.
  apply group_of_apart, Hnd.
Qed.

(** No three names share a lower-cased form: a group of colliding names
    has two names. *)
Definition pair_groups (names : list string) : Prop :=
  forall x y z, In x names -> In y names -> In z names ->
    icu_lower x = icu_lower y -> icu_lower y = icu_lower z ->
    x = y \/ y = z \/ x = z.

(** No two groups are given new names that collide. *)
Definition distinct_new_names (names : list string) : Prop :=
  forall c1 c2 k1 k2,
    first_of_group names c1 -> first_of_group names c2 ->
    least_suffix names c1 k1 -> least_suffix names c2 k2 ->
    icu_lower (c1 +:+ str k1) = icu_lower (c2 +:+ str k2) -> c1 = c2.

Lemma NoDup_snd_of_fst (l : list (string * string)) :
  List.NoDup (map fst l) ->
  (forall o n o' n', In (o, n) l -> In (o', n') l -> n = n' -> o = o') ->
  List.NoDup (map snd l).
Proof.
  induction l as [|[o n] l IH]; intros Hnd Hinj; [constructor|].
  cbn [map fst snd] in *. apply List.NoDup_cons_iff in Hnd as [Ho Hnd].
  constructor.
  - intros Hin. apply in_map_iff in Hin as ([o' n'] & E & Hin). simpl in E. subst n'.
    apply Ho. apply in_map_iff. exists (o', n). split; [|exact Hin]. simpl.
    symmetry. apply (Hinj o n o' n); [left; reflexivity|right; exact Hin|reflexivity].
  - apply IH; [exact Hnd|]. intros a b a' b' H1 H2.
    apply (Hinj a b a' b'); right; assumption.
Qed.

Lemma least_suffix_unique (names : list string) (cat : string) (k1 k2 : Z) :
  least_suffix names cat k1 -> least_suffix names cat k2 -> k1 = k2.
Proof.
  intros (H1 & F1 & B1) (H2 & F2 & B2).
  destruct (Z.lt_trichotomy k1 k2) as [Hlt|[E|Hlt]]; [exfalso|exact E|exfalso].
  - destruct (B2 k1 ltac:(lia)) as (x & Hx & E). exact (F1 x Hx E).
  - destruct (B1 k2 ltac:(lia)) as (x & Hx & E). exact (F2 x Hx E).
Qed.

(** The first of the names with the lower-cased form of [x]. *)
Lemma first_with_lower (names : list string) (x : string) :
  In x names ->
  exists pre f post,
    names = (pre ++ f :: post)%list /\ icu_lower f = icu_lower x /\
    (forall y, In y pre -> icu_lower y <> icu_lower x).
Proof.
  induction names as [|n names IH]; intros Hin; [destruct Hin|].
  destruct (string_dec (icu_lower n) (icu_lower x)) as [E|Hne].
  - exists [], n, names. split; [reflexivity|]. split; [exact E|intros y []].
  - destruct Hin as [->|Hin]; [congruence|].
    destruct (IH Hin) as (pre & f & post & -> & Hf & Hpre).
    exists (n :: pre), f, post. split; [reflexivity|]. split; [exact Hf|].
    intros y [<-|Hy]; [exact Hne|exact (Hpre y Hy)].
Qed.

(** In a group of two colliding names only one is not the first, so the
    names that are kept do not collide. *)
Lemma kept_apart (names : list string) (x y : string) :
  pair_groups names -> In x names -> In y names ->
  ~ first_of_group names x -> ~ first_of_group names y ->
  icu_lower x = icu_lower y -> x = y.
Proof.
  intros Hpair Hx Hy Hnx Hny E.
  destruct (string_dec x y) as [|Hne]; [assumption|exfalso].
  destruct (first_with_lower names x Hx) as (pre & f & post & Hnames & Hf & Hpre).
  assert (Hin : forall z, In z names -> icu_lower z = icu_lower x -> z <> f ->
                          In z post).
  { intros z Hz Hzl Hzf. rewrite Hnames in Hz.
    apply in_app_or in Hz as [Hz|[Hz|Hz]]; [|congruence|exact Hz].
    exfalso. exact (Hpre z Hz Hzl). }
  assert (Hfirst : forall z, In z names -> icu_lower z = icu_lower x -> z <> f ->
                             first_of_group names f).
  { intros z Hz Hzl Hzf. exists pre, post. split; [exact Hnames|]. split.
    - intros u Hu. rewrite Hf. exact (Hpre u Hu).
    - exists z. split; [exact (Hin z Hz Hzl Hzf)|congruence]. }
  assert (Hfn : In f names).
  { rewrite Hnames. apply in_or_app. right. left. reflexivity. }
  destruct (string_dec x f) as [Exf|Hxf].
  - subst f. apply Hnx. apply (Hfirst y Hy); congruence.
  - destruct (string_dec y f) as [Eyf|Hyf].
    + subst f. apply Hny. apply (Hfirst x Hx); congruence.
    + destruct (Hpair f x y Hfn Hx Hy Hf E) as [?|[?|?]]; congruence.
Qed.

(** C4 (amended).  When every group of category names that collide under
    case-insensitive comparison has two names and no two groups are given
    new names that collide, the block renames in each group the name that
    comes first in the dictionary (not the second) to the name followed by
    the least positive integer for which the lower-cased result is the
    lower-cased form of no original name, and the renamed entry keeps its
    value; every other name keeps its entry; the names of the result are
    these and no other, and no two of them collide any more: each group is
    left with one name as it was and one with a suffix of its own.  When
    some name was renamed, the dictionary is handed to [prefs.set] and so
    is written to the table; otherwise nothing is written.  The order in
    which [catmap] yields its entries does not matter. *)
Theorem rename_user_categories_first
  (order : dict (list string) -> dict (list string)) (self : DBPrefs)
  (user_cats : dict pyval) :
  (forall c, Permutation (order c) c) ->
  mirror self !! "user_categories" = Some (PDict user_cats) ->
  disable_setting self = false ->
  pair_groups (dict_keys user_cats) ->
  distinct_new_names (dict_keys user_cats) ->
  exists final r self',
    rename_user_categories order self = Some (r, self') /\
    (forall cat, first_of_group (dict_keys user_cats) cat ->
       dict_get cat final = None /\
       exists k, least_suffix (dict_keys user_cats) cat k /\
                 dict_get (cat +:+ str k) final = dict_get cat user_cats /\
                 dict_get cat user_cats <> None) /\
    (forall name, In name (dict_keys user_cats) ->
       ~ first_of_group (dict_keys user_cats) name ->
       dict_get name final = dict_get name user_cats) /\
    (forall name, dict_get name final <> None ->
       (In name (dict_keys user_cats) /\ ~ first_of_group (dict_keys user_cats) name) \/
       (exists cat k, first_of_group (dict_keys user_cats) cat /\
                      least_suffix (dict_keys user_cats) cat k /\
                      name = cat +:+ str k)) /\
    (forall x y, dict_get x final <> None -> dict_get y final <> None ->
       icu_lower x = icu_lower y -> x = y) /\
    ((exists cat, first_of_group (dict_keys user_cats) cat) ->
     forall raw, to_raw (PDict final) = Return raw ->
                 head (faults self) <> Some true ->
       r = Return tt /\
       table self' !! "user_categories" = Some raw /\
       mirror self' !! "user_categories" = Some (PDict final)) /\
    ((~ exists cat, first_of_group (dict_keys user_cats) cat) ->
     final = user_cats /\ r = Return tt /\ self' = self).
Proof.
  intros Hperm Hmir Hen Hpair Hdist.
  set (catmap := build_catmap user_cats).
  set (groups := order catmap).
  assert (Hord : Permutation groups (build_catmap user_cats)) by apply Hperm.
  set (final := foldl apply_rename user_cats (renames catmap groups)).
  destruct (renamed_dictionary user_cats groups Hord) as (R1 & R2 & R3).
  fold catmap final in R1, R2, R3.
  pose proof (renamed_names user_cats groups Hord) as R4.
  fold catmap final in R4.
  pose proof (rename_loop_result user_cats groups Hord) as Hloop.
  fold catmap final in Hloop.
  pose proof (renames_nil_iff user_cats groups Hord) as Hnil. fold catmap in Hnil.
  assert (Hvalue : forall cat, first_of_group (dict_keys user_cats) cat ->
            dict_get cat final = None /\
            exists k, least_suffix (dict_keys user_cats) cat k /\
                      dict_get (cat +:+ str k) final = dict_get cat user_cats /\
                      dict_get cat user_cats <> None).
  { intros cat Hfirst. split; [exact (proj1 (R1 cat Hfirst))|].
    destruct (R3 ltac:(apply NoDup_snd_of_fst;
                       [apply renames_NoDup, Hord
                       |intros o n o' n' H1 H2 E;
                        destruct (renamed_is_first user_cats groups Hord o n H1)
                          as (F1 & k1 & -> & L1);
                        destruct (renamed_is_first user_cats groups Hord o' n' H2)
                          as (F2 & k2 & -> & L2);
                        apply (Hdist o o' k1 k2 F1 F2 L1 L2); rewrite E; reflexivity])
              cat Hfirst) as (k & Hleast & Hval).
    exists k. split; [exact Hleast|]. split; [exact Hval|].
    apply dict_get_keys. destruct Hfirst as (pre & post & -> & _).
    apply in_or_app. right. left. reflexivity. }
  assert (Hapart : forall x y, dict_get x final <> None -> dict_get y final <> None ->
                     icu_lower x = icu_lower y -> x = y).
  { intros x y Hx Hy E.
    destruct (R4 x Hx) as [[Kx Nx]|(c1 & k1 & F1 & L1 & ->)];
      destruct (R4 y Hy) as [[Ky Ny]|(c2 & k2 & F2 & L2 & ->)].
    - exact (kept_apart _ x y Hpair Kx Ky Nx Ny E).
    - exfalso. destruct L2 as (_ & Hfree & _). exact (Hfree x Kx E).
    - exfalso. destruct L1 as (_ & Hfree & _). apply (Hfree y Ky). congruence.
    - assert (c1 = c2) by exact (Hdist c1 c2 k1 k2 F1 F2 L1 L2 E). subst c2.
      rewrite (least_suffix_unique _ _ _ _ L1 L2). reflexivity. }
  set (self1 := record (table self)
                  (<["user_categories" := PDict final]> (mirror self))
                  (faults self) self).
  assert (Hrun : rename_user_categories order self
                 = match renames catmap groups with
                   | [] => Some (Return tt, self)
                   | _ :: _ => Some (set "user_categories" (PDict final) self1)
                   end).
  { unfold rename_user_categories, get. rewrite Hmir.
    fold catmap. fold groups.
    match goal with
    | |- context [rename_loop ?a ?b ?c] =>
        replace (rename_loop a b c)
          with (Some (Return tt,
                      (final, match renames catmap groups with
                              | [] => false
                              | _ :: _ => true
                              end)))
          by (symmetry; exact Hloop)
    end.
    destruct (renames catmap groups); reflexivity. }
  destruct (renames catmap groups) as [|rn rns] eqn:Ern.
  - exists final, (Return tt), self. split; [exact Hrun|].
    repeat (split; [assumption|]). split.
    + intros Hex. exfalso. apply (proj1 Hnil); [reflexivity|exact Hex].
    + intros _. unfold final. auto.
  - exists final, (fst (set "user_categories" (PDict final) self1)),
           (snd (set "user_categories" (PDict final) self1)).
    split; [rewrite Hrun; destruct (set _ _ self1); reflexivity|].
    repeat (split; [assumption|]). split.
    + intros _ raw Hraw Hf.
      destruct (PrefsFacts.setitem_stored "user_categories" (PDict final) self1 raw
                  Hen Hraw Hf) as (Hr & Ht & Hm).
      fold (set "user_categories" (PDict final) self1) in Hr, Ht, Hm.
      rewrite Hr, Ht, Hm, !lookup_insert_eq. auto.
    + intros Hnone. exfalso.
      pose proof (proj2 Hnil Hnone). discriminate.
Qed.

End Rename.

Import Sample.

Lemma lower_numeral_char (c : ascii) : numeral_char c = true -> lower_char c = c.
Proof.
  destruct c as [[] [] [] [] [] [] [] []]; intros Hc; try discriminate Hc;
    reflexivity.
Qed.

Lemma string_map_app (f : ascii -> ascii) (a b : string) :
  string_map f (a +:+ b) = string_map f a +:+ string_map f b.
Proof. induction a as [|c a IH]; simpl; [reflexivity|]. rewrite IH. reflexivity. Qed.

Lemma lower_numeral (s : string) (n : Z) : lower (s +:+ str n) = lower s +:+ str n.
Proof.
  unfold lower. rewrite string_map_app. f_equal.
  pose proof (str_numeral n) as Hn. induction (str n) as [|c t IH]; simpl in *.
  - reflexivity.
  - apply andb_true_iff in Hn as [Hc Ht].
    rewrite (lower_numeral_char c Hc), (IH Ht). reflexivity.
Qed.

(** Two categories that differ in case only, in a store that is enabled. *)
Definition two_cases : DBPrefs :=
  {| table := ∅;
     mirror := {["user_categories" :=
                   PDict [("Foo", PList [PStr "x"]); ("foo", PList [])]]};
     defaults := ∅; disable_setting := false; faults := []; history := [] |}.

Lemma two_cases_first (c : string) : first_of_group ["Foo"; "foo"] c -> c = "Foo".
Proof.
  intros (pre & post & Hkeys & _ & y & Hy & _).
  destruct pre as [|p0 [|p1 pre]].
  - injection Hkeys as <- _. reflexivity.
  - injection Hkeys as _ _ <-. destruct Hy.
  - injection Hkeys as _ _ Hkeys. destruct pre; discriminate Hkeys.
Qed.

Lemma two_cases_pairs : pair_groups ["Foo"; "foo"].
Proof.
  intros x y z [<-|[<-|[]]] [<-|[<-|[]]] [<-|[<-|[]]] _ _; auto.
Qed.

Lemma two_cases_distinct : distinct_new_names ["Foo"; "foo"].
Proof.
  intros c1 c2 k1 k2 F1 F2 _ _ _.
  rewrite (two_cases_first c1 F1), (two_cases_first c2 F2). reflexivity.
Qed.

Lemma rename_user_categories_first_witness :
  exists final r self',
    rename_user_categories (fun c => c) two_cases = Some (r, self') /\
    dict_get "Foo" final = None /\
    (exists k, dict_get ("Foo" +:+ str k) final = Some (PList [PStr "x"])) /\
    dict_get "foo" final = Some (PList []).
Proof.
  destruct (@rename_user_categories_first icu json lower_numeral (fun c => c) two_cases
              [("Foo", PList [PStr "x"]); ("foo", PList [])]
              (fun c => Permutation_refl c) eq_refl eq_refl
              two_cases_pairs two_cases_distinct)
    as (final & r & self' & Hrun & Hfirst & Hother & _).
  assert (F : first_of_group ["Foo"; "foo"] "Foo").
  { exists [], ["foo"]. split; [reflexivity|].
    split; [intros x []|]. exists "foo". split; [left; reflexivity|reflexivity]. }
  exists final, r, self'. split; [exact Hrun|].
  destruct (Hfirst "Foo" F) as (Hgone & k & _ & Hval & _).
  split; [exact Hgone|]. split; [exists k; exact Hval|].
  rewrite Hother; [reflexivity|right; left; reflexivity|].
  intros F'. apply two_cases_first in F'. discriminate F'.
Defined.

(** C4 as stated fails.  Of the two names Foo and foo, which the
    dictionary yields in this order, the claim has all but the first
    renamed: Foo kept and foo renamed to foo1.  The block renames the first
    one, Foo, to Foo1, and keeps foo. *)
Lemma rename_user_categories_counterexample :
  exists self' final,
    rename_user_categories (fun c => c) two_cases = Some (Return tt, self') /\
    mirror self' !! "user_categories" = Some (PDict final) /\
    final = [("foo", PList []); ("Foo1", PList [PStr "x"])] /\
    dict_get "Foo" final = None /\
    dict_get "foo1" final = None.
Proof.
  eexists _, _. split; [vm_compute; reflexivity|].
  split; [vm_compute; reflexivity|]. split; [reflexivity|]. split; reflexivity.
Qed.

(** What the theorem leaves out.  Of three names that differ in case only
    the first one is renamed and the other two still collide. *)
Definition three_cases : DBPrefs :=
  {| table := ∅;
     mirror := {["user_categories" :=
                   PDict [("Foo", PList []); ("foo", PList []); ("FOO", PList [])]]};
     defaults := ∅; disable_setting := false; faults := []; history := [] |}.

Lemma three_names_still_collide :
  (exists self',
     rename_user_categories (fun c => c) three_cases = Some (Return tt, self') /\
     mirror self' !! "user_categories"
     = Some (PDict [("foo", PList []); ("FOO", PList []); ("Foo1", PList [])])) /\
  icu_lower "foo" = icu_lower "FOO".
Proof.
  split; [|reflexivity].
  eexists. split; [vm_compute; reflexivity|]. vm_compute. reflexivity.
Qed.

(** And two groups can be given the same new name: with the names a, A, a1,
    A1 and a2 to a10, the name a becomes a11 and then a1 becomes a11 too,
    so the entry that was under a is overwritten. *)
Definition clashing_cases : DBPrefs :=
  {| table := ∅;
     mirror := {["user_categories" :=
                   PDict [("a", PStr "first"); ("A", PNone); ("a1", PStr "second");
                          ("A1", PNone); ("a2", PNone); ("a3", PNone); ("a4", PNone);
                          ("a5", PNone); ("a6", PNone); ("a7", PNone); ("a8", PNone);
                          ("a9", PNone); ("a10", PNone)]]};
     defaults := ∅; disable_setting := false; faults := []; history := [] |}.

Lemma same_new_name_overwrites :
  exists self' final,
    rename_user_categories (fun c => c) clashing_cases = Some (Return tt, self') /\
    mirror self' !! "user_categories" = Some (PDict final) /\
    dict_get "a11" final = Some (PStr "second") /\
    length final = 12%nat /\
    forallb (fun kv => match snd kv with
                       | PStr text => negb (String.eqb text "first")
                       | _ => true
                       end) final = true.
Proof.
  eexists _, _. split; [vm_compute; reflexivity|].
  split; [vm_compute; reflexivity|].
  split; [reflexivity|]. split; reflexivity.
Qed.

(** A stored list of names is iterated over in the same way: without a
    collision the block returns, with one it raises [TypeError]. *)
Lemma rename_user_categories_list :
  let stored (names : list pyval) : DBPrefs :=
    {| table := ∅; mirror := {["user_categories" := PList names]};
       defaults := ∅; disable_setting := false; faults := []; history := [] |} in
  rename_user_categories (fun c => c) (stored [PStr "Foo"; PStr "bar"])
  = Some (Return tt, stored [PStr "Foo"; PStr "bar"]) /\
  rename_user_categories (fun c => c) (stored [PStr "Foo"; PStr "foo"])
  = Some (Raise TypeError, stored [PStr "Foo"; PStr "foo"]).
Proof. split; vm_compute; reflexivity. Qed.

End UserCategoriesFacts.

(** ** Files and folders *)

Module FilesFacts.
Import Files.

(** *** What a method adds to the log, and what it leaves alone *)

Section Effects.
Variable allowed : action -> Prop.

Definition ok_event (ev : event) : Prop :=
  match ev with
  | EvAction a _ => allowed a
  | _ => True
  end.

(** [m] only adds to the log, and every action it adds is an allowed one. *)
Definition emits {A : Type} (m : M world A) : Prop :=
  forall w, exists evs,
    log (snd (m w)) = (log w ++ evs)%list /\ Forall ok_event evs.

(** [m] does not change the stored paths, formats and stems. *)
Definition keeps {A : Type} (m : M world A) : Prop :=
  forall w, path_map (snd (m w)) = path_map w /\
            formats_map (snd (m w)) = formats_map w /\
            fname_map (snd (m w)) = fname_map w.

Definition quiet {A : Type} (m : M world A) : Prop := emits m /\ keeps m.

Lemma quiet_same {A : Type} (m : M world A) :
  (forall w, snd (m w) = w) -> quiet m.
Proof.
  intros Hs. split; intros w; rewrite Hs.
  - exists []. rewrite app_nil_r. auto.
  - auto.
Qed.

Lemma quiet_ret {A : Type} (a : A) : quiet (ret a).
Proof. apply quiet_same. reflexivity. Qed.

Lemma quiet_raise {A : Type} (e : exn) : quiet (raise (A := A) e).
Proof. apply quiet_same. reflexivity. Qed.

Lemma quiet_lift {A : Type} (r : result A) : quiet (lift r).
Proof. apply quiet_same. reflexivity. Qed.

Lemma emits_bind {A B : Type} (m : M world A) (k : A -> M world B) :
  emits m -> (forall a, emits (k a)) -> emits (bind m k).
Proof.
  intros Hm Hk w. unfold bind. destruct (Hm w) as (e1 & L1 & F1).
  destruct (m w) as [[a|e] w1]; simpl in *.
  - destruct (Hk a w1) as (e2 & L2 & F2). exists (e1 ++ e2)%list.
    rewrite L2, L1, app_assoc. split; [reflexivity|]. apply Forall_app; auto.
  - exists e1. auto.
Qed.

Lemma keeps_bind {A B : Type} (m : M world A) (k : A -> M world B) :
  keeps m -> (forall a, keeps (k a)) -> keeps (bind m k).
Proof.
  intros Hm Hk w. unfold bind. destruct (Hm w) as (P1 & P2 & P3).
  destruct (m w) as [[a|e] w1]; simpl in *.
  - destruct (Hk a w1) as (Q1 & Q2 & Q3). repeat split; congruence.
  - auto.
Qed.

Lemma quiet_bind {A B : Type} (m : M world A) (k : A -> M world B) :
  quiet m -> (forall a, quiet (k a)) -> quiet (bind m k).
Proof.
  intros [Em Km] Hk. split.
  - apply emits_bind; [exact Em|]. intros a. apply Hk.
  - apply keeps_bind; [exact Km|]. intros a. apply Hk.
Qed.

Lemma quiet_attempt {A : Type} (m : M world A) : quiet m -> quiet (attempt m).
Proof.
  intros [Em Km]. split; intros w; unfold attempt.
  - destruct (Em w) as (evs & L & F). destruct (m w) as [r w1]. eauto.
  - specialize (Km w). destruct (m w) as [r w1]. exact Km.
Qed.

Lemma emits_try_finally {A : Type} (body : M world A) (final : M world unit) :
  emits body -> emits final -> emits (try_finally body final).
Proof.
  intros Hb Hf w. unfold try_finally. destruct (Hb w) as (e1 & L1 & F1).
  destruct (body w) as [r w1]. simpl in *.
  destruct (Hf w1) as (e2 & L2 & F2).
  destruct (final w1) as [[u|e] w2]; simpl in *;
    exists (e1 ++ e2)%list; rewrite L2, L1, app_assoc;
    (split; [reflexivity|apply Forall_app; auto]).
Qed.

Lemma keeps_try_finally {A : Type} (body : M world A) (final : M world unit) :
  keeps body -> keeps final -> keeps (try_finally body final).
Proof.
  intros Hb Hf w. unfold try_finally. destruct (Hb w) as (P1 & P2 & P3).
  destruct (body w) as [r w1]. simpl in *.
  destruct (Hf w1) as (Q1 & Q2 & Q3).
  destruct (final w1) as [[u|e] w2]; simpl in *; repeat split; congruence.
Qed.

Lemma quiet_when (b : bool) (m : M world unit) : quiet m -> quiet (when b m).
Proof. intros Hm. destruct b; [exact Hm|apply quiet_ret]. Qed.

Lemma emits_for_each {A : Type} (l : list A) (f : A -> M world unit) :
  (forall x, emits (f x)) -> emits (for_each l f).
Proof.
  intros Hf. induction l as [|x l IH]; simpl.
  - apply quiet_ret.
  - apply emits_bind; auto.
Qed.

Lemma keeps_for_each {A : Type} (l : list A) (f : A -> M world unit) :
  (forall x, keeps (f x)) -> keeps (for_each l f).
Proof.
  intros Hf. induction l as [|x l IH]; simpl.
  - apply quiet_ret.
  - apply keeps_bind; auto.
Qed.

Lemma quiet_for_each {A : Type} (l : list A) (f : A -> M world unit) :
  (forall x, quiet (f x)) -> quiet (for_each l f).
Proof.
  intros Hf. split; [apply emits_for_each|apply keeps_for_each];
    intros x; apply Hf.
Qed.

Lemma quiet_logged {A : Type} (m : M world A) :
  (forall w, exists ev, snd (m w) = logged ev w /\ ok_event ev) -> quiet m.
Proof.
  intros Hm. split; intros w; destruct (Hm w) as (ev & -> & Hok); simpl.
  - exists [ev]. auto.
  - auto.
Qed.

Lemma quiet_ask (q : query) : quiet (ask q).
Proof. apply quiet_logged. intros w. eexists. split; [reflexivity|exact I]. Qed.

Lemma quiet_act (a : action) : allowed a -> quiet (act a).
Proof. intros Ha. apply quiet_logged. intros w. eexists. split; [reflexivity|exact Ha]. Qed.

Lemma quiet_list_names (l : listing) : quiet (list_names l).
Proof. apply quiet_logged. intros w. eexists. split; [reflexivity|exact I]. Qed.

Lemma quiet_read (r : reading) : quiet (read r).
Proof. apply quiet_logged. intros w. eexists. split; [reflexivity|exact I]. Qed.

Lemma quiet_path_for_book (book_id : Z) : quiet (path_for_book book_id).
Proof. apply quiet_same. reflexivity. Qed.

Lemma quiet_formats_for_book (book_id : Z) : quiet (formats_for_book book_id).
Proof. apply quiet_same. reflexivity. Qed.

Lemma quiet_format_fname (book_id : Z) (fmt : string) : quiet (format_fname book_id fmt).
Proof. apply quiet_same. reflexivity. Qed.

Lemma emits_set_fname (book_id : Z) (fmt fname : string) :
  emits (set_fname book_id fmt fname).
Proof. intros w. exists []. simpl. rewrite app_nil_r. auto. Qed.

Lemma emits_set_path (book_id : Z) (path : string) : emits (set_path book_id path).
Proof. intros w. exists []. simpl. rewrite app_nil_r. auto. Qed.

End Effects.

Lemma quiet_emits (allowed : action -> Prop) {A : Type} (m : M world A) :
  quiet allowed m -> emits allowed m.
Proof. intros [Hm _]. exact Hm. Qed.

(** The actions [format_abspath], [copy_cover_to] and [copy_format_to] take. *)
Definition copy_action (a : action) : bool :=
  match a with
  | os_rename _ _ | shutil_copyfile _ _ | hardlink_file _ _ | lopen_wb _
  | shutil_copyfileobj _ _ | stream_flush | time_sleep | wam_copy_path_to _ _ => true
  | _ => false
  end.

Ltac quiet_step :=
  first
    [ apply quiet_ret | apply quiet_raise | apply quiet_lift | apply quiet_ask
    | apply quiet_list_names | apply quiet_read | apply quiet_path_for_book
    | apply quiet_formats_for_book | apply quiet_format_fname
    | apply quiet_attempt | apply quiet_when
    | apply quiet_for_each; intros ?
    | apply quiet_bind; [|intros ?]
    | apply quiet_act;
      match goal with
      | Hc : forall a, copy_action a = true -> _ |- _ => apply Hc; reflexivity
      end
    | match goal with
      | |- quiet _ (if ?b then _ else _) => destruct b
      | |- quiet _ (match ?x with _ => _ end) => destruct x
      end ].

Ltac quiet_all := repeat quiet_step.

Section Methods.
Context `{Platform}.
Variable allowed : action -> Prop.
Hypothesis copy_allowed : forall a, copy_action a = true -> allowed a.

Lemma quiet_format_abspath self book_id fmt fname path :
  quiet allowed (format_abspath self book_id fmt fname path).
Proof. unfold format_abspath. quiet_all. Qed.

Lemma quiet_hardlink_or use_hardlink path dest otherwise :
  quiet allowed otherwise ->
  quiet allowed (hardlink_or use_hardlink path dest otherwise).
Proof. intros Ho. unfold hardlink_or. quiet_all; exact Ho. Qed.

Lemma quiet_copy_cover_to self path dest windows_atomic_move use_hardlink :
  quiet allowed (copy_cover_to self path dest windows_atomic_move use_hardlink).
Proof.
  unfold copy_cover_to. quiet_all; try (apply quiet_hardlink_or; quiet_all).
Qed.

Lemma quiet_copy_format_to self book_id fmt fname path dest windows_atomic_move
  use_hardlink :
  quiet allowed (copy_format_to self book_id fmt fname path dest
                   windows_atomic_move use_hardlink).
Proof.
  unfold copy_format_to.
  apply quiet_bind; [apply quiet_format_abspath|intros found].
  unfold rename_quietly.
  quiet_all; try (apply quiet_hardlink_or; quiet_all).
Qed.

Lemma quiet_migrate_files self book_id p :
  quiet allowed (migrate_files self book_id p).
Proof.
  unfold migrate_files. apply quiet_when.
  apply quiet_bind; [apply quiet_copy_cover_to|intros _].
  apply quiet_for_each. intros fmt.
  apply quiet_bind; [apply quiet_format_fname|intros stem].
  destruct stem; [|apply quiet_raise].
  apply quiet_bind; [apply quiet_copy_format_to|intros _]. apply quiet_ret.
Qed.

Lemma quiet_stem_changed book_id fname formats :
  quiet allowed (stem_changed book_id fname formats).
Proof. induction formats as [|fmt rest IH]; simpl; quiet_all; exact IH. Qed.

End Methods.

(** *** [rmtree] and the library folder *)

Lemma prefix_refl (a : string) : String.prefix a a = true.
Proof.
  induction a as [|c a IH]; simpl; [reflexivity|].
  destruct (ascii_dec c c); [exact IH|congruence].
Qed.

Lemma prefix_nil (s : string) : String.prefix EmptyString s = true.
Proof. destruct s; reflexivity. Qed.

Lemma prefix_app (a p x : string) :
  String.prefix a p = true -> String.prefix a (p +:+ x) = true.
Proof.
  revert p. induction a as [|c a IH]; intros p Hp; [apply prefix_nil|].
  destruct p as [|d p]; simpl in *; [discriminate|].
  destruct (ascii_dec c d); [auto|discriminate].
Qed.

Lemma prefix_string_map (f : ascii -> ascii) (a l : string) :
  String.prefix a l = true -> String.prefix (string_map f a) (string_map f l) = true.
Proof.
  revert l. induction a as [|c a IH]; intros l Hp; [apply prefix_nil|].
  destruct l as [|d l]; simpl in *; [discriminate|].
  destruct (ascii_dec c d) as [->|]; [|discriminate].
  destruct (ascii_dec (f d) (f d)); [auto|congruence].
Qed.

Section Root.
Context `{Platform}.

(** The path [os.path.abspath(os.path.realpath(p))]. *)
Definition canonical (p : string) : string := os_path_abspath (os_path_realpath p).

(** [l] is the folder [a] or lies below it: [l] is reached from [a] by
    appending components, each after a separator ([a] itself may be a root,
    which ends with the separator). *)
Inductive below (a : string) : string -> Prop :=
| below_self : below a a
| below_root r c : a = r +:+ os_sep -> below a (a +:+ c)
| below_child p c : below a p -> below a (p +:+ os_sep +:+ c).

Lemma below_prefix (a l : string) : below a l -> String.prefix a l = true.
Proof.
  induction 1 as [|r c _|p c _ IH].
  - apply prefix_refl.
  - apply prefix_app, prefix_refl.
  - apply prefix_app, IH.
Qed.

(** The test of [rmtree]: the normalised library path starts with the
    normalised path. *)
Definition protected (self : DB) (path : string) : bool :=
  String.prefix (normpath self path) (normpath self (library_path self)).

(** Every [delete_tree] is for a path that is not protected. *)
Definition guarded (self : DB) (a : action) : Prop :=
  match a with
  | delete_tree p _ => protected self p = false
  | _ => True
  end.

Lemma guarded_copy self a : copy_action a = true -> guarded self a.
Proof. destruct a; simpl; intros; try exact I; discriminate. Qed.

Lemma rmtree_run self path permanent w :
  rmtree self path permanent w
  = if protected self path then (Return tt, w)
    else act (delete_tree path permanent) w.
Proof. unfold rmtree, protected. destruct (String.prefix _ _); reflexivity. Qed.

Lemma quiet_rmtree self path permanent :
  quiet (guarded self) (rmtree self path permanent).
Proof.
  unfold rmtree. destruct (String.prefix _ _) eqn:E; simpl.
  - apply quiet_ret.
  - apply quiet_act. exact E.
Qed.

Lemma quiet_delete_source self p : quiet (guarded self) (delete_source self p).
Proof.
  unfold delete_source. apply quiet_when.
  apply quiet_bind; [apply quiet_ask|intros there]. destruct there; [|apply quiet_ret].
  apply quiet_bind; [apply quiet_ask|intros same]. destruct same; [apply quiet_ret|].
  apply quiet_bind; [apply quiet_when, quiet_act; exact I|intros _].
  apply quiet_bind; [apply quiet_rmtree|intros _].
  apply quiet_bind; [apply quiet_list_names|intros names].
  destruct names; [apply quiet_rmtree|apply quiet_ret].
Qed.

Lemma quiet_rename_segments self curpath segs :
  quiet (guarded self) (rename_segments curpath segs).
Proof.
  revert curpath. induction segs as [|[o n] segs IH]; intros curpath; simpl.
  - apply quiet_ret.
  - destruct (_ && _)%bool; [|apply IH].
    apply quiet_bind; [apply quiet_attempt, quiet_act; exact I|intros r].
    destruct r; [apply IH|apply quiet_ret].
Qed.

Lemma quiet_update_path_plan self book_id title author :
  quiet (guarded self) (update_path_plan self book_id title author).
Proof.
  unfold update_path_plan.
  apply quiet_bind; [apply quiet_lift|intros path].
  apply quiet_bind; [apply quiet_path_for_book|intros current].
  apply quiet_bind; [apply quiet_formats_for_book|intros fmts].
  apply quiet_bind; [apply quiet_stem_changed|intros changed].
  destruct (_ && _)%bool; [apply quiet_ret|].
  apply quiet_bind.
  { destruct (nonempty current); [apply quiet_ask|apply quiet_ret]. }
  intros ok. apply quiet_bind; [|intros ?; apply quiet_ret].
  destruct (_ && _)%bool; [|apply quiet_ret].
  apply quiet_bind; [apply quiet_act; exact I|intros _; apply quiet_ret].
Qed.

Lemma emits_update_db self book_id p : emits (guarded self) (update_db book_id p).
Proof.
  unfold update_db. apply emits_bind; [|intros _; apply emits_set_path].
  apply emits_for_each. intros fmt. apply emits_set_fname.
Qed.

Lemma emits_update_path self book_id title author :
  emits (guarded self) (update_path self book_id title author).
Proof.
  unfold update_path.
  apply emits_bind; [apply quiet_emits, quiet_update_path_plan|intros planned].
  destruct planned as [p|]; [|apply quiet_ret].
  apply emits_bind; [|intros _].
  - apply emits_try_finally.
    + apply emits_bind; [|intros _].
      { unfold make_target. apply quiet_emits.
        apply quiet_bind; [apply quiet_ask|intros there].
        apply quiet_when, quiet_act. exact I. }
      apply emits_bind;
        [apply quiet_emits, quiet_migrate_files, guarded_copy|intros _].
      apply emits_bind; [apply emits_update_db|intros _].
      apply quiet_emits, quiet_delete_source.
    + apply quiet_emits, quiet_when, quiet_act. exact I.
  - unfold fix_case. apply quiet_emits, quiet_when, quiet_rename_segments.
Qed.

Lemma emits_remove_books self paths permanent :
  emits (guarded self) (remove_books self paths permanent).
Proof.
  unfold remove_books. apply emits_bind; [|intros _; apply quiet_act; exact I].
  apply emits_for_each. intros item. apply quiet_emits, quiet_when.
  apply quiet_bind; [apply quiet_ask|intros there]. apply quiet_when.
  apply quiet_bind; [apply quiet_rmtree|intros _].
  apply quiet_bind; [apply quiet_list_names|intros names].
  destruct names; [apply quiet_rmtree|apply quiet_ret].
Qed.

(** C9.  [rmtree] calls [delete_tree] exactly when the normalised library
    path does not start with the normalised path; a path that names the
    library folder or a folder above it is protected, so [rmtree] does
    nothing for it; and every [delete_tree] in a run of [update_path] or
    of [remove_books] is for a path that is not protected. *)
Theorem rmtree_spares_library (self : DB) :
  (forall a l, String.prefix a l = true ->
               String.prefix (os_path_normcase a) (os_path_normcase l) = true) ->
  (forall path permanent w,
     rmtree self path permanent w
     = if protected self path then (Return tt, w)
       else act (delete_tree path permanent) w) /\
  (forall path, below (canonical path) (canonical (library_path self)) ->
     protected self path = true /\
     forall permanent w, rmtree self path permanent w = (Return tt, w)) /\
  (forall book_id title author,
     emits (guarded self) (update_path self book_id title author)) /\
  (forall paths permanent,
     emits (guarded self) (remove_books self paths permanent)).
Proof.
  intros Hcase. split; [|split; [|split]].
  - apply rmtree_run.
  - intros path Hbelow.
    assert (Hp : protected self path = true).
    { apply below_prefix in Hbelow. unfold protected, normpath. fold (canonical path).
      fold (canonical (library_path self)).
      destruct (is_case_sensitive self); [exact Hbelow|].
      apply prefix_string_map, Hcase, Hbelow. }
    split; [exact Hp|]. intros permanent w. rewrite rmtree_run, Hp. reflexivity.
  - apply emits_update_path.
  - apply emits_remove_books.
Qed.

End Root.

Import Sample.

Lemma rmtree_spares_library_witness :
  rmtree library "/lib" true (start calm 7 "Bar/Foo (7)" []) =
    (Return tt, start calm 7 "Bar/Foo (7)" []) /\
  rmtree library "/" true (start calm 7 "Bar/Foo (7)" []) =
    (Return tt, start calm 7 "Bar/Foo (7)" []).
Proof.
  destruct (@rmtree_spares_library posix library (fun a l Hp => Hp))
    as (_ & Hup & _).
  split.
  - apply (proj2 (Hup "/lib" (@below_self posix "/lib"))).
  - apply (proj2 (Hup "/" (@below_root posix "/" EmptyString "lib" eq_refl))).
Defined.

(** *** [format_hash] *)

Lemma take_drop (n : nat) (f : string) : take n f +:+ drop n f = f.
Proof.
  revert f. induction n as [|n IH]; intros [|c f]; try reflexivity.
  change (String c (take n f +:+ drop n f) = String c f).
  rewrite IH. reflexivity.
Qed.

Lemma length_take (n : nat) (f : string) :
  String.length (take n f) = Nat.min n (String.length f).
Proof.
  revert f. induction n as [|n IH]; intros [|c f]; simpl; try reflexivity.
  rewrite IH. reflexivity.
Qed.

Lemma length_drop (n : nat) (f : string) :
  String.length (drop n f) = (String.length f - n)%nat.
Proof. revert f. induction n as [|n IH]; intros [|c f]; simpl; auto. Qed.

Lemma take_all (n : nat) (f : string) :
  (String.length f < n)%nat -> take n f = f.
Proof.
  revert f. induction n as [|n IH]; intros [|c f] Hl; simpl in *;
    try reflexivity; try lia.
  rewrite IH by lia. reflexivity.
Qed.

Lemma string_app_assoc (a b c : string) : (a +:+ b) +:+ c = a +:+ (b +:+ c).
Proof.
  induction a as [|x a IH]; [reflexivity|].
  change (String x ((a +:+ b) +:+ c) = String x (a +:+ (b +:+ c))).
  rewrite IH. reflexivity.
Qed.

Section Hash.
Context `{Platform}.

(** Reading in chunks gives the hash object the bytes of the file, all of
    them and in order: the fuel is never used up. *)
Lemma hash_chunks_whole (fuel : nat) (sha f : string) :
  (String.length f <= fuel)%nat -> hash_chunks fuel sha f = sha +:+ f.
Proof.
  revert sha f. induction fuel as [|fuel IH]; intros sha f Hlen.
  - destruct f; [|simpl in Hlen; lia]. simpl.
    pose proof (Pos2Nat.is_pos SPOOL_SIZE).
    destruct (Pos.to_nat SPOOL_SIZE); [lia|]. reflexivity.
  - cbn [hash_chunks]. pose proof (Pos2Nat.is_pos SPOOL_SIZE) as Hpos.
    set (n := Pos.to_nat SPOOL_SIZE) in *.
    destruct (Nat.ltb_spec (String.length (take n f)) n) as [Hshort|Hfull].
    + rewrite length_take in Hshort. rewrite take_all by lia. reflexivity.
    + rewrite length_take in Hfull. rewrite IH.
      * rewrite string_app_assoc, take_drop. reflexivity.
      * rewrite length_drop. lia.
Qed.

Definition os_exn (e : exn) : Prop := e = IOError \/ e = OSError.

Lemma exn_of_os (e : os_error) : os_exn (exn_of e).
Proof. destruct e; [left|right]; reflexivity. Qed.

Lemma format_abspath_raises self book_id fmt fname path w e :
  fst (format_abspath self book_id fmt fname path w) = Raise e -> os_exn e.
Proof.
  unfold format_abspath, bind, ask, attempt, list_names, act, ret. simpl.
  destruct (on_query _ _ _); simpl; [discriminate|].
  destruct (on_listing _ _ _) as [err|[|first rest]]; simpl;
    destruct (nonempty fmt); simpl; try discriminate.
  destruct (on_query _ _ _); simpl; [|discriminate].
  destruct (on_action _ _ _) as [err|]; simpl; [|discriminate].
  intros [= <-]. apply exn_of_os.
Qed.

(** *** What [format_abspath] looks at on disk *)

(** The folder of the record and the extension of the format. *)
Definition book_folder (self : DB) (path : string) : string :=
  os_path_join (library_path self) path.

Definition extension (fmt : string) : string :=
  if nonempty fmt then "." +:+ lower fmt else EmptyString.

(** Where the file of the format is expected, and the pattern that finds
    the other files with its extension. *)
Definition format_path (self : DB) (fmt fname path : string) : string :=
  os_path_join (book_folder self path) (fname +:+ extension fmt).

Definition format_pattern (self : DB) (fmt path : string) : string :=
  os_path_join (book_folder self path) ("*" +:+ extension fmt).

(** No file of the format can be found on disk by a call that starts in
    [w]: the expected file does not exist and, for a format that is not
    empty, [glob] raises, or finds no file with the extension, or the first
    one it finds does not exist (any more). *)
Definition unresolved (self : DB) (fmt fname path : string) (w : world) : Prop :=
  on_query (env w) (clock w) (os_path_exists (format_path self fmt fname path)) = false /\
  (nonempty fmt = true ->
   forall first rest,
     on_listing (env w) (S (clock w)) (glob_glob (format_pattern self fmt path))
     = inr (first :: rest) ->
     on_query (env w) (S (S (clock w))) (os_path_exists first) = false).

(** C7.  [format_hash] asks the disk for the file of the format.  When the
    expected file exists it is opened and the result is the SHA-256 digest
    of all the bytes [lopen] gives for it, whatever the chunk size
    [SPOOL_SIZE] - the digest a reference computation over the same bytes
    gives.  When it does not exist but the folder holds a file with the
    extension of the format, that file is copied to the expected path and
    the copy is hashed in the same way.  [NoSuchFormat] is raised exactly
    when no file of the format can be found on disk, and then with the
    message of the code and without opening or copying a file. *)
Theorem format_hash_digest (self : DB) (book_id : Z) (fmt fname path : string)
  (w : world) :
  let fmt_path := format_path self fmt fname path in
  let t := clock w in
  (on_query (env w) t (os_path_exists fmt_path) = true ->
   forall data,
     on_reading (env w) (S t) (lopen_rb fmt_path) = inr data ->
     format_hash self book_id fmt fname path w
     = (Return (sha256_hexdigest data),
        logged (EvReading (lopen_rb fmt_path) (inr data))
               (logged (EvQuery (os_path_exists fmt_path) true) w))) /\
  (on_query (env w) t (os_path_exists fmt_path) = false ->
   nonempty fmt = true ->
   forall first rest data,
     on_listing (env w) (S t) (glob_glob (format_pattern self fmt path))
     = inr (first :: rest) ->
     on_query (env w) (S (S t)) (os_path_exists first) = true ->
     on_action (env w) (S (S (S t))) (shutil_copyfile first fmt_path) = None ->
     on_reading (env w) (S (S (S (S t)))) (lopen_rb fmt_path) = inr data ->
     fst (format_hash self book_id fmt fname path w)
     = Return (sha256_hexdigest data)) /\
  ((exists msg, fst (format_hash self book_id fmt fname path w)
                = Raise (NoSuchFormat msg))
   <-> unresolved self fmt fname path w) /\
  (unresolved self fmt fname path w ->
   fst (format_hash self book_id fmt fname path w)
   = Raise (NoSuchFormat ("Record " +:+ str book_id +:+ " has no fmt: " +:+ fmt)) /\
   exists evs,
     log (snd (format_hash self book_id fmt fname path w)) = (log w ++ evs)%list /\
     Forall (fun ev => match ev with
                       | EvAction _ _ | EvReading _ _ => False
                       | _ => True
                       end) evs).
Proof.
  intros fmt_path t. unfold t; clear t.
  unfold unresolved, format_hash, format_abspath, bind, ask, attempt, list_names,
    act, read, ret, raise.
  fold (book_folder self path). fold (extension fmt).
  fold (format_path self fmt fname path). fold (format_pattern self fmt path).
  fold fmt_path. cbn [env clock logged fst snd log].
  assert (Hext : nonempty (extension fmt) = nonempty fmt).
  { unfold extension. destruct (nonempty fmt); reflexivity. }
  rewrite Hext.
  destruct (on_query (env w) (clock w) (os_path_exists fmt_path)) eqn:Efound;
    cbn [env clock logged fst snd log].
  - split.
    + intros _ data Hread. rewrite Hread.
      rewrite hash_chunks_whole by lia. reflexivity.
    + split; [intros; discriminate|]. split.
      * split; [|intros [? _]; discriminate]. intros (msg & Hm). exfalso.
        destruct (on_reading _ _ _) as [[]|data]; discriminate Hm.
      * intros [? _]. discriminate.
  - split; [intros; discriminate|].
    destruct (on_listing (env w) (S (clock w)) (glob_glob (format_pattern self fmt path)))
      as [err|[|first rest]] eqn:Eglob; cbn [fst snd env clock logged log];
      destruct (nonempty fmt) eqn:Efmt; cbn [fst snd env clock logged log].
    all: try solve
      [split; [intros _ Hb first' rest' data Hl;
               first [discriminate Hb|discriminate Hl]|];
       split; [split; [intros _; split; [reflexivity|];
                       intros Hb first' rest' Hl;
                       first [discriminate Hb|discriminate Hl]
                      |intros _; eexists; reflexivity]|];
       intros _; split; [reflexivity|];
       eexists; split; [rewrite <- !app_assoc; reflexivity|repeat constructor]].
    destruct (on_query (env w) (S (S (clock w))) (os_path_exists first)) eqn:Ethere;
      cbn [fst snd env clock logged log].
    + split.
      * intros _ _ first' rest' data [= <- <-] _ Hcopy Hread.
        rewrite Hcopy. cbn [fst snd env clock logged log]. rewrite Hread.
        rewrite hash_chunks_whole by lia. reflexivity.
      * split.
        -- split.
           ++ intros (msg & Hm). exfalso.
              destruct (on_action _ _ _) as [[]|]; cbn in Hm; try discriminate Hm.
              destruct (on_reading _ _ _) as [[]|data]; discriminate Hm.
           ++ intros [_ Hun]. specialize (Hun eq_refl first rest eq_refl). congruence.
        -- intros [_ Hun]. specialize (Hun eq_refl first rest eq_refl). congruence.
    + split; [intros _ _ first' rest' data [= <- <-] Hthere; congruence|].
      split.
      * split; [intros _; split; [reflexivity|]; intros _ ? ? [= <- <-]; exact Ethere
               |intros _; eexists; reflexivity].
      * intros _. split; [reflexivity|].
        eexists. split; [rewrite <- !app_assoc; reflexivity|repeat constructor].
Qed.

End Hash.

Lemma format_hash_digest_witness :
  fst (format_hash library 7 "EPUB" "Foo - Bar" "Bar/Foo (7)"
         (start full 7 "Bar/Foo (7)" [("EPUB", "Foo - Bar")]))
  = Return (sample_digest "hello world") /\
  fst (format_hash library 7 "EPUB" "Foo - Bar" "Bar/Foo (7)"
         (start calm 7 "Bar/Foo (7)" [("EPUB", "Foo - Bar")]))
  = Raise (NoSuchFormat "Record 7 has no fmt: EPUB").
Proof.
  split.
  - exact (f_equal fst
             (proj1 (@format_hash_digest posix library 7 "EPUB" "Foo - Bar" "Bar/Foo (7)"
                       (start full 7 "Bar/Foo (7)" [("EPUB", "Foo - Bar")]))
                    eq_refl "hello world" eq_refl)).
  - refine (proj1 (proj2 (proj2 (proj2
              (@format_hash_digest posix library 7 "EPUB" "Foo - Bar" "Bar/Foo (7)"
                 (start calm 7 "Bar/Foo (7)" [("EPUB", "Foo - Bar")])))) _)).
    split; [reflexivity|]. intros _ first rest Hglob. discriminate Hglob.
Defined.

(** *** [update_path] *)

Lemma bind_return {S A B : Type} (m : M S A) (k : A -> M S B) s b s' :
  bind m k s = (Return b, s') ->
  exists a s1, m s = (Return a, s1) /\ k a s1 = (Return b, s').
Proof.
  unfold bind. destruct (m s) as [[a|e] s1]; [eauto|discriminate].
Qed.

Lemma try_finally_return {S A : Type} (body : M S A) (final : M S unit) s a s' :
  try_finally body final s = (Return a, s') ->
  exists s1, body s = (Return a, s1) /\ final s1 = (Return tt, s').
Proof.
  unfold try_finally. destruct (body s) as [r s1] eqn:Eb.
  destruct (final s1) as [[[]|e] s2] eqn:Ef; [|discriminate].
  intros [= -> ->]. exists s1. split; [reflexivity|exact Ef].
Qed.

(** Deleting: [delete_tree] and the [delete_originals] of the folder move. *)
Definition no_deletion (a : action) : Prop :=
  match a with
  | delete_tree _ _ | wam_delete_originals => False
  | _ => True
  end.

Lemma no_deletion_copy a : copy_action a = true -> no_deletion a.
Proof. destruct a; simpl; intros; try exact I; discriminate. Qed.

(** The stored paths, formats and stems of two states agree. *)
Definition same_tables (w w' : world) : Prop :=
  path_map w' = path_map w /\ formats_map w' = formats_map w /\
  fname_map w' = fname_map w.

Lemma same_tables_refl w : same_tables w w.
Proof. repeat split. Qed.

Lemma same_tables_trans w1 w2 w3 :
  same_tables w1 w2 -> same_tables w2 w3 -> same_tables w1 w3.
Proof. unfold same_tables. intuition congruence. Qed.

Section UpdatePath.
Context `{Platform}.

Lemma quiet_plan allowed self book_id title author :
  (forall p, allowed (wam_open p)) ->
  quiet allowed (update_path_plan self book_id title author).
Proof.
  intros Hwam. unfold update_path_plan.
  apply quiet_bind; [apply quiet_lift|intros path].
  apply quiet_bind; [apply quiet_path_for_book|intros current].
  apply quiet_bind; [apply quiet_formats_for_book|intros fmts].
  apply quiet_bind; [apply quiet_stem_changed|intros changed].
  destruct (_ && _)%bool; [apply quiet_ret|].
  apply quiet_bind.
  { destruct (nonempty current); [apply quiet_ask|apply quiet_ret]. }
  intros ok. apply quiet_bind; [|intros ?; apply quiet_ret].
  destruct (_ && _)%bool; [|apply quiet_ret].
  apply quiet_bind; [apply quiet_act, Hwam|intros _; apply quiet_ret].
Qed.

Lemma quiet_make_target allowed p :
  (forall d, allowed (os_makedirs d)) -> quiet allowed (make_target p).
Proof.
  intros Hmk. unfold make_target.
  apply quiet_bind; [apply quiet_ask|intros there]. apply quiet_when, quiet_act, Hmk.
Qed.

Lemma quiet_close allowed p :
  allowed wam_close_handles -> quiet allowed (when (wam p) (act wam_close_handles)).
Proof. intros Hc. apply quiet_when, quiet_act, Hc. Qed.

Lemma quiet_fix_case allowed self p :
  (forall a b, allowed (os_rename a b)) -> quiet allowed (fix_case self p).
Proof.
  intros Hr. unfold fix_case. apply quiet_when.
  generalize (library_path self) as curpath.
  induction (zip _ _) as [|[o n] segs IH]; intros curpath; simpl.
  - apply quiet_ret.
  - destruct (_ && _)%bool; [|apply IH].
    apply quiet_bind; [apply quiet_attempt, quiet_act, Hr|intros r].
    destruct r; [apply IH|apply quiet_ret].
Qed.

Lemma quiet_same_tables allowed {A : Type} (m : M world A) w :
  quiet allowed m -> same_tables w (snd (m w)).
Proof. intros [_ Hk]. apply Hk. Qed.

(** The stem test finds no change when every stored stem is [fname]. *)
Lemma stem_changed_false book_id fname formats w :
  (forall fmt, In fmt formats -> fname_map w !! (book_id, fmt) = Some fname) ->
  stem_changed book_id fname formats w = (Return false, w).
Proof.
  induction formats as [|fmt rest IH]; intros Hst; [reflexivity|].
  simpl. unfold bind, format_fname. rewrite (Hst fmt) by (left; reflexivity).
  rewrite String.eqb_refl, andb_false_r. apply IH.
  intros f Hf. apply Hst. right. exact Hf.
Qed.

(** The early [return]: nothing is asked of the operating system. *)
Lemma plan_unchanged self book_id title author path w :
  construct_path_name book_id title author = Return path ->
  default EmptyString (path_map w !! book_id) = path ->
  (forall fmt, In fmt (default [] (formats_map w !! book_id)) ->
     fname_map w !! (book_id, fmt) = Some (construct_file_name book_id title author)) ->
  update_path_plan self book_id title author w = (Return None, w).
Proof.
  intros Hpath Hcur Hst. unfold update_path_plan, bind, lift, path_for_book,
    formats_for_book.
  rewrite Hpath, (stem_changed_false _ _ _ w Hst), Hcur, String.eqb_refl.
  reflexivity.
Qed.

Lemma plan_fields self book_id title author w p w0 :
  update_path_plan self book_id title author w = (Return (Some p), w0) ->
  construct_path_name book_id title author = Return (new_path p) /\
  fname p = construct_file_name book_id title author /\
  formats p = default [] (formats_map w !! book_id).
Proof.
  unfold update_path_plan. intros Hp.
  apply bind_return in Hp as (path & wa & Hpath & Hp).
  unfold lift in Hpath. injection Hpath as Hpath <-.
  apply bind_return in Hp as (current & wb & Hcur & Hp).
  unfold path_for_book in Hcur. injection Hcur as <- <-.
  apply bind_return in Hp as (fmts & wc & Hf & Hp).
  unfold formats_for_book in Hf. injection Hf as <- <-.
  apply bind_return in Hp as (changed & wd & Hch & Hp).
  destruct (_ && _)%bool; [discriminate|].
  apply bind_return in Hp as (ok & we & Hok & Hp).
  apply bind_return in Hp as (wm & wf & Hwm & Hp).
  injection Hp as <- <-. auto.
Qed.

Lemma plan_none self book_id title author w w0 :
  update_path_plan self book_id title author w = (Return None, w0) -> w0 = w.
Proof.
  unfold update_path_plan. intros Hp.
  apply bind_return in Hp as (path & wa & Hpath & Hp).
  unfold lift in Hpath. injection Hpath as Hpath <-.
  apply bind_return in Hp as (current & wb & Hcur & Hp).
  unfold path_for_book in Hcur. injection Hcur as <- <-.
  apply bind_return in Hp as (fmts & wc & Hf & Hp).
  unfold formats_for_book in Hf. injection Hf as <- <-.
  apply bind_return in Hp as (changed & wd & Hch & Hp).
  assert (wd = w).
  { clear Hp. revert Hch. generalize (default [] (formats_map w !! book_id)).
    intros l. induction l as [|fmt rest IH]; simpl.
    - intros [= _ <-]. reflexivity.
    - unfold bind, format_fname. destruct (fname_map w !! (book_id, fmt)) as [n|].
      + destruct (_ && _)%bool; [intros [= _ <-]; reflexivity|exact IH].
      + exact IH. }
  subst wd. destruct (_ && _)%bool.
  - injection Hp as <-. reflexivity.
  - apply bind_return in Hp as (ok & we & Hok & Hp).
    apply bind_return in Hp as (wm & wf & Hwm & Hp). discriminate.
Qed.

(** After [update_db] the record has the new path and every format the new
    stem; the list of formats is as before. *)
Lemma update_db_result book_id p w :
  exists w',
    update_db book_id p w = (Return tt, w') /\
    path_map w' !! book_id = Some (new_path p) /\
    formats_map w' = formats_map w /\
    (forall fmt, In fmt (formats p) -> fname_map w' !! (book_id, fmt) = Some (fname p)).
Proof.
  unfold update_db.
  assert (Hloop : forall l w, exists w',
            for_each l (fun fmt => set_fname book_id fmt (fname p)) w = (Return tt, w') /\
            path_map w' = path_map w /\ formats_map w' = formats_map w /\
            (forall fmt, fname_map w' !! (book_id, fmt)
                         = if bool_decide (fmt ∈ l) then Some (fname p)
                           else fname_map w !! (book_id, fmt))).
  { clear w. induction l as [|f l IH]; intros w.
    - exists w. repeat split.
    - simpl. unfold bind at 1. unfold set_fname at 1.
      destruct (IH {| env := env w; clock := clock w; log := log w;
                      path_map := path_map w; formats_map := formats_map w;
                      fname_map := <[(book_id, f) := fname p]> (fname_map w) |})
        as (w' & Hrun & Hp & Hf & Hn).
      exists w'. split; [exact Hrun|]. simpl in *. split; [exact Hp|].
      split; [exact Hf|]. intros fmt. rewrite Hn.
      destruct (decide (fmt ∈ l)) as [Hin|Hout].
      + rewrite !bool_decide_eq_true_2; [reflexivity| |exact Hin].
        right. exact Hin.
      + rewrite (bool_decide_eq_false_2 _ Hout).
        destruct (decide (f = fmt)) as [->|Hne].
        * rewrite lookup_insert_eq, bool_decide_eq_true_2; [reflexivity|left].
        * rewrite lookup_insert_ne by congruence.
          rewrite bool_decide_eq_false_2; [reflexivity|].
          intros Hin. apply elem_of_cons in Hin as [?|?]; auto. }
  destruct (Hloop (formats p) w) as (w1 & Hrun & Hp & Hf & Hn).
  eexists. unfold bind. rewrite Hrun. unfold set_path. split; [reflexivity|].
  simpl. split; [apply lookup_insert_eq|]. split; [exact Hf|].
  intros fmt Hin. rewrite Hn, bool_decide_eq_true_2; [reflexivity|].
  apply list_elem_of_In, Hin.
Qed.

(** C5.  When the computed path is the stored path and the computed stem
    is the stored stem of every format, [update_path] returns with the
    state as it was: nothing is asked of the operating system.  Hence a
    second call that follows a call that returned finds nothing to do. *)
Theorem update_path_idempotent (self : DB) (book_id : Z) (title author : string)
  (w : world) :
  (forall path,
     construct_path_name book_id title author = Return path ->
     default EmptyString (path_map w !! book_id) = path ->
     (forall fmt, In fmt (default [] (formats_map w !! book_id)) ->
        fname_map w !! (book_id, fmt)
        = Some (construct_file_name book_id title author)) ->
     update_path self book_id title author w = (Return tt, w)) /\
  (forall w1,
     update_path self book_id title author w = (Return tt, w1) ->
     update_path self book_id title author w1 = (Return tt, w1)).
Proof.
  assert (Hfast : forall w path,
     construct_path_name book_id title author = Return path ->
     default EmptyString (path_map w !! book_id) = path ->
     (forall fmt, In fmt (default [] (formats_map w !! book_id)) ->
        fname_map w !! (book_id, fmt)
        = Some (construct_file_name book_id title author)) ->
     update_path self book_id title author w = (Return tt, w)).
  { intros v path Hpath Hcur Hst. unfold update_path, bind.
    rewrite (plan_unchanged self book_id title author path v Hpath Hcur Hst).
    reflexivity. }
  split; [apply Hfast|].
  intros w1 Hrun. pose proof Hrun as Hrun0. unfold update_path in Hrun.
  apply bind_return in Hrun as (planned & w0 & Hplan & Hrest).
  destruct planned as [p|].
  - apply bind_return in Hrest as (u & w2 & Htry & Hfix).
    apply try_finally_return in Htry as (wd & Hbody & Hfinal).
    apply bind_return in Hbody as (u1 & wa & Hmk & Hbody).
    apply bind_return in Hbody as (u2 & wb & Hmig & Hbody).
    apply bind_return in Hbody as (u3 & wc & Hdb & Hdel).
    destruct (plan_fields _ _ _ _ _ _ _ Hplan) as (Hpath & Hfname & Hformats).
    destruct (update_db_result book_id p wb) as (wc' & Hdb' & Hp & Hf & Hn).
    rewrite Hdb' in Hdb. injection Hdb as _ <-.
    pose proof (quiet_same_tables (fun _ => True) _ w
                  (quiet_plan _ self book_id title author (fun _ => I))) as T0.
    rewrite Hplan in T0.
    pose proof (quiet_same_tables (fun _ => True) _ w0
                  (quiet_make_target _ p (fun _ => I))) as T1.
    rewrite Hmk in T1.
    pose proof (quiet_same_tables (fun _ => True) _ wa
                  (quiet_migrate_files _ (fun _ _ => I) self book_id p)) as T2.
    rewrite Hmig in T2.
    pose proof (quiet_same_tables _ _ wc' (quiet_delete_source self p)) as T3.
    rewrite Hdel in T3.
    pose proof (quiet_same_tables (fun _ => True) _ wd (quiet_close _ p I)) as T4.
    rewrite Hfinal in T4.
    pose proof (quiet_same_tables (fun _ => True) _ w2
                  (quiet_fix_case _ self p (fun _ _ => I))) as T5.
    rewrite Hfix in T5.
    unfold same_tables in *. simpl in *.
    destruct T0 as (A0 & B0 & C0), T1 as (A1 & B1 & C1), T2 as (A2 & B2 & C2),
             T3 as (A3 & B3 & C3), T4 as (A4 & B4 & C4), T5 as (A5 & B5 & C5).
    apply (Hfast w1 (new_path p) Hpath).
    + rewrite A5, A4, A3, Hp. reflexivity.
    + intros fmt Hin. rewrite C5, C4, C3, <- Hfname. apply Hn.
      rewrite Hformats. rewrite B5, B4, B3, Hf, B2, B1, B0 in Hin. exact Hin.
  - injection Hrest as <-. apply plan_none in Hplan. subst w0. exact Hrun0.
Qed.

(** The copy of the cover and one turn of the loop over the formats, as
    [migrate_files] makes them. *)
Definition migrate_cover (self : DB) (p : plan) : M world bool :=
  copy_cover_to self (current_path p)
    (to_path (os_path_join (tpath p) "cover.jpg")) (wam p) true.

Definition migrate_format (self : DB) (book_id : Z) (p : plan) (fmt : string) :
  M world unit :=
  let dest := os_path_join (tpath p) (fname p +:+ "." +:+ lower fmt) in
  let* stem := format_fname book_id fmt in
  match stem with
  | None => raise TypeError
  | Some stem =>
      let* _ := copy_format_to self book_id fmt stem (current_path p)
                  (to_path dest) (wam p) true in
      ret tt
  end.

(** Once the migration of the files has returned, the rest of
    [update_path] runs from the state [update_db] leaves, and whatever
    happens then, the stored path and stems stay the new ones. *)
Lemma update_path_migrated self book_id title author w p w0 w1 w2 :
  update_path_plan self book_id title author w = (Return (Some p), w0) ->
  make_target p w0 = (Return tt, w1) ->
  migrate_files self book_id p w1 = (Return tt, w2) ->
  exists w3,
    update_db book_id p w2 = (Return tt, w3) /\
    update_path self book_id title author w
    = (let* _ := try_finally (delete_source self p)
                   (when (wam p) (act wam_close_handles)) in
       fix_case self p) w3 /\
    path_map (snd (update_path self book_id title author w)) !! book_id
    = Some (new_path p) /\
    (forall fmt, In fmt (formats p) ->
       fname_map (snd (update_path self book_id title author w)) !! (book_id, fmt)
       = Some (fname p)).
Proof.
  intros Hplan Hmk Hmig.
  destruct (update_db_result book_id p w2) as (w3 & Hdb & Hp & _ & Hn).
  exists w3. split; [exact Hdb|].
  assert (Hrun : update_path self book_id title author w
                 = (let* _ := try_finally (delete_source self p)
                                (when (wam p) (act wam_close_handles)) in
                    fix_case self p) w3).
  { unfold update_path. unfold bind at 1. rewrite Hplan.
    unfold bind at 1. unfold bind at 2. unfold try_finally, bind at 1. rewrite Hmk.
    unfold bind at 1. rewrite Hmig. unfold bind at 1. rewrite Hdb. reflexivity. }
  split; [exact Hrun|]. rewrite Hrun. unfold bind, try_finally.
  pose proof (quiet_same_tables _ _ w3 (quiet_delete_source self p)) as T3.
  destruct (delete_source self p w3) as [r4 w4]. cbn [snd] in T3.
  pose proof (quiet_same_tables (fun _ => True) _ w4 (quiet_close _ p I)) as T4.
  destruct (when (wam p) (act wam_close_handles) w4) as [[[]|e5] w5]; cbn [snd] in T4.
  - destruct r4 as [[]|e4].
    + pose proof (quiet_same_tables (fun _ => True) _ w5
                    (quiet_fix_case _ self p (fun _ _ => I))) as T5.
      destruct (fix_case self p w5) as [r6 w6]. cbn [snd] in *.
      destruct T3 as (A3 & _ & C3), T4 as (A4 & _ & C4), T5 as (A5 & _ & C5).
      rewrite A5, A4, A3, C5, C4, C3. auto.
    + cbn [snd]. destruct T3 as (A3 & _ & C3), T4 as (A4 & _ & C4).
      rewrite A4, A3, C4, C3. auto.
  - cbn [snd]. destruct T3 as (A3 & _ & C3), T4 as (A4 & _ & C4).
    rewrite A4, A3, C4, C3. auto.
Qed.

(** C2 (amended).  The stored path and stems are set only after every copy
    call of the migration has returned.  When a copy call raises - copying
    the cover or a format file failed with an exception - [update_path]
    raises; the stored path, formats and stems are as before the call; and
    nothing was deleted: the log holds no [delete_tree] and no
    [delete_originals].  And whenever a call changes what is stored, the
    migration has returned before.  A copy call that returns [False] is
    not a failure for [update_path]: the result of [copy_cover_to] and of
    [copy_format_to] is dropped, and once the migration has returned the
    stored path and stems are set to the new values and the call goes on
    to delete the source folder, whatever the copy calls returned. *)
Theorem update_path_copy_failure (self : DB) (book_id : Z) (title author : string)
  (w : world) :
  (forall p w0 w1 e w2,
     update_path_plan self book_id title author w = (Return (Some p), w0) ->
     make_target p w0 = (Return tt, w1) ->
     migrate_files self book_id p w1 = (Raise e, w2) ->
     exists e' w3,
       update_path self book_id title author w = (Raise e', w3) /\
       same_tables w w3 /\
       exists evs, log w3 = (log w ++ evs)%list /\
                   Forall (ok_event no_deletion) evs) /\
  (~ same_tables w (snd (update_path self book_id title author w)) ->
   exists p w0 w1 w2,
     update_path_plan self book_id title author w = (Return (Some p), w0) /\
     make_target p w0 = (Return tt, w1) /\
     migrate_files self book_id p w1 = (Return tt, w2)) /\
  (forall p b w1 wc,
     source_ok p = true ->
     migrate_cover self p w1 = (Return b, wc) ->
     migrate_files self book_id p w1
     = for_each (formats p) (migrate_format self book_id p) wc) /\
  (forall p fmt stem b w1 wf,
     fname_map w1 !! (book_id, fmt) = Some stem ->
     copy_format_to self book_id fmt stem (current_path p)
       (to_path (os_path_join (tpath p) (fname p +:+ "." +:+ lower fmt)))
       (wam p) true w1 = (Return b, wf) ->
     migrate_format self book_id p fmt w1 = (Return tt, wf)) /\
  (forall p w0 w1 w2,
     update_path_plan self book_id title author w = (Return (Some p), w0) ->
     make_target p w0 = (Return tt, w1) ->
     migrate_files self book_id p w1 = (Return tt, w2) ->
     exists w3,
       update_db book_id p w2 = (Return tt, w3) /\
       update_path self book_id title author w
       = (let* _ := try_finally (delete_source self p)
                      (when (wam p) (act wam_close_handles)) in
          fix_case self p) w3 /\
       path_map (snd (update_path self book_id title author w)) !! book_id
       = Some (new_path p) /\
       (forall fmt, In fmt (formats p) ->
          fname_map (snd (update_path self book_id title author w)) !! (book_id, fmt)
          = Some (fname p))).
Proof.
  pose proof (quiet_plan no_deletion self book_id title author (fun _ => I) )
    as [Eplan Kplan].
  split; [|split; [|split; [|split]]].
  - intros p w0 w1 e w2 Hplan Hmk Hmig.
    destruct (quiet_make_target no_deletion p (fun _ => I)) as [Emk Kmk].
    destruct (quiet_migrate_files no_deletion no_deletion_copy self book_id p)
      as [Emig Kmig].
    destruct (quiet_close no_deletion p I) as [Ecl Kcl].
    specialize (Eplan w). specialize (Kplan w). rewrite Hplan in Eplan, Kplan.
    specialize (Emk w0). specialize (Kmk w0). rewrite Hmk in Emk, Kmk.
    specialize (Emig w1). specialize (Kmig w1). rewrite Hmig in Emig, Kmig.
    specialize (Ecl w2). specialize (Kcl w2).
    simpl in *.
    destruct Eplan as (v0 & L0 & F0), Emk as (v1 & L1 & F1),
             Emig as (v2 & L2 & F2), Ecl as (v3 & L3 & F3).
    unfold update_path, bind at 1. rewrite Hplan.
    unfold bind at 1. unfold try_finally, bind at 1. rewrite Hmk.
    unfold bind at 1. rewrite Hmig.
    destruct (when (wam p) (act wam_close_handles) w2) as [[u|e3] w3] eqn:Ecl3;
      simpl in *; eexists _, w3; (split; [reflexivity|]);
      (split; [unfold same_tables; intuition congruence|]);
      exists (v0 ++ v1 ++ v2 ++ v3)%list;
      (split; [rewrite L3, L2, L1, L0, <- !app_assoc; reflexivity|]);
      repeat (apply Forall_app; split); assumption.
  - intros Hchanged.
    destruct (update_path_plan self book_id title author w) as [[[p|]|e] w0] eqn:Hplan.
    + destruct (make_target p w0) as [[u|e] w1] eqn:Hmk.
      * destruct (migrate_files self book_id p w1) as [[u2|e] w2] eqn:Hmig.
        -- destruct u, u2. exists p, w0, w1, w2. auto.
        -- exfalso. apply Hchanged.
           destruct (quiet_make_target no_deletion p (fun _ => I)) as [_ Kmk].
           destruct (quiet_migrate_files no_deletion no_deletion_copy self book_id p)
             as [_ Kmig].
           destruct (quiet_close no_deletion p I) as [_ Kcl].
           specialize (Kplan w). rewrite Hplan in Kplan.
           specialize (Kmk w0). rewrite Hmk in Kmk.
           specialize (Kmig w1). rewrite Hmig in Kmig.
           specialize (Kcl w2).
           unfold update_path, bind at 1. rewrite Hplan.
           unfold bind at 1. unfold try_finally, bind at 1. rewrite Hmk.
           unfold bind at 1. rewrite Hmig.
           destruct (when (wam p) (act wam_close_handles) w2) as [[u2|e3] w3];
             simpl in *; unfold same_tables; intuition congruence.
      * exfalso. apply Hchanged.
        destruct (quiet_make_target no_deletion p (fun _ => I)) as [_ Kmk].
        destruct (quiet_close no_deletion p I) as [_ Kcl].
        specialize (Kplan w). rewrite Hplan in Kplan.
        specialize (Kmk w0). rewrite Hmk in Kmk.
        specialize (Kcl w1).
        unfold update_path, bind at 1. rewrite Hplan.
        unfold bind at 1. unfold try_finally, bind at 1. rewrite Hmk.
        destruct (when (wam p) (act wam_close_handles) w1) as [[u2|e3] w3];
          simpl in *; unfold same_tables; intuition congruence.
    + exfalso. apply Hchanged. unfold update_path, bind. rewrite Hplan. simpl.
      specialize (Kplan w). rewrite Hplan in Kplan. exact Kplan.
    + exfalso. apply Hchanged. unfold update_path, bind. rewrite Hplan. simpl.
      specialize (Kplan w). rewrite Hplan in Kplan. exact Kplan.
  - intros p b w1 wc Hok Hcover. unfold migrate_files, migrate_cover in *.
    rewrite Hok. cbn [when]. unfold bind at 1. rewrite Hcover. reflexivity.
  - intros p fmt stem b w1 wf Hstem Hcopy. unfold migrate_format, bind at 1.
    unfold format_fname. rewrite Hstem. unfold bind. rewrite Hcopy. reflexivity.
  - intros p w0 w1 w2. apply update_path_migrated.
Qed.

End UpdatePath.

(** Record 7 with its files under the stem Old, on a system where the PDF
    file can be neither linked nor read. *)
Definition stale : world :=
  start no_pdf 7 "Bar/Foo (7)" [("EPUB", "Old"); ("PDF", "Old")].

Definition stale_plan : plan :=
  {| new_path := "Bar/Foo (7)"; current_path := "Bar/Foo (7)";
     formats := ["EPUB"; "PDF"]; fname := "Foo - Bar";
     spath := "/lib/Bar/Foo (7)"; tpath := "/lib/Bar/Foo (7)";
     source_ok := true; wam := false |}.

Lemma run_eta {S A : Type} (m : M S A) (s : S) (r : result A) :
  fst (m s) = r -> m s = (r, snd (m s)).
Proof. intros <-. destruct (m s); reflexivity. Qed.

Lemma update_path_idempotent_witness :
  update_path library 7 "Foo" "Bar" (start calm 7 "Bar/Foo (7)" [("EPUB", "Foo - Bar")])
  = (Return tt, start calm 7 "Bar/Foo (7)" [("EPUB", "Foo - Bar")]) /\
  update_path library 7 "Foo" "Bar"
    (snd (update_path library 7 "Foo" "Bar" (start calm 7 "Old/Foo (7)" [("EPUB", "Old")])))
  = (Return tt,
     snd (update_path library 7 "Foo" "Bar" (start calm 7 "Old/Foo (7)" [("EPUB", "Old")]))).
Proof.
  split.
  - apply (proj1 (@update_path_idempotent posix library 7 "Foo" "Bar"
                    (start calm 7 "Bar/Foo (7)" [("EPUB", "Foo - Bar")]))
                 "Bar/Foo (7)"); [reflexivity|reflexivity|].
    intros fmt [<-|[]]. reflexivity.
  - apply (proj2 (@update_path_idempotent posix library 7 "Foo" "Bar"
                    (start calm 7 "Old/Foo (7)" [("EPUB", "Old")]))).
    apply run_eta. vm_compute. reflexivity.
Defined.

Lemma update_path_copy_failure_witness :
  exists e w3,
    update_path library 7 "Foo" "Bar" stale = (Raise e, w3) /\ same_tables stale w3.
Proof.
  destruct (proj1 (@update_path_copy_failure posix library 7 "Foo" "Bar" stale)
              stale_plan
              (snd (update_path_plan library 7 "Foo" "Bar" stale))
              (snd (make_target stale_plan
                      (snd (update_path_plan library 7 "Foo" "Bar" stale))))
              IOError
              (snd (migrate_files library 7 stale_plan
                      (snd (make_target stale_plan
                              (snd (update_path_plan library 7 "Foo" "Bar" stale)))))))
    as (e & w3 & Hrun & Hsame & _).
  - apply run_eta. vm_compute. reflexivity.
  - apply run_eta. vm_compute. reflexivity.
  - apply run_eta. vm_compute. reflexivity.
  - exists e, w3. split; [exact Hrun|exact Hsame].
Defined.

(** An operating system on which the folder of the record exists and
    nothing else does: no cover can be read and no file is found. *)
Definition bare : oracle :=
  {| on_query := fun _ q =>
       match q with
       | os_path_exists p => String.eqb p "/lib/Old/Foo (7)"
       | _ => false
       end;
     on_action := fun _ _ => None;
     on_listing := fun _ _ => inr [];
     on_reading := fun _ _ => inl EnvIOError |}.

(** Record 7 in the folder Old/Foo (7), with an EPUB format under the stem
    Old whose file is not there. *)
Definition emptied : world := start bare 7 "Old/Foo (7)" [("EPUB", "Old")].

Definition is_copy (ev : event) : bool :=
  match ev with
  | EvAction (shutil_copyfile _ _) _ | EvAction (hardlink_file _ _) _
  | EvAction (shutil_copyfileobj _ _) _ | EvAction (wam_copy_path_to _ _) _ => true
  | _ => false
  end.

(** C2 as stated fails, in two ways.  First: copying the cover and copying
    the EPUB file both fail - [copy_cover_to] and [copy_format_to] return
    [False] and not one file is copied - and yet [update_path] returns,
    has stored the new path and the new stem, and has deleted the source
    folder.  Second: the record keeps its folder /lib/Bar/Foo (7) and only
    the stem changes, so source and target folder are one.  The EPUB file
    is linked under its new name, then copying the PDF file raises:
    [update_path] raises and the stored stems are unchanged, but the source
    folder has a new entry, Foo - Bar.epub. *)
Lemma update_path_counterexample :
  (fst (copy_cover_to library "Old/Foo (7)" (to_path "/lib/Bar/Foo (7)/cover.jpg")
          false true emptied) = Return false /\
   fst (copy_format_to library 7 "EPUB" "Old" "Old/Foo (7)"
          (to_path "/lib/Bar/Foo (7)/Foo - Bar.epub") false true emptied)
   = Return false /\
   fst (update_path library 7 "Foo" "Bar" emptied) = Return tt /\
   existsb is_copy (log (snd (update_path library 7 "Foo" "Bar" emptied))) = false /\
   path_map (snd (update_path library 7 "Foo" "Bar" emptied)) !! 7
   = Some "Bar/Foo (7)" /\
   fname_map (snd (update_path library 7 "Foo" "Bar" emptied)) !! (7, "EPUB")
   = Some "Foo - Bar" /\
   In (EvAction (delete_tree "/lib/Old/Foo (7)" true) None)
      (log (snd (update_path library 7 "Foo" "Bar" emptied)))) /\
  (fst (update_path library 7 "Foo" "Bar" stale) = Raise IOError /\
   spath stale_plan = "/lib/Bar/Foo (7)" /\
   In (EvAction (hardlink_file "/lib/Bar/Foo (7)/Old.epub"
                               "/lib/Bar/Foo (7)/Foo - Bar.epub") None)
      (log (snd (update_path library 7 "Foo" "Bar" stale))) /\
   os_path_dirname "/lib/Bar/Foo (7)/Foo - Bar.epub" = "/lib/Bar/Foo (7)" /\
   fname_map (snd (update_path library 7 "Foo" "Bar" stale)) !! (7, "EPUB") = Some "Old").
Proof.
  split.
  - split; [vm_compute; reflexivity|]. split; [vm_compute; reflexivity|].
    split; [vm_compute; reflexivity|]. split; [vm_compute; reflexivity|].
    split; [vm_compute; reflexivity|]. split; [vm_compute; reflexivity|].
    vm_compute. tauto.
  - split; [vm_compute; reflexivity|]. split; [reflexivity|].
    split; [vm_compute; tauto|]. split; vm_compute; reflexivity.
Qed.

End FilesFacts.

(** ** More on preferences *)

Module StoreFacts.
Import Prefs PrefsFacts.

Section Store.
Context `{JSON}.

(** X1.  [DBPrefs.__init__] reads the table without changing it: a row
    whose text can be read becomes an entry of the dictionary, a row whose
    text cannot be read is passed over without an error and its key is not
    a setting, and nothing else is in the dictionary; the defaults start
    empty and setting is enabled. *)
Theorem init_reads_table (tbl : gmap string string) (flt : list bool) (key : string) :
  table (init tbl flt) = tbl /\
  defaults (init tbl flt) = ∅ /\
  disable_setting (init tbl flt) = false /\
  (forall raw v, tbl !! key = Some raw -> raw_to_object raw = Return v ->
     has_setting key (init tbl flt) = true /\
     getitem key (init tbl flt) = Return v) /\
  (forall raw e, tbl !! key = Some raw -> raw_to_object raw = Raise e ->
     has_setting key (init tbl flt) = false /\
     getitem key (init tbl flt) = Raise (KeyError key)) /\
  (tbl !! key = None ->
     has_setting key (init tbl flt) = false /\
     getitem key (init tbl flt) = Raise (KeyError key)).
Proof.
  split; [reflexivity|]. split; [reflexivity|]. split; [reflexivity|].
  unfold has_setting, getitem. rewrite init_lookup. cbn [defaults init].
  rewrite lookup_empty. split; [|split].
  - intros raw v -> Hv. cbn. unfold loaded. rewrite Hv. split; reflexivity.
  - intros raw e -> He. cbn. unfold loaded. rewrite He. split; reflexivity.
  - intros ->. cbn. split; reflexivity.
Qed.

Lemma delitem_missing (key : string) (self : DBPrefs) :
  mirror self !! key = None -> delitem key self = (Raise (KeyError key), self).
Proof.
  intros Hk. unfold delitem, bind, dict_delitem. rewrite Hk. reflexivity.
Qed.

Lemma delitem_present (key : string) (v : pyval) (self : DBPrefs) :
  mirror self !! key = Some v ->
  fst (delitem key self)
  = (if bool_decide (head (faults self) = Some true) then Raise BusyError else Return tt) /\
  mirror (snd (delitem key self)) = delete key (mirror self) /\
  table (snd (delitem key self))
  = (if bool_decide (head (faults self) = Some true) then table self
     else delete key (table self)) /\
  defaults (snd (delitem key self)) = defaults self.
Proof.
  intros Hk. unfold delitem, bind, dict_delitem. rewrite Hk.
  unfold conn_execute. cbn [faults record].
  destruct (faults self) as [|[|] rest]; cbn; auto.
Qed.

(** X2.  [__delitem__] removes the key from the dictionary first and from
    the table second.  For a key the dictionary does not hold it raises
    [KeyError] and changes nothing, whatever the table holds.  For a key
    it holds, and a database that takes the statement, the key is gone
    from both, [prefs[key]] falls back to the default for the key, and the
    key stays away after a restart.  When the database refuses the
    statement the key is gone from the dictionary only, and a restart
    brings back what the table holds.  In each case a dictionary that was
    backed by the table still is. *)
Theorem delitem_outcomes (key : string) (self : DBPrefs) :
  (mirror self !! key = None ->
   delitem key self = (Raise (KeyError key), self)) /\
  (forall v, mirror self !! key = Some v -> head (faults self) <> Some true ->
     fst (delitem key self) = Return tt /\
     mirror (snd (delitem key self)) = delete key (mirror self) /\
     table (snd (delitem key self)) = delete key (table self) /\
     has_setting key (snd (delitem key self)) = false /\
     getitem key (snd (delitem key self))
     = match defaults self !! key with
       | Some d => Return d
       | None => Raise (KeyError key)
       end /\
     has_setting key (reopen (snd (delitem key self))) = false) /\
  (forall v, mirror self !! key = Some v -> head (faults self) = Some true ->
     fst (delitem key self) = Raise BusyError /\
     mirror (snd (delitem key self)) = delete key (mirror self) /\
     table (snd (delitem key self)) = table self /\
     mirror (reopen (snd (delitem key self))) !! key = table self !! key ≫= loaded) /\
  (in_sync (table self) (mirror self) ->
   in_sync (table (snd (delitem key self))) (mirror (snd (delitem key self)))).
Proof.
  split; [apply delitem_missing|]. split; [|split].
  - intros v Hk Hf. destruct (delitem_present key v self Hk) as (Hr & Hm & Ht & Hd).
    rewrite bool_decide_eq_false_2 in Hr, Ht by exact Hf.
    split; [exact Hr|]. split; [exact Hm|]. split; [exact Ht|].
    unfold has_setting, getitem, reopen. rewrite init_lookup, Hm, Ht, Hd.
    rewrite !lookup_delete_eq. cbn. split; [|split]; reflexivity.
  - intros v Hk Hf. destruct (delitem_present key v self Hk) as (Hr & Hm & Ht & Hd).
    rewrite bool_decide_eq_true_2 in Hr, Ht by exact Hf.
    split; [exact Hr|]. split; [exact Hm|]. split; [exact Ht|].
    unfold reopen. rewrite init_lookup, Ht. reflexivity.
  - intros Hs. destruct (mirror self !! key) as [v|] eqn:Hk.
    + destruct (delitem_present key v self Hk) as (_ & Hm & Ht & _).
      rewrite Hm, Ht. intros k x Hx.
      destruct (decide (key = k)) as [->|Hne];
        [rewrite lookup_delete_eq in Hx; discriminate|].
      rewrite lookup_delete_ne in Hx by exact Hne.
      destruct (Hs k x Hx) as (raw & Hraw & Hb). exists raw. split; [|exact Hb].
      destruct (bool_decide _); [exact Hraw|].
      rewrite lookup_delete_ne by exact Hne. exact Hraw.
    + rewrite (delitem_missing key self Hk). exact Hs.
Qed.

(** *** Namespaced keys *)

Lemma colon_split (a a' b b' : string) :
  contains_char ":" a = false -> contains_char ":" a' = false ->
  a +:+ ":" +:+ b = a' +:+ ":" +:+ b' -> a = a' /\ b = b'.
Proof.
  revert a'. induction a as [|c a IH]; intros [|c' a'] Ha Ha' E.
  - injection E as E. auto.
  - exfalso. cbn [contains_char] in Ha'. apply orb_false_iff in Ha' as [Hc _].
    injection E as E _. subst c'. discriminate.
  - exfalso. cbn [contains_char] in Ha. apply orb_false_iff in Ha as [Hc _].
    injection E as E _. subst c. discriminate.
  - cbn [contains_char] in Ha, Ha'.
    apply orb_false_iff in Ha as [_ Ha]. apply orb_false_iff in Ha' as [_ Ha'].
    injection E as -> E. destruct (IH a' Ha Ha' E) as [-> ->]. auto.
Qed.

(** The key under which [set_namespaced] and [get_namespaced] keep a
    value. *)
Definition namespaced (namespace key : string) : string :=
  "namespaced:" +:+ namespace +:+ ":" +:+ key.

Lemma namespaced_inj (n n' k k' : string) :
  contains_char ":" n = false -> contains_char ":" n' = false ->
  namespaced n k = namespaced n' k' -> n = n' /\ k = k'.
Proof.
  intros Hn Hn' E. unfold namespaced in E.
  repeat (injection E as E). exact (colon_split n n' k k' Hn Hn' E).
Qed.

(** X3.  [set_namespaced] refuses a key or a namespace with a colon in it
    with [KeyError] and leaves the store as it was.  For names without
    colons, on a store that takes the value, [get_namespaced] with the same
    namespace and key returns the value set, and what it returns for any
    other pair of a namespace without colons and a key is what it returned
    before: two such pairs never share a place in the store. *)
Theorem set_namespaced_keeps_apart (namespace key : string) (val : pyval)
  (self : DBPrefs) :
  (contains_char ":" key = true \/ contains_char ":" namespace = true ->
   exists msg, set_namespaced namespace key val self = (Raise (KeyError msg), self)) /\
  (contains_char ":" key = false -> contains_char ":" namespace = false ->
   (forall raw, disable_setting self = false -> to_raw val = Return raw ->
      head (faults self) <> Some true ->
      fst (set_namespaced namespace key val self) = Return tt /\
      forall default,
        get_namespaced namespace key default
          (snd (set_namespaced namespace key val self)) = val) /\
   (forall namespace' key' default,
      contains_char ":" namespace' = false ->
      (namespace', key') <> (namespace, key) ->
      get_namespaced namespace' key' default
        (snd (set_namespaced namespace key val self))
      = get_namespaced namespace' key' default self)).
Proof.
  split.
  - intros [Hk|Hn]; unfold set_namespaced.
    + rewrite Hk. eexists. reflexivity.
    + rewrite Hn. destruct (contains_char ":" key); eexists; reflexivity.
  - intros Hk Hn.
    assert (Hset : set_namespaced namespace key val self
                   = setitem (namespaced namespace key) val self).
    { unfold set_namespaced. rewrite Hk, Hn. reflexivity. }
    rewrite Hset. split.
    + intros raw Hd Hraw Hf.
      destruct (setitem_stored (namespaced namespace key) val self raw Hd Hraw Hf)
        as (Hr & _ & Hm).
      split; [exact Hr|]. intros default. unfold get_namespaced.
      fold (namespaced namespace key). rewrite Hm, lookup_insert_eq. reflexivity.
    + intros namespace' key' default Hn' Hne. unfold get_namespaced.
      fold (namespaced namespace' key').
      assert (Hkey : namespaced namespace key <> namespaced namespace' key').
      { intros E. apply Hne. destruct (namespaced_inj _ _ _ _ Hn Hn' E) as [-> ->].
        reflexivity. }
      assert (Hm : mirror (snd (setitem (namespaced namespace key) val self))
                     !! namespaced namespace' key'
                   = mirror self !! namespaced namespace' key').
      { unfold setitem. destruct (disable_setting self); [reflexivity|].
        unfold bind, lift. destruct (to_raw val) as [raw|e]; [|reflexivity].
        unfold conn_execute. destruct (faults self) as [|[|] rest]; cbn;
          rewrite ?lookup_insert_ne by exact Hkey; reflexivity. }
      rewrite Hm. reflexivity.
Qed.

(** X4.  [__setitem__] for one key leaves every other key alone, however
    the call ends: what the dictionary and the table hold for another key,
    what [prefs[other]] gives, and what is read for it after a restart are
    as before; the defaults and the switch [disable_setting] are not
    touched. *)
Theorem setitem_other_keys (key other : string) (val : pyval) (self : DBPrefs) :
  other <> key ->
  mirror (snd (setitem key val self)) !! other = mirror self !! other /\
  table (snd (setitem key val self)) !! other = table self !! other /\
  getitem other (snd (setitem key val self)) = getitem other self /\
  mirror (reopen (snd (setitem key val self))) !! other
  = mirror (reopen self) !! other /\
  defaults (snd (setitem key val self)) = defaults self /\
  disable_setting (snd (setitem key val self)) = disable_setting self.
Proof.
  intros Hne.
  assert (Hrun : mirror (snd (setitem key val self)) !! other = mirror self !! other /\
                 table (snd (setitem key val self)) !! other = table self !! other /\
                 defaults (snd (setitem key val self)) = defaults self /\
                 disable_setting (snd (setitem key val self)) = disable_setting self).
  { unfold setitem. destruct (disable_setting self) eqn:Hd; [auto|].
    unfold bind, lift. destruct (to_raw val) as [raw|e]; [|auto].
    unfold conn_execute. destruct (faults self) as [|[|] rest]; cbn;
      rewrite ?lookup_insert_ne by congruence; auto. }
  destruct Hrun as (Hm & Ht & Hdf & Hds).
  split; [exact Hm|]. split; [exact Ht|]. split; [|split; [|split]].
  - unfold getitem. rewrite Hm, Hdf. reflexivity.
  - unfold reopen. rewrite !init_lookup, Ht. reflexivity.
  - exact Hdf.
  - exact Hds.
Qed.

End Store.

Import Sample.

Lemma setitem_other_keys_witness :
  mirror (snd (setitem "b" (PInt 2) (snd (setitem "a" (PInt 1) (empty_prefs false [])))))
    !! "a"
  = mirror (snd (setitem "a" (PInt 1) (empty_prefs false []))) !! "a".
Proof.
  refine (proj1 (setitem_other_keys "b" "a" (PInt 2)
                   (snd (setitem "a" (PInt 1) (empty_prefs false []))) _)).
  discriminate.
Defined.

End StoreFacts.

(** ** Aggregate functions *)

Module AggregatesFacts.
Import Aggregates.

#[global] Instance value_eq_dec : EqDecision value.
Proof. solve_decision. Defined.

(** A value other than NULL. *)
Definition present (v : value) : Prop := v <> Null.

#[global] Instance present_dec (v : value) : Decision (present v).
Proof. unfold present. apply _. Defined.

(** A row whose value is not NULL. *)
Definition present_row (r : Z * value) : Prop := present r.2.

#[global] Instance present_row_dec (r : Z * value) : Decision (present_row r).
Proof. unfold present_row. apply _. Defined.

(** Rows in ascending order of their index. *)
Definition by_index {A : Type} : relation (Z * A) := fun a b => a.1 <= b.1.

#[global] Instance by_index_dec {A : Type} (a b : Z * A) : Decision (by_index a b).
Proof. unfold by_index. apply _. Defined.

#[global] Instance by_index_total {A : Type} : Total (@by_index A).
Proof. intros a b. unfold by_index. lia. Qed.

#[global] Instance by_index_trans {A : Type} : Transitive (@by_index A).
Proof. intros a b c. unfold by_index. lia. Qed.

Lemma texts_Text (ts : list string) : texts (map Text ts) = Return ts.
Proof. induction ts as [|t ts IH]; simpl; [reflexivity|]. rewrite IH. reflexivity. Qed.

Lemma steps_Concatenate (sep : string) (rows ctxt : list value) :
  steps (step (Concatenate sep)) ctxt rows
  = Return (ctxt ++ filter present rows)%list.
Proof.
  revert ctxt. induction rows as [|v rows IH]; intros ctxt; simpl.
  - rewrite app_nil_r. reflexivity.
  - destruct v; rewrite IH.
    + rewrite filter_cons_False by (intros Hn; apply Hn; reflexivity). reflexivity.
    + rewrite filter_cons_True by discriminate. rewrite <- app_assoc. reflexivity.
    + rewrite filter_cons_True by discriminate. rewrite <- app_assoc. reflexivity.
Qed.

Lemma Concatenate_rows (sep : string) (rows : list value) :
  aggregate_rows (Concatenate sep) rows
  = finalize (Concatenate sep) (filter present rows).
Proof. unfold aggregate_rows. rewrite steps_Concatenate. reflexivity. Qed.

Lemma filter_present_idem (rows : list value) :
  filter present (filter present rows)
  = filter present rows.
Proof.
  induction rows as [|v rows IH]; [reflexivity|].
  destruct (decide (present v)) as [Hv|Hv].
  - rewrite (filter_cons_True _ _ _ Hv), (filter_cons_True _ _ _ Hv), IH. reflexivity.
  - rewrite (filter_cons_False _ _ _ Hv). exact IH.
Qed.

Lemma filter_present_nil (rows : list value) :
  filter present rows = [] <-> Forall (eq Null) rows.
Proof.
  induction rows as [|v rows IH].
  - split; [constructor|reflexivity].
  - destruct v.
    + rewrite filter_cons_False by (intros Hn; apply Hn; reflexivity).
      rewrite IH. split; [intros Hr; constructor; auto|intros Hr; inversion Hr; auto].
    + rewrite filter_cons_True by discriminate.
      split; [discriminate|intros Hr; inversion Hr; discriminate].
    + rewrite filter_cons_True by discriminate.
      split; [discriminate|intros Hr; inversion Hr; discriminate].
Qed.

(** X5.  [Concatenate] passes over NULL values: the aggregate of a group is
    that of its values other than NULL; it is NULL exactly when every value
    of the group is NULL (so also for an empty group); and when what is left
    are texts, it is these texts in the order of the rows with [sep]
    between them. *)
Theorem Concatenate_skips_null (sep : string) (rows : list value) :
  aggregate_rows (Concatenate sep) rows
  = aggregate_rows (Concatenate sep) (filter present rows) /\
  (aggregate_rows (Concatenate sep) rows = Return Null <-> Forall (eq Null) rows) /\
  (forall t ts, filter present rows = map Text (t :: ts) ->
     aggregate_rows (Concatenate sep) rows
     = Return (Text (String.concat sep (t :: ts)))).
Proof.
  split; [|split].
  - rewrite !Concatenate_rows, filter_present_idem. reflexivity.
  - rewrite Concatenate_rows, <- filter_present_nil.
    destruct (filter _ rows) as [|v l]; simpl.
    + split; reflexivity.
    + split; [|discriminate]. unfold join. destruct (texts (v :: l)); discriminate.
  - intros t ts Hts. rewrite Concatenate_rows, Hts.
    change (finalize (Concatenate sep) (map Text (t :: ts)))
      with (match join sep (map Text (t :: ts)) with
            | Return s => Return (Text s)
            | Raise e => Raise e
            end).
    unfold join. rewrite texts_Text. reflexivity.
Qed.

(** *** [SortedConcatenate] *)

Definition put_row {A : Type} (m : gmap Z A) (row : Z * A) : gmap Z A :=
  <[row.1 := row.2]> m.

Lemma foldl_ins {A : Type} (l : list (Z * A)) (m : gmap Z A) :
  NoDup l.*1 -> foldl put_row m l = list_to_map l ∪ m.
Proof.
  revert m. induction l as [|[k v] l IH]; intros m Hnd.
  - simpl. rewrite (left_id_L ∅ (∪)). reflexivity.
  - rewrite fmap_cons in Hnd. apply NoDup_cons in Hnd as [Hk Hnd].
    cbn [foldl]. rewrite IH by exact Hnd. unfold put_row. cbn [fst snd].
    rewrite list_to_map_cons, <- insert_union_l. symmetry.
    apply insert_union_r, not_elem_of_list_to_map_1, Hk.
Qed.

Lemma steps_SortedConcatenate (sep : string) (rows : list (Z * value))
  (ctxt : gmap Z value) :
  steps (step (SortedConcatenate sep)) ctxt rows
  = Return (foldl put_row ctxt (filter present_row rows)).
Proof.
  revert ctxt. induction rows as [|[k v] rows IH]; intros ctxt; [reflexivity|].
  destruct (decide (present_row (k, v))) as [Hv|Hv].
  - rewrite (filter_cons_True present_row (k, v) rows Hv).
    simpl. destruct v; [exfalso; apply Hv; reflexivity| |]; apply IH.
  - rewrite (filter_cons_False present_row (k, v) rows Hv).
    simpl. destruct v; [apply IH| |]; exfalso; apply Hv; discriminate.
Qed.

Lemma StronglySorted_filter {A : Type} (R : relation A) (P : A -> Prop)
  `{forall x, Decision (P x)} (l : list A) :
  StronglySorted R l -> StronglySorted R (filter P l).
Proof.
  induction 1 as [|x l Hs IH Hx]; [constructor|].
  destruct (decide (P x)) as [Hp|Hp].
  - rewrite (filter_cons_True _ _ _ Hp). constructor; [exact IH|].
    apply List.Forall_forall. intros y Hy.
    apply (proj2 (list_elem_of_In _ _)) in Hy.
    apply list_elem_of_filter in Hy as [_ Hy].
    rewrite List.Forall_forall in Hx. apply Hx, list_elem_of_In, Hy.
  - rewrite (filter_cons_False _ _ _ Hp). exact IH.
Qed.

Lemma NoDup_fst_eq {A : Type} (l : list (Z * A)) (a b : Z * A) :
  NoDup l.*1 -> a ∈ l -> b ∈ l -> a.1 = b.1 -> a = b.
Proof.
  intros Hnd Ha Hb Hk. destruct a as [k v], b as [k' v']. simpl in Hk. subst k'.
  apply (elem_of_list_to_map_1 (M := gmap Z)) in Ha, Hb; try exact Hnd. congruence.
Qed.

Lemma sorted_unique {A : Type} (l1 l2 : list (Z * A)) :
  NoDup l1.*1 -> l1 ≡ₚ l2 -> merge_sort by_index l1 = merge_sort by_index l2.
Proof.
  intros Hnd Hp. apply (StronglySorted_unique_strong by_index).
  - intros x1 x2 H1 H2 H12 H21. apply (NoDup_fst_eq l1); auto.
    + rewrite merge_sort_Permutation in H1. exact H1.
    + rewrite merge_sort_Permutation, <- Hp in H2. exact H2.
    + unfold by_index in *. lia.
  - apply StronglySorted_merge_sort; apply _.
  - apply StronglySorted_merge_sort; apply _.
  - rewrite !merge_sort_Permutation. exact Hp.
Qed.

Lemma filter_sorted {A : Type} (P : Z * A -> Prop) `{forall x, Decision (P x)}
  (l : list (Z * A)) :
  NoDup l.*1 ->
  filter P (merge_sort by_index l) = merge_sort by_index (filter P l).
Proof.
  intros Hnd. apply (StronglySorted_unique_strong by_index).
  - intros x1 x2 H1 H2 H12 H21. apply (NoDup_fst_eq l); auto.
    + apply list_elem_of_filter in H1 as [_ H1].
      rewrite merge_sort_Permutation in H1. exact H1.
    + rewrite merge_sort_Permutation in H2.
      apply list_elem_of_filter in H2 as [_ H2]. exact H2.
    + unfold by_index in *. lia.
  - apply StronglySorted_filter, StronglySorted_merge_sort; apply _.
  - apply StronglySorted_merge_sort; apply _.
  - rewrite !merge_sort_Permutation. reflexivity.
Qed.

Lemma sorted_fst {A : Type} (l : list (Z * A)) :
  StronglySorted by_index l -> StronglySorted Z.le l.*1.
Proof.
  induction 1 as [|x l Hs IH Hx]; [constructor|].
  rewrite fmap_cons. constructor; [exact IH|].
  apply Forall_fmap. exact Hx.
Qed.

Lemma sorted_keys_list_to_map {A : Type} (l : list (Z * A)) :
  NoDup l.*1 -> sorted_keys (list_to_map l) = (merge_sort by_index l).*1.
Proof.
  intros Hnd. unfold sorted_keys.
  apply (StronglySorted_unique Z.le).
  - apply StronglySorted_merge_sort; apply _.
  - apply sorted_fst, StronglySorted_merge_sort; apply _.
  - rewrite !merge_sort_Permutation.
    change (map fst (map_to_list (list_to_map l : gmap Z A)))
      with ((map_to_list (list_to_map l : gmap Z A)).*1).
    rewrite map_to_list_to_map by exact Hnd. reflexivity.
Qed.

Lemma lookup_rows {A : Type} (d : A) (l l' : list (Z * A)) :
  NoDup l.*1 -> l' ⊆ l ->
  map (fun k => default d ((list_to_map l : gmap Z A) !! k)) l'.*1 = l'.*2.
Proof.
  intros Hnd. induction l' as [|[k v] l' IH]; intros Hsub; [reflexivity|].
  rewrite !fmap_cons. cbn [map fst snd]. f_equal.
  - rewrite (elem_of_list_to_map_1 l k v Hnd); [reflexivity|].
    apply Hsub. left.
  - apply IH. intros x Hx. apply Hsub. right. exact Hx.
Qed.

(** The context of [SortedConcatenate] after the rows [l], none of them
    with NULL, and what the final function makes of it. *)
Lemma finalize_SortedConcatenate (sep : string) (l : list (Z * value)) :
  NoDup l.*1 ->
  finalize (SortedConcatenate sep) (list_to_map l)
  = finalize (Concatenate sep) (merge_sort by_index l).*2.
Proof.
  intros Hnd. cbn [finalize SortedConcatenate Concatenate].
  rewrite sorted_keys_list_to_map by exact Hnd.
  rewrite (lookup_rows Null l) by
    (exact Hnd || (intros x Hx; rewrite merge_sort_Permutation in Hx; exact Hx)).
  destruct l as [|[k v] l].
  - reflexivity.
  - assert (Hs : size (list_to_map ((k, v) :: l) : gmap Z value) <> 0%nat).
    { rewrite list_to_map_cons. intros Hz. apply map_size_empty_inv in Hz.
      apply (insert_non_empty _ _ _ Hz). }
    apply Nat.eqb_neq in Hs. rewrite Hs.
    destruct (merge_sort by_index ((k, v) :: l)) as [|r' l'] eqn:E; [|reflexivity].
    exfalso. apply (f_equal length) in E.
    rewrite (Permutation_length (merge_sort_Permutation _ _)) in E. discriminate.
Qed.

Lemma fmap_snd_filter (l : list (Z * value)) :
  filter present l.*2 = (filter present_row l).*2.
Proof.
  induction l as [|[k v] l IH]; [reflexivity|]. rewrite fmap_cons. cbn [snd].
  destruct (decide (present v)) as [Hv|Hv].
  - rewrite (filter_cons_True present v _ Hv).
    rewrite (filter_cons_True present_row (k, v) l Hv), fmap_cons, IH. reflexivity.
  - rewrite (filter_cons_False present v _ Hv).
    rewrite (filter_cons_False present_row (k, v) l Hv). exact IH.
Qed.

Lemma NoDup_fst_filter {A : Type} (P : Z * A -> Prop) `{forall x, Decision (P x)}
  (l : list (Z * A)) :
  NoDup l.*1 -> NoDup (filter P l).*1.
Proof.
  induction l as [|r l IH]; intros Hnd; [constructor|].
  rewrite fmap_cons in Hnd. apply NoDup_cons in Hnd as [Hk Hnd].
  destruct (decide (P r)) as [Hp|Hp].
  - rewrite (filter_cons_True _ _ _ Hp), fmap_cons. apply NoDup_cons. split; [|auto].
    intros Hin. apply Hk. apply list_elem_of_fmap in Hin as (x & -> & Hx).
    apply list_elem_of_fmap. exists x. split; [reflexivity|].
    apply list_elem_of_filter in Hx as [_ Hx]. exact Hx.
  - rewrite (filter_cons_False _ _ _ Hp). auto.
Qed.

Lemma SortedConcatenate_rows (sep : string) (rows : list (Z * value)) :
  NoDup rows.*1 ->
  aggregate_rows (SortedConcatenate sep) rows
  = aggregate_rows (Concatenate sep) (merge_sort by_index rows).*2.
Proof.
  intros Hnd. rewrite Concatenate_rows.
  unfold aggregate_rows. rewrite steps_SortedConcatenate.
  pose proof (NoDup_fst_filter present_row rows Hnd) as Hnd'.
  rewrite foldl_ins by exact Hnd'. cbn [context SortedConcatenate].
  rewrite (right_id_L ∅ (∪)).
  rewrite finalize_SortedConcatenate by exact Hnd'.
  rewrite fmap_snd_filter, filter_sorted by exact Hnd. reflexivity.
Qed.

(** X6.  [SortedConcatenate] over rows with distinct indices gives what
    [Concatenate] gives for the values taken in ascending order of their
    index, and so does not depend on the order in which the rows arrive. *)
Theorem SortedConcatenate_by_index (sep : string) (rows : list (Z * value)) :
  NoDup (map fst rows) ->
  aggregate_rows (SortedConcatenate sep) rows
  = aggregate_rows (Concatenate sep) (map snd (merge_sort by_index rows)) /\
  forall rows', Permutation rows' rows ->
    aggregate_rows (SortedConcatenate sep) rows'
    = aggregate_rows (SortedConcatenate sep) rows.
Proof.
  intros Hnd. change (NoDup rows.*1) in Hnd. split.
  - apply SortedConcatenate_rows, Hnd.
  - intros rows' Hp.
    assert (Hnd' : NoDup rows'.*1) by (rewrite Hp; exact Hnd).
    rewrite !SortedConcatenate_rows by assumption.
    rewrite (sorted_unique rows' rows Hnd' Hp). reflexivity.
Qed.

Lemma SortedConcatenate_by_index_witness :
  aggregate_rows (SortedConcatenate ",") [(2, Text "b"); (3, Null); (1, Text "a")]
  = Return (Text "a,b").
Proof.
  assert (Hnd : NoDup (map fst [(2, Text "b"); (3, Null); (1, Text "a")]))
    by (apply (bool_decide_unpack _); vm_compute; reflexivity).
  rewrite (proj1 (SortedConcatenate_by_index "," _ Hnd)).
  vm_compute. reflexivity.
Defined.

(** *** [AumSortedConcatenate] *)

(** A row of the author map whose fields are texts: index, author (or
    NULL), sort text, link. *)
Definition author_row : Type := Z * (option string * string * string).

Definition to_row (r : author_row) : Z * value * value * value :=
  let '(ndx, (author, sort, link)) := r in
  (ndx, match author with Some a => Text a | None => Null end, Text sort, Text link).

(** What the step function stores for a row with an author. *)
Definition entry (r : author_row) : option (Z * string) :=
  let '(ndx, (author, sort, link)) := r in
  match author with
  | Some a => Some (ndx, a +:+ ":::" +:+ sort +:+ ":::" +:+ link)
  | None => None
  end.

Definition entries (rows : list author_row) : list (Z * string) := omap entry rows.

Lemma steps_AumSortedConcatenate (rows : list author_row) (ctxt : gmap Z string) :
  steps (step AumSortedConcatenate) ctxt (map to_row rows)
  = Return (foldl put_row ctxt (entries rows)).
Proof.
  revert ctxt. induction rows as [|[k [[[a|] s] l]] rows IH]; intros ctxt.
  - reflexivity.
  - exact (IH _).
  - exact (IH _).
Qed.

Lemma entries_fst (rows : list author_row) :
  NoDup rows.*1 -> NoDup (entries rows).*1.
Proof.
  induction rows as [|[k [[[a|] s] l]] rows IH]; intros Hnd; [constructor| |];
    rewrite fmap_cons in Hnd; apply NoDup_cons in Hnd as [Hk Hnd].
  - change (NoDup (k :: (entries rows).*1)). apply NoDup_cons. split; [|auto].
    intros Hin. apply Hk. clear -Hin.
    induction rows as [|[k' [[[a'|] s'] l']] rows IH].
    + inversion Hin.
    + change (k ∈ k' :: (entries rows).*1) in Hin. rewrite fmap_cons.
      apply elem_of_cons in Hin as [->|Hin]; [left|right; auto].
    + rewrite fmap_cons. right. auto.
  - auto.
Qed.

Lemma items_rows (l l' : list (Z * string)) :
  NoDup l.*1 -> l' ⊆ l -> items (list_to_map l) l'.*1 = Return l'.*2.
Proof.
  intros Hnd. induction l' as [|[k v] l' IH]; intros Hsub; [reflexivity|].
  rewrite !fmap_cons. cbn [items fst snd]. unfold item.
  rewrite (elem_of_list_to_map_1 l k v Hnd) by (apply Hsub; left).
  rewrite IH; [reflexivity|]. intros x Hx. apply Hsub. right. exact Hx.
Qed.

Lemma finalize_AumSortedConcatenate (l : list (Z * string)) :
  NoDup l.*1 ->
  finalize AumSortedConcatenate (list_to_map l)
  = Return (match (merge_sort by_index l).*2 with
            | [] => Null
            | es => Text (String.concat ":#:" es)
            end).
Proof.
  intros Hnd.
  pose proof (items_rows l (merge_sort by_index l) Hnd) as Hi.
  rewrite <- sorted_keys_list_to_map in Hi by exact Hnd.
  specialize (Hi ltac:(intros x Hx; rewrite merge_sort_Permutation in Hx; exact Hx)).
  unfold sorted_keys in Hi.
  assert (Hlen : length (merge_sort by_index l).*2
                 = length (map fst (map_to_list (list_to_map l : gmap Z string)))).
  { rewrite length_fmap, (Permutation_length (merge_sort_Permutation _ _)).
    change (map fst (map_to_list (list_to_map l : gmap Z string)))
      with ((map_to_list (list_to_map l : gmap Z string)).*1).
    rewrite length_fmap, (Permutation_length (map_to_list_to_map l Hnd)).
    reflexivity. }
  cbn [finalize AumSortedConcatenate].
  destruct (map fst (map_to_list (list_to_map l : gmap Z string)))
    as [|k1 [|k2 ks]] eqn:E.
  - destruct (merge_sort by_index l).*2; [reflexivity|discriminate].
  - change (merge_sort Z.le [k1]) with [k1] in Hi. cbn [items] in Hi.
    destruct (item (list_to_map l) k1) as [s|e]; [|discriminate].
    injection Hi as <-. reflexivity.
  - rewrite Hi. destruct (merge_sort by_index l).*2; [discriminate|reflexivity].
Qed.

(** X7.  [AumSortedConcatenate] over rows with distinct indices whose
    fields are texts: rows without an author are passed over; the
    aggregate is NULL when no row has an author, and otherwise the entries
    author:::sort:::link of the rows in ascending order of their index with
    :#: between them - the branch for a single entry gives the same as the
    general one - whatever the order in which the rows arrive. *)
Theorem AumSortedConcatenate_by_index (rows : list author_row) :
  NoDup (map fst rows) ->
  aggregate_rows AumSortedConcatenate (map to_row rows)
  = Return (match map snd (merge_sort by_index (entries rows)) with
            | [] => Null
            | es => Text (String.concat ":#:" es)
            end) /\
  forall rows', Permutation rows' rows ->
    aggregate_rows AumSortedConcatenate (map to_row rows')
    = aggregate_rows AumSortedConcatenate (map to_row rows).
Proof.
  assert (Hrun : forall rows : list author_row, NoDup rows.*1 ->
            aggregate_rows AumSortedConcatenate (map to_row rows)
            = Return (match (merge_sort by_index (entries rows)).*2 with
                      | [] => Null
                      | es => Text (String.concat ":#:" es)
                      end)).
  { intros rs Hnd. unfold aggregate_rows. rewrite steps_AumSortedConcatenate.
    pose proof (entries_fst rs Hnd) as Hnd'.
    rewrite foldl_ins by exact Hnd'. cbn [context AumSortedConcatenate].
    rewrite (right_id_L ∅ (∪)). apply finalize_AumSortedConcatenate, Hnd'. }
  intros Hnd. change (NoDup rows.*1) in Hnd. split.
  - apply Hrun, Hnd.
  - intros rows' Hp.
    assert (Hnd' : NoDup rows'.*1) by (rewrite Hp; exact Hnd).
    rewrite !Hrun by assumption.
    rewrite (sorted_unique (entries rows') (entries rows)).
    + reflexivity.
    + apply entries_fst, Hnd'.
    + unfold entries. rewrite Hp. reflexivity.
Qed.

Lemma AumSortedConcatenate_by_index_witness :
  aggregate_rows AumSortedConcatenate
    (map to_row [(2, (Some "Poe", "Poe, E", EmptyString)); (1, (Some "Bo", "Bo", "x"))])
  = Return (Text "Bo:::Bo:::x:#:Poe:::Poe, E:::").
Proof.
  assert (Hnd : NoDup (map fst [(2, (Some "Poe", "Poe, E", EmptyString));
                                (1, (Some "Bo", "Bo", "x"))]))
    by (apply (bool_decide_unpack _); vm_compute; reflexivity).
  rewrite (proj1 (AumSortedConcatenate_by_index _ Hnd)).
  vm_compute. reflexivity.
Defined.

End AggregatesFacts.

(** ** More on folder and file names *)

Module NamesMoreFacts.
Import Files.

(** The characters [construct_path_name] strips from the end of the
    author. *)
Definition blank (c : ascii) : bool := (Ascii.eqb c " " || Ascii.eqb c ".")%bool.

Definition is_period (c : ascii) : bool := Ascii.eqb c ".".

Lemma app_nil_string (s : string) : s +:+ EmptyString = s.
Proof.
  induction s as [|c s IH]; [reflexivity|].
  change (String c (s +:+ EmptyString) = String c s). rewrite IH. reflexivity.
Qed.

Lemma last_char_cons (c : ascii) (s : string) :
  last_char (String c s) = match last_char s with Some d => Some d | None => Some c end.
Proof.
  cbn [last_char]. destruct s as [|d s]; [reflexivity|].
  destruct (last_char (String d s)) eqn:E; [reflexivity|].
  exfalso. revert d E. induction s as [|d' s IH]; intros d E; [discriminate|].
  cbn [last_char] in E. exact (IH d' E).
Qed.

Lemma last_char_app (p a : string) :
  last_char (p +:+ a)
  = match last_char a with Some c => Some c | None => last_char p end.
Proof.
  induction p as [|c p IH].
  - change (EmptyString +:+ a) with a. destruct (last_char a); reflexivity.
  - change (String c p +:+ a) with (String c (p +:+ a)).
    rewrite !last_char_cons, IH. destruct (last_char a); reflexivity.
Qed.

Lemma last_char_none (s : string) : last_char s = None -> s = EmptyString.
Proof.
  induction s as [|c s IH]; [reflexivity|].
  cbn [last_char]. destruct s; [discriminate|]. intros E. discriminate (IH E).
Qed.

(** A string that is not empty is what [s[:-1]] leaves of it followed by its
    last character. *)
Lemma drop_last_last (s : string) (c : ascii) :
  last_char s = Some c -> s = drop_last s +:+ String c EmptyString.
Proof.
  induction s as [|d s IH]; [discriminate|].
  cbn [last_char drop_last]. destruct s as [|d' s].
  - intros [= ->]. reflexivity.
  - intros E. change (String d (String d' s)
                      = String d (drop_last (String d' s) +:+ String c EmptyString)).
    rewrite <- (IH E). reflexivity.
Qed.

Lemma length_drop_last (s : string) :
  String.length (drop_last s) = (String.length s - 1)%nat.
Proof.
  induction s as [|d s IH]; [reflexivity|].
  cbn [drop_last]. destruct s as [|d' s]; [reflexivity|].
  change (S (String.length (drop_last (String d' s))) = (S (S (String.length s)) - 1)%nat).
  rewrite IH. simpl. lia.
Qed.

Lemma string_forall_app (p : ascii -> bool) (a b : string) :
  string_forall p (a +:+ b) = (string_forall p a && string_forall p b)%bool.
Proof.
  induction a as [|c a IH]; [reflexivity|].
  change (p c && string_forall p (a +:+ b)
          = (p c && string_forall p a) && string_forall p b)%bool.
  rewrite IH, andb_assoc. reflexivity.
Qed.

(** What the loop of [construct_file_name] leaves: the name without the
    periods at its end. *)
Lemma strip_dots_run (fuel : nat) (name : string) :
  (String.length name <= fuel)%nat ->
  ends_with_char "." (strip_dots fuel name) = false /\
  exists dots,
    string_forall is_period dots = true /\
    name = strip_dots fuel name +:+ dots.
Proof.
  revert name. induction fuel as [|fuel IH]; intros name Hlen.
  - destruct name; [|simpl in Hlen; lia]. split; [reflexivity|].
    exists EmptyString. split; reflexivity.
  - cbn [strip_dots]. destruct (ends_with_char "." name) eqn:E.
    + unfold ends_with_char in E.
      destruct (last_char name) as [c|] eqn:El; [|discriminate].
      apply Ascii.eqb_eq in E. subst c.
      pose proof (drop_last_last name _ El) as Hn.
      destruct (IH (drop_last name)) as (Hend & dots & Hd & Hs).
      { rewrite length_drop_last. destruct name; simpl in *; lia. }
      split; [exact Hend|]. exists (dots +:+ ".").
      split.
      * rewrite string_forall_app, Hd. reflexivity.
      * rewrite Hn at 1. rewrite Hs at 1.
        apply FilesFacts.string_app_assoc.
    + split; [exact E|]. exists EmptyString. split; [reflexivity|].
      symmetry. apply app_nil_string.
Qed.

Lemma strip_dots_app (fuel : nat) (p a : string) :
  ends_with_char "." p = false -> p <> EmptyString ->
  strip_dots fuel (p +:+ a) = p +:+ strip_dots fuel a.
Proof.
  intros Hp Hne. revert a. induction fuel as [|fuel IH]; intros a.
  - cbn [strip_dots].
    assert (He : ends_with_char "." (p +:+ a) = ends_with_char "." a).
    { unfold ends_with_char. rewrite last_char_app.
      destruct (last_char a) as [c|] eqn:El; [reflexivity|].
      exact Hp. }
    rewrite He. destruct (ends_with_char "." a); reflexivity.
  - cbn [strip_dots].
    assert (He : ends_with_char "." (p +:+ a) = ends_with_char "." a).
    { unfold ends_with_char. rewrite last_char_app.
      destruct (last_char a) as [c|] eqn:El; [reflexivity|].
      exact Hp. }
    rewrite He. destruct (ends_with_char "." a) eqn:Ea; [|reflexivity].
    unfold ends_with_char in Ea.
    destruct (last_char a) as [c|] eqn:El; [|discriminate].
    rewrite <- IH. f_equal.
    rewrite (drop_last_last a c El) at 1.
    rewrite <- FilesFacts.string_app_assoc.
    generalize (p +:+ drop_last a). intros q. clear.
    induction q as [|d q IHq]; [reflexivity|].
    change (drop_last (String d (q +:+ String c EmptyString)) = String d q).
    cbn [drop_last]. destruct (q +:+ String c EmptyString) eqn:E.
    + destruct q; discriminate.
    + rewrite IHq. reflexivity.
Qed.

Section Names.
Context `{Platform}.

(** X8.  [construct_file_name] returns the sanitised title, the three
    characters space, hyphen, space, and the sanitised author without the
    periods at its end: the name never ends with a period, only the author
    part can lose characters, and the book id plays no part. *)
Theorem construct_file_name_no_final_period (book_id : Z) (title author : string) :
  ends_with_char "." (construct_file_name book_id title author) = false /\
  exists a dots,
    construct_file_name book_id title author
    = take PATH_LIMIT (ascii_filename title) +:+ " - " +:+ a /\
    take PATH_LIMIT (ascii_filename author) = a +:+ dots /\
    string_forall is_period dots = true /\
    ends_with_char "." a = false.
Proof.
  unfold construct_file_name.
  set (t := take PATH_LIMIT (ascii_filename title)).
  set (a0 := take PATH_LIMIT (ascii_filename author)).
  assert (Hname : t +:+ " - " +:+ a0 = (t +:+ " - ") +:+ a0).
  { rewrite FilesFacts.string_app_assoc. reflexivity. }
  assert (Hp : ends_with_char "." (t +:+ " - ") = false).
  { unfold ends_with_char. rewrite last_char_app. reflexivity. }
  assert (Hne : t +:+ " - " <> EmptyString) by (destruct t; discriminate).
  rewrite Hname, (strip_dots_app _ _ _ Hp Hne).
  destruct (strip_dots_run (String.length ((t +:+ " - ") +:+ a0)) a0)
    as (Hend & dots & Hd & Hs).
  { rewrite string_length_app. lia. }
  split.
  - unfold ends_with_char. rewrite last_char_app.
    unfold ends_with_char in Hend.
    destruct (last_char (strip_dots _ a0)); [exact Hend|exact Hp].
  - exists (strip_dots (String.length ((t +:+ " - ") +:+ a0)) a0), dots.
    split; [apply FilesFacts.string_app_assoc|]. auto.
Qed.

(** What the loop of [construct_path_name] does to the author. *)
Lemma strip_author_run (fuel : nat) (author : string) :
  (String.length author <= fuel)%nat ->
  (string_forall blank author = true /\ strip_author fuel author = Raise IndexError) \/
  (exists a rest c,
     strip_author fuel author = Return a /\
     author = a +:+ rest /\ string_forall blank rest = true /\
     last_char a = Some c /\ blank c = false).
Proof.
  revert author. induction fuel as [|fuel IH]; intros author Hlen.
  - destruct author; [|simpl in Hlen; lia]. left. split; reflexivity.
  - cbn [strip_author]. destruct (last_char author) as [c|] eqn:El.
    + fold (blank c). destruct (blank c) eqn:Eb.
      * pose proof (drop_last_last author c El) as Hn.
        destruct (IH (drop_last author)) as [[Hall Hr]|(a & rest & c' & Hr & Ha & Hrest & Hl & Hc)].
        { rewrite length_drop_last. destruct author; simpl in *; lia. }
        -- left. split; [|exact Hr]. rewrite Hn, string_forall_app, Hall.
           cbn [string_forall]. rewrite Eb. reflexivity.
        -- right. exists a, (rest +:+ String c EmptyString), c'.
           split; [exact Hr|]. split; [|split; [|auto]].
           ++ rewrite Hn at 1. rewrite Ha at 1. apply FilesFacts.string_app_assoc.
           ++ rewrite string_forall_app, Hrest. cbn [string_forall].
              rewrite Eb. reflexivity.
      * right. exists author, EmptyString, c. split; [reflexivity|].
        split; [symmetry; apply app_nil_string|]. auto.
    + left. apply last_char_none in El. subst author. split; reflexivity.
Qed.

(** X9.  What [construct_path_name] does with the author.  When every
    character of the sanitised author is a space or a period (so also when
    it is empty) the call raises [IndexError].  Otherwise it returns
    author/title (id) with the sanitised author cut after its last
    character that is neither a space nor a period.  The fallback to the
    folder name 'Unknown' is never taken. *)
Theorem construct_path_name_outcome (book_id : Z) (title author : string) :
  let author' := take PATH_LIMIT (ascii_filename author) in
  let title' := take PATH_LIMIT (ascii_filename title) in
  (string_forall blank author' = true /\
   construct_path_name book_id title author = Raise IndexError) \/
  (exists a rest c,
     construct_path_name book_id title author
     = Return (a +:+ "/" +:+ title' +:+ " (" +:+ str book_id +:+ ")") /\
     author' = a +:+ rest /\ string_forall blank rest = true /\
     last_char a = Some c /\ blank c = false).
Proof.
  intros author' title'. unfold construct_path_name. fold author' title'.
  destruct (strip_author_run (String.length author') author' (Nat.le_refl _))
    as [[Hall Hr]|(a & rest & c & Hr & Ha & Hrest & Hl & Hc)].
  - left. rewrite Hr. auto.
  - right. exists a, rest, c. rewrite Hr.
    assert (Hne : nonempty a = true) by (destruct a; [discriminate|reflexivity]).
    rewrite Hne. auto.
Qed.

End Names.

(** *** [custom_table_names] *)

Import CustomColumns.

(** X10.  [custom_table_names] gives different custom columns different
    tables: the name of the value table and the name of the link table each
    determine the number of the column, no value table has the name of a
    link table, and the names begin as the patterns of [custom_tables]
    ask. *)
Theorem custom_table_names_distinct (n m : Z) :
  (fst (custom_table_names n) = fst (custom_table_names m) -> n = m) /\
  (snd (custom_table_names n) = snd (custom_table_names m) -> n = m) /\
  fst (custom_table_names n) <> snd (custom_table_names m) /\
  String.prefix "custom_column_" (fst (custom_table_names n)) = true /\
  String.prefix "books_custom_column_" (snd (custom_table_names n)) = true.
Proof.
  unfold custom_table_names. cbn [fst snd]. split; [|split; [|split; [|split]]].
  - intros E. repeat (injection E as E). apply str_inj, E.
  - intros E. repeat (injection E as E).
    change (str n +:+ "_link" = str m +:+ "_link") in E.
    apply string_app_inv_tail in E. apply str_inj, E.
  - intros E. discriminate.
  - apply FilesFacts.prefix_app, FilesFacts.prefix_refl.
  - apply FilesFacts.prefix_app, FilesFacts.prefix_refl.
Qed.

End NamesMoreFacts.

(** ** More on field slots *)

Module SlotsFacts.
Import FieldSlots FieldSlotsFacts.

(** The slots 0 to [base] are in use, each by one key, and no other slot
    is. *)
Definition dense (m : gmap fm_key Z) (base : Z) : Prop :=
  -1 <= base /\
  (forall k v, m !! k = Some v -> 0 <= v <= base) /\
  (forall k1 k2 v, m !! k1 = Some v -> m !! k2 = Some v -> k1 = k2) /\
  (forall v, 0 <= v <= base -> exists k, m !! k = Some v).

Lemma dense_empty : dense ∅ (-1).
Proof.
  split; [lia|]. split; [|split].
  - intros k v Hk. rewrite lookup_empty in Hk. discriminate.
  - intros k1 k2 v Hk. rewrite lookup_empty in Hk. discriminate.
  - intros v Hv. lia.
Qed.

Lemma dense_insert (m : gmap fm_key Z) (base : Z) (k : fm_key) :
  dense m base -> m !! k = None -> dense (<[k := base + 1]> m) (base + 1).
Proof.
  intros (Hb & Hr & Hi & Hs) Hk. split; [lia|]. split; [|split].
  - intros k' v. destruct (decide (k = k')) as [->|Hne].
    + rewrite lookup_insert_eq. intros [= <-]. lia.
    + rewrite lookup_insert_ne by exact Hne. intros Hv. apply Hr in Hv. lia.
  - intros k1 k2 v.
    destruct (decide (k = k1)) as [E1|H1], (decide (k = k2)) as [E2|H2];
      subst; rewrite ?lookup_insert_eq, ?lookup_insert_ne by assumption.
    + reflexivity.
    + intros [= <-] Hv. apply Hr in Hv. lia.
    + intros Hv [= <-]. apply Hr in Hv. lia.
    + apply Hi.
  - intros v Hv. destruct (decide (v = base + 1)) as [->|Hne].
    + exists k. apply lookup_insert_eq.
    + destruct (Hs v ltac:(lia)) as (k' & Hk'). exists k'.
      rewrite lookup_insert_ne by congruence. exact Hk'.
Qed.

Lemma dense_builtin (ri : gmap (string * bool) Z) :
  dense (ls_map (st_builtin ri)) (ls_base (st_builtin ri)).
Proof.
  unfold st_builtin. cbn [ls_map ls_base]. rewrite max_slot_builtin.
  unfold builtin_slots. cbn [foldl fst snd].
  repeat match goal with
         | |- dense (<[?k := ?v]> ?m) _ =>
             apply (dense_insert m (v - 1) k); [|vm_compute; reflexivity]
         end.
  exact dense_empty.
Qed.

Lemma builtin_no_custom_key (ri : gmap (string * bool) Z) (n : Z) :
  ls_map (st_builtin ri) !! KNum n = None /\
  ls_map (st_builtin ri) !! KStr (str n +:+ "_index") = None.
Proof.
  unfold st_builtin. cbn [ls_map]. unfold builtin_slots. cbn [foldl fst snd].
  split.
  - rewrite !lookup_insert_ne by discriminate. apply lookup_empty.
  - destruct (str_head n) as (c & s & Es & Hc). rewrite Es.
    change (String c s +:+ "_index") with (String c (s +:+ "_index")).
    rewrite !lookup_insert_ne
      by (intros [= E _]; subst c; discriminate Hc).
    apply lookup_empty.
Qed.

Lemma custom_step_dense (st : loop_state) (l : string) (d : custom_column) :
  ls_map st !! KNum (num d) = None ->
  ls_map st !! KStr (str (num d) +:+ "_index") = None ->
  dense (ls_map st) (ls_base st) ->
  dense (ls_map (custom_step st (l, d))) (ls_base (custom_step st (l, d))).
Proof.
  intros H1 H2 Hd. unfold custom_step.
  destruct (String.eqb (datatype d) "series"); cbn [ls_map ls_base].
  - apply dense_insert; [apply dense_insert; assumption|].
    rewrite lookup_insert_ne by discriminate. exact H2.
  - apply dense_insert; assumption.
Qed.

Lemma custom_loop_dense (cols : list (string * custom_column)) (st : loop_state) :
  NoDup (map (fun item => num (snd item)) cols) ->
  (forall item, item ∈ cols ->
     ls_map st !! KNum (num (snd item)) = None /\
     ls_map st !! KStr (str (num (snd item)) +:+ "_index") = None) ->
  dense (ls_map st) (ls_base st) ->
  dense (ls_map (foldl custom_step st cols)) (ls_base (foldl custom_step st cols)).
Proof.
  revert st. induction cols as [|[l d] cols IH]; intros st Hnd Hfresh Hd.
  - exact Hd.
  - cbn [foldl]. cbn [map snd] in Hnd. apply NoDup_cons in Hnd as [Hn Hnd].
    destruct (Hfresh (l, d) ltac:(left)) as [F1 F2].
    apply IH; [exact Hnd| |apply custom_step_dense; assumption].
    intros item Hitem. destruct (Hfresh item ltac:(right; exact Hitem)) as [G1 G2].
    assert (Hne : num (snd item) <> num d).
    { intros E. apply Hn. rewrite <- E.
      apply list_elem_of_In, in_map_iff. exists item.
      split; [reflexivity|apply list_elem_of_In, Hitem]. }
    rewrite !custom_step_other; cbn [snd]; try discriminate; try congruence.
    + auto.
    + intros [= E]. apply string_app_inv_tail, str_inj in E. contradiction.
Qed.

Lemma trailing_step_dense (st : loop_state) (k : string) :
  ls_map st !! KStr k = None ->
  dense (ls_map st) (ls_base st) ->
  dense (ls_map (trailing_step st k)) (ls_base (trailing_step st k)).
Proof. intros Hk Hd. unfold trailing_step. cbn [ls_map ls_base]. apply dense_insert; assumption. Qed.

Lemma loop_no_name (ri : gmap (string * bool) Z) (cols : list (string * custom_column))
  (c : ascii) (s : string) :
  numeral_char c = false ->
  ls_map (st_builtin ri) !! KStr (String c s) = None ->
  ls_map (foldl custom_step (st_builtin ri) cols) !! KStr (String c s) = None.
Proof.
  intros Hc H0. rewrite custom_loop_other; [exact H0|].
  apply name_not_custom_key, Hc.
Qed.

Lemma final_state_dense (ri : gmap (string * bool) Z)
  (cols : list (string * custom_column)) :
  NoDup (map (fun item => num (snd item)) cols) ->
  dense (ls_map (final_state ri cols)) (24 + slots_used cols).
Proof.
  intros Hnd.
  assert (Hloop : dense (ls_map (foldl custom_step (st_builtin ri) cols))
                        (ls_base (foldl custom_step (st_builtin ri) cols))).
  { apply custom_loop_dense; [exact Hnd| |apply dense_builtin].
    intros item _. apply builtin_no_custom_key. }
  assert (Hbase : ls_base (final_state ri cols) = 24 + slots_used cols).
  { unfold final_state, trailing_step. cbn [foldl ls_base].
    rewrite custom_loop_base. cbn [ls_base st_builtin].
    rewrite max_slot_builtin. lia. }
  rewrite <- Hbase. unfold final_state. cbn [foldl].
  set (s1 := foldl custom_step (st_builtin ri) cols) in *.
  assert (H1 : ls_map s1 !! KStr "ondevice" = None)
    by (apply loop_no_name; [reflexivity|vm_compute; reflexivity]).
  assert (H2 : ls_map s1 !! KStr "marked" = None)
    by (apply loop_no_name; [reflexivity|vm_compute; reflexivity]).
  assert (H3 : ls_map s1 !! KStr "series_sort" = None)
    by (apply loop_no_name; [reflexivity|vm_compute; reflexivity]).
  apply trailing_step_dense; [|apply trailing_step_dense; [|apply trailing_step_dense]].
  - unfold trailing_step. cbn [ls_map].
    rewrite !lookup_insert_ne by discriminate. exact H3.
  - unfold trailing_step. cbn [ls_map].
    rewrite !lookup_insert_ne by discriminate. exact H2.
  - exact H1.
  - exact Hloop.
Qed.

(** X11.  When the custom columns have distinct numbers, [FIELD_MAP] as
    [initialize_tables] leaves it uses the slots 0 to 24 plus the number of
    custom slots, each of them for exactly one key: no two fields share a
    slot and no slot in between stays free. *)
Theorem FIELD_MAP_slots_dense (self : DB) :
  NoDup (map (fun item => num (snd item)) (custom_column_label_map self)) ->
  let fm := FIELD_MAP (initialize_tables self) in
  let last := 24 + slots_used (custom_column_label_map self) in
  (forall k v, fm !! k = Some v -> 0 <= v <= last) /\
  (forall k1 k2 v, fm !! k1 = Some v -> fm !! k2 = Some v -> k1 = k2) /\
  (forall v, 0 <= v <= last -> exists k, fm !! k = Some v).
Proof.
  intros Hnd fm last.
  destruct (initialize_tables_final self) as (ri & _ & Hm).
  unfold fm. rewrite Hm.
  destruct (final_state_dense ri (custom_column_label_map self) Hnd)
    as (_ & Hr & Hi & Hs).
  auto.
Qed.

Lemma FIELD_MAP_slots_dense_witness :
  exists k, FIELD_MAP (initialize_tables (fresh sample_columns)) !! k = Some 24.
Proof.
  assert (Hnd : NoDup (map (fun item => num (snd item))
                           (custom_column_label_map (fresh sample_columns))))
    by (apply (bool_decide_unpack _); vm_compute; reflexivity).
  apply (proj2 (proj2 (FIELD_MAP_slots_dense (fresh sample_columns) Hnd)) 24).
  vm_compute. split; discriminate.
Defined.

(** *** Tables of built-in fields *)

Lemma custom_step_tables (st : loop_state) (item : string * custom_column)
  (c : ascii) (s : string) :
  c <> "#"%char ->
  ls_tables (custom_step st item) !! String c s = ls_tables st !! String c s.
Proof.
  intros Hc. destruct item as [l d]. unfold custom_step, custom_field_prefix.
  assert (Hk : forall t : string, "#" +:+ t <> String c s)
    by (intros t [= E]; congruence).
  assert (Hk' : forall t : string, ("#" +:+ t) +:+ "_index" <> String c s)
    by (intros t [= E]; congruence).
  destruct (String.eqb (datatype d) "series"), (normalized d), (is_multiple d),
    (String.eqb (datatype d) "composite"); cbn [ls_tables];
    rewrite ?lookup_insert_ne by (apply Hk || apply Hk'); reflexivity.
Qed.

Lemma custom_loop_tables (cols : list (string * custom_column)) (st : loop_state)
  (c : ascii) (s : string) :
  c <> "#"%char ->
  ls_tables (foldl custom_step st cols) !! String c s = ls_tables st !! String c s.
Proof.
  intros Hc. revert st. induction cols as [|item cols IH]; intros st.
  - reflexivity.
  - cbn [foldl]. rewrite IH. apply custom_step_tables, Hc.
Qed.

(** X12.  The tables of built-in fields are not touched by custom columns:
    every key of [tables] that does not begin with [#] holds after
    [initialize_tables] what the built-in part of the method put there,
    whatever the custom columns are called. *)
Theorem tables_builtin_untouched (self : DB) (c : ascii) (s : string) :
  c <> "#"%char ->
  tables (initialize_tables self) !! String c s = builtin_tables !! String c s.
Proof.
  intros Hc. destruct (initialize_tables_final self) as (ri & Ht & _).
  rewrite Ht. unfold final_state, trailing_step. cbn [foldl ls_tables].
  rewrite custom_loop_tables by exact Hc. reflexivity.
Qed.

Lemma tables_builtin_untouched_witness :
  tables (initialize_tables (fresh [("path", text_column "path" 1)])) !! "path"
  = Some PathTable.
Proof.
  rewrite (tables_builtin_untouched (fresh [("path", text_column "path" 1)])
             "p" "ath" ltac:(discriminate)).
  vm_compute. reflexivity.
Defined.

End SlotsFacts.

(** ** More on files and folders *)

Module FilesMoreFacts.
Import Files FilesFacts FilesInUse.

Lemma emits_weaken (P Q : action -> Prop) {A : Type} (m : M world A) :
  (forall a, P a -> Q a) -> emits P m -> emits Q m.
Proof.
  intros Hpq Hm w. destruct (Hm w) as (evs & Hl & Hf). exists evs.
  split; [exact Hl|]. eapply Forall_impl; [exact Hf|].
  intros [q b|a r|l r|r a]; simpl; auto.
Qed.

Lemma quiet_weaken (P Q : action -> Prop) {A : Type} (m : M world A) :
  (forall a, P a -> Q a) -> quiet P m -> quiet Q m.
Proof. intros Hpq [He Hk]. split; [eapply emits_weaken; eauto|exact Hk]. Qed.

(** Every value [m] returns satisfies [Q]. *)
Definition yields {S A : Type} (Q : A -> Prop) (m : M S A) : Prop :=
  forall s a, fst (m s) = Return a -> Q a.

Lemma yields_ret {S A : Type} (Q : A -> Prop) (a : A) :
  Q a -> yields (S := S) Q (ret a).
Proof. intros Ha s a' [= <-]. exact Ha. Qed.

Lemma yields_raise {S A : Type} (Q : A -> Prop) (e : exn) :
  yields (S := S) Q (raise e).
Proof. intros s a E. discriminate. Qed.

Lemma yields_bind {S A B : Type} (Q : B -> Prop) (m : M S A) (k : A -> M S B) :
  (forall a, yields Q (k a)) -> yields Q (bind m k).
Proof.
  intros Hk s b. unfold bind. destruct (m s) as [[a|e] s1]; [apply Hk|discriminate].
Qed.

(** Case analysis on the answer of the operating system to a call. *)
Ltac answer :=
  match goal with
  | |- context [on_query ?e ?c ?q] => destruct (on_query e c q) eqn:?
  | |- context [on_action ?e ?c ?a] => destruct (on_action e c a) eqn:?
  | |- context [on_listing ?e ?c ?l] => destruct (on_listing e c l) as [?|[|? ?]] eqn:?
  | |- context [on_reading ?e ?c ?r] => destruct (on_reading e c r) eqn:?
  end.

Section Methods.
Context `{Platform}.

(** *** [format_abspath] *)

(** The path at which [format_abspath] expects the file of a format. *)
Definition expected_path (self : DB) (fmt fname path : string) : string :=
  os_path_join (os_path_join (library_path self) path)
    (fname +:+ (if nonempty fmt then "." +:+ lower fmt else EmptyString)).

(** X13.  [format_abspath] returns no path but the expected one,
    library/path/fname.fmt.  It changes no stored path or stem, and the
    only change it can make to the file system is one copy: when the
    expected file does not exist, the first file of the folder with the
    extension of the format is copied to the expected path - so even
    [has_format] may create a file.  When the expected file exists, one
    question to the operating system settles the call; and for an empty
    format nothing is ever copied. *)
Theorem format_abspath_only_copies (self : DB) (book_id : Z) (fmt fname path : string) :
  let fmt_path := expected_path self fmt fname path in
  quiet (fun a => exists first, a = shutil_copyfile first fmt_path)
        (format_abspath self book_id fmt fname path) /\
  (forall w found,
     fst (format_abspath self book_id fmt fname path w) = Return (Some found) ->
     found = fmt_path) /\
  (forall w,
     on_query (env w) (clock w) (os_path_exists fmt_path) = true ->
     format_abspath self book_id fmt fname path w
     = (Return (Some fmt_path), logged (EvQuery (os_path_exists fmt_path) true) w)) /\
  (fmt = EmptyString ->
   quiet (fun _ => False) (format_abspath self book_id fmt fname path)).
Proof.
  intros fmt_path. split; [|split; [|split]].
  - unfold format_abspath. fold (expected_path self fmt fname path). fold fmt_path.
    apply quiet_bind; [apply quiet_ask|intros found].
    destruct found; [apply quiet_ret|].
    apply quiet_bind; [apply quiet_attempt, quiet_list_names|intros globbed].
    destruct (nonempty fmt); [|apply quiet_ret].
    destruct (match globbed with Return l => l | Raise _ => [] end) as [|first rest];
      [apply quiet_ret|].
    apply quiet_bind; [apply quiet_ask|intros there].
    destruct there; [|apply quiet_ret].
    apply quiet_bind; [apply quiet_act; eauto|intros _; apply quiet_ret].
  - assert (Hy : yields (fun r => forall found, r = Some found -> found = fmt_path)
                        (format_abspath self book_id fmt fname path)).
    { unfold format_abspath. fold (expected_path self fmt fname path). fold fmt_path.
      apply yields_bind. intros found.
      destruct found; [apply yields_ret; intros ? [= <-]; reflexivity|].
      apply yields_bind. intros globbed.
      destruct (nonempty _); [|apply yields_ret; discriminate].
      destruct (match globbed with Return l => l | Raise _ => [] end) as [|first rest];
        [apply yields_ret; discriminate|].
      apply yields_bind. intros there.
      destruct there; [|apply yields_ret; discriminate].
      apply yields_bind. intros _. apply yields_ret. intros ? [= <-]. reflexivity. }
    intros w found Hr. exact (Hy w _ Hr found eq_refl).
  - intros w Hq. unfold format_abspath.
    fold (expected_path self fmt fname path). fold fmt_path.
    unfold bind, ask. rewrite Hq. reflexivity.
  - intros ->. unfold format_abspath. cbn [nonempty].
    apply quiet_bind; [apply quiet_ask|intros found].
    destruct found; [apply quiet_ret|].
    apply quiet_bind; [apply quiet_attempt, quiet_list_names|intros globbed].
    apply quiet_ret.
Qed.

(** *** [copy_format_to] and [copy_cover_to] *)

Lemma yields_hardlink_or (Q : bool -> Prop) (use_hardlink : bool) (path dest : string)
  (otherwise : M world bool) :
  Q true -> yields Q otherwise -> yields Q (hardlink_or use_hardlink path dest otherwise).
Proof.
  intros Ht Ho. unfold hardlink_or. destruct use_hardlink; [|exact Ho].
  apply yields_bind. intros [u|e]; [apply yields_ret, Ht|exact Ho].
Qed.

Ltac yields_true :=
  repeat first
    [ apply yields_ret; reflexivity
    | apply yields_raise
    | apply yields_hardlink_or; [reflexivity|]
    | apply yields_bind; intros ?
    | match goal with
      | |- yields _ (if ?b then _ else _) => destruct b
      | |- yields _ (match ?x with _ => _ end) => destruct x
      end ].

(** What [copy_format_to] does once the file of the format is found at
    [found]. *)
Definition copy_found (self : DB) (found : string) (dest : destination)
  (windows_atomic_move use_hardlink : bool) : M world bool :=
  if windows_atomic_move
  then match dest with
       | to_stream _ => raise (Exception wam_message)
       | to_path d =>
           if nonempty d
           then let* same := ask (samefile d found) in
                if same
                then let* _ := when (negb (String.eqb found d))
                                    (rename_quietly found d) in
                     ret true
                else let* _ := act (wam_copy_path_to found d) in ret true
           else ret true
       end
  else match dest with
       | to_stream flushable =>
           let* f := read (lopen_rb found) in
           let* _ := act (shutil_copyfileobj f dest) in
           let* _ := when flushable (act stream_flush) in
           ret true
       | to_path d =>
           if nonempty d
           then let* same := ask (samefile d found) in
                if same
                then let* _ := when (negb (is_case_sensitive self)
                                     && negb (String.eqb found d))
                                    (rename_quietly found d) in
                     ret true
                else hardlink_or use_hardlink found d
                       (let* f := read (lopen_rb found) in
                        let* _ := act (lopen_wb d) in
                        let* _ := act (shutil_copyfileobj f dest) in
                        ret true)
           else ret true
       end.

Lemma copy_format_to_run (self : DB) (book_id : Z) (fmt fname path : string)
  (dest : destination) (windows_atomic_move use_hardlink : bool) (w : world) :
  copy_format_to self book_id fmt fname path dest windows_atomic_move use_hardlink w
  = match format_abspath self book_id fmt fname path w with
    | (Return (Some found), w1) =>
        copy_found self found dest windows_atomic_move use_hardlink w1
    | (Return None, w1) => (Return false, w1)
    | (Raise e, w1) => (Raise e, w1)
    end.
Proof.
  unfold copy_format_to. unfold bind at 1.
  destruct (format_abspath self book_id fmt fname path w) as [[[found|]|e] w1];
    reflexivity.
Qed.

Lemma copy_found_true (self : DB) (found : string) (dest : destination)
  (windows_atomic_move use_hardlink : bool) :
  yields (fun b => b = true)
         (copy_found self found dest windows_atomic_move use_hardlink).
Proof. unfold copy_found. yields_true. Qed.

(** X14.  [copy_format_to] returns [False] exactly when [format_abspath]
    finds no file for the format, and then it does nothing beyond that
    search.  [True] does not always mean that bytes were copied: for an
    empty destination path the call returns [True] once the file is found
    and does nothing else. *)
Theorem copy_format_to_false_iff_missing (self : DB) (book_id : Z)
  (fmt fname path : string) (dest : destination)
  (windows_atomic_move use_hardlink : bool) (w : world) :
  (fst (copy_format_to self book_id fmt fname path dest windows_atomic_move
          use_hardlink w) = Return false
   <-> fst (format_abspath self book_id fmt fname path w) = Return None) /\
  (fst (format_abspath self book_id fmt fname path w) = Return None ->
   snd (copy_format_to self book_id fmt fname path dest windows_atomic_move
          use_hardlink w)
   = snd (format_abspath self book_id fmt fname path w)) /\
  (forall found,
     fst (format_abspath self book_id fmt fname path w) = Return (Some found) ->
     dest = to_path EmptyString ->
     copy_format_to self book_id fmt fname path dest windows_atomic_move
       use_hardlink w
     = (Return true, snd (format_abspath self book_id fmt fname path w))).
Proof.
  rewrite !copy_format_to_run.
  destruct (format_abspath self book_id fmt fname path w) as [[[found|]|e] w1];
    cbn [fst snd].
  - split; [|split].
    + split; [|discriminate]. intros Hr.
      discriminate (copy_found_true _ _ _ _ _ w1 false Hr).
    + discriminate.
    + intros found' _ ->. unfold copy_found.
      destruct windows_atomic_move; reflexivity.
  - split; [|split]; [split; reflexivity|reflexivity|discriminate].
  - split; [|split]; [split; discriminate|discriminate|discriminate].
Qed.

(** A copy to [dest] that went through. *)
Definition copy_done (dest : destination) (ev : event) : Prop :=
  match ev with
  | EvAction (wam_copy_path_to _ d) None => dest = to_path d
  | EvAction (hardlink_file _ d) None => dest = to_path d
  | EvAction (shutil_copyfileobj _ d) None => d = dest
  | _ => False
  end.

(** An event that changes no file: a question, a listing, a read, or the
    pause before the second attempt to open the cover. *)
Definition harmless (ev : event) : Prop :=
  match ev with
  | EvAction a _ => a = time_sleep
  | _ => True
  end.

(** X15.  The result of [copy_cover_to] tells whether the cover was
    copied: when it returns [True], a copy to the destination (through the
    folder move of Windows, as a hard link, or byte by byte) has gone
    through; when it returns [False], for want of a readable cover.jpg or
    of a destination other than the cover itself, nothing was written at
    all. *)
Theorem copy_cover_to_result (self : DB) (path : string) (dest : destination)
  (windows_atomic_move use_hardlink : bool) (w : world) :
  exists evs,
    log (snd (copy_cover_to self path dest windows_atomic_move use_hardlink w))
    = (log w ++ evs)%list /\
    (fst (copy_cover_to self path dest windows_atomic_move use_hardlink w)
     = Return true -> Exists (copy_done dest) evs) /\
    (fst (copy_cover_to self path dest windows_atomic_move use_hardlink w)
     = Return false -> Forall harmless evs).
Proof.
  unfold copy_cover_to, hardlink_or, bind, attempt, when, ask, act, read, ret, raise.
  destruct windows_atomic_move, dest as [flushable|[|c d]], use_hardlink;
    try destruct flushable; cbn [nonempty andb];
    repeat (answer; cbn [andb fst snd logged env clock log]);
    (eexists; split;
     [rewrite <- ?app_assoc; try reflexivity; rewrite app_nil_r; reflexivity
     |split; intros Hr;
      [first [discriminate Hr
             |repeat first [apply Exists_cons_hd; reflexivity | apply Exists_cons_tl]]
      |first [discriminate Hr | repeat constructor]]]).
Qed.

(** *** [windows_check_if_files_in_use] *)

(** Runs of events in which every folder move that was opened is closed by
    the very next call, and a folder move that could not be opened ends the
    run. *)
Inductive paired : list event -> Prop :=
| paired_nil : paired []
| paired_query q b evs : paired evs -> paired (EvQuery q b :: evs)
| paired_open p r evs :
    paired evs ->
    paired (EvAction (wam_open p) None :: EvAction wam_close_handles r :: evs)
| paired_refused p e : paired [EvAction (wam_open p) (Some e)].

Definition check_in_use (self : DB) (path : string) : M world unit :=
  let spath := join_all (library_path self) (split_on "/" path) in
  let* there := ask (os_path_exists spath) in
  when there (open_and_close spath).

Lemma in_use_step (self : DB) (path : string) (w : world) :
  exists evs,
    log (snd (check_in_use self path w)) = (log w ++ evs)%list /\
    match fst (check_in_use self path w) with
    | Return _ => forall rest, paired rest -> paired (evs ++ rest)
    | Raise _ => paired evs
    end.
Proof.
  unfold check_in_use, bind, ask. cbv zeta.
  destruct (on_query (env w) (clock w) _) eqn:Eq; cbn [when].
  - unfold open_and_close, bind, attempt, act.
    cbn [env clock logged fst snd].
    destruct (on_action (env w) (S (clock w)) _) eqn:Eo.
    + eexists. split; [cbn; rewrite <- app_assoc; reflexivity|].
      cbn. apply paired_query, paired_refused.
    + cbn [env clock logged fst snd].
      destruct (on_action (env w) (S (S (clock w))) wam_close_handles) eqn:Ec.
      * eexists. split; [cbn; rewrite <- !app_assoc; reflexivity|].
        cbn. apply paired_query, paired_open, paired_nil.
      * eexists. split; [cbn; rewrite <- !app_assoc; reflexivity|].
        cbn. intros rest Hr. apply paired_query, paired_open, Hr.
  - eexists. split; [cbn; reflexivity|].
    cbn. intros rest Hr. apply paired_query, Hr.
Qed.

Lemma in_use_loop (self : DB) (paths : list string) (w : world) :
  exists evs,
    log (snd (for_each paths (check_in_use self) w)) = (log w ++ evs)%list /\
    paired evs.
Proof.
  revert w. induction paths as [|path paths IH]; intros w.
  - exists []. cbn. rewrite app_nil_r. split; [reflexivity|constructor].
  - cbn [for_each]. unfold bind.
    destruct (in_use_step self path w) as (evs & Hl & Hp).
    destruct (check_in_use self path w) as [[[]|e] w1]; cbn [fst snd] in *.
    + destruct (IH w1) as (rest & Hlr & Hpr).
      exists (evs ++ rest)%list. rewrite Hlr, Hl, <- app_assoc.
      split; [reflexivity|apply Hp, Hpr].
    + exists evs. split; assumption.
Qed.

(** X16.  [windows_check_if_files_in_use] does nothing at all on a platform
    other than Windows.  On Windows it asks for each folder whether it
    exists and opens a folder move for those that do; every folder move it
    has opened is closed by its very next call, so no handle is left open,
    and a folder move that cannot be opened ends the check with the
    exception.  No stored path or stem is changed. *)
Theorem windows_check_closes_handles (self : DB) (paths : list string) (w : world) :
  (iswindows = false ->
   windows_check_if_files_in_use self paths w = (Return tt, w)) /\
  (exists evs,
     log (snd (windows_check_if_files_in_use self paths w)) = (log w ++ evs)%list /\
     paired evs) /\
  same_tables w (snd (windows_check_if_files_in_use self paths w)).
Proof.
  unfold windows_check_if_files_in_use. split; [|split].
  - intros ->. reflexivity.
  - destruct iswindows; cbn [when].
    + apply (in_use_loop self paths w).
    + exists []. cbn. rewrite app_nil_r. split; [reflexivity|constructor].
  - apply (quiet_same_tables (fun _ => True)). apply quiet_when, quiet_for_each.
    intros path. apply quiet_bind; [apply quiet_ask|intros there].
    apply quiet_when. unfold open_and_close.
    apply quiet_bind; [apply quiet_attempt, quiet_act; exact I|intros opened].
    destruct opened; [apply quiet_act; exact I|apply quiet_raise].
Qed.

(** *** [remove_books] *)

(** An event other than the deletion of rows from the table of books. *)
Definition keeps_rows (ev : event) : Prop :=
  match ev with
  | EvAction (conn_delete_books _) _ => False
  | _ => True
  end.

Definition folder_action (a : action) : Prop :=
  match a with conn_delete_books _ => False | _ => True end.

Lemma remove_books_folders (self : DB) (paths : list (Z * string)) (permanent : bool) :
  emits folder_action
    (for_each paths (fun item =>
       when (nonempty (snd item))
         (let path := os_path_join (library_path self) (snd item) in
          let* there := ask (os_path_exists path) in
          when there
            (let* _ := rmtree self path permanent in
             let parent := os_path_dirname path in
             let* names := list_names (os_listdir parent) in
             match names with
             | [] => rmtree self parent permanent
             | _ :: _ => ret tt
             end)))).
Proof.
  assert (Hrm : forall p, quiet folder_action (rmtree self p permanent)).
  { intros p. unfold rmtree. destruct (negb _); [apply quiet_act; exact I|apply quiet_ret]. }
  apply emits_for_each. intros item. apply quiet_emits, quiet_when.
  apply quiet_bind; [apply quiet_ask|intros there]. apply quiet_when.
  apply quiet_bind; [apply Hrm|intros _].
  apply quiet_bind; [apply quiet_list_names|intros names].
  destruct names; [apply Hrm|apply quiet_ret].
Qed.

(** X17.  [remove_books] deletes the rows of the books last, in one
    statement that names every book of [path_map] (those without a folder
    too), and only when the removal of the folders has raised nothing: a
    run that returns ends with that statement, and a run that raises has
    either not reached it or was refused by the database at it. *)
Theorem remove_books_rows_last (self : DB) (paths : list (Z * string))
  (permanent : bool) (w : world) :
  exists evs,
    log (snd (remove_books self paths permanent w)) = (log w ++ evs)%list /\
    (fst (remove_books self paths permanent w) = Return tt ->
     exists pre,
       evs = (pre ++ [EvAction (conn_delete_books (map fst paths)) None])%list /\
       Forall keeps_rows pre) /\
    (forall e, fst (remove_books self paths permanent w) = Raise e ->
       Forall keeps_rows evs \/
       exists pre err,
         evs = (pre ++ [EvAction (conn_delete_books (map fst paths)) (Some err)])%list /\
         Forall keeps_rows pre).
Proof.
  unfold remove_books, bind.
  destruct (remove_books_folders self paths permanent w) as (pre & Hl & Hpre).
  assert (Hk : Forall keeps_rows pre).
  { eapply Forall_impl; [exact Hpre|]. intros [q b|a r|l r|r a]; simpl; auto. }
  destruct (for_each paths _ w) as [[[]|e] w1]; cbn [snd] in Hl.
  - unfold act. destruct (on_action (env w1) (clock w1) _) as [err|] eqn:Ea;
      cbn [fst snd logged log]; rewrite Hl; eexists;
      (split; [rewrite <- app_assoc; reflexivity|]).
    + split; [discriminate|]. intros e _. right. eauto.
    + split; [eauto|discriminate].
  - exists pre. cbn [fst snd]. split; [exact Hl|].
    split; [discriminate|]. intros e' _. left. exact Hk.
Qed.

(** *** [update_path] and the handles of the folder move *)

(** After the handles are closed [update_path] only renames folders. *)
Definition after_close (ev : event) : Prop :=
  match ev with
  | EvAction (os_rename _ _) _ => True
  | EvAction _ _ => False
  | _ => True
  end.

Definition is_rename (a : action) : Prop :=
  match a with os_rename _ _ => True | _ => False end.

Lemma emits_body (self : DB) (book_id : Z) (p : plan) :
  emits (fun _ => True)
    (let* _ := make_target p in
     let* _ := migrate_files self book_id p in
     let* _ := update_db book_id p in
     delete_source self p).
Proof.
  apply emits_bind; [apply quiet_emits, quiet_make_target; intros; exact I|intros _].
  apply emits_bind; [apply quiet_emits, quiet_migrate_files; intros; exact I|intros _].
  apply emits_bind;
    [apply (emits_weaken (guarded self)); [intros; exact I|apply emits_update_db]
    |intros _].
  apply (emits_weaken (guarded self)); [intros; exact I|].
  apply quiet_emits, quiet_delete_source.
Qed.

(** X18.  Whenever [update_path] has opened a folder move (which it does
    on Windows for a source folder that exists), it closes its handles:
    the call to [close_handles] is made whether the migration returns or
    raises, and after it [update_path] does nothing but rename folders. *)
Theorem update_path_closes_handles (self : DB) (book_id : Z) (title author : string)
  (w w1 : world) (p : plan) :
  update_path_plan self book_id title author w = (Return (Some p), w1) ->
  wam p = true ->
  exists pre r post,
    log (snd (update_path self book_id title author w))
    = (log w1 ++ pre ++ EvAction wam_close_handles r :: post)%list /\
    Forall after_close post.
Proof.
  intros Hplan Hwam. unfold update_path. unfold bind at 1. rewrite Hplan.
  unfold bind at 1. unfold try_finally. rewrite Hwam. cbn [when].
  destruct (emits_body self book_id p w1) as (pre & Hl & _).
  destruct ((let* _ := make_target p in
             let* _ := migrate_files self book_id p in
             let* _ := update_db book_id p in
             delete_source self p) w1) as [r s1].
  cbn [snd] in Hl. unfold act at 1.
  destruct (on_action (env s1) (clock s1) wam_close_handles) as [err|] eqn:Ec.
  - exists pre, (Some err), []. cbn [snd logged log]. rewrite Hl, <- app_assoc.
    split; [reflexivity|constructor].
  - destruct r as [[]|e].
    + destruct (quiet_fix_case is_rename self p ltac:(intros; exact I)) as [Hf _].
      destruct (Hf (logged (EvAction wam_close_handles None) s1)) as (post & Hlp & Hpost).
      exists pre, None, post. rewrite Hlp. cbn [logged log]. rewrite Hl, <- !app_assoc.
      split; [reflexivity|].
      eapply Forall_impl; [exact Hpost|]. intros [q b|a r|l r|r a]; simpl; auto.
    + exists pre, None, []. cbn [snd logged log]. rewrite Hl, <- app_assoc.
      split; [reflexivity|constructor].
Qed.

End Methods.




Import Sample.

(** The sample platform with the Windows code paths switched on. *)
Definition windows : Platform := {|
  iswindows := true;
  ascii_filename := sample_ascii_filename;
  Unknown := "Unknown";
  os_sep := "/";
  os_path_join := posix_join;
  os_path_dirname := posix_dirname;
  os_path_abspath := fun p => p;
  os_path_realpath := fun p => p;
  os_path_normcase := fun p => p;
  SPOOL_SIZE := 4%positive;
  sha256_hexdigest := sample_digest
|}.

Lemma update_path_closes_handles_witness :
  exists pre r post,
    log (snd (@update_path windows library 7 "Foo" "Bar"
                (start full 7 "Old/Foo (7)" [("EPUB", "Old")])))
    = (log (snd (@update_path_plan windows library 7 "Foo" "Bar"
                   (start full 7 "Old/Foo (7)" [("EPUB", "Old")])))
       ++ pre ++ EvAction wam_close_handles r :: post)%list /\
    Forall after_close post.
Proof.
  eapply (@update_path_closes_handles windows library 7 "Foo" "Bar"
            (start full 7 "Old/Foo (7)" [("EPUB", "Old")])).
  - apply run_eta. vm_compute. reflexivity.
  - reflexivity.
Defined.

End FilesMoreFacts.

(** ** The test server *)

Module TestHTTPServerFacts.
Import TestHTTPServer.

(** The handler after further calls on the connection. *)
Definition recorded (self : handler) (calls : list (call * bool)) : handler :=
  {| path := path self; headers := headers self; fs := fs self;
     broken := broken self; wfile := (wfile self ++ calls)%list |}.

(** The handler after the calls [cs], all of which went through. *)
Definition sent (self : handler) (cs : list call) : handler :=
  recorded self (map (fun c => (c, true)) cs).

(** The connection holds: no call on it raises. *)
Definition holds (self : handler) : Prop := forall n, broken self n = false.

(** The chunks of a body put together. *)
Definition joined (chunks : list string) : string := foldr append EmptyString chunks.

(** The response [send_file] sends for a range it has settled on. *)
Definition reply (rtype start_range end_range size : Z) (mimetype last_modified : string) :
  list call :=
  [send_response rtype;
   send_header "Accept-Ranges" "bytes";
   send_header "Content-Range"
     ("bytes " +:+ str start_range +:+ "-" +:+ str (end_range - 1) +:+ "/" +:+ str size);
   send_header "Content-Type" mimetype;
   send_header "Content-Length" (str (end_range - start_range));
   send_header "Last-Modified" last_modified;
   end_headers].

Lemma recorded_nil (self : handler) : recorded self [] = self.
Proof. destruct self. unfold recorded. simpl. rewrite app_nil_r. reflexivity. Qed.

Lemma recorded_app (self : handler) (a b : list (call * bool)) :
  recorded (recorded self a) b = recorded self (a ++ b).
Proof. unfold recorded. simpl. rewrite app_assoc. reflexivity. Qed.

Lemma sent_nil (self : handler) : sent self [] = self.
Proof. apply recorded_nil. Qed.

Lemma sent_app (self : handler) (a b : list call) :
  sent (sent self a) b = sent self (a ++ b).
Proof. unfold sent. rewrite recorded_app, map_app. reflexivity. Qed.

Lemma holds_recorded (self : handler) (calls : list (call * bool)) :
  holds self -> holds (recorded self calls).
Proof. intros Hh n. exact (Hh n). Qed.

Lemma emit_recorded (c : call) (self : handler) :
  exists ok, snd (emit c self) = recorded self [(c, ok)] /\
             fst (emit c self) = (if ok then Return tt else Raise IOError).
Proof.
  unfold emit. exists (negb (broken self (length (wfile self)))). simpl.
  split; [reflexivity|]. destruct (broken self _); reflexivity.
Qed.

Lemma emit_holds (c : call) (self : handler) :
  holds self -> emit c self = (Return tt, sent self [c]).
Proof. intros Hh. unfold emit. rewrite Hh. reflexivity. Qed.

Lemma bind_emit {A : Type} (c : call) (k : unit -> M handler A) (self : handler) :
  holds self -> bind (emit c) k self = k tt (sent self [c]).
Proof. intros Hh. unfold bind. rewrite emit_holds by exact Hh. reflexivity. Qed.

(** *** Strings *)

Lemma split_once_dash (s e : string) :
  contains_char "-" s = false -> split_once "-" (s +:+ "-" +:+ e) = [s; e].
Proof.
  induction s as [|c s IH]; intros Hs; [reflexivity|].
  cbn [contains_char] in Hs. apply orb_false_iff in Hs as [Hc Hs].
  change (split_once "-" (String c (s +:+ "-" +:+ e)) = [String c s; e]).
  cbn [split_once]. rewrite Ascii.eqb_sym, Hc, (IH Hs). reflexivity.
Qed.

Lemma split_once_plain (v : string) :
  contains_char "-" v = false -> split_once "-" v = [v].
Proof.
  induction v as [|c v IH]; intros Hv; [reflexivity|].
  cbn [contains_char] in Hv. apply orb_false_iff in Hv as [Hc Hv].
  cbn [split_once]. rewrite Ascii.eqb_sym, Hc, (IH Hv). reflexivity.
Qed.

Lemma drop_drop (a b : nat) (s : string) :
  Files.drop (a + b) s = Files.drop b (Files.drop a s).
Proof.
  revert s. induction a as [|a IH]; intros s; [reflexivity|].
  destruct s as [|c s]; simpl; [destruct b; reflexivity|apply IH].
Qed.

Lemma take_nil (n : nat) : Files.take n EmptyString = EmptyString.
Proof. destruct n; reflexivity. Qed.

Lemma drop_all (n : nat) (s : string) :
  (String.length s <= n)%nat -> Files.drop n s = EmptyString.
Proof.
  revert s. induction n as [|n IH]; intros [|c s] Hl; simpl in *;
    try reflexivity; try lia.
  apply IH. lia.
Qed.

Lemma take_whole (n : nat) (s : string) :
  (String.length s <= n)%nat -> Files.take n s = s.
Proof.
  revert s. induction n as [|n IH]; intros [|c s] Hl; simpl in *;
    try reflexivity; try lia.
  rewrite IH by lia. reflexivity.
Qed.

Lemma take_add (a b : nat) (s : string) :
  Files.take (a + b) s = Files.take a s +:+ Files.take b (Files.drop a s).
Proof.
  revert s. induction a as [|a IH]; intros s; [reflexivity|].
  destruct s as [|c s]; simpl; [rewrite take_nil; reflexivity|].
  rewrite IH. reflexivity.
Qed.

(** One turn of the loop of [do_GET] on what is left of the file: the
    chunk read and what the later turns read make up the bytes asked for. *)
Lemma take_step (c n : nat) (x : string) :
  (c <= n)%nat ->
  Files.take c x
  +:+ Files.take (n - c) (Files.drop (String.length (Files.take c x)) x)
  = Files.take n x.
Proof.
  intros Hcn. rewrite FilesFacts.length_take.
  destruct (Nat.le_gt_cases c (String.length x)) as [Hl|Hl].
  - rewrite Nat.min_l by exact Hl.
    replace n with (c + (n - c))%nat at 2 by lia. symmetry. apply take_add.
  - rewrite Nat.min_r by lia.
    rewrite (drop_all (String.length x) x) by lia. rewrite take_nil.
    rewrite !take_whole by lia.
    clear. induction x as [|a x IH]; [reflexivity|].
    change (String a (x +:+ EmptyString) = String a x). rewrite IH. reflexivity.
Qed.

Lemma prefix_cons_app (a x y : string) :
  String.prefix x y = true -> String.prefix (a +:+ x) (a +:+ y) = true.
Proof.
  intros Hp. induction a as [|c a IH]; [exact Hp|].
  change (String.prefix (String c (a +:+ x)) (String c (a +:+ y)) = true).
  simpl. destruct (ascii_dec c c); [exact IH|congruence].
Qed.

Lemma joined_app (a b : list string) : joined (a ++ b) = joined a +:+ joined b.
Proof.
  induction a as [|x a IH]; [reflexivity|].
  change (x +:+ joined (a ++ b) = (x +:+ joined a) +:+ joined b).
  rewrite IH, FilesFacts.string_app_assoc. reflexivity.
Qed.

Section Methods.
Context `{Library}.

(** *** [parse_range_header] and [send_file] *)

Lemma send_file_reply (self : handler) (f : stream) (mimetype : string)
  (mtime rtype start_range end_range : Z) :
  holds self ->
  parse_range_header self (Z.of_nat (String.length (data f)))
  = Return (rtype, start_range, end_range) ->
  send_file f mimetype mtime self
  = let size := Z.of_nat (String.length (data f)) in
    let end_range := if (end_range <=? start_range)%Z then size else end_range in
    (Return (Some f, start_range, end_range),
     sent self (reply rtype start_range end_range size mimetype
                      (date_time_string mtime))).
Proof.
  intros Hh Hp. unfold send_file. rewrite Hp. cbv zeta.
  repeat (rewrite bind_emit; [|repeat apply holds_recorded; exact Hh]).
  unfold ret. rewrite !sent_app. reflexivity.
Qed.

Lemma send_file_raises (self : handler) (f : stream) (mimetype : string)
  (mtime : Z) (e : exn) :
  parse_range_header self (Z.of_nat (String.length (data f))) = Raise e ->
  send_file f mimetype mtime self = (Raise e, self).
Proof. intros Hp. unfold send_file. rewrite Hp. reflexivity. Qed.

(** X19.  A [Range] header that names a first position.  After the first
    six characters of the header, which are not looked at, the text up to
    the first [-] is read as the first position [a].  When nothing follows
    the [-], or the last position [b] that follows lies before [a], the
    reply runs from [a] to the end of the file; otherwise it runs from [a]
    to [b], and [b] is not compared with the size of the file.  The status
    is 206 and Content-Length is the last position plus one minus [a]. *)
Theorem send_file_from_position (self : handler) (f : stream)
  (mimetype : string) (mtime a : Z) (v s e : string) :
  holds self ->
  header "Range" self = Some v ->
  Files.drop 6 v = s +:+ "-" +:+ e ->
  contains_char "-" s = false ->
  Files.nonempty s = true ->
  py_int s = Return a ->
  0 <= a ->
  let size := Z.of_nat (String.length (data f)) in
  (e = EmptyString ->
   send_file f mimetype mtime self
   = (Return (Some f, a, size),
      sent self (reply 206 a size size mimetype (date_time_string mtime)))) /\
  (forall b, Files.nonempty e = true -> py_int e = Return b ->
     send_file f mimetype mtime self
     = let end_range := if (b <? a)%Z then size else b + 1 in
       (Return (Some f, a, end_range),
        sent self (reply 206 a end_range size mimetype (date_time_string mtime)))).
Proof.
  intros Hh Hv Hd Hs Hne Ha Hpos size. split.
  - intros ->.
    assert (Hp : parse_range_header self size = Return (206, a, -1)).
    { unfold parse_range_header. rewrite Hv, Hd, (split_once_dash s _ Hs), Hne, Ha.
      reflexivity. }
    rewrite (send_file_reply self f mimetype mtime _ _ _ Hh Hp). cbv zeta.
    fold size. destruct (Z.leb_spec (-1) a); [reflexivity|lia].
  - intros b Hb Hbi.
    assert (Hp : parse_range_header self size = Return (206, a, b + 1)).
    { unfold parse_range_header.
      rewrite Hv, Hd, (split_once_dash s _ Hs), Hne, Ha, Hb, Hbi. reflexivity. }
    rewrite (send_file_reply self f mimetype mtime _ _ _ Hh Hp). cbv zeta.
    fold size.
    destruct (Z.leb_spec (b + 1) a), (Z.ltb_spec b a); try lia; reflexivity.
Qed.

(** X20.  A [Range] header that names only a number [n] of last bytes
    (nothing before the [-]).  The reply always ends with the file; it
    starts [n] bytes before the end when [n] is below the size of the file
    and at the first byte otherwise, and the status is 206 in both
    cases. *)
Theorem send_file_last_bytes (self : handler) (f : stream)
  (mimetype : string) (mtime n : Z) (v e : string) :
  holds self ->
  header "Range" self = Some v ->
  Files.drop 6 v = "-" +:+ e ->
  Files.nonempty e = true ->
  py_int e = Return n ->
  let size := Z.of_nat (String.length (data f)) in
  let start_range := if (n <? size)%Z then size - n else 0 in
  send_file f mimetype mtime self
  = (Return (Some f, start_range, size),
     sent self (reply 206 start_range size size mimetype (date_time_string mtime))).
Proof.
  intros Hh Hv Hd Hne Hn size start_range.
  assert (Hp : parse_range_header self size = Return (206, start_range, -1)).
  { unfold parse_range_header.
    rewrite Hv, Hd. change ("-" +:+ e) with (EmptyString +:+ "-" +:+ e).
    rewrite (split_once_dash EmptyString e eq_refl). cbn [Files.nonempty].
    rewrite Hne, Hn. reflexivity. }
  rewrite (send_file_reply self f mimetype mtime _ _ _ Hh Hp). cbv zeta.
  fold size. replace (-1 <=? start_range)%Z with true; [reflexivity|].
  symmetry. apply Z.leb_le. unfold start_range.
  destruct (Z.ltb_spec n size); lia.
Qed.

(** *** What [send_head] leaves of the handler *)

Lemma bind_recorded {A B : Type} (m : M handler A) (k : A -> M handler B) :
  (forall self, exists calls, snd (m self) = recorded self calls) ->
  (forall a self, exists calls, snd (k a self) = recorded self calls) ->
  forall self, exists calls, snd (bind m k self) = recorded self calls.
Proof.
  intros Hm Hk self. unfold bind. destruct (Hm self) as (c1 & E1).
  destruct (m self) as [[a|e] s1]; simpl in E1; subst s1.
  - destruct (Hk a (recorded self c1)) as (c2 & E2). exists (c1 ++ c2)%list.
    rewrite E2. apply recorded_app.
  - exists c1. reflexivity.
Qed.

Lemma emit_adds (c : call) (self : handler) :
  exists calls, snd (emit c self) = recorded self calls.
Proof. destruct (emit_recorded c self) as (ok & E & _). eauto. Qed.

Lemma ret_adds {A : Type} (a : A) (self : handler) :
  exists calls, snd (ret a self) = recorded self calls.
Proof. exists []. symmetry. apply recorded_nil. Qed.

Lemma raise_adds {A : Type} (e : exn) (self : handler) :
  exists calls, snd (raise (A := A) e self) = recorded self calls.
Proof. exists []. symmetry. apply recorded_nil. Qed.

Ltac adds :=
  repeat first
    [ apply emit_adds | apply ret_adds | apply raise_adds
    | apply bind_recorded; [intros ?|intros ? ?] ].

Lemma send_file_adds (f : stream) (mimetype : string) (mtime : Z) (self : handler) :
  exists calls, snd (send_file f mimetype mtime self) = recorded self calls.
Proof.
  unfold send_file.
  destruct (parse_range_header self _) as [[[rtype s] e]|ex].
  - revert self. adds.
  - exists []. symmetry. apply recorded_nil.
Qed.

Lemma send_path_adds (p : string) (self : handler) :
  exists calls, snd (send_path p self) = recorded self calls.
Proof.
  unfold send_path. destruct (open_rb (fs self) p) as [[content mtime]|].
  - apply send_file_adds.
  - revert self. adds.
Qed.

Lemma send_head_adds (self : handler) :
  exists calls, snd (send_head self) = recorded self calls.
Proof.
  unfold send_head. destruct (String.eqb (path self) "/favicon.ico").
  - apply send_file_adds.
  - destruct (isdir (fs self) _); [|apply send_path_adds].
    destruct (negb _).
    + generalize (path self +:+ "/"). intros loc. revert self. adds.
    + destruct (find_index self _); [apply send_path_adds|].
      generalize (translate_path (path self)) at 1. intros p.
      destruct (listing (fs self) _); revert self; adds.
Qed.

(** *** The loop of [do_GET] *)

(** What the loop of [do_GET] does from position [pos] on with [n] bytes
    still to send: the chunks that went through, each of at most [chunk]
    bytes, and perhaps a last call that failed.  When no call failed the
    chunks make up the next [n] bytes of the file; in any case they are the
    beginning of these. *)
Lemma send_chunks_run (fuel : nat) (f : stream) (pos : nat)
  (start_range end_range chunk : Z) (self : handler) :
  1 <= chunk ->
  (Z.to_nat (end_range - start_range) <= fuel)%nat ->
  exists chunks failed,
    send_chunks fuel f pos start_range end_range chunk self
    = (Return tt, recorded (sent self (map wfile_write chunks)) failed) /\
    Forall (fun raw => Z.of_nat (String.length raw) <= chunk) chunks /\
    String.prefix (joined chunks)
      (Files.take (Z.to_nat (end_range - start_range)) (Files.drop pos (data f)))
    = true /\
    (failed = [] /\
     joined chunks
     = Files.take (Z.to_nat (end_range - start_range)) (Files.drop pos (data f))
     \/ exists raw, failed = [(wfile_write raw, false)]) /\
    (holds self -> failed = []).
Proof.
  revert pos start_range chunk self.
  induction fuel as [|fuel IH]; intros pos start_range chunk self Hc Hfuel.
  - exists [], []. cbn [send_chunks].
    assert (Hz : end_range - start_range <= 0) by lia.
    destruct (Z.gtb_spec (start_range + chunk) end_range); [|lia].
    destruct (Z.ltb_spec (end_range - start_range) 1); [|lia].
    replace (Z.to_nat (end_range - start_range)) with 0%nat by lia.
    unfold ret. cbn [map]. rewrite sent_nil, recorded_nil.
    repeat split; auto; apply FilesFacts.prefix_nil.
  - cbn [send_chunks].
    set (c := if (start_range + chunk >? end_range)%Z
              then end_range - start_range else chunk).
    destruct (Z.ltb_spec c 1) as [Hlt|Hge].
    + exists [], [].
      assert (Hz : end_range - start_range <= 0).
      { unfold c in Hlt. destruct (Z.gtb_spec (start_range + chunk) end_range); lia. }
      replace (Z.to_nat (end_range - start_range)) with 0%nat by lia.
      unfold ret. cbn [map]. rewrite sent_nil, recorded_nil.
      repeat split; auto; apply FilesFacts.prefix_nil.
    + assert (Hcn : c <= end_range - start_range /\ c <= chunk).
      { unfold c in *. destruct (Z.gtb_spec (start_range + chunk) end_range); lia. }
      destruct Hcn as [Hcn Hcc].
      set (x := Files.drop pos (data f)).
      set (raw := read f pos c).
      assert (Hraw : raw = Files.take (Z.to_nat c) x) by reflexivity.
      assert (Hstep : raw +:+ Files.take (Z.to_nat (end_range - (start_range + c)))
                                (Files.drop (pos + String.length raw) (data f))
                      = Files.take (Z.to_nat (end_range - start_range)) x).
      { rewrite drop_drop. fold x. rewrite Hraw.
        replace (Z.to_nat (end_range - (start_range + c)))
          with (Z.to_nat (end_range - start_range) - Z.to_nat c)%nat by lia.
        apply take_step. lia. }
      unfold bind, attempt, emit.
      destruct (broken self (length (wfile self))) eqn:Eb; cbn [negb].
      * exists [], [(wfile_write raw, false)]. unfold ret. cbn [map].
        rewrite sent_nil. split; [reflexivity|]. split; [constructor|].
        split; [apply FilesFacts.prefix_nil|]. split; [right; eauto|].
        intros Hh. rewrite Hh in Eb. discriminate.
      * change {| path := path self; headers := headers self; fs := fs self;
                  broken := broken self;
                  wfile := (wfile self ++ [(wfile_write raw, true)])%list |}
          with (recorded self [(wfile_write raw, true)]).
        destruct (IH (pos + String.length raw)%nat (start_range + c) c
                     (recorded self [(wfile_write raw, true)]) Hge ltac:(lia))
          as (chunks & failed & Erun & Hall & Hpre & Hcase & Hhold).
        exists (raw :: chunks), failed. rewrite Erun.
        split; [|split; [|split; [|split]]].
        -- f_equal. unfold sent. rewrite !recorded_app. reflexivity.
        -- constructor; [|eapply Forall_impl; [exact Hall|]; simpl; lia].
           rewrite Hraw, FilesFacts.length_take. lia.
        -- rewrite <- Hstep. apply prefix_cons_app, Hpre.
        -- destruct Hcase as [[-> Hj]|Hf]; [left|right; exact Hf].
           split; [reflexivity|]. rewrite <- Hstep.
           change (joined (raw :: chunks)) with (raw +:+ joined chunks).
           rewrite Hj. reflexivity.
        -- intros Hh. apply Hhold. apply holds_recorded, Hh.
Qed.

(** X21.  A [Range] header with no [-] after its first six characters
    (so also a header of six characters or fewer): [send_file] raises
    [ValueError] before anything is sent, and so does [do_GET] for the icon
    and for a file that can be opened; the connection gets no reply. *)
Theorem send_file_malformed_range (self : handler) (v : string) :
  header "Range" self = Some v ->
  contains_char "-" (Files.drop 6 v) = false ->
  (forall f mimetype mtime,
     send_file f mimetype mtime self = (Raise ValueError, self)) /\
  (path self = "/favicon.ico" -> do_GET self = (Raise ValueError, self)) /\
  (forall content mtime,
     path self <> "/favicon.ico" ->
     isdir (fs self) (translate_path (path self)) = false ->
     open_rb (fs self) (translate_path (path self)) = Some (content, mtime) ->
     do_GET self = (Raise ValueError, self)).
Proof.
  intros Hv Hd.
  assert (Hp : forall size, parse_range_header self size = Raise ValueError).
  { intros size. unfold parse_range_header.
    rewrite Hv, (split_once_plain _ Hd). reflexivity. }
  assert (Hf : forall f mimetype mtime,
             send_file f mimetype mtime self = (Raise ValueError, self)).
  { intros f mimetype mtime. apply send_file_raises, Hp. }
  split; [exact Hf|]. split.
  - intros Hpath. unfold do_GET, bind, send_head. rewrite Hpath.
    cbn [String.eqb Ascii.eqb Bool.eqb]. unfold send_bytes. rewrite Hf. reflexivity.
  - intros content mtime Hpath Hdir Hopen. apply String.eqb_neq in Hpath.
    unfold do_GET, bind, send_head. rewrite Hpath, Hdir.
    unfold send_path. rewrite Hopen, Hf. reflexivity.
Qed.

(** *** [do_GET] *)

Lemma do_GET_run (self self' : handler) (f : stream) (start_range end_range : Z) :
  send_head self = (Return (Some f, start_range, end_range), self') ->
  kind f <> StringIO ->
  0 <= start_range ->
  do_GET self
  = send_chunks (Z.to_nat (end_range - start_range)) f (Z.to_nat start_range)
                start_range end_range 4096 self'.
Proof.
  intros Hs Hk Hpos. unfold do_GET. unfold bind at 1. rewrite Hs.
  unfold bind, lift, enter, seek. destruct (kind f); [| |congruence];
    (destruct (Z.ltb_spec start_range 0); [lia|reflexivity]).
Qed.

Lemma send_head_holds (self self' : handler) r :
  send_head self = (r, self') -> holds self -> holds self'.
Proof.
  intros Hs Hh. destruct (send_head_adds self) as (calls & E).
  rewrite Hs in E. simpl in E. subst self'. apply holds_recorded, Hh.
Qed.

Lemma do_GET_sends_range_aux (self self' : handler) (f : stream)
  (start_range end_range : Z) :
  holds self ->
  send_head self = (Return (Some f, start_range, end_range), self') ->
  kind f <> StringIO ->
  0 <= start_range ->
  exists chunks,
    do_GET self = (Return tt, sent self' (map wfile_write chunks)) /\
    joined chunks
    = Files.take (Z.to_nat (end_range - start_range))
                 (Files.drop (Z.to_nat start_range) (data f)).
Proof.
  intros Hh Hs Hk Hpos. rewrite (do_GET_run _ _ _ _ _ Hs Hk Hpos).
  destruct (send_chunks_run (Z.to_nat (end_range - start_range)) f
              (Z.to_nat start_range) start_range end_range 4096 self'
              ltac:(lia) ltac:(lia))
    as (chunks & failed & Erun & _ & _ & Hcase & Hhold).
  rewrite (Hhold (send_head_holds _ _ _ Hs Hh)) in *.
  destruct Hcase as [[_ Hj]|[raw Hraw]]; [|discriminate].
  exists chunks. rewrite Erun, recorded_nil. auto.
Qed.

(** X22.  When the connection holds, [do_GET] for a file of the disk or
    for the icon writes, after what [send_head] has sent, exactly the bytes
    of the file from [start_range] up to [end_range] (as far as the file
    has them), in chunks of at most 4096 bytes, and returns: the loop ends.
    For a range that lies within the file this is as many bytes as the
    Content-Length header of [send_file] announces. *)
Theorem do_GET_sends_range (self self' : handler) (f : stream)
  (start_range end_range : Z) :
  holds self ->
  send_head self = (Return (Some f, start_range, end_range), self') ->
  kind f <> StringIO ->
  0 <= start_range ->
  exists chunks,
    do_GET self = (Return tt, sent self' (map wfile_write chunks)) /\
    joined chunks
    = Files.take (Z.to_nat (end_range - start_range))
                 (Files.drop (Z.to_nat start_range) (data f)) /\
    Forall (fun raw => (String.length raw <= 4096)%nat) chunks /\
    (start_range <= end_range <= Z.of_nat (String.length (data f)) ->
     Z.of_nat (String.length (joined chunks)) = end_range - start_range).
Proof.
  intros Hh Hs Hk Hpos. rewrite (do_GET_run _ _ _ _ _ Hs Hk Hpos).
  destruct (send_chunks_run (Z.to_nat (end_range - start_range)) f
              (Z.to_nat start_range) start_range end_range 4096 self'
              ltac:(lia) ltac:(lia))
    as (chunks & failed & Erun & Hall & _ & Hcase & Hhold).
  rewrite (Hhold (send_head_holds _ _ _ Hs Hh)) in *.
  destruct Hcase as [[_ Hj]|[raw Hraw]]; [|discriminate].
  exists chunks. rewrite Erun, recorded_nil.
  split; [reflexivity|]. split; [exact Hj|]. split.
  - eapply Forall_impl; [exact Hall|]. simpl. lia.
  - intros Hin. rewrite Hj, FilesFacts.length_take, FilesFacts.length_drop. lia.
Qed.

(** X23.  Whatever the connection does, the loop of [do_GET] over a file
    of the disk or over the icon never raises: a write that fails ends it,
    nothing is written after the failed call, and the chunks that went
    through before are the beginning of the bytes asked for. *)
Theorem do_GET_stops_at_failed_write (self self' : handler) (f : stream)
  (start_range end_range : Z) :
  send_head self = (Return (Some f, start_range, end_range), self') ->
  kind f <> StringIO ->
  0 <= start_range ->
  exists chunks failed,
    do_GET self = (Return tt, recorded (sent self' (map wfile_write chunks)) failed) /\
    (failed = [] \/ exists raw, failed = [(wfile_write raw, false)]) /\
    String.prefix (joined chunks)
      (Files.take (Z.to_nat (end_range - start_range))
                  (Files.drop (Z.to_nat start_range) (data f))) = true.
Proof.
  intros Hs Hk Hpos. rewrite (do_GET_run _ _ _ _ _ Hs Hk Hpos).
  destruct (send_chunks_run (Z.to_nat (end_range - start_range)) f
              (Z.to_nat start_range) start_range end_range 4096 self'
              ltac:(lia) ltac:(lia))
    as (chunks & failed & Erun & _ & Hpre & Hcase & _).
  exists chunks, failed. split; [exact Erun|]. split; [|exact Hpre].
  destruct Hcase as [[-> _]|Hf]; [left; reflexivity|right; exact Hf].
Qed.

Lemma send_chunks_writes (f : stream) (pos : nat) (start_range end_range : Z)
  (self : handler) :
  exists writes,
    snd (send_chunks (Z.to_nat (end_range - start_range)) f pos
                     start_range end_range 4096 self)
    = recorded self writes /\
    Forall (fun cb => exists raw, fst cb = wfile_write raw) writes.
Proof.
  destruct (send_chunks_run (Z.to_nat (end_range - start_range)) f pos
              start_range end_range 4096 self ltac:(lia) ltac:(lia))
    as (chunks & failed & Erun & _ & _ & Hcase & _).
  exists (map (fun c => (c, true)) (map wfile_write chunks) ++ failed)%list.
  rewrite Erun. unfold sent. rewrite recorded_app. split; [reflexivity|].
  apply Forall_app. split.
  - clear. induction chunks as [|raw chunks IH]; constructor; [|exact IH].
    exists raw. reflexivity.
  - destruct Hcase as [[-> _]|[raw ->]]; [constructor|].
    constructor; [|constructor]. exists raw. reflexivity.
Qed.

(** X24.  [do_HEAD] makes the calls of [send_head] and no other, and
    [do_GET] makes the same calls first: all it adds are writes of the
    body, also when it raises. *)
Theorem do_HEAD_sends_the_head (self : handler) :
  exists writes,
    snd (do_HEAD self) = snd (send_head self) /\
    wfile (snd (do_GET self)) = (wfile (snd (do_HEAD self)) ++ writes)%list /\
    Forall (fun cb => exists raw, fst cb = wfile_write raw) writes.
Proof.
  unfold do_HEAD, do_GET, bind.
  destruct (send_head self) as [[[[[f|] start_range] end_range]|ex] self'].
  - unfold lift. cbn [snd].
    destruct (enter f) as [[]|e]; [|exists []; cbn [snd]; rewrite app_nil_r; auto].
    destruct (seek f start_range) as [pos|e].
    + destruct (send_chunks_writes f pos start_range end_range self')
        as (writes & E & Hw).
      exists writes. rewrite E. auto.
    + exists []. cbn [snd]. rewrite app_nil_r. auto.
  - exists []. cbn. rewrite app_nil_r. auto.
  - exists []. cbn. rewrite app_nil_r. auto.
Qed.

(** X25.  Requests that get no body.  A folder asked for without the
    final [/] is answered with status 301 and a Location header that adds
    the [/]; a path that is not a folder and cannot be opened is answered
    with the error 404.  [do_GET] then writes nothing more, and [do_HEAD]
    sends the same. *)
Theorem send_head_without_body (self : handler) :
  holds self ->
  path self <> "/favicon.ico" ->
  (isdir (fs self) (translate_path (path self)) = true ->
   Files.ends_with_char "/" (path self) = false ->
   do_GET self
   = (Return tt,
      sent self [send_response 301;
                 send_header "Location" (path self +:+ "/");
                 end_headers]) /\
   snd (do_HEAD self) = snd (do_GET self)) /\
  (isdir (fs self) (translate_path (path self)) = false ->
   open_rb (fs self) (translate_path (path self)) = None ->
   do_GET self = (Return tt, sent self [send_error 404 "File not found"]) /\
   snd (do_HEAD self) = snd (do_GET self)).
Proof.
  intros Hh Hpath. apply String.eqb_neq in Hpath. split.
  - intros Hdir Hslash.
    assert (Hs : send_head self
                 = (Return (None, 0, 0),
                    sent self [send_response 301;
                               send_header "Location" (path self +:+ "/");
                               end_headers])).
    { unfold send_head. rewrite Hpath, Hdir, Hslash. cbn [negb].
      repeat (rewrite bind_emit; [|repeat apply holds_recorded; exact Hh]).
      unfold ret. rewrite !sent_app. reflexivity. }
    unfold do_HEAD, do_GET, bind. rewrite Hs. auto.
  - intros Hdir Hopen.
    assert (Hs : send_head self
                 = (Return (None, 0, 0), sent self [send_error 404 "File not found"])).
    { unfold send_head. rewrite Hpath, Hdir. unfold send_path. rewrite Hopen.
      rewrite bind_emit by exact Hh. reflexivity. }
    unfold do_HEAD, do_GET, bind. rewrite Hs. auto.
Qed.

(** X26.  Without a [Range] header, and when the connection holds, a
    file that can be opened is sent whole: status 200, Content-Length the
    size of the file, and after the headers the content of the file, all of
    it and nothing else. *)
Theorem do_GET_whole_file (self : handler) (content : string) (mtime : Z) :
  holds self ->
  header "Range" self = None ->
  path self <> "/favicon.ico" ->
  isdir (fs self) (translate_path (path self)) = false ->
  open_rb (fs self) (translate_path (path self)) = Some (content, mtime) ->
  let size := Z.of_nat (String.length content) in
  exists chunks,
    do_GET self
    = (Return tt,
       sent self (reply 200 0 size size (guess_type (translate_path (path self)))
                        (date_time_string mtime)
                  ++ map wfile_write chunks)) /\
    joined chunks = content.
Proof.
  intros Hh Hrange Hpath Hdir Hopen size. apply String.eqb_neq in Hpath.
  set (f := {| kind := DiskFile; data := content |}).
  assert (Hs : send_head self
               = (Return (Some f, 0, size),
                  sent self (reply 200 0 size size
                                   (guess_type (translate_path (path self)))
                                   (date_time_string mtime)))).
  { unfold send_head. rewrite Hpath, Hdir. unfold send_path. rewrite Hopen.
    fold f.
    assert (Hp : parse_range_header self (Z.of_nat (String.length (data f)))
                 = Return (200, 0, -1)).
    { unfold parse_range_header. rewrite Hrange. reflexivity. }
    rewrite (send_file_reply self f _ mtime _ _ _ Hh Hp). reflexivity. }
  destruct (do_GET_sends_range_aux self _ f 0 size Hh Hs ltac:(discriminate) ltac:(lia))
    as (chunks & Erun & Hj).
  exists chunks. rewrite Erun, sent_app. split; [reflexivity|].
  rewrite Hj. replace (size - 0) with size by lia. unfold size.
  rewrite Nat2Z.id. apply take_whole. reflexivity.
Qed.

(** X27.  A folder asked for with its final [/] that holds neither
    index.html nor index.htm.  [send_head] lets [list_directory] send the
    page and does not look at the [Range] header; [do_HEAD] returns.
    [do_GET] raises [AttributeError] at [with f:], because the file object
    of the page is no context manager, and writes nothing of the page.
    Where [list_directory] returns [None], both raise [AttributeError] at
    [f.seek]. *)
Theorem do_GET_directory_listing (self : handler) :
  path self <> "/favicon.ico" ->
  isdir (fs self) (translate_path (path self)) = true ->
  Files.ends_with_char "/" (path self) = true ->
  find_index self (translate_path (path self)) = None ->
  holds self ->
  let after := sent self [list_directory_reply (translate_path (path self))] in
  (forall page,
     listing (fs self) (translate_path (path self)) = Some page ->
     send_head self
     = (Return (Some {| kind := StringIO; data := page |}, 0,
                Z.of_nat (String.length page)), after) /\
     do_HEAD self = (Return tt, after) /\
     do_GET self = (Raise (Exception "AttributeError"), after)) /\
  (listing (fs self) (translate_path (path self)) = None ->
   do_HEAD self = (Raise (Exception "AttributeError"), after) /\
   do_GET self = (Raise (Exception "AttributeError"), after)).
Proof.
  intros Hpath Hdir Hslash Hindex Hh after. apply String.eqb_neq in Hpath.
  assert (Hs : send_head self
               = (match listing (fs self) (translate_path (path self)) with
                  | None => Raise (Exception "AttributeError")
                  | Some page =>
                      Return (Some {| kind := StringIO; data := page |}, 0,
                              Z.of_nat (String.length page))
                  end, after)).
  { unfold send_head. rewrite Hpath, Hdir, Hslash, Hindex. cbn [negb].
    rewrite (bind_emit _ _ _ Hh).
    destruct (listing (fs self) (translate_path (path self))); reflexivity. }
  split.
  - intros page Hl. rewrite Hl in Hs.
    split; [exact Hs|].
    unfold do_HEAD, do_GET, bind. rewrite Hs. split; reflexivity.
  - intros Hl. rewrite Hl in Hs.
    unfold do_HEAD, do_GET, bind. rewrite Hs. split; reflexivity.
Qed.

End Methods.

(** A library of simple stand-ins, and a site with one file of eleven
    bytes and one folder. *)
Definition sample_int (s : string) : result Z :=
  match NilZero.int_of_string s with
  | Some d => Return (Z.of_int d)
  | None => Raise ValueError
  end.

#[export] Instance sample_library : Library := {|
  py_int := sample_int;
  date_time_string := fun t => "day " +:+ str t;
  translate_path := fun p => "/srv" +:+ p;
  guess_type := fun _ => "text/plain";
  os_path_join := Sample.posix_join
|}.

Definition sample_site : site :=
  {| isdir := fun p => String.eqb p "/srv/docs";
     exists_ := fun _ => false;
     open_rb := fun p => if String.eqb p "/srv/a.txt"
                         then Some ("hello world", 7) else None;
     listing := fun _ => None |}.

Definition sample_file : stream := {| kind := DiskFile; data := "hello world" |}.

Lemma request_holds (s : site) (p : string) (range : option string) :
  holds (request s p range).
Proof. intros n. reflexivity. Qed.

Lemma handler_run_eta {S A : Type} (m : M S A) (s : S) (r : result A) :
  fst (m s) = r -> m s = (r, snd (m s)).
Proof. intros <-. destruct (m s). reflexivity. Qed.

Lemma send_file_from_position_witness :
  send_file sample_file "text/plain" 7
            (request sample_site "/a.txt" (Some "bytes=2-5"))
  = (Return (Some sample_file, 2, 6),
     sent (request sample_site "/a.txt" (Some "bytes=2-5"))
          (reply 206 2 6 11 "text/plain" "day 7")).
Proof.
  exact (proj2 (send_file_from_position
                  (request sample_site "/a.txt" (Some "bytes=2-5"))
                  sample_file "text/plain" 7 2 "bytes=2-5" "2" "5"
                  (request_holds _ _ _) eq_refl eq_refl eq_refl eq_refl eq_refl
                  ltac:(discriminate))
               5 eq_refl eq_refl).
Defined.

Lemma send_file_last_bytes_witness :
  send_file sample_file "text/plain" 7
            (request sample_site "/a.txt" (Some "bytes=-4"))
  = (Return (Some sample_file, 7, 11),
     sent (request sample_site "/a.txt" (Some "bytes=-4"))
          (reply 206 7 11 11 "text/plain" "day 7")).
Proof.
  exact (send_file_last_bytes
           (request sample_site "/a.txt" (Some "bytes=-4"))
           sample_file "text/plain" 7 4 "bytes=-4" "4"
           (request_holds _ _ _) eq_refl eq_refl eq_refl eq_refl).
Defined.

Lemma send_file_malformed_range_witness :
  do_GET (request sample_site "/a.txt" (Some "bytes=5"))
  = (Raise ValueError, request sample_site "/a.txt" (Some "bytes=5")).
Proof.
  refine (proj2 (proj2 (send_file_malformed_range
                          (request sample_site "/a.txt" (Some "bytes=5"))
                          "bytes=5" eq_refl eq_refl))
                "hello world" 7 _ eq_refl eq_refl).
  discriminate.
Defined.

Lemma do_GET_sends_range_witness :
  exists chunks,
    do_GET (request sample_site "/a.txt" (Some "bytes=2-5"))
    = (Return tt,
       sent (snd (send_head (request sample_site "/a.txt" (Some "bytes=2-5"))))
            (map wfile_write chunks)) /\
    joined chunks = "llo ".
Proof.
  destruct (do_GET_sends_range
              (request sample_site "/a.txt" (Some "bytes=2-5"))
              (snd (send_head (request sample_site "/a.txt" (Some "bytes=2-5"))))
              sample_file 2 6 (request_holds _ _ _)
              (handler_run_eta (@send_head sample_library)
                 (request sample_site "/a.txt" (Some "bytes=2-5"))
                 (Return (Some sample_file, 2, 6)) ltac:(vm_compute; reflexivity))
              ltac:(discriminate) ltac:(discriminate))
    as (chunks & Erun & Hj & _).
  exists chunks. split; [exact Erun|exact Hj].
Defined.

(** The same request on a connection that breaks at the eighth call, the
    first write of the body. *)
Definition broken_request : handler :=
  {| path := "/a.txt"; headers := {["range" := "bytes=2-5"]}; fs := sample_site;
     broken := fun n => Nat.eqb n 7; wfile := [] |}.

Lemma do_GET_stops_at_failed_write_witness :
  exists chunks failed,
    do_GET broken_request
    = (Return tt,
       recorded (sent (snd (send_head broken_request)) (map wfile_write chunks)) failed) /\
    (failed = [] \/ exists raw, failed = [(wfile_write raw, false)]).
Proof.
  destruct (do_GET_stops_at_failed_write broken_request
              (snd (send_head broken_request)) sample_file 2 6
              (handler_run_eta (@send_head sample_library) broken_request
                 (Return (Some sample_file, 2, 6)) ltac:(vm_compute; reflexivity))
              ltac:(discriminate) ltac:(discriminate))
    as (chunks & failed & Erun & Hf & _).
  exists chunks, failed. split; [exact Erun|exact Hf].
Defined.

Lemma send_head_without_body_witness :
  do_GET (request sample_site "/docs" None)
  = (Return tt,
     sent (request sample_site "/docs" None)
          [send_response 301; send_header "Location" "/docs/"; end_headers]) /\
  do_GET (request sample_site "/none" None)
  = (Return tt,
     sent (request sample_site "/none" None) [send_error 404 "File not found"]).
Proof.
  split.
  - refine (proj1 (proj1 (send_head_without_body (request sample_site "/docs" None)
                            (request_holds _ _ _) _)
                         eq_refl eq_refl)).
    discriminate.
  - refine (proj1 (proj2 (send_head_without_body (request sample_site "/none" None)
                            (request_holds _ _ _) _)
                         eq_refl eq_refl)).
    discriminate.
Defined.

Lemma do_GET_whole_file_witness :
  exists chunks,
    do_GET (request sample_site "/a.txt" None)
    = (Return tt,
       sent (request sample_site "/a.txt" None)
            (reply 200 0 11 11 "text/plain" "day 7" ++ map wfile_write chunks)) /\
    joined chunks = "hello world".
Proof.
  refine (do_GET_whole_file (request sample_site "/a.txt" None) "hello world" 7
            (request_holds _ _ _) eq_refl _ eq_refl eq_refl).
  discriminate.
Defined.

(** A site with one folder that holds no index page. *)
Definition folder_site : site :=
  {| isdir := fun p => String.eqb p "/srv/docs/";
     exists_ := fun _ => false;
     open_rb := fun _ => None;
     listing := fun _ => Some "<ul></ul>" |}.

Lemma do_GET_directory_listing_witness :
  do_HEAD (request folder_site "/docs/" (Some "bytes=2-5"))
  = (Return tt,
     sent (request folder_site "/docs/" (Some "bytes=2-5"))
          [list_directory_reply "/srv/docs/"]) /\
  do_GET (request folder_site "/docs/" (Some "bytes=2-5"))
  = (Raise (Exception "AttributeError"),
     sent (request folder_site "/docs/" (Some "bytes=2-5"))
          [list_directory_reply "/srv/docs/"]).
Proof.
  refine (proj2 (proj1 (do_GET_directory_listing
                          (request folder_site "/docs/" (Some "bytes=2-5"))
                          _ eq_refl eq_refl eq_refl (request_holds _ _ _))
                       "<ul></ul>" eq_refl)).
  discriminate.
Defined.

End TestHTTPServerFacts.
